(** * nanofold: Frame algebra, Backbone Update and Invariant Point Attention

    A shallow embedding of [nanofold/model/invariant_point_attention.py]
    together with the tensor operations of torch that it calls.  A tensor is
    a shape and an element for every multi-index; an operation that torch
    rejects (a shape or dimension error) returns [None].  Floating-point
    arithmetic is idealised: elements are real numbers.  A second
    embedding of the same functions puts the tensors on a heap of storages
    with the state of the random generator, to tell a view from a new
    tensor and to state what a call leaves unchanged.

    The file also embeds the cache of alignments of
    [nanofold/preprocess/msa_runner.py] (a state of files and process
    calls, threaded through a monad), the reading of chains of
    [nanofold/mmcif.py] and the recycling loop of
    [nanofold/training/model/nanofold.py]; what these call outside of the
    sources (Bio.PDB, difflib, gzip, the jackhmmer process, the modules of
    the network) is a parameter of the embedding. *)

From Stdlib Require Import String Ascii DecimalString.
From Stdlib Require Import Reals Lra Lia List ZArith Bool Arith PeanoNat Permutation.
Import ListNotations.

(** ** The error monad of shape errors *)

Definition bind {A B : Type} (x : option A) (k : A -> option B) : option B :=
  match x with
  | Some a => k a
  | None => None
  end.

Notation "x <- e ;; k" := (bind e (fun x => k))
  (at level 61, e at next level, right associativity).

(** ** List helpers for shapes and multi-indices *)

Fixpoint insert_at {A : Type} (k : nat) (x : A) (l : list A) {struct l} : list A :=
  match l with
  | [] => [x]
  | y :: l' =>
      match k with
      | O => x :: l
      | S k' => y :: insert_at k' x l'
      end
  end.

Fixpoint remove_at {A : Type} (k : nat) (l : list A) {struct l} : list A :=
  match l with
  | [] => []
  | y :: l' =>
      match k with
      | O => l'
      | S k' => y :: remove_at k' l'
      end
  end.

Fixpoint replace_at {A : Type} (k : nat) (x : A) (l : list A) {struct l} : list A :=
  match l with
  | [] => []
  | y :: l' =>
      match k with
      | O => x :: l'
      | S k' => y :: replace_at k' x l'
      end
  end.

Definition swap_at (i j : nat) (l : list nat) : list nat :=
  map (fun k => nth (if k =? i then j else if k =? j then i else k) l 0)
      (seq 0 (length l)).

Fixpoint index_of (x : nat) (l : list nat) : nat :=
  match l with
  | [] => 0
  | y :: l' => if y =? x then 0 else S (index_of x l')
  end.

Definition numel (s : list nat) : nat := fold_right Nat.mul 1 s.

Fixpoint list_eqb (l1 l2 : list nat) : bool :=
  match l1, l2 with
  | [], [] => true
  | a :: l1', b :: l2' => (a =? b) && list_eqb l1' l2'
  | _, _ => false
  end.

Fixpoint sum_n (n : nat) (f : nat -> R) : R :=
  match n with
  | O => 0%R
  | S n' => (sum_n n' f + f n')%R
  end.

(** ** Tensors *)

Record tensor : Type := mk_tensor { shape : list nat; get : list nat -> R }.

Definition rank (t : tensor) : nat := length (shape t).

(** [idx] addresses an element of a tensor of shape [s]. *)
Definition valid (s idx : list nat) : Prop := Forall2 lt idx s.

(** Two tensors are the same tensor when they have the same shape and the
    same element at every index of that shape. *)
Definition teq (a b : tensor) : Prop :=
  shape a = shape b /\ forall idx, valid (shape a) idx -> get a idx = get b idx.

(** Two runs agree: both fail, or both return and the results are related. *)
Definition orel {A : Type} (r : A -> A -> Prop) (x y : option A) : Prop :=
  match x, y with
  | Some a, Some b => r a b
  | None, None => True
  | _, _ => False
  end.

Definition oteq : option tensor -> option tensor -> Prop := orel teq.

Definition zeros (s : list nat) : tensor := mk_tensor s (fun _ => 0%R).

(** torch's dimension wrapping: a dimension argument [d] of a tensor of rank
    [r] ranges over [-r, r-1] (a 0-dim tensor counts as rank 1). *)
Definition wrap_dim (r : nat) (d : Z) : option nat :=
  let n := Z.of_nat (Nat.max r 1) in
  if ((- n <=? d) && (d <? n))%Z
  then Some (Z.to_nat (if (d <? 0)%Z then d + n else d))
  else None.

Arguments wrap_dim : simpl never.

(** tensor.unsqueeze(d) *)
Definition unsqueeze (d : Z) (t : tensor) : option tensor :=
  k <- wrap_dim (rank t + 1) d;;
  Some (mk_tensor (insert_at k 1 (shape t)) (fun idx => get t (remove_at k idx))).

(** tensor.squeeze(d): drops dimension [d] when its size is 1. *)
Definition squeeze_dim (d : Z) (t : tensor) : option tensor :=
  k <- wrap_dim (rank t) d;;
  match nth_error (shape t) k with
  | Some 1 => Some (mk_tensor (remove_at k (shape t)) (fun idx => get t (insert_at k 0 idx)))
  | _ => Some t
  end.

(** tensor.squeeze(): drops every dimension of size 1. *)
Fixpoint squeeze_shape (s : list nat) : list nat :=
  match s with
  | [] => []
  | d :: s' => if d =? 1 then squeeze_shape s' else d :: squeeze_shape s'
  end.

Fixpoint unsqueeze_idx (s idx : list nat) : list nat :=
  match s with
  | [] => []
  | d :: s' =>
      if d =? 1 then 0 :: unsqueeze_idx s' idx
      else match idx with
           | [] => []
           | i :: idx' => i :: unsqueeze_idx s' idx'
           end
  end.

Definition squeeze (t : tensor) : tensor :=
  mk_tensor (squeeze_shape (shape t)) (fun idx => get t (unsqueeze_idx (shape t) idx)).

(** tensor.transpose(d0, d1) *)
Definition transpose (d0 d1 : Z) (t : tensor) : option tensor :=
  i <- wrap_dim (rank t) d0;;
  j <- wrap_dim (rank t) d1;;
  Some (mk_tensor (swap_at i j (shape t)) (fun idx => get t (swap_at i j idx))).

(** tensor.permute(dims): dimension [k] of the result is dimension
    [dims[k]] of the argument. *)
Definition is_permutation (dims : list nat) (r : nat) : bool :=
  (length dims =? r) && forallb (fun k => existsb (Nat.eqb k) dims) (seq 0 r).

Definition permute (dims : list nat) (t : tensor) : option tensor :=
  if is_permutation dims (rank t)
  then Some (mk_tensor (map (fun d => nth d (shape t) 0) dims)
                       (fun idx => get t (map (fun m => nth (index_of m dims) idx 0)
                                              (seq 0 (rank t)))))
  else None.

(** Broadcasting: the shorter shape is padded with leading 1s; two sizes
    are compatible when they are equal or one of them is 1. *)
Definition bdim (a b : nat) : option nat :=
  if b =? 1 then Some a
  else if a =? 1 then Some b
  else if a =? b then Some a
  else None.

Definition pad_shape (n : nat) (s : list nat) : list nat :=
  repeat 1 (n - length s) ++ s.

Fixpoint bdims (s1 s2 : list nat) : option (list nat) :=
  match s1, s2 with
  | [], [] => Some []
  | a :: s1', b :: s2' =>
      d <- bdim a b;;
      r <- bdims s1' s2';;
      Some (d :: r)
  | _, _ => None
  end.

Definition broadcast_shapes (s1 s2 : list nat) : option (list nat) :=
  let n := Nat.max (length s1) (length s2) in
  bdims (pad_shape n s1) (pad_shape n s2).

(** The element of a tensor of shape [src] that a broadcast result reads at
    [idx]: a dimension of size 1 is read at 0, and the leading dimensions
    the source lacks are dropped. *)
Definition bidx (d i : nat) : nat := if d =? 1 then 0 else i.

Fixpoint bidx_list (src idx : list nat) : list nat :=
  match src, idx with
  | d :: src', i :: idx' => bidx d i :: bidx_list src' idx'
  | _, _ => []
  end.

Definition bcast_idx (src idx : list nat) : list nat :=
  skipn (length idx - length src) (bidx_list (pad_shape (length idx) src) idx).

Definition zip_with (f : R -> R -> R) (a b : tensor) : option tensor :=
  s <- broadcast_shapes (shape a) (shape b);;
  Some (mk_tensor s (fun idx =>
          f (get a (bcast_idx (shape a) idx)) (get b (bcast_idx (shape b) idx)))).

(** a + b, a - b, a * b on tensors *)
Definition add : tensor -> tensor -> option tensor := zip_with Rplus.
Definition sub : tensor -> tensor -> option tensor := zip_with Rminus.
Definition mul : tensor -> tensor -> option tensor := zip_with Rmult.

(** c * a and -a for a Python float [c] *)
Definition scale (c : R) (t : tensor) : tensor :=
  mk_tensor (shape t) (fun idx => (c * get t idx)%R).

Definition neg (t : tensor) : tensor :=
  mk_tensor (shape t) (fun idx => (- get t idx)%R).

(** a @ b for operands of rank at least 2: a matrix product over the last
    two dimensions, the leading (batch) dimensions broadcast. *)
Definition split_last2 (s : list nat) : option (list nat * nat * nat) :=
  match rev s with
  | c :: r :: b => Some (rev b, r, c)
  | _ => None
  end.

Definition matmul_nd (a b : tensor) : option tensor :=
  match split_last2 (shape a), split_last2 (shape b) with
  | Some (ba, m, k), Some (bb, k', n) =>
      if k =? k' then
        batch <- broadcast_shapes ba bb;;
        Some (mk_tensor (batch ++ [m; n]) (fun idx =>
                let bi := firstn (length idx - 2) idx in
                let r := nth (length idx - 2) idx 0 in
                let c := nth (length idx - 1) idx 0 in
                sum_n k (fun x => (get a (bcast_idx ba bi ++ [r; x])
                                   * get b (bcast_idx bb bi ++ [x; c]))%R)))
      else None
  | _, _ => None
  end.

(** torch.matmul: a 1-dim operand is promoted to a matrix and the added
    dimension removed afterwards; a 0-dim operand is an error. *)
Definition matmul (a b : tensor) : option tensor :=
  match rank a, rank b with
  | 0, _ => None
  | _, 0 => None
  | 1, 1 =>
      a' <- unsqueeze 0 a;;
      b' <- unsqueeze (-1) b;;
      r <- matmul_nd a' b';;
      r' <- squeeze_dim (-1) r;;
      squeeze_dim (-1) r'
  | 1, _ =>
      a' <- unsqueeze 0 a;;
      r <- matmul_nd a' b;;
      squeeze_dim (-2) r
  | _, 1 =>
      b' <- unsqueeze (-1) b;;
      r <- matmul_nd a b';;
      squeeze_dim (-1) r
  | _, _ => matmul_nd a b
  end.

(** torch.sum(t, dim=d); on a 0-dim tensor the sum is the tensor itself. *)
Definition sum_dim (d : Z) (t : tensor) : option tensor :=
  k <- wrap_dim (rank t) d;;
  match shape t with
  | [] => Some t
  | _ => Some (mk_tensor (remove_at k (shape t)) (fun idx =>
                 sum_n (nth k (shape t) 0) (fun x => get t (insert_at k x idx))))
  end.

(** The size of dimension [k], a 0-dim tensor holding one element. *)
Definition dim_size (t : tensor) (k : nat) : nat :=
  match shape t with
  | [] => 1
  | _ => nth k (shape t) 0
  end.

(** nn.functional.softmax(t, dim=d) *)
Definition softmax (d : Z) (t : tensor) : option tensor :=
  k <- wrap_dim (rank t) d;;
  Some (mk_tensor (shape t) (fun idx =>
          (exp (get t idx)
           / sum_n (dim_size t k) (fun x => exp (get t (replace_at k x idx))))%R)).

(** torch.linalg.vector_norm(t, dim=d): the 2-norm along [d]. *)
Definition vector_norm (d : Z) (t : tensor) : option tensor :=
  k <- wrap_dim (rank t) d;;
  match shape t with
  | [] => Some (mk_tensor [] (fun idx => sqrt (get t idx * get t idx)))
  | _ => Some (mk_tensor (remove_at k (shape t)) (fun idx =>
                 sqrt (sum_n (nth k (shape t) 0)
                         (fun x => (get t (insert_at k x idx) * get t (insert_at k x idx))%R))))
  end.

(** nn.Softplus() with its defaults beta = 1 and threshold = 20. *)
Definition softplus_fn (x : R) : R :=
  if Rlt_dec 20 x then x else ln (1 + exp x).

Definition softplus (t : tensor) : tensor :=
  mk_tensor (shape t) (fun idx => softplus_fn (get t idx)).

(** torch.cat(ts, dim=d): the tensors agree on every dimension but [d]. *)
Fixpoint cat_get (k : nat) (ts : list tensor) (idx : list nat) : R :=
  match ts with
  | [] => 0%R
  | t :: ts' =>
      let i := nth k idx 0 in
      let d := nth k (shape t) 0 in
      if i <? d then get t idx else cat_get k ts' (replace_at k (i - d) idx)
  end.

Definition cat_size (k : nat) (ts : list tensor) : nat :=
  fold_right (fun t acc => nth k (shape t) 0 + acc) 0 ts.

Definition cat (ts : list tensor) (d : Z) : option tensor :=
  match ts with
  | [] => None
  | t0 :: rest =>
      match shape t0 with
      | [] => None
      | _ =>
          k <- wrap_dim (rank t0) d;;
          if forallb (fun t => list_eqb (replace_at k 0 (shape t))
                                        (replace_at k 0 (shape t0))) rest
          then Some (mk_tensor (replace_at k (cat_size k ts) (shape t0)) (cat_get k ts))
          else None
      end
  end.

(** tensor.view(dims) and tensor.reshape(dims): the elements in row-major
    order under a new shape; [None] in [dims] is the inferred size -1.
    (That view needs compatible strides is a matter of memory layout, which
    this model does not have.) *)
Fixpoint ravel (s idx : list nat) : nat :=
  match s, idx with
  | _ :: s', i :: idx' => i * numel s' + ravel s' idx'
  | _, _ => 0
  end.

Fixpoint unravel (s : list nat) (n : nat) : list nat :=
  match s with
  | [] => []
  | _ :: s' => n / numel s' :: unravel s' (n mod numel s')
  end.

Definition known_numel (dims : list (option nat)) : nat :=
  fold_right (fun d acc => match d with Some x => x * acc | None => acc end) 1 dims.

Definition count_inferred (dims : list (option nat)) : nat :=
  length (filter (fun d => match d with None => true | Some _ => false end) dims).

Definition infer_shape (n : nat) (dims : list (option nat)) : option (list nat) :=
  let p := known_numel dims in
  match count_inferred dims with
  | 0 => if p =? n then Some (map (fun d => match d with Some x => x | None => 0 end) dims)
         else None
  | 1 => if p =? 0 then None
         else if n mod p =? 0
              then Some (map (fun d => match d with Some x => x | None => n / p end) dims)
              else None
  | _ => None
  end.

Definition view (dims : list (option nat)) (t : tensor) : option tensor :=
  s <- infer_shape (numel (shape t)) dims;;
  Some (mk_tensor s (fun idx => get t (unravel (shape t) (ravel s idx)))).

Definition reshape : list (option nat) -> tensor -> option tensor := view.

(** nn.Linear: y = x @ W^T + b with W of shape [out, in]. *)
Record Linear : Type := mk_Linear { lin_weight : tensor; lin_bias : option tensor }.

Definition Linear_forward (l : Linear) (x : tensor) : option tensor :=
  wt <- transpose 0 1 (lin_weight l);;
  y <- matmul x wt;;
  match lin_bias l with
  | Some b => add y b
  | None => Some y
  end.

(** Modelled from the spec: [nanofold.util.LinearWithView] is not among the
    sources.  The spec has its instances project the per-residue vector
    linearly to a block of shape [out_features]: a linear layer onto the
    product of [out_features], its output viewed with the last dimension
    split into [out_features]. *)
Record LinearWithView : Type :=
  mk_LinearWithView { lwv_linear : Linear; out_features : list nat }.

Definition LinearWithView_forward (l : LinearWithView) (x : tensor) : option tensor :=
  y <- Linear_forward (lwv_linear l) x;;
  view (map (@Some nat) (removelast (shape x) ++ out_features l)) y.

(** ** Frame *)

(** Modelled from the spec: [nanofold.frame.Frame] is not among the sources.
    A Frame holds the rotations ([N, 3, 3]) and the translations ([N, 3]) of
    N residues; apply is [R . local + t], inverse is [(R^T, - R^T . t)],
    compose(outer, inner) is [(R_outer . R_inner, R_outer . t_inner +
    t_outer)], all broadcasting over leading dimensions as torch does. *)
Record Frame : Type := mk_Frame { rotations : tensor; translations : tensor }.

Definition Frame_apply (frames : Frame) (vectors : tensor) : option tensor :=
  v <- unsqueeze (-1) vectors;;
  rv <- matmul (rotations frames) v;;
  t <- unsqueeze (-1) (translations frames);;
  r <- add rv t;;
  squeeze_dim (-1) r.

Definition Frame_inverse (frames : Frame) : option Frame :=
  inverse_rotations <- transpose (-2) (-1) (rotations frames);;
  t <- unsqueeze (-1) (translations frames);;
  rt <- matmul inverse_rotations t;;
  inverse_translations <- squeeze_dim (-1) (neg rt);;
  Some (mk_Frame inverse_rotations inverse_translations).

Definition Frame_compose (a b : Frame) : option Frame :=
  rot <- matmul (rotations a) (rotations b);;
  tb <- unsqueeze (-1) (translations b);;
  rtb <- matmul (rotations a) tb;;
  ta <- unsqueeze (-1) (translations a);;
  tr <- add rtb ta;;
  tr' <- squeeze_dim (-1) tr;;
  Some (mk_Frame rot tr').

(** frames[:, None, None, ...]: both fields indexed with the same key, two
    dimensions of size 1 inserted after the residue dimension. *)
Definition Frame_getitem_None_None (frames : Frame) : option Frame :=
  r1 <- unsqueeze 1 (rotations frames);;
  r2 <- unsqueeze 1 r1;;
  t1 <- unsqueeze 1 (translations frames);;
  t2 <- unsqueeze 1 t1;;
  Some (mk_Frame r2 t2).

(** ** InvariantPointAttention *)

Record InvariantPointAttention : Type := mk_InvariantPointAttention {
  num_heads : nat;
  num_query_points : nat;
  num_value_points : nat;
  query : LinearWithView;
  key : LinearWithView;
  value : LinearWithView;
  query_points : LinearWithView;
  key_points : LinearWithView;
  value_points : LinearWithView;
  bias : Linear;
  out : Linear;
  scale_head : tensor;
  scale_single_rep : R;
  scale_frame : R
}.

(** What [__init__] builds for the given sizes: the shapes of the parameters
    and the two constant scales.  The parameter values are those of the
    (trained) module and are not constrained. *)
Definition linear_shaped (l : Linear) (n_in n_out : nat) (with_bias : bool) : Prop :=
  shape (lin_weight l) = [n_out; n_in] /\
  match lin_bias l with
  | Some b => with_bias = true /\ shape b = [n_out]
  | None => with_bias = false
  end.

Definition linear_with_view_shaped (l : LinearWithView) (n_in : nat) (outf : list nat) : Prop :=
  out_features l = outf /\ linear_shaped (lwv_linear l) n_in (numel outf) false.

Record initialised (self : InvariantPointAttention)
    (single_embedding_size pair_embedding_size ipa_embedding_size : nat) : Prop := {
  init_query : linear_with_view_shaped (query self) single_embedding_size
                 [num_heads self; ipa_embedding_size];
  init_key : linear_with_view_shaped (key self) single_embedding_size
                 [num_heads self; ipa_embedding_size];
  init_value : linear_with_view_shaped (value self) single_embedding_size
                 [num_heads self; ipa_embedding_size];
  init_query_points : linear_with_view_shaped (query_points self) single_embedding_size
                 [num_heads self; num_query_points self; 3];
  init_key_points : linear_with_view_shaped (key_points self) single_embedding_size
                 [num_heads self; num_query_points self; 3];
  init_value_points : linear_with_view_shaped (value_points self) single_embedding_size
                 [num_heads self; num_value_points self; 3];
  init_bias : linear_shaped (bias self) pair_embedding_size (num_heads self) false;
  init_out : linear_shaped (out self)
                 (num_heads self * (pair_embedding_size + ipa_embedding_size
                                    + num_value_points self * (3 + 1)))
                 single_embedding_size true;
  init_scale_head : shape (scale_head self) = [num_heads self];
  (* 1 / math.sqrt(0) raises ZeroDivisionError *)
  init_ipa_embedding_size : 0 < ipa_embedding_size;
  init_num_query_points : 0 < num_query_points self;
  init_scale_single_rep :
    scale_single_rep self = (1 / sqrt (INR ipa_embedding_size))%R;
  init_scale_frame :
    scale_frame self = (- 1 / sqrt (INR (18 * num_query_points self)))%R
}.

Definition single_rep_weight (self : InvariantPointAttention) (single_rep : tensor)
  : option tensor :=
  q <- LinearWithView_forward (query self) single_rep;;
  k <- LinearWithView_forward (key self) single_rep;;
  q' <- unsqueeze (-2) q;;
  k' <- permute [1; 2; 0] k;;
  weight <- matmul (scale (scale_single_rep self) q') k';;
  squeeze_dim (-2) weight.

Definition pair_rep_weight (self : InvariantPointAttention) (pair_rep : tensor)
  : option tensor :=
  b <- Linear_forward (bias self) pair_rep;;
  transpose (-2) (-1) b.

(** [frame_weight] up to the squared distances, before the squeeze. *)
Definition frame_squared_distance (self : InvariantPointAttention) (frames : Frame)
    (single_rep : tensor) : option tensor :=
  qp <- LinearWithView_forward (query_points self) single_rep;;
  kp <- LinearWithView_forward (key_points self) single_rep;;
  qp' <- transpose 0 (-2) qp;;
  local_qp <- Frame_apply frames qp';;
  kp' <- transpose 0 (-2) kp;;
  local_kp <- Frame_apply frames kp';;
  lq <- unsqueeze (-2) local_qp;;
  lk <- unsqueeze (-3) local_kp;;
  difference <- sub lq lk;;
  d_row <- unsqueeze (-2) difference;;
  d_col <- unsqueeze (-1) difference;;
  matmul d_row d_col.

(** The rest of [frame_weight], from the squeeze on. *)
Definition frame_weight_of (self : InvariantPointAttention) (squared_distance : tensor)
  : option tensor :=
  let squared_distance := squeeze squared_distance in
  s <- sum_dim 0 squared_distance;;
  weight <- transpose 0 1 s;;
  sh <- unsqueeze (-1) (softplus (scale_head self));;
  mul (scale (scale_frame self) sh) weight.

Definition frame_weight (self : InvariantPointAttention) (frames : Frame)
    (single_rep : tensor) : option tensor :=
  squared_distance <- frame_squared_distance self frames single_rep;;
  frame_weight_of self squared_distance.

Definition single_rep_attention (self : InvariantPointAttention) (weight single_rep : tensor)
  : option tensor :=
  v <- LinearWithView_forward (value self) single_rep;;
  w <- unsqueeze (-2) weight;;
  v' <- transpose 0 1 v;;
  attention <- matmul w v';;
  squeeze_dim (-2) attention.

Definition pair_rep_attention (self : InvariantPointAttention) (weight pair_rep : tensor)
  : option tensor :=
  w <- unsqueeze (-2) weight;;
  p <- unsqueeze 1 pair_rep;;
  attention <- matmul w p;;
  squeeze_dim (-2) attention.

Definition frame_attention (self : InvariantPointAttention) (weight : tensor)
    (frames : Frame) (single_rep : tensor) : option tensor :=
  vp <- LinearWithView_forward (value_points self) single_rep;;
  vp' <- permute [1; 2; 0; 3] vp;;
  local_vp <- Frame_apply frames vp';;
  w <- unsqueeze (-2) weight;;
  w' <- unsqueeze (-2) w;;
  local_attention <- matmul w' local_vp;;
  inv <- Frame_inverse frames;;
  frames_inverse <- Frame_getitem_None_None inv;;
  la <- squeeze_dim (-2) local_attention;;
  Frame_apply frames_inverse la.

(** The first statement of [forward]: the sum of the three terms. *)
Definition forward_logits (self : InvariantPointAttention) (single_rep pair_rep : tensor)
    (frames : Frame) : option tensor :=
  a <- single_rep_weight self single_rep;;
  b <- pair_rep_weight self pair_rep;;
  ab <- add a b;;
  c <- frame_weight self frames single_rep;;
  add ab c.

(** The weight after the second statement of [forward]. *)
Definition forward_weight (self : InvariantPointAttention) (single_rep pair_rep : tensor)
    (frames : Frame) : option tensor :=
  weight <- forward_logits self single_rep pair_rep frames;;
  softmax (-1) weight.

(** The last statements of [forward]: the concatenation of the attention
    parts and the output projection. *)
Definition forward_concat (self : InvariantPointAttention) (len_seq : nat)
    (single_rep_attention' pair_rep_attention' frame_attention' : tensor) : option tensor :=
  frame_norm_attention <- vector_norm (-1) frame_attention';;
  fa <- view [Some len_seq; Some (num_heads self); None] frame_attention';;
  attention <- cat [single_rep_attention'; pair_rep_attention'; fa; frame_norm_attention] (-1);;
  attention' <- reshape [Some len_seq; None] attention;;
  Linear_forward (out self) attention'.

(** The rest of [forward], from the normalised weight on. *)
Definition forward_output (self : InvariantPointAttention) (weight single_rep pair_rep : tensor)
    (frames : Frame) : option tensor :=
  let len_seq := nth 0 (shape single_rep) 0 in
  single_rep_attention' <- single_rep_attention self weight single_rep;;
  pair_rep_attention' <- pair_rep_attention self weight pair_rep;;
  frame_attention' <- frame_attention self weight frames single_rep;;
  forward_concat self len_seq single_rep_attention' pair_rep_attention' frame_attention'.

Definition forward (self : InvariantPointAttention) (single_rep pair_rep : tensor)
    (frames : Frame) : option tensor :=
  weight <- forward_weight self single_rep pair_rep frames;;
  forward_output self weight single_rep pair_rep frames.

(** torch.eye(n) *)
Definition eye (n : nat) : tensor :=
  mk_tensor [n; n] (fun idx => if nth 0 idx 0 =? nth 1 idx 0 then 1%R else 0%R).

(** The identity transform: R = I, t = 0. *)
Definition Frame_identity : Frame := mk_Frame (eye 3) (zeros [3]).

Definition frame_eq (a b : Frame) : Prop :=
  teq (rotations a) (rotations b) /\ teq (translations a) (translations b).

Definition oframe_eq : option Frame -> option Frame -> Prop := orel frame_eq.

(** A Frame of [n] residues. *)
Definition frame_shaped (f : Frame) (n : nat) : Prop :=
  shape (rotations f) = [n; 3; 3] /\ shape (translations f) = [n; 3].

(** A single rigid transform, as the tests build it. *)
Definition transform_shaped (f : Frame) : Prop :=
  shape (rotations f) = [3; 3] /\ shape (translations f) = [3].

(** R^T . R = I at residue [i] (the Frame invariant of the spec). *)
Definition orthonormal_at (r : tensor) (pre : list nat) : Prop :=
  forall a b, a < 3 -> b < 3 ->
    sum_n 3 (fun x => (get r (pre ++ [x; a]) * get r (pre ++ [x; b]))%R)
    = if a =? b then 1%R else 0%R.

(** ** Backbone Update *)

(** Modelled from the spec: [nanofold.model.backbone_update.BackboneUpdate]
    is not among the sources (only its test is).  One affine projection
    [linear] maps each residue's features to 6 scalars; the first three
    (b, c, d) give the quaternion normalize((1, b, c, d)), converted to a
    rotation matrix by the standard formula; the last three are the
    translation. *)
Record BackboneUpdate : Type := mk_BackboneUpdate { linear : Linear }.

Definition quaternion_norm (b c d : R) : R := sqrt (1 + b * b + c * c + d * d).

(** Entry (r, k) of the rotation matrix of the quaternion (a, b, c, d). *)
Definition quaternion_to_matrix (a b c d : R) (r k : nat) : R :=
  match r, k with
  | 0, 0 => a * a + b * b - c * c - d * d
  | 0, 1 => 2 * b * c - 2 * a * d
  | 0, 2 => 2 * b * d + 2 * a * c
  | 1, 0 => 2 * b * c + 2 * a * d
  | 1, 1 => a * a - b * b + c * c - d * d
  | 1, 2 => 2 * c * d - 2 * a * b
  | 2, 0 => 2 * b * d - 2 * a * c
  | 2, 1 => 2 * c * d + 2 * a * b
  | 2, 2 => a * a - b * b - c * c + d * d
  | _, _ => 0
  end%R.

Definition BackboneUpdate_forward (self : BackboneUpdate) (single : tensor) : option Frame :=
  x <- Linear_forward (linear self) single;;
  match shape x with
  | [n; 6] =>
      let rot := fun idx =>
        let i := nth 0 idx 0 in
        let b := get x [i; 0] in
        let c := get x [i; 1] in
        let d := get x [i; 2] in
        let norm := quaternion_norm b c d in
        quaternion_to_matrix (1 / norm) (b / norm) (c / norm) (d / norm)
          (nth 1 idx 0) (nth 2 idx 0) in
      let tr := fun idx => get x [nth 0 idx 0; 3 + nth 1 idx 0] in
      Some (mk_Frame (mk_tensor [n; 3; 3] rot) (mk_tensor [n; 3] tr))
  | _ => None
  end.

Definition backbone_initialised (self : BackboneUpdate) (single_embedding_size : nat) : Prop :=
  linear_shaped (linear self) single_embedding_size 6 true
  \/ linear_shaped (linear self) single_embedding_size 6 false.

(** ** Equality of modules and auxiliary predicates *)

(** The tensors of a concatenation agree with the shape [s0] off dimension [k]. *)
Definition cat_compatible (k : nat) (s0 : list nat) (ts : list tensor) : Prop :=
  Forall (fun t => replace_at k 0 (shape t) = replace_at k 0 s0) ts.

(** Two modules hold the same parameters. *)
Definition linear_eq (l l' : Linear) : Prop :=
  teq (lin_weight l) (lin_weight l') /\ orel teq (lin_bias l) (lin_bias l').

Definition linear_with_view_eq (l l' : LinearWithView) : Prop :=
  linear_eq (lwv_linear l) (lwv_linear l') /\ out_features l = out_features l'.

Record ipa_eq (m m' : InvariantPointAttention) : Prop := {
  eq_num_heads : num_heads m = num_heads m';
  eq_num_query_points : num_query_points m = num_query_points m';
  eq_num_value_points : num_value_points m = num_value_points m';
  eq_query : linear_with_view_eq (query m) (query m');
  eq_key : linear_with_view_eq (key m) (key m');
  eq_value : linear_with_view_eq (value m) (value m');
  eq_query_points : linear_with_view_eq (query_points m) (query_points m');
  eq_key_points : linear_with_view_eq (key_points m) (key_points m');
  eq_value_points : linear_with_view_eq (value_points m) (value_points m');
  eq_bias : linear_eq (bias m) (bias m');
  eq_out : linear_eq (out m) (out m');
  eq_scale_head : teq (scale_head m) (scale_head m');
  eq_scale_single_rep : scale_single_rep m = scale_single_rep m';
  eq_scale_frame : scale_frame m = scale_frame m'
}.

(** ** The terms of the attention weight, per head and residue pair *)

(** Coordinate [c] of a local point [v] of residue [i] in global
    coordinates: [R_i . v + t_i]. *)
Definition global_point (f : Frame) (i : nat) (v : nat -> R) (c : nat) : R :=
  (sum_n 3 (fun x => get (rotations f) [i; c; x] * v x) + get (translations f) [i; c])%R.

(** The squared Euclidean distance of two points. *)
Definition squared_distance_of (a b : nat -> R) : R :=
  sum_n 3 (fun c => ((a c - b c) * (a c - b c))%R).

(** The sum over the query/key points of head [h] of the squared distances
    between the points of residue [i] and of residue [j], each in global
    coordinates. *)
Definition point_distance_sum (f : Frame) (qp kp : tensor) (n_points i h j : nat) : R :=
  sum_n n_points (fun p =>
    squared_distance_of (global_point f i (fun x => get qp [i; h; p; x]))
                        (global_point f j (fun x => get kp [j; h; p; x]))).

(** The weights of a row [pre] sum to 1. *)
Definition row_stochastic (w : tensor) (n : nat) (pre : list nat) : Prop :=
  sum_n n (fun j => get w (pre ++ [j])) = 1%R.

(** ** Concrete modules and inputs *)

Definition ones (s : list nat) : tensor := mk_tensor s (fun _ => 1%R).

Definition zero_linear (n_in n_out : nat) (with_bias : bool) : Linear :=
  mk_Linear (zeros [n_out; n_in]) (if with_bias then Some (zeros [n_out]) else None).

Definition zero_linear_with_view (n_in : nat) (outf : list nat) : LinearWithView :=
  mk_LinearWithView (zero_linear n_in (numel outf) false) outf.

(** The module that [__init__] builds for the given sizes, with every weight
    set to zero; [scale_head] has its initial value torch.ones. *)
Definition zero_module (single_embedding_size pair_embedding_size ipa_embedding_size
    n_query_points n_value_points n_heads : nat) : InvariantPointAttention :=
  {| num_heads := n_heads;
     num_query_points := n_query_points;
     num_value_points := n_value_points;
     query := zero_linear_with_view single_embedding_size [n_heads; ipa_embedding_size];
     key := zero_linear_with_view single_embedding_size [n_heads; ipa_embedding_size];
     value := zero_linear_with_view single_embedding_size [n_heads; ipa_embedding_size];
     query_points := zero_linear_with_view single_embedding_size [n_heads; n_query_points; 3];
     key_points := zero_linear_with_view single_embedding_size [n_heads; n_query_points; 3];
     value_points := zero_linear_with_view single_embedding_size [n_heads; n_value_points; 3];
     bias := zero_linear pair_embedding_size n_heads false;
     out := zero_linear (n_heads * (pair_embedding_size + ipa_embedding_size
                                    + n_value_points * (3 + 1)))
              single_embedding_size true;
     scale_head := ones [n_heads];
     scale_single_rep := (1 / sqrt (INR ipa_embedding_size))%R;
     scale_frame := (- 1 / sqrt (INR (18 * n_query_points)))%R |}.

(** Entry (r, k) of the rotation by [angle] about the z axis. *)
Definition z_rotation (angle : R) (r k : nat) : R :=
  match r, k with
  | 0, 0 => cos angle
  | 0, 1 => - sin angle
  | 1, 0 => sin angle
  | 1, 1 => cos angle
  | 2, 2 => 1
  | _, _ => 0
  end%R.

(** The frames of the tests: residue i is rotated by the angle i about the
    z axis, and the translations are arange(3 n).reshape(n, 3). *)
Definition test_frames (n : nat) : Frame :=
  mk_Frame
    (mk_tensor [n; 3; 3] (fun idx => z_rotation (INR (nth 0 idx 0)) (nth 1 idx 0) (nth 2 idx 0)))
    (mk_tensor [n; 3] (fun idx => INR (3 * nth 0 idx 0 + nth 1 idx 0))).

(** The transform of the tests: the rotation by 1 about the z axis, then
    the translation by (1, 1, 1). *)
Definition test_transform : Frame :=
  mk_Frame (mk_tensor [3; 3] (fun idx => z_rotation 1 (nth 0 idx 0) (nth 1 idx 0))) (ones [3]).

(** A Backbone Update whose projection has zero weights and the bias
    (0, 0, 0, 1, 1, 1). *)
Definition shifting_backbone (single_embedding_size : nat) : BackboneUpdate :=
  mk_BackboneUpdate
    (mk_Linear (zeros [6; single_embedding_size])
               (Some (mk_tensor [6] (fun idx => if 3 <=? nth 0 idx 0 then 1%R else 0%R)))).

(** A Backbone Update whose projection is zero. *)
Definition zero_backbone (single_embedding_size : nat) : BackboneUpdate :=
  mk_BackboneUpdate (zero_linear single_embedding_size 6 true).

(** torch.arange(numel s).reshape(s), as the tests build their inputs. *)
Definition arange (s : list nat) : tensor := mk_tensor s (fun idx => INR (ravel s idx)).

(** ** Comparison within the absolute tolerance of the tests *)

Definition atol : R := (1 / 100000)%R.

Definition within_tolerance (a b : tensor) : Prop :=
  shape a = shape b
  /\ forall idx, valid (shape a) idx -> (Rabs (get a idx - get b idx) <= atol)%R.

(** The sizes and inputs of the tests: 10 residues, single size 3, pair
    size 7, IPA size 5, 4 query points, 8 value points, 2 heads. *)
Definition test_module : InvariantPointAttention := zero_module 3 7 5 4 8 2.
Definition test_single_representation : tensor := arange [10; 3].
Definition test_pair_representation : tensor := arange [10; 10; 7].
Definition test_weight : tensor := ones [10; 2; 10].
Definition test_points : tensor := arange [4; 10; 3].

(** A module with one query point and as many heads as residues (2). *)
Definition single_point_module : InvariantPointAttention := zero_module 1 1 1 1 1 2.


(** ** The features of a residue and head that [forward] concatenates *)

(** Entry [d] of the concatenation, along the last dimension, of the
    single attention ([n_single] entries), the pair attention ([n_pair]
    entries), the point attention viewed as [3 * n_points] entries and the
    [n_points] norms of the attended points. *)
Definition attention_feature (sa pa fa : tensor) (n_single n_pair n_points : nat)
    (i h d : nat) : R :=
  if d <? n_single then get sa [i; h; d]
  else if d - n_single <? n_pair then get pa [i; h; d - n_single]
  else if d - n_single - n_pair <? n_points * 3
       then get fa [i; h; (d - n_single - n_pair) / 3; (d - n_single - n_pair) mod 3]
       else sqrt (sum_n 3 (fun u =>
              (get fa [i; h; (d - n_single - n_pair - n_points * 3)%nat; u]
               * get fa [i; h; (d - n_single - n_pair - n_points * 3)%nat; u])%R)).


(** ** MSARunner (nanofold/preprocess/msa_runner.py) *)

(** The world of the runner: the regular files by path, with their bytes,
    and the commands handed to subprocess.run so far. *)
Definition files : Type := string -> option string.

Record world : Type := mk_world { fs : files; calls : list (list string) }.

Definition write_file (p contents : string) (f : files) : files :=
  fun q => if String.eqb q p then Some contents else f q.

Definition remove_file (p : string) (f : files) : files :=
  fun q => if String.eqb q p then None else f q.

Inductive exn : Type :=
| FileNotFoundError
| UnicodeDecodeError
| CalledProcessError
| KeyError
| EmptyChainError
| UnboundLocalError
| IndexError
| RuntimeError
| OtherError (name : string).

Inductive outcome (A : Type) : Type :=
| Ok (a : A)
| Raise (e : exn).

Arguments Ok {A} a.
Arguments Raise {A} e.

(** A computation on the world that returns or raises. *)
Definition io (A : Type) : Type := world -> world * outcome A.

Definition io_ret {A : Type} (a : A) : io A := fun w => (w, Ok a).

Definition io_raise {A : Type} (e : exn) : io A := fun w => (w, Raise e).

Definition io_bind {A B : Type} (m : io A) (k : A -> io B) : io B :=
  fun w => match m w with
           | (w', Ok a) => k a w'
           | (w', Raise e) => (w', Raise e)
           end.

Notation "x <~ e ;; k" := (io_bind e (fun x => k))
  (at level 61, e at next level, right associativity).

(** What the runner relies on and this file does not define: the text
    codec of open() in text mode, str.encode(), the bytes gzip writes, the
    jackhmmer process (its effect on the files, whether it exits with
    status 0, and the bytes it writes to stderr), bytes.decode("utf-8"),
    [sto_parser.truncate_sto] (on the bytes of the open file) and
    pathlib's [/]. *)
Record Environment : Type := mk_Environment {
  decode : string -> option string;
  encode : string -> string;
  encode_utf8 : string -> string;
  gzip_compress : string -> string;
  process : list string -> files -> files * bool;
  process_stderr : list string -> files -> string;
  decode_utf8 : string -> option string;
  sto_truncate : string -> Z -> outcome string;
  joinpath : string -> string -> string
}.

Record MSARunner : Type := mk_MSARunner {
  jackhmmer_bin : string;
  small_bfd : string;
  cache_dir : string;
  num_cpus : Z;
  max_sequences : option Z
}.

(** str(n) for an int *)
Definition str (n : Z) : string := NilZero.string_of_int (Z.to_int n).

Definition build_jackhmmer_cmd (self : MSARunner) (input output : string) : list string :=
  [jackhmmer_bin self; "--noali"; "--cpu"; str (num_cpus self); "-A"; output; "-N"; "1";
   "-E"; "0.0001"; "--incE"; "0.0001"; "--F1"; "0.0005"; "--F2"; "0.00005";
   "--F3"; "0.0000005"; input; small_bfd self]%string.

(** What [cached_result] returns: the generator function [zip_result],
    which reads the gzip file when it is called, or the function that
    returns the text read. *)
Inductive reader : Type :=
| zip_result (zip_output : string)
| constant (content : string).

(** Path(f"{output}.gz") *)
Definition zip_path (output : string) : string := (output ++ ".gz")%string.

Definition cached_result (env : Environment) (output : string) : io (option reader) :=
  fun w =>
    let zip_output := zip_path output in
    match fs w zip_output with
    | Some _ => (w, Ok (Some (zip_result zip_output)))
    | None =>
        match fs w output with
        | Some bytes =>
            if 0 <? String.length bytes then
              match decode env bytes with
              | Some content =>
                  let written :=
                    write_file zip_output (gzip_compress env (encode_utf8 env content)) (fs w) in
                  (mk_world (remove_file output written) (calls w), Ok (Some (constant content)))
              | None => (w, Raise UnicodeDecodeError)
              end
            else (w, Ok None)
        | None => (w, Ok None)
        end
    end.

Definition MSARunner_truncate_sto (env : Environment) (self : MSARunner) (output : string)
  : io unit :=
  fun w =>
    match max_sequences self with
    | Some n =>
        match fs w output with
        | Some bytes =>
            match sto_truncate env bytes n with
            | Ok contents =>
                (mk_world (write_file output (encode env contents) (fs w)) (calls w), Ok tt)
            | Raise e => (w, Raise e)
            end
        | None => (w, Raise FileNotFoundError)
        end
    | None => (w, Ok tt)
    end.

(** subprocess.run(cmd, capture_output=True, check=True) *)
Definition subprocess_run (env : Environment) (cmd : list string) : io unit :=
  fun w =>
    let (f, success) := process env cmd (fs w) in
    (mk_world f (calls w ++ [cmd]), if success then Ok tt else Raise CalledProcessError).

(** os.rename(src, dst) on regular files (POSIX: an existing [dst] is
    replaced). *)
Definition rename (src dst : string) : io unit :=
  fun w =>
    match fs w src with
    | Some bytes => (mk_world (write_file dst bytes (remove_file src (fs w))) (calls w), Ok tt)
    | None => (w, Raise FileNotFoundError)
    end.

(** self.cache_dir / f"{id}.sto" and self.cache_dir / f"{id}.sto.tmp" *)
Definition output_path (env : Environment) (self : MSARunner) (id : string) : string :=
  joinpath env (cache_dir self) (id ++ ".sto")%string.

Definition tmp_output_path (env : Environment) (self : MSARunner) (id : string) : string :=
  joinpath env (cache_dir self) (id ++ ".sto.tmp")%string.

(** The try statement of [run]: when the process fails, its stderr is
    decoded as UTF-8 for logging.error, which raises UnicodeDecodeError
    for other bytes, and the error of the process is raised again (the
    message logged is not part of the world). *)
Definition try_subprocess_run (env : Environment) (cmd : list string) : io unit :=
  fun w =>
    match subprocess_run env cmd w with
    | (w', Raise CalledProcessError) =>
        match decode_utf8 env (process_stderr env cmd (fs w)) with
        | Some _ => (w', Raise CalledProcessError)
        | None => (w', Raise UnicodeDecodeError)
        end
    | result => result
    end.

Definition run (env : Environment) (self : MSARunner) (fasta_input id : string)
  : io (option reader) :=
  let output := output_path env self id in
  let tmp_output := tmp_output_path env self id in
  cached <~ cached_result env output;;
  match cached with
  | Some r => io_ret (Some r)
  | None =>
      let cmd := build_jackhmmer_cmd self fasta_input tmp_output in
      _ <~ try_subprocess_run env cmd;;
      _ <~ MSARunner_truncate_sto env self tmp_output;;
      _ <~ rename tmp_output output;;
      cached_result env output
  end.

(** An environment for examples: text is its own encoding, gzip marks its
    input, jackhmmer writes one alignment to the file named after [-A] and
    exits with status 0, truncation keeps the alignment, and paths are
    joined with a slash. *)
Definition test_environment : Environment :=
  {| decode := fun bytes => Some bytes;
     encode := fun text => text;
     encode_utf8 := fun text => text;
     gzip_compress := fun bytes => ("gzip:" ++ bytes)%string;
     process := fun cmd f => (write_file (nth 5 cmd ""%string) "# STOCKHOLM 1.0"%string f, true);
     process_stderr := fun _ _ => ""%string;
     decode_utf8 := fun bytes =>
       if forallb (fun c => nat_of_ascii c <? 128) (list_ascii_of_string bytes)
       then Some bytes else None;
     sto_truncate := fun bytes _ => Ok bytes;
     joinpath := fun d name => (d ++ "/" ++ name)%string |}.

(** The same, with a jackhmmer that fails without touching the files and
    writes [stderr]. *)
Definition failing_environment (stderr : string) : Environment :=
  {| decode := decode test_environment;
     encode := encode test_environment;
     encode_utf8 := encode_utf8 test_environment;
     gzip_compress := gzip_compress test_environment;
     process := fun _ f => (f, false);
     process_stderr := fun _ _ => stderr;
     decode_utf8 := decode_utf8 test_environment;
     sto_truncate := sto_truncate test_environment;
     joinpath := joinpath test_environment |}.

(** The same, with a jackhmmer that writes an empty alignment. *)
Definition silent_environment : Environment :=
  {| decode := decode test_environment;
     encode := encode test_environment;
     encode_utf8 := encode_utf8 test_environment;
     gzip_compress := gzip_compress test_environment;
     process := fun cmd f => (write_file (nth 5 cmd ""%string) ""%string f, true);
     process_stderr := process_stderr test_environment;
     decode_utf8 := decode_utf8 test_environment;
     sto_truncate := sto_truncate test_environment;
     joinpath := joinpath test_environment |}.

Definition test_runner : MSARunner :=
  mk_MSARunner "jackhmmer"%string "small_bfd.fasta"%string "cache"%string 8%Z (Some 100%Z).

Definition empty_world : world := mk_world (fun _ => None) [].

(** A cache that holds a plain, not yet compressed result for "1abc". *)
Definition legacy_world : world :=
  mk_world (write_file "cache/1abc.sto"%string "# STOCKHOLM 1.0"%string (fun _ => None)) [].


(** ** Reading chains from mmCIF models (nanofold/mmcif.py) *)

(** str.strip() on text of the code points 0 to 255: the characters that
    str.isspace accepts (U+0009 to U+000D, U+001C to U+0020, U+0085 and
    U+00A0) are removed from both ends. *)
Definition is_space (c : ascii) : bool :=
  let n := nat_of_ascii c in
  ((9 <=? n) && (n <=? 13)) || ((28 <=? n) && (n <=? 32)) || (n =? 133) || (n =? 160).

Fixpoint lstrip_list (l : list ascii) : list ascii :=
  match l with
  | [] => []
  | c :: l' => if is_space c then lstrip_list l' else l
  end.

Definition strip (s : string) : string :=
  string_of_list_ascii
    (rev (lstrip_list (rev (lstrip_list (list_ascii_of_string s))))).

(** dict[key] and [key in dict] on a dict held as an association list. *)
Fixpoint lookup {A : Type} (k : string) (d : list (string * A)) : option A :=
  match d with
  | [] => None
  | (k', v) :: d' => if String.eqb k' k then Some v else lookup k d'
  end.

Definition contains {A : Type} (k : string) (d : list (string * A)) : bool :=
  match lookup k d with
  | Some _ => true
  | None => false
  end.

(** The entities of Bio.PDB as far as mmcif.py reads them.  An atom has
    its coordinates and serial number; a residue has its id (hetero flag,
    sequence number, insertion code), its name, its full id and its atoms
    by name. *)
Record Atom : Type := mk_Atom { get_coord : tensor; get_serial_number : Z }.

Record Residue : Type := mk_Residue {
  get_id : string * Z * string;
  get_resname : string;
  get_full_id : list string;
  child_dict : list (string * Atom)
}.

(** What mmcif.py imports from the module nanofold.residue: the list of
    the residues known (pairs whose second component is the residue name)
    and the function that computes a rotation from the backbone atoms. *)
Record ResidueModule : Type := mk_ResidueModule {
  RESIDUE_LIST : list (string * string);
  compute_residue_rotation : option tensor -> tensor -> option tensor -> outcome tensor
}.

Definition should_filter_residue (m : ResidueModule) (residue : Residue) : bool :=
  let valid_residues := map snd (RESIDUE_LIST m) in
  let '(hetatom, _, _) := get_id residue in
  let is_hetero_residue := negb (String.eqb (strip hetatom) "") in
  let is_valid_residue := existsb (String.eqb (get_resname residue)) valid_residues in
  is_hetero_residue || negb is_valid_residue.

(** The dict that [get_residues] builds for a residue. *)
Record residue_record : Type := mk_residue_record {
  rec_resname : string;
  rec_id : list string;
  rec_serial_number : Z;
  rec_rotation : tensor;
  rec_translation : tensor
}.

(** The loop of [get_residues] over the residues left, [result] holding
    the records appended so far. *)
Fixpoint get_residues_loop (m : ResidueModule) (residues : list Residue)
    (result : list residue_record) : outcome (list residue_record) :=
  match residues with
  | [] => Ok result
  | residue :: rest =>
      if should_filter_residue m residue then get_residues_loop m rest result
      else
        match lookup "CA" (child_dict residue) with
        | None => get_residues_loop m rest result
        | Some ca =>
            let n_coords := option_map get_coord (lookup "N" (child_dict residue)) in
            let ca_coords := get_coord ca in
            let c_coords := option_map get_coord (lookup "C" (child_dict residue)) in
            match compute_residue_rotation m n_coords ca_coords c_coords with
            | Ok rotation =>
                get_residues_loop m rest
                  (result ++ [{| rec_resname := get_resname residue;
                                 rec_id := tl (get_full_id residue);
                                 rec_serial_number := get_serial_number ca;
                                 rec_rotation := rotation;
                                 rec_translation := ca_coords |}])
            | Raise e => Raise e
            end
        end
  end.

(** A chain of Bio.PDB: its full id and its residues in order. *)
Record PdbChain : Type := mk_PdbChain {
  chain_full_id : list string;
  chain_residues : list Residue
}.

Definition get_residues (m : ResidueModule) (chain : PdbChain)
  : outcome (list residue_record) :=
  get_residues_loop m (chain_residues chain) [].

(** The residues that [get_residues] keeps. *)
Definition kept (m : ResidueModule) (residue : Residue) : bool :=
  negb (should_filter_residue m residue) && contains "CA" (child_dict residue).

(** A computation that returns or raises, without effects. *)
Definition outcome_bind {A B : Type} (x : outcome A) (k : A -> outcome B) : outcome B :=
  match x with
  | Ok a => k a
  | Raise e => Raise e
  end.

Notation "x <~~ e ;; k" := (outcome_bind e (fun x => k))
  (at level 61, e at next level, right associativity).

(** strand_id.split(",")[0]: the text before the first comma. *)
Fixpoint before_comma (s : string) : string :=
  match s with
  | EmptyString => EmptyString
  | String c s' => if Ascii.eqb c ","%char then EmptyString else String c (before_comma s')
  end.

(** sequence.replace("\n", "") *)
Fixpoint remove_newlines (s : string) : string :=
  match s with
  | EmptyString => EmptyString
  | String c s' =>
      if Ascii.eqb c (ascii_of_nat 10) then remove_newlines s'
      else String c (remove_newlines s')
  end.

(** What mmcif.py uses of the class nanofold.chain.Chain and of difflib:
    the constructor from a residue list, the sequence of a chain, its
    length, its slices, and SequenceMatcher(None, a, b,
    autojunk=False).find_longest_match() as the triple (start in a, start
    in b, size). *)
Record ChainModule : Type := mk_ChainModule {
  Chain : Type;
  from_residue_list : list string -> list residue_record -> outcome Chain;
  chain_sequence : Chain -> string;
  chain_len : Chain -> nat;
  chain_slice : Chain -> nat -> nat -> outcome Chain;
  find_longest_match : string -> string -> nat * nat * nat
}.

Definition get_longest_match (cm : ChainModule) (chain : Chain cm) (sequence : string)
  : outcome (Chain cm) :=
  let '(start, _, size) := find_longest_match cm (chain_sequence cm chain) sequence in
  chain_slice cm chain start (start + size).

(** A model of Bio.PDB with the dict of its mmCIF file: the chains by id. *)
Record Model : Type := mk_Model {
  model_id : string;
  mmcif_dict : list (string * list string);
  model_chains : list (string * PdbChain)
}.

(** The loop of [parse_chains] over the pairs of strand ids and sequences
    left. *)
Fixpoint parse_chains_loop (m : ResidueModule) (cm : ChainModule) (model : Model)
    (entities : list (string * string)) (result : list (Chain cm))
  : outcome (list (Chain cm)) :=
  match entities with
  | [] => Ok result
  | (strand_id, sequence) :: rest =>
      let strand_id := before_comma strand_id in
      let sequence := remove_newlines sequence in
      match lookup strand_id (model_chains model) with
      | None => Raise KeyError
      | Some mmcif_chain =>
          residue_list <~~ get_residues m mmcif_chain;;
          chain <~~ from_residue_list cm (tl (chain_full_id mmcif_chain)) residue_list;;
          chain <~~ get_longest_match cm chain sequence;;
          if chain_len cm chain =? 0 then parse_chains_loop m cm model rest result
          else parse_chains_loop m cm model rest (result ++ [chain])
      end
  end.

Definition parse_chains (m : ResidueModule) (cm : ChainModule) (model : Model)
  : outcome (list (Chain cm)) :=
  match lookup "_entity_poly.pdbx_strand_id" (mmcif_dict model) with
  | None => Raise KeyError
  | Some strand_ids =>
      match lookup "_entity_poly.pdbx_seq_one_letter_code" (mmcif_dict model) with
      | None => Raise KeyError
      | Some sequences =>
          result <~~ parse_chains_loop m cm model (combine strand_ids sequences) [];;
          if length result =? 0 then Raise EmptyChainError else Ok result
      end
  end.

(** A residue module, a chain module and a model for examples: two
    residue names are known, every rotation is the identity, a chain is
    the list of its records, and the longest match is the common prefix
    length of two texts of equal letters. *)
Definition test_residue_module : ResidueModule :=
  {| RESIDUE_LIST := [("A", "ALA"); ("G", "GLY")]%string;
     compute_residue_rotation := fun _ _ _ => Ok (eye 3) |}.

Definition test_chain_module : ChainModule :=
  {| Chain := list residue_record;
     from_residue_list := fun _ records => Ok records;
     chain_sequence := fun c => string_of_list_ascii (map (fun _ => "X"%char) c);
     chain_len := fun c => length c;
     chain_slice := fun c start stop => Ok (firstn (stop - start) (skipn start c));
     find_longest_match := fun a b => (0, 0, Nat.min (String.length a) (String.length b)) |}.

Definition test_atom (serial : Z) : Atom := mk_Atom (zeros [3]) serial.

(** An alanine with its backbone atoms, a glycine without its N atom, a
    water molecule and an alanine without its CA atom. *)
Definition test_chain : PdbChain :=
  mk_PdbChain ["1abc"; "0"; "A"]%string
    [ mk_Residue (" ", 1%Z, " ")%string "ALA" ["1abc"; "0"; "A"; "1"]%string
        [("N", test_atom 1); ("CA", test_atom 2); ("C", test_atom 3)]%string;
      mk_Residue (" ", 2%Z, " ")%string "GLY" ["1abc"; "0"; "A"; "2"]%string
        [("CA", test_atom 5); ("C", test_atom 6)]%string;
      mk_Residue ("W", 3%Z, " ")%string "HOH" ["1abc"; "0"; "A"; "3"]%string
        [("O", test_atom 7)]%string;
      mk_Residue (" ", 4%Z, " ")%string "ALA" ["1abc"; "0"; "A"; "4"]%string
        [("N", test_atom 8); ("C", test_atom 9)]%string ].

Definition test_model : Model :=
  mk_Model "1ABC"
    [("_entity_poly.pdbx_strand_id", ["A,B"]);
     ("_entity_poly.pdbx_seq_one_letter_code", ["XX"])]%string
    [("A"%string, test_chain)].


(** ** Nanofold.forward (nanofold/training/model/nanofold.py) *)

(** t[..., i, :, :] and the like: index [i] of the dimension that is the
    [n]-th from the end. *)
Definition select_from_end (n i : nat) (t : tensor) : outcome tensor :=
  if rank t <? n then Raise IndexError
  else
    let k := rank t - n in
    if i <? nth k (shape t) 0
    then Ok (mk_tensor (remove_at k (shape t)) (fun idx => get t (insert_at k i idx)))
    else Raise IndexError.

Fixpoint strip_ones (s : list nat) : list nat :=
  match s with
  | 1 :: s' => strip_ones s'
  | _ => s
  end.

(** t[..., i, :, :] = v: the leading dimensions of size 1 of [v] are
    dropped, and the rest is expanded to the shape of the slice. *)
Definition assign_from_end (n i : nat) (t v : tensor) : outcome tensor :=
  if rank t <? n then Raise IndexError
  else
    let k := rank t - n in
    if i <? nth k (shape t) 0 then
      let slice := remove_at k (shape t) in
      let src := strip_ones (shape v) in
      if length src <=? length slice then
        match bdims (pad_shape (length slice) src) slice with
        | Some s =>
            if list_eqb s slice
            then Ok (mk_tensor (shape t) (fun idx =>
                       if nth k idx 0 =? i
                       then get v (repeat 0 (rank v - length src)
                                   ++ bcast_idx src (remove_at k idx))
                       else get t idx))
            else Raise RuntimeError
        | None => Raise RuntimeError
        end
      else Raise RuntimeError
    else Raise IndexError.

(** A tensor operation that fails raises RuntimeError. *)
Definition torch {A : Type} (x : option A) : outcome A :=
  match x with
  | Some a => Ok a
  | None => Raise RuntimeError
  end.

(** batch[key] *)
Definition getitem {A : Type} (d : list (string * A)) (k : string) : outcome A :=
  match lookup k d with
  | Some v => Ok v
  | None => Raise KeyError
  end.

(** The modules that Nanofold is built from and this file does not
    define, as functions that return or raise; [Results] is the type of
    the five results of the structure module after the coordinates, and
    [Loss] that of the distogram loss. *)
Record NanofoldModules : Type := mk_NanofoldModules {
  Results : Type;
  Loss : Type;
  input_embedder : tensor -> tensor -> tensor -> outcome (tensor * tensor);
  recycling_embedder : tensor -> tensor -> tensor -> outcome (tensor * tensor);
  evoformer : tensor -> tensor -> outcome (tensor * tensor * tensor);
  structure_module :
    tensor -> tensor -> tensor -> option Frame -> option R -> outcome (tensor * Results);
  distogram_loss : tensor -> tensor -> outcome Loss
}.

Record Nanofold : Type := mk_Nanofold {
  modules : NanofoldModules;
  num_recycle : Z;
  msa_embedding_size : nat;
  nanofold_pair_embedding_size : nat;
  use_checkpoint : bool;
  training : bool
}.

(** The draws of torch.randint and torch.rand in one call of forward:
    torch.randint(high, (1,)) is [randint mod high]. *)
Record Draws : Type := mk_Draws { randint : Z; rand : R }.

(** torch.utils.checkpoint.checkpoint(f, args...): the value of f on args. *)
Definition checkpoint {A B : Type} (f : A -> B) (args : A) : B := f args.

Definition run_evoformer (self : Nanofold) (msa_rep pair_rep : tensor)
  : outcome (tensor * tensor * tensor) :=
  if use_checkpoint self || negb (training self)
  then checkpoint (fun inputs => evoformer (modules self) (fst inputs) (snd inputs))
         (msa_rep, pair_rep)
  else evoformer (modules self) msa_rep pair_rep.

(** The local variables that the loop of forward assigns: the recycled
    inputs and, once an iteration has run, pair_rep, coords and the
    further results of the structure module. *)
Record locals (self : Nanofold) : Type := mk_locals {
  prev_msa_row : tensor;
  prev_ca_coords : tensor;
  prev_pair_rep : tensor;
  assigned : option (tensor * tensor * Results (modules self))
}.

Arguments mk_locals {self}.
Arguments prev_msa_row {self}.
Arguments prev_ca_coords {self}.
Arguments prev_pair_rep {self}.
Arguments assigned {self}.

(** One iteration of the loop of forward; [last] is the value of
    [i == num_recycle - 1].  (detach() leaves the values as they are.) *)
Definition iteration (self : Nanofold) (batch : list (string * tensor))
    (fape_clamp : option R) (last : bool) (vars : locals self) : outcome (locals self) :=
  target_feat <~~ getitem batch "target_feat";;
  positions <~~ getitem batch "positions";;
  msa_feat <~~ getitem batch "msa_feat";;
  embedded <~~ input_embedder (modules self) target_feat positions msa_feat;;
  let '(msa_rep, pair_rep) := embedded in
  update <~~ recycling_embedder (modules self)
               (prev_msa_row vars) (prev_pair_rep vars) (prev_ca_coords vars);;
  let '(msa_row_update, pair_rep_update) := update in
  row <~~ select_from_end 3 0 msa_rep;;
  row' <~~ torch (add row msa_row_update);;
  msa_rep <~~ assign_from_end 3 0 msa_rep row';;
  pair_rep <~~ torch (add pair_rep pair_rep_update);;
  evolved <~~ run_evoformer self msa_rep pair_rep;;
  let '(msa_rep, pair_rep, single_rep) := evolved in
  local_coords <~~ getitem batch "local_coords";;
  frames <~~ (if last && contains "translations" batch
              then rotations <~~ getitem batch "rotations";;
                   translations <~~ getitem batch "translations";;
                   Ok (Some (mk_Frame rotations translations))
              else Ok None);;
  structure <~~ structure_module (modules self) single_rep pair_rep local_coords
                  frames fape_clamp;;
  let '(coords, results) := structure in
  prev_msa_row <~~ select_from_end 3 0 msa_rep;;
  prev_ca_coords <~~ select_from_end 2 1 coords;;
  Ok (mk_locals prev_msa_row prev_ca_coords pair_rep (Some (pair_rep, coords, results))).

(** for i in range(num_recycle), from [i] on, [remaining] iterations. *)
Fixpoint recycle (self : Nanofold) (batch : list (string * tensor)) (fape_clamp : option R)
    (num_recycle : Z) (remaining : nat) (i : Z) (vars : locals self)
  : outcome (locals self) :=
  match remaining with
  | O => Ok vars
  | S remaining' =>
      vars' <~~ iteration self batch fape_clamp (i =? num_recycle - 1)%Z vars;;
      recycle self batch fape_clamp num_recycle remaining' (i + 1)%Z vars'
  end.

Definition Nanofold_forward (self : Nanofold) (batch : list (string * tensor)) (draws : Draws)
  : outcome (tensor * Results (modules self) * option (Loss (modules self))) :=
  num_recycle <~~ (if training self
                   then if (0 <? num_recycle self)%Z
                        then Ok (randint draws mod num_recycle self + 1)%Z
                        else Raise RuntimeError
                   else Ok (num_recycle self));;
  let fape_clamp := if Rlt_dec (rand draws) (9 / 10)
                    then if training self then Some 10%R else None
                    else None in
  positions <~~ getitem batch "positions";;
  let s := shape positions in
  let prev_msa_row := zeros (s ++ [msa_embedding_size self]) in
  let prev_ca_coords := zeros (s ++ [3]) in
  prev_pair_rep <~~ match rev s with
                    | last :: _ => Ok (zeros (s ++ [last; nanofold_pair_embedding_size self]))
                    | [] => Raise IndexError
                    end;;
  vars <~~ recycle self batch fape_clamp num_recycle (Z.to_nat num_recycle) 0%Z
             (mk_locals prev_msa_row prev_ca_coords prev_pair_rep None);;
  dist_loss <~~ (if contains "translations" batch
                 then match assigned vars with
                      | Some (pair_rep, _, _) =>
                          translations <~~ getitem batch "translations";;
                          loss <~~ distogram_loss (modules self) pair_rep translations;;
                          Ok (Some loss)
                      | None => Raise UnboundLocalError
                      end
                 else Ok None);;
  match assigned vars with
  | Some (_, coords, results) => Ok (coords, results, dist_loss)
  | None => Raise UnboundLocalError
  end.

(** [n] iterations that are not the last. *)
Fixpoint iterations (self : Nanofold) (batch : list (string * tensor)) (fape_clamp : option R)
    (n : nat) (vars : locals self) : outcome (locals self) :=
  match n with
  | O => Ok vars
  | S n' =>
      vars' <~~ iteration self batch fape_clamp false vars;;
      iterations self batch fape_clamp n' vars'
  end.

(** Modules for examples: every module returns zeros of the shapes of a
    sequence of 4 residues with 2 alignment rows, and the structure module
    returns whether it was given Frames. *)
Definition test_modules : NanofoldModules :=
  {| Results := bool;
     Loss := unit;
     input_embedder := fun _ _ _ => Ok (zeros [2; 4; 5], zeros [4; 4; 6]);
     recycling_embedder := fun _ _ _ => Ok (zeros [4; 5], zeros [4; 4; 6]);
     evoformer := fun msa_rep pair_rep => Ok (msa_rep, pair_rep, zeros [4; 7]);
     structure_module := fun _ _ _ frames _ =>
       Ok (zeros [4; 3; 3], match frames with Some _ => true | None => false end);
     distogram_loss := fun _ _ => Ok tt |}.

Definition test_nanofold (n_recycle : Z) (is_training : bool) : Nanofold :=
  mk_Nanofold test_modules n_recycle 5 6 false is_training.

Definition test_batch : list (string * tensor) :=
  [("positions", zeros [4]); ("target_feat", zeros [4; 20]); ("msa_feat", zeros [2; 4; 20]);
   ("local_coords", zeros [4; 3; 3])]%string.

Definition test_batch_with_truth : list (string * tensor) :=
  (test_batch ++ [("rotations"%string, zeros [4; 3; 3]);
                  ("translations"%string, zeros [4; 3])])%list.

Definition test_locals (self : Nanofold) : locals self :=
  mk_locals (zeros [4; 5]) (zeros [4; 3]) (zeros [4; 4; 6]) None.


(** ** Relabelling the residues *)

(** [sigma] is a permutation of the residues 0 .. n-1, with inverse [tau]. *)
Definition permutation_of (n : nat) (sigma tau : nat -> nat) : Prop :=
  forall i, i < n -> sigma i < n /\ tau i < n /\ tau (sigma i) = i /\ sigma (tau i) = i.

(** t[perm]: residue [i] of the result is residue [sigma i] of [t]. *)
Definition permute_residues (sigma : nat -> nat) (t : tensor) : tensor :=
  mk_tensor (shape t) (fun idx =>
    match idx with
    | i :: rest => get t (sigma i :: rest)
    | [] => get t []
    end).

(** t[perm][:, perm]: both residue dimensions of a pair representation. *)
Definition permute_pairs (sigma : nat -> nat) (t : tensor) : tensor :=
  mk_tensor (shape t) (fun idx =>
    match idx with
    | i :: j :: rest => get t (sigma i :: sigma j :: rest)
    | _ => get t idx
    end).

Definition permute_frames (sigma : nat -> nat) (f : Frame) : Frame :=
  mk_Frame (permute_residues sigma (rotations f)) (permute_residues sigma (translations f)).

(** The cyclic shift of [n] residues and its inverse. *)
Definition shift_residues (n i : nat) : nat := (i + 1) mod n.
Definition unshift_residues (n i : nat) : nat := (i + (n - 1)) mod n.


(** ** The heap: storages, views and the random generator *)

(** What a call can read and change besides its arguments: the storages
    of the tensors alive, by address, and the state of torch's global
    random generator. *)
Record Heap : Type := mk_Heap { storages : list tensor; generator : nat }.

(** A tensor object: the storage it reads, and its view of that storage.
    Objects with the same address share their storage, as a tensor and its
    transpose, or a parameter and every use of it. *)
Record tref : Type := mk_tref { address : nat; window : tensor -> option tensor }.

Definition content (h : Heap) (r : tref) : option tensor :=
  t <- nth_error (storages h) (address r);;
  window r t.

(** A computation on the heap: what it returns (None when it raises) and
    the heap it leaves. *)
Definition hm (A : Type) : Type := Heap -> option A * Heap.

Definition hret {A : Type} (a : A) : hm A := fun h => (Some a, h).

Definition hraise {A : Type} : hm A := fun h => (None, h).

Definition hbind {A B : Type} (m : hm A) (k : A -> hm B) : hm B :=
  fun h => match m h with
           | (Some a, h') => k a h'
           | (None, h') => (None, h')
           end.

Notation "x <<- e ;; k" := (hbind e (fun x => k))
  (at level 61, e at next level, right associativity).

Definition read (r : tref) : hm tensor := fun h => (content h r, h).

(** The result of a computing function (matmul, +, softmax, ...) is put in
    a fresh storage. *)
Definition allocate (t : tensor) : hm tref :=
  fun h => (Some (mk_tref (length (storages h)) (fun s => Some s)),
            mk_Heap (storages h ++ [t]) (generator h)).

Definition computed1 (f : tensor -> option tensor) (a : tref) : hm tref :=
  t <<- read a;;
  match f t with
  | Some y => allocate y
  | None => hraise
  end.

Definition computed2 (f : tensor -> tensor -> option tensor) (a b : tref) : hm tref :=
  ta <<- read a;;
  tb <<- read b;;
  match f ta tb with
  | Some y => allocate y
  | None => hraise
  end.

Definition computed4 (f : list tensor -> option tensor) (a b c d : tref) : hm tref :=
  ta <<- read a;;
  tb <<- read b;;
  tc <<- read c;;
  td <<- read d;;
  match f [ta; tb; tc; td] with
  | Some y => allocate y
  | None => hraise
  end.

(** The result of a view function (unsqueeze, squeeze, transpose, permute,
    view, reshape of a contiguous tensor) shares the storage of its
    argument. *)
Definition viewed (f : tensor -> option tensor) (a : tref) : hm tref :=
  t <<- read a;;
  match f t with
  | Some _ => hret (mk_tref (address a) (fun s => x <- window a s;; f x))
  | None => hraise
  end.

(** What forward does not call but a function on the heap can do: an
    in-place function (add_, copy_, an indexed assignment) overwrites the
    storage of its argument, and a random function (rand, dropout)
    advances the generator and returns a value that depends on it. *)
Definition overwrite (a : tref) (t : tensor) : hm unit :=
  fun h => (Some tt, mk_Heap (replace_at (address a) t (storages h)) (generator h)).

Definition random (s : list nat) (values : nat -> list nat -> R) : hm tref :=
  fun h => (Some (mk_tref (length (storages h)) (fun t => Some t)),
            mk_Heap (storages h ++ [mk_tensor s (values (generator h))]) (S (generator h))).

(** The modules and Frames as objects: their tensors are on the heap. *)
Record LinearRef : Type := mk_LinearRef { weight_ref : tref; bias_ref : option tref }.

Record LinearWithViewRef : Type :=
  mk_LinearWithViewRef { linear_ref : LinearRef; out_features_ref : list nat }.

Record FrameRef : Type := mk_FrameRef { rotations_ref : tref; translations_ref : tref }.

Record ModuleRef : Type := mk_ModuleRef {
  ref_num_heads : nat;
  ref_num_query_points : nat;
  ref_num_value_points : nat;
  ref_query : LinearWithViewRef;
  ref_key : LinearWithViewRef;
  ref_value : LinearWithViewRef;
  ref_query_points : LinearWithViewRef;
  ref_key_points : LinearWithViewRef;
  ref_value_points : LinearWithViewRef;
  ref_bias : LinearRef;
  ref_out : LinearRef;
  ref_scale_head : tref;
  ref_scale_single_rep : R;
  ref_scale_frame : R
}.

(** The values that the objects hold in a heap. *)
Definition Linear_content (h : Heap) (l : LinearRef) : option Linear :=
  w <- content h (weight_ref l);;
  match bias_ref l with
  | Some b => b' <- content h b;; Some (mk_Linear w (Some b'))
  | None => Some (mk_Linear w None)
  end.

Definition LinearWithView_content (h : Heap) (l : LinearWithViewRef)
  : option LinearWithView :=
  l' <- Linear_content h (linear_ref l);;
  Some (mk_LinearWithView l' (out_features_ref l)).

Definition Frame_content (h : Heap) (f : FrameRef) : option Frame :=
  r <- content h (rotations_ref f);;
  t <- content h (translations_ref f);;
  Some (mk_Frame r t).

Definition Module_content (h : Heap) (m : ModuleRef) : option InvariantPointAttention :=
  q <- LinearWithView_content h (ref_query m);;
  k <- LinearWithView_content h (ref_key m);;
  v <- LinearWithView_content h (ref_value m);;
  qp <- LinearWithView_content h (ref_query_points m);;
  kp <- LinearWithView_content h (ref_key_points m);;
  vp <- LinearWithView_content h (ref_value_points m);;
  b <- Linear_content h (ref_bias m);;
  o <- Linear_content h (ref_out m);;
  sh <- content h (ref_scale_head m);;
  Some {| num_heads := ref_num_heads m;
          num_query_points := ref_num_query_points m;
          num_value_points := ref_num_value_points m;
          query := q; key := k; value := v;
          query_points := qp; key_points := kp; value_points := vp;
          bias := b; out := o; scale_head := sh;
          scale_single_rep := ref_scale_single_rep m;
          scale_frame := ref_scale_frame m |}.

(** ** InvariantPointAttention on the heap *)

(** The functions of the module again, statement by statement, with every
    tensor an object on the heap. *)
Definition Linear_forward_h (l : LinearRef) (x : tref) : hm tref :=
  wt <<- viewed (transpose 0 1) (weight_ref l);;
  y <<- computed2 matmul x wt;;
  match bias_ref l with
  | Some b => computed2 add y b
  | None => hret y
  end.

(** Modelled from the spec: [nanofold.util.LinearWithView] is not among the
    sources; on the heap it is the linear layer and a view of its output. *)
Definition LinearWithView_forward_h (l : LinearWithViewRef) (x : tref) : hm tref :=
  y <<- Linear_forward_h (linear_ref l) x;;
  tx <<- read x;;
  viewed (view (map (@Some nat) (removelast (shape tx) ++ out_features_ref l))) y.

(** Modelled from the spec: [nanofold.frame.Frame] is not among the sources;
    on the heap its functions are the ones above, the transpose, unsqueeze
    and squeeze returning views and the products, sums and negation new
    tensors, as torch has them. *)
Definition Frame_apply_h (frames : FrameRef) (vectors : tref) : hm tref :=
  v <<- viewed (unsqueeze (-1)) vectors;;
  rv <<- computed2 matmul (rotations_ref frames) v;;
  t <<- viewed (unsqueeze (-1)) (translations_ref frames);;
  r <<- computed2 add rv t;;
  viewed (squeeze_dim (-1)) r.

Definition Frame_inverse_h (frames : FrameRef) : hm FrameRef :=
  inverse_rotations <<- viewed (transpose (-2) (-1)) (rotations_ref frames);;
  t <<- viewed (unsqueeze (-1)) (translations_ref frames);;
  rt <<- computed2 matmul inverse_rotations t;;
  n <<- computed1 (fun x => Some (neg x)) rt;;
  inverse_translations <<- viewed (squeeze_dim (-1)) n;;
  hret (mk_FrameRef inverse_rotations inverse_translations).

Definition Frame_getitem_None_None_h (frames : FrameRef) : hm FrameRef :=
  r1 <<- viewed (unsqueeze 1) (rotations_ref frames);;
  r2 <<- viewed (unsqueeze 1) r1;;
  t1 <<- viewed (unsqueeze 1) (translations_ref frames);;
  t2 <<- viewed (unsqueeze 1) t1;;
  hret (mk_FrameRef r2 t2).

Definition single_rep_weight_h (self : ModuleRef) (single_rep : tref) : hm tref :=
  q <<- LinearWithView_forward_h (ref_query self) single_rep;;
  k <<- LinearWithView_forward_h (ref_key self) single_rep;;
  q' <<- viewed (unsqueeze (-2)) q;;
  scaled <<- computed1 (fun x => Some (scale (ref_scale_single_rep self) x)) q';;
  k' <<- viewed (permute [1; 2; 0]) k;;
  weight <<- computed2 matmul scaled k';;
  viewed (squeeze_dim (-2)) weight.

Definition pair_rep_weight_h (self : ModuleRef) (pair_rep : tref) : hm tref :=
  b <<- Linear_forward_h (ref_bias self) pair_rep;;
  viewed (transpose (-2) (-1)) b.

Definition frame_weight_h (self : ModuleRef) (frames : FrameRef) (single_rep : tref)
  : hm tref :=
  qp <<- LinearWithView_forward_h (ref_query_points self) single_rep;;
  kp <<- LinearWithView_forward_h (ref_key_points self) single_rep;;
  qp' <<- viewed (transpose 0 (-2)) qp;;
  local_qp <<- Frame_apply_h frames qp';;
  kp' <<- viewed (transpose 0 (-2)) kp;;
  local_kp <<- Frame_apply_h frames kp';;
  lq <<- viewed (unsqueeze (-2)) local_qp;;
  lk <<- viewed (unsqueeze (-3)) local_kp;;
  difference <<- computed2 sub lq lk;;
  d_row <<- viewed (unsqueeze (-2)) difference;;
  d_col <<- viewed (unsqueeze (-1)) difference;;
  squared_distance <<- computed2 matmul d_row d_col;;
  squared_distance <<- viewed (fun x => Some (squeeze x)) squared_distance;;
  s <<- computed1 (sum_dim 0) squared_distance;;
  weight <<- viewed (transpose 0 1) s;;
  sp <<- computed1 (fun x => Some (softplus x)) (ref_scale_head self);;
  sh <<- viewed (unsqueeze (-1)) sp;;
  scaled <<- computed1 (fun x => Some (scale (ref_scale_frame self) x)) sh;;
  computed2 mul scaled weight.

Definition single_rep_attention_h (self : ModuleRef) (weight single_rep : tref) : hm tref :=
  v <<- LinearWithView_forward_h (ref_value self) single_rep;;
  w <<- viewed (unsqueeze (-2)) weight;;
  v' <<- viewed (transpose 0 1) v;;
  attention <<- computed2 matmul w v';;
  viewed (squeeze_dim (-2)) attention.

Definition pair_rep_attention_h (self : ModuleRef) (weight pair_rep : tref) : hm tref :=
  w <<- viewed (unsqueeze (-2)) weight;;
  p <<- viewed (unsqueeze 1) pair_rep;;
  attention <<- computed2 matmul w p;;
  viewed (squeeze_dim (-2)) attention.

Definition frame_attention_h (self : ModuleRef) (weight : tref) (frames : FrameRef)
    (single_rep : tref) : hm tref :=
  vp <<- LinearWithView_forward_h (ref_value_points self) single_rep;;
  vp' <<- viewed (permute [1; 2; 0; 3]) vp;;
  local_vp <<- Frame_apply_h frames vp';;
  w <<- viewed (unsqueeze (-2)) weight;;
  w' <<- viewed (unsqueeze (-2)) w;;
  local_attention <<- computed2 matmul w' local_vp;;
  inv <<- Frame_inverse_h frames;;
  frames_inverse <<- Frame_getitem_None_None_h inv;;
  la <<- viewed (squeeze_dim (-2)) local_attention;;
  Frame_apply_h frames_inverse la.

Definition forward_h (self : ModuleRef) (single_rep pair_rep : tref) (frames : FrameRef)
  : hm tref :=
  a <<- single_rep_weight_h self single_rep;;
  b <<- pair_rep_weight_h self pair_rep;;
  ab <<- computed2 add a b;;
  c <<- frame_weight_h self frames single_rep;;
  weight <<- computed2 add ab c;;
  weight <<- computed1 (softmax (-1)) weight;;
  ts <<- read single_rep;;
  let len_seq := nth 0 (shape ts) 0 in
  single_rep_attention' <<- single_rep_attention_h self weight single_rep;;
  pair_rep_attention' <<- pair_rep_attention_h self weight pair_rep;;
  frame_attention' <<- frame_attention_h self weight frames single_rep;;
  frame_norm_attention <<- computed1 (vector_norm (-1)) frame_attention';;
  fa <<- viewed (view [Some len_seq; Some (ref_num_heads self); None]) frame_attention';;
  attention <<- computed4 (fun ts => cat ts (-1))
                  single_rep_attention' pair_rep_attention' fa frame_norm_attention;;
  attention' <<- viewed (reshape [Some len_seq; None]) attention;;
  Linear_forward_h (ref_out self) attention'.

(** The heap [h'] is [h] with fresh storages: nothing that was in [h] has
    changed, the generator included. *)
Definition extends (h h' : Heap) : Prop :=
  generator h' = generator h /\ exists fresh, storages h' = storages h ++ fresh.

(** The computation [c] run in [h] raises when [g] is None and returns an
    object that holds [t] when [g] is [Some t]; either way it leaves [h]
    with fresh storages only. *)
Definition runs_with {A B : Type} (cont : Heap -> A -> option B) (c : hm A) (h : Heap)
    (g : option B) : Prop :=
  extends h (snd (c h))
  /\ match g with
     | Some t => exists r, fst (c h) = Some r /\ cont (snd (c h)) r = Some t
     | None => fst (c h) = None
     end.

(** A heap for examples: the parameters of the module with zero weights
    for the sizes of the tests, then the inputs of the tests, then other
    tensors; the generator is in state [g]. *)
Definition whole (a : nat) : tref := mk_tref a (fun s => Some s).

Definition test_heap (g : nat) (others : list tensor) : Heap :=
  mk_Heap ([zeros [10; 3]; zeros [10; 3]; zeros [10; 3];
            zeros [24; 3]; zeros [24; 3]; zeros [48; 3];
            zeros [2; 7]; zeros [3; 2 * (7 + 5 + 8 * (3 + 1))]; zeros [3]; ones [2];
            test_single_representation; test_pair_representation;
            rotations (test_frames 10); translations (test_frames 10)] ++ others) g.

Definition test_module_ref : ModuleRef :=
  {| ref_num_heads := 2;
     ref_num_query_points := 4;
     ref_num_value_points := 8;
     ref_query := mk_LinearWithViewRef (mk_LinearRef (whole 0) None) [2; 5];
     ref_key := mk_LinearWithViewRef (mk_LinearRef (whole 1) None) [2; 5];
     ref_value := mk_LinearWithViewRef (mk_LinearRef (whole 2) None) [2; 5];
     ref_query_points := mk_LinearWithViewRef (mk_LinearRef (whole 3) None) [2; 4; 3];
     ref_key_points := mk_LinearWithViewRef (mk_LinearRef (whole 4) None) [2; 4; 3];
     ref_value_points := mk_LinearWithViewRef (mk_LinearRef (whole 5) None) [2; 8; 3];
     ref_bias := mk_LinearRef (whole 6) None;
     ref_out := mk_LinearRef (whole 7) (Some (whole 8));
     ref_scale_head := whole 9;
     ref_scale_single_rep := (1 / sqrt (INR 5))%R;
     ref_scale_frame := (- 1 / sqrt (INR (18 * 4)))%R |}.

Definition test_frames_ref : FrameRef := mk_FrameRef (whole 12) (whole 13).

(** * Properties *)

(** ** The error monad *)

Lemma bind_some {A B : Type} (x : option A) (k : A -> option B) (b : B) :
  bind x k = Some b -> exists a, x = Some a /\ k a = Some b.
Proof. destruct x as [a|]; simpl; intros E; [exists a; auto | discriminate]. Qed.

Lemma bind_none_r {A B : Type} (x : option A) (k : A -> option B) :
  (forall a, k a = None) -> bind x k = None.
Proof. intros E. destruct x; simpl; auto. Qed.

(** ** Sums *)

Lemma sum_n_ext (n : nat) (f g : nat -> R) :
  (forall x, x < n -> f x = g x) -> sum_n n f = sum_n n g.
Proof.
  induction n as [|n IH]; simpl; intros E; [reflexivity|].
  rewrite IH, E by (intros; auto with arith). reflexivity.
Qed.

Lemma sum_n_plus (n : nat) (f g : nat -> R) :
  sum_n n (fun x => (f x + g x)%R) = (sum_n n f + sum_n n g)%R.
Proof. induction n as [|n IH]; simpl; [lra | rewrite IH; lra]. Qed.

Lemma sum_n_scal (n : nat) (c : R) (f : nat -> R) :
  sum_n n (fun x => (c * f x)%R) = (c * sum_n n f)%R.
Proof. induction n as [|n IH]; simpl; [lra | rewrite IH; lra]. Qed.

Lemma sum_n_scal_r (n : nat) (c : R) (f : nat -> R) :
  sum_n n (fun x => (f x * c)%R) = (sum_n n f * c)%R.
Proof. induction n as [|n IH]; simpl; [lra | rewrite IH; lra]. Qed.

Lemma sum_n_const_zero (n : nat) : sum_n n (fun _ => 0%R) = 0%R.
Proof. induction n as [|n IH]; simpl; [reflexivity | rewrite IH; lra]. Qed.

Lemma sum_n_swap (n m : nat) (f : nat -> nat -> R) :
  sum_n n (fun x => sum_n m (fun y => f x y)) = sum_n m (fun y => sum_n n (fun x => f x y)).
Proof.
  induction n as [|n IH]; simpl.
  - symmetry. apply sum_n_const_zero.
  - rewrite IH. symmetry. apply sum_n_plus.
Qed.

Lemma sum_n_pos (n : nat) (f : nat -> R) :
  0 < n -> (forall x, x < n -> (0 < f x)%R) -> (0 < sum_n n f)%R.
Proof.
  induction n as [|n IH]; intros Hn Hf; [lia|].
  simpl. destruct n as [|n].
  - simpl. specialize (Hf 0 ltac:(lia)). lra.
  - specialize (IH ltac:(lia) ltac:(intros; apply Hf; lia)).
    specialize (Hf (S n) ltac:(lia)). lra.
Qed.

(** ** Valid indices *)

Lemma valid_length (s idx : list nat) : valid s idx -> length idx = length s.
Proof. apply Forall2_length. Qed.

Lemma valid_nil : valid [] [].
Proof. constructor. Qed.

Lemma valid_cons (d i : nat) (s idx : list nat) :
  valid (d :: s) (i :: idx) <-> i < d /\ valid s idx.
Proof.
  split.
  - intros V. inversion V; subst. auto.
  - intros [L V]. constructor; auto.
Qed.

Lemma valid_app (s1 s2 i1 i2 : list nat) :
  valid s1 i1 -> valid s2 i2 -> valid (s1 ++ s2) (i1 ++ i2).
Proof. apply Forall2_app. Qed.

Lemma valid_app_inv (s1 s2 idx : list nat) :
  valid (s1 ++ s2) idx ->
  exists i1 i2, idx = i1 ++ i2 /\ valid s1 i1 /\ valid s2 i2.
Proof.
  intros V. apply Forall2_app_inv_r in V.
  destruct V as (i1 & i2 & V1 & V2 & E). exists i1, i2. auto.
Qed.

Lemma valid_nth (s idx : list nat) :
  valid s idx <->
  length idx = length s /\ forall k, k < length s -> nth k idx 0 < nth k s 0.
Proof.
  split.
  - intros V. split; [apply valid_length; auto|].
    induction V as [|i d idx s L V IH]; simpl; intros k Hk; [lia|].
    destruct k; [auto | apply IH; lia].
  - revert idx. induction s as [|d s IH]; intros [|i idx] [E Hn]; simpl in E; try discriminate.
    + constructor.
    + constructor.
      * apply (Hn 0). simpl. lia.
      * apply IH. split; [lia|]. intros k Hk. apply (Hn (S k)). simpl. lia.
Qed.

Lemma valid_remove_at (k : nat) (s idx : list nat) :
  valid s idx -> valid (remove_at k s) (remove_at k idx).
Proof.
  unfold valid. intros V. revert k. induction V as [|i d idx s L V IH]; intros k; simpl.
  - constructor.
  - destruct k; [assumption | constructor; auto].
Qed.

Lemma valid_insert_at (k x d : nat) (s idx : list nat) :
  valid s idx -> x < d -> valid (insert_at k d s) (insert_at k x idx).
Proof.
  unfold valid. intros V Hx. revert k. induction V as [|i d' idx s L V IH]; intros k; simpl.
  - constructor; [auto | constructor].
  - destruct k; constructor; auto.
Qed.

Lemma valid_replace_at (k x : nat) (s idx : list nat) :
  valid s idx -> x < nth k s 0 -> valid s (replace_at k x idx).
Proof.
  unfold valid. intros V. revert k. induction V as [|i d idx s L V IH]; intros k Hx; simpl.
  - constructor.
  - destruct k; simpl in Hx; constructor; auto.
Qed.

Lemma remove_insert_at {A : Type} (k : nat) (x : A) (l : list A) :
  k <= length l -> remove_at k (insert_at k x l) = l.
Proof.
  revert k. induction l as [|y l IH]; intros k Hk; simpl in *.
  - destruct k; [reflexivity | lia].
  - destruct k; simpl; [reflexivity|]. rewrite IH by lia. reflexivity.
Qed.

Lemma insert_remove_at {A : Type} (k : nat) (x : A) (l : list A) :
  nth_error l k = Some x -> insert_at k x (remove_at k l) = l.
Proof.
  revert k. induction l as [|y l IH]; intros k E.
  - destruct k; discriminate.
  - destruct k; simpl in *.
    + inversion E; subst. destruct l; reflexivity.
    + destruct l as [|z l]; [destruct k; discriminate|].
      specialize (IH k E). simpl in IH. simpl. rewrite IH. reflexivity.
Qed.

Lemma replace_at_length {A : Type} (k : nat) (x : A) (l : list A) :
  length (replace_at k x l) = length l.
Proof. revert k. induction l; intros [|k]; simpl; auto. Qed.

Lemma nth_replace_at (k j x : nat) (l : list nat) :
  nth j (replace_at k x l) 0 = if (j =? k) && (k <? length l) then x else nth j l 0.
Proof.
  revert k j. induction l as [|y l IH]; intros k j; simpl.
  - rewrite andb_false_r. reflexivity.
  - destruct k, j; simpl; auto.
Qed.

(** ** Dimension wrapping *)

Lemma wrap_dim_lt (r : nat) (d : Z) (k : nat) :
  wrap_dim r d = Some k -> k < Nat.max r 1.
Proof.
  unfold wrap_dim. destruct (_ && _) eqn:E; [|discriminate].
  intros [= <-]. apply andb_true_iff in E. destruct E as [E1 E2].
  apply Z.leb_le in E1. apply Z.ltb_lt in E2.
  destruct (d <? 0)%Z eqn:E3; [apply Z.ltb_lt in E3 | apply Z.ltb_ge in E3]; lia.
Qed.

(** ** Equality of tensors *)

Lemma teq_refl (a : tensor) : teq a a.
Proof. split; auto. Qed.

Lemma teq_sym (a b : tensor) : teq a b -> teq b a.
Proof. intros [E H]. split; [auto|]. intros idx V. symmetry. apply H. rewrite E. exact V. Qed.

Lemma teq_trans (a b c : tensor) : teq a b -> teq b c -> teq a c.
Proof.
  intros [E1 H1] [E2 H2]. split; [congruence|].
  intros idx V. rewrite H1 by exact V. apply H2. rewrite <- E1. exact V.
Qed.

Lemma orel_bind {A B : Type} (r : A -> A -> Prop) (q : B -> B -> Prop)
    (x y : option A) (k1 k2 : A -> option B) :
  orel r x y -> (forall a b, r a b -> orel q (k1 a) (k2 b)) ->
  orel q (bind x k1) (bind y k2).
Proof. destruct x, y; simpl; intros Hxy Hk; auto; contradiction. Qed.

Lemma orel_refl {A : Type} (r : A -> A -> Prop) (x : option A) :
  (forall a, r a a) -> orel r x x.
Proof. intros Hr. destruct x; simpl; auto. Qed.

Lemma orel_sym {A : Type} (r : A -> A -> Prop) (x y : option A) :
  (forall a b, r a b -> r b a) -> orel r x y -> orel r y x.
Proof. intros Hr. destruct x, y; simpl; auto. Qed.

Lemma orel_trans {A : Type} (r : A -> A -> Prop) (x y z : option A) :
  (forall a b c, r a b -> r b c -> r a c) -> orel r x y -> orel r y z -> orel r x z.
Proof. intros Hr. destruct x, y, z; simpl; eauto; contradiction. Qed.

Lemma oteq_some (a b : tensor) : teq a b -> oteq (Some a) (Some b).
Proof. auto. Qed.

(** ** Every operation reads its arguments at valid indices only *)

Lemma unsqueeze_teq (d : Z) (a b : tensor) : teq a b -> oteq (unsqueeze d a) (unsqueeze d b).
Proof.
  intros [E H]. unfold unsqueeze, rank. rewrite <- E.
  destruct (wrap_dim (length (shape a) + 1) d) as [k|] eqn:W; simpl; [|exact I].
  split; simpl; [reflexivity|]. intros idx V. apply H.
  apply wrap_dim_lt in W.
  rewrite <- (remove_insert_at k 1 (shape a)) by lia.
  apply valid_remove_at. exact V.
Qed.

Lemma squeeze_dim_teq (d : Z) (a b : tensor) : teq a b -> oteq (squeeze_dim d a) (squeeze_dim d b).
Proof.
  intros [E H]. unfold squeeze_dim, rank. rewrite <- E.
  destruct (wrap_dim (length (shape a)) d) as [k|] eqn:W; simpl; [|exact I].
  destruct (nth_error (shape a) k) as [[|[|n]]|] eqn:N; simpl; try (split; assumption).
  split; simpl; [reflexivity|]. intros idx V. apply H.
  rewrite <- (insert_remove_at _ _ _ N).
  apply valid_insert_at; [exact V | lia].
Qed.

Lemma valid_unsqueeze_idx (s idx : list nat) :
  valid (squeeze_shape s) idx -> valid s (unsqueeze_idx s idx).
Proof.
  revert idx. induction s as [|d s IH]; intros idx V; simpl in *.
  - constructor.
  - destruct (Nat.eqb_spec d 1) as [->|Hd].
    + constructor; [lia | apply IH; exact V].
    + destruct idx as [|i idx]; [inversion V|].
      apply valid_cons in V. destruct V as [L V]. constructor; [exact L | apply IH; exact V].
Qed.

Lemma squeeze_teq (a b : tensor) : teq a b -> teq (squeeze a) (squeeze b).
Proof.
  intros [E H]. unfold squeeze. split; simpl; [rewrite E; reflexivity|].
  intros idx V. rewrite <- E. apply H. apply valid_unsqueeze_idx. exact V.
Qed.

Lemma swap_at_length (i j : nat) (l : list nat) : length (swap_at i j l) = length l.
Proof. unfold swap_at. rewrite length_map, length_seq. reflexivity. Qed.

Lemma nth_map_seq (f : nat -> nat) (n k d : nat) :
  k < n -> nth k (map f (seq 0 n)) d = f k.
Proof.
  intros Hk. rewrite (nth_indep _ d (f 0)) by (rewrite length_map, length_seq; exact Hk).
  rewrite (map_nth f (seq 0 n) 0 k), seq_nth by exact Hk. reflexivity.
Qed.

Lemma nth_map_nat (f : nat -> nat) (l : list nat) (k d : nat) :
  k < length l -> nth k (map f l) d = f (nth k l 0).
Proof.
  intros Hk. rewrite (nth_indep _ d (f 0)) by (rewrite length_map; exact Hk).
  apply map_nth.
Qed.

Lemma nth_swap_at (i j k : nat) (l : list nat) :
  k < length l ->
  nth k (swap_at i j l) 0 = nth (if k =? i then j else if k =? j then i else k) l 0.
Proof.
  intros Hk. unfold swap_at.
  rewrite (nth_map_seq (fun k => nth (if k =? i then j else if k =? j then i else k) l 0))
    by exact Hk.
  reflexivity.
Qed.

Lemma valid_swap_at (i j : nat) (s idx : list nat) :
  i < Nat.max (length s) 1 -> j < Nat.max (length s) 1 ->
  valid (swap_at i j s) idx -> valid s (swap_at i j idx).
Proof.
  intros Hi Hj V. apply valid_nth in V. destruct V as [L V].
  rewrite swap_at_length in L, V.
  apply valid_nth. split; [rewrite swap_at_length; exact L|].
  intros k Hk. rewrite nth_swap_at by lia.
  assert (Hi' : i < length s) by lia. assert (Hj' : j < length s) by lia.
  destruct (Nat.eqb_spec k i) as [->|Hki].
  - specialize (V j Hj'). rewrite nth_swap_at in V by lia.
    destruct (Nat.eqb_spec j i) as [->|Hji]; [exact V|].
    rewrite Nat.eqb_refl in V. exact V.
  - destruct (Nat.eqb_spec k j) as [->|Hkj].
    + specialize (V i Hi'). rewrite nth_swap_at in V by lia.
      rewrite Nat.eqb_refl in V. exact V.
    + specialize (V k Hk). rewrite nth_swap_at in V by lia.
      destruct (Nat.eqb_spec k i); [contradiction|].
      destruct (Nat.eqb_spec k j); [contradiction|]. exact V.
Qed.

Lemma transpose_teq (d0 d1 : Z) (a b : tensor) :
  teq a b -> oteq (transpose d0 d1 a) (transpose d0 d1 b).
Proof.
  intros [E H]. unfold transpose, rank. rewrite <- E.
  destruct (wrap_dim (length (shape a)) d0) as [i|] eqn:W0; simpl; [|exact I].
  destruct (wrap_dim (length (shape a)) d1) as [j|] eqn:W1; simpl; [|exact I].
  split; simpl; [reflexivity|]. intros idx V. apply H.
  apply wrap_dim_lt in W0, W1. apply valid_swap_at; assumption.
Qed.

Lemma index_of_nth (m : nat) (dims : list nat) :
  In m dims -> index_of m dims < length dims /\ nth (index_of m dims) dims 0 = m.
Proof.
  induction dims as [|y dims IH]; intros Hin; [contradiction|]. simpl.
  destruct (Nat.eqb_spec y m) as [->|Hne].
  - split; [lia | reflexivity].
  - destruct Hin as [->|Hin]; [contradiction|].
    destruct (IH Hin) as [L N]. split; [lia | exact N].
Qed.

Lemma is_permutation_spec (dims : list nat) (r : nat) :
  is_permutation dims r = true ->
  length dims = r /\ forall m, m < r -> In m dims.
Proof.
  unfold is_permutation. intros E. apply andb_true_iff in E. destruct E as [E1 E2].
  apply Nat.eqb_eq in E1. split; [exact E1|]. intros m Hm.
  rewrite forallb_forall in E2. specialize (E2 m).
  rewrite existsb_exists in E2. destruct E2 as (x & Hin & Hx).
  - apply in_seq. lia.
  - apply Nat.eqb_eq in Hx. subst. exact Hin.
Qed.

Lemma permute_teq (dims : list nat) (a b : tensor) :
  teq a b -> oteq (permute dims a) (permute dims b).
Proof.
  intros [E H]. unfold permute, rank. rewrite <- E.
  destruct (is_permutation dims (length (shape a))) eqn:P; simpl; [|exact I].
  split; simpl; [reflexivity|]. intros idx V. apply H.
  apply is_permutation_spec in P. destruct P as [L P].
  apply valid_nth in V. destruct V as [Li V]. rewrite length_map in Li, V.
  apply valid_nth. split; [rewrite length_map, length_seq; reflexivity|].
  intros k Hk. destruct (index_of_nth _ _ (P k Hk)) as [Hlt Hn].
  specialize (V _ Hlt).
  rewrite (nth_map_seq (fun m => nth (index_of m dims) idx 0)) by exact Hk.
  rewrite (nth_map_nat (fun d => nth d (shape a) 0)), Hn in V by exact Hlt. exact V.
Qed.

(** ** Broadcasting *)

Lemma bdim_same (a : nat) : bdim a a = Some a.
Proof. unfold bdim. rewrite Nat.eqb_refl. destruct (a =? 1); reflexivity. Qed.

Lemma bdim_1_r (a : nat) : bdim a 1 = Some a.
Proof. reflexivity. Qed.

Lemma bdim_1_l (a : nat) : bdim 1 a = Some a.
Proof.
  unfold bdim. destruct (Nat.eqb_spec a 1) as [->|]; reflexivity.
Qed.

Lemma bdim_inv (a b d : nat) :
  bdim a b = Some d -> (b = 1 /\ d = a) \/ (a = 1 /\ d = b) \/ (a = b /\ d = a).
Proof.
  unfold bdim.
  destruct (Nat.eqb_spec b 1); [intros [= <-]; auto|].
  destruct (Nat.eqb_spec a 1); [intros [= <-]; auto|].
  destruct (Nat.eqb_spec a b); [intros [= <-]; auto | discriminate].
Qed.

Lemma bidx_lt (d i : nat) : i < d -> bidx d i = i.
Proof. unfold bidx. destruct (Nat.eqb_spec d 1); intros; lia. Qed.

Lemma bidx_1 (i : nat) : bidx 1 i = 0.
Proof. reflexivity. Qed.

Lemma bidx_idem (d i : nat) : bidx d (bidx d i) = bidx d i.
Proof. unfold bidx. destruct (d =? 1); reflexivity. Qed.

Lemma bidx_bound (a b d i : nat) :
  bdim a b = Some d -> i < d -> bidx a i < a /\ bidx b i < b.
Proof.
  intros E Hi. unfold bidx.
  destruct (bdim_inv _ _ _ E) as [[-> ->]|[[-> ->]|[-> ->]]]; simpl;
    repeat match goal with |- context [?x =? 1] => destruct (Nat.eqb_spec x 1) end; lia.
Qed.

Lemma bdims_valid (p1 p2 s idx : list nat) :
  bdims p1 p2 = Some s -> valid s idx ->
  valid p1 (bidx_list p1 idx) /\ valid p2 (bidx_list p2 idx).
Proof.
  revert p2 s idx. induction p1 as [|a p1 IH]; intros [|b p2] s idx E V; simpl in E;
    try discriminate.
  - inversion E; subst. inversion V; subst. split; constructor.
  - destruct (bdim a b) as [d|] eqn:D; simpl in E; [|discriminate].
    destruct (bdims p1 p2) as [r|] eqn:B; simpl in E; [|discriminate].
    inversion E; subst. destruct idx as [|i idx]; [inversion V|].
    apply valid_cons in V. destruct V as [L V].
    destruct (IH _ _ _ B V) as [V1 V2]. destruct (bidx_bound _ _ _ _ D L) as [L1 L2].
    simpl. split; constructor; assumption.
Qed.

Lemma bdims_length (p1 p2 s : list nat) :
  bdims p1 p2 = Some s -> length s = length p1 /\ length s = length p2.
Proof.
  revert p2 s. induction p1 as [|a p1 IH]; intros [|b p2] s E; simpl in E; try discriminate.
  - inversion E. auto.
  - destruct (bdim a b) as [d|]; simpl in E; [|discriminate].
    destruct (bdims p1 p2) as [r|] eqn:B; simpl in E; [|discriminate].
    inversion E; subst. destruct (IH _ _ B). simpl. lia.
Qed.

Lemma pad_shape_length (n : nat) (s : list nat) :
  length s <= n -> length (pad_shape n s) = n.
Proof. intros L. unfold pad_shape. rewrite length_app, repeat_length. lia. Qed.

Lemma skipn_pad_shape (n : nat) (s : list nat) :
  skipn (n - length s) (pad_shape n s) = s.
Proof.
  unfold pad_shape. rewrite skipn_app, repeat_length, Nat.sub_diag.
  rewrite skipn_all2 by (rewrite repeat_length; lia). reflexivity.
Qed.

Lemma valid_skipn (k : nat) (s idx : list nat) :
  valid s idx -> valid (skipn k s) (skipn k idx).
Proof.
  unfold valid. intros V. revert k. induction V; intros [|k]; simpl; auto.
Qed.

Lemma valid_firstn (k : nat) (s idx : list nat) :
  valid s idx -> valid (firstn k s) (firstn k idx).
Proof.
  unfold valid. intros V. revert k. induction V; intros [|k]; simpl; auto.
Qed.

Lemma broadcast_shapes_length (s1 s2 s : list nat) :
  broadcast_shapes s1 s2 = Some s -> length s = Nat.max (length s1) (length s2).
Proof.
  unfold broadcast_shapes. intros E. apply bdims_length in E. destruct E as [E _].
  rewrite E. apply pad_shape_length. lia.
Qed.

Lemma broadcast_valid (s1 s2 s idx : list nat) :
  broadcast_shapes s1 s2 = Some s -> valid s idx ->
  valid s1 (bcast_idx s1 idx) /\ valid s2 (bcast_idx s2 idx).
Proof.
  intros E V. pose proof (broadcast_shapes_length _ _ _ E) as L.
  pose proof (valid_length _ _ V) as Li. unfold broadcast_shapes in E.
  destruct (bdims_valid _ _ _ _ E V) as [V1 V2]. unfold bcast_idx.
  rewrite Li, L. split.
  - rewrite <- (skipn_pad_shape (Nat.max (length s1) (length s2)) s1) at 1.
    apply valid_skipn. exact V1.
  - rewrite <- (skipn_pad_shape (Nat.max (length s1) (length s2)) s2) at 1.
    apply valid_skipn. exact V2.
Qed.

Lemma zip_with_teq (f : R -> R -> R) (a a' b b' : tensor) :
  teq a a' -> teq b b' -> oteq (zip_with f a b) (zip_with f a' b').
Proof.
  intros [Ea Ha] [Eb Hb]. unfold zip_with. rewrite <- Ea, <- Eb.
  destruct (broadcast_shapes (shape a) (shape b)) as [s|] eqn:B; simpl; [|exact I].
  split; simpl; [reflexivity|]. intros idx V.
  destruct (broadcast_valid _ _ _ _ B V) as [V1 V2].
  rewrite Ha, Hb by assumption. reflexivity.
Qed.

Lemma add_teq (a a' b b' : tensor) : teq a a' -> teq b b' -> oteq (add a b) (add a' b').
Proof. apply zip_with_teq. Qed.

Lemma sub_teq (a a' b b' : tensor) : teq a a' -> teq b b' -> oteq (sub a b) (sub a' b').
Proof. apply zip_with_teq. Qed.

Lemma mul_teq (a a' b b' : tensor) : teq a a' -> teq b b' -> oteq (mul a b) (mul a' b').
Proof. apply zip_with_teq. Qed.

Lemma scale_teq (c : R) (a b : tensor) : teq a b -> teq (scale c a) (scale c b).
Proof. intros [E H]. split; simpl; [exact E|]. intros idx V. rewrite H by exact V. reflexivity. Qed.

Lemma neg_teq (a b : tensor) : teq a b -> teq (neg a) (neg b).
Proof. intros [E H]. split; simpl; [exact E|]. intros idx V. rewrite H by exact V. reflexivity. Qed.

Lemma softplus_teq (a b : tensor) : teq a b -> teq (softplus a) (softplus b).
Proof. intros [E H]. split; simpl; [exact E|]. intros idx V. rewrite H by exact V. reflexivity. Qed.

(** ** Matrix product *)

Lemma split_last2_spec (s b : list nat) (r c : nat) :
  split_last2 s = Some (b, r, c) -> s = b ++ [r; c].
Proof.
  unfold split_last2. destruct (rev s) as [|c' [|r' b']] eqn:E; try discriminate.
  intros [= <- <- <-]. rewrite <- (rev_involutive s), E. simpl.
  rewrite <- app_assoc. reflexivity.
Qed.

Lemma valid_last2 (batch idx : list nat) (m n : nat) :
  valid (batch ++ [m; n]) idx ->
  valid batch (firstn (length idx - 2) idx)
  /\ nth (length idx - 2) idx 0 < m /\ nth (length idx - 1) idx 0 < n.
Proof.
  intros V. apply valid_app_inv in V. destruct V as (bi & l & -> & Vb & Vl).
  pose proof (valid_length _ _ Vb) as Lb.
  destruct l as [|r [|c [|]]]; try (inversion Vl as [|? ? ? ? ? X]; inversion X as [|? ? ? ? ? Y]; inversion Y; fail).
  apply valid_cons in Vl. destruct Vl as [Hr Vl]. apply valid_cons in Vl. destruct Vl as [Hc _].
  rewrite length_app. simpl.
  replace (length bi + 2 - 2) with (length bi) by lia.
  replace (length bi + 2 - 1) with (S (length bi)) by lia.
  rewrite firstn_app, Nat.sub_diag, firstn_all. simpl. rewrite app_nil_r.
  split; [exact Vb|].
  rewrite !app_nth2 by lia. rewrite Nat.sub_diag.
  replace (S (length bi) - length bi) with 1 by lia. simpl. auto.
Qed.

Lemma matmul_nd_teq (a a' b b' : tensor) :
  teq a a' -> teq b b' -> oteq (matmul_nd a b) (matmul_nd a' b').
Proof.
  intros [Ea Ha] [Eb Hb]. unfold matmul_nd. rewrite <- Ea, <- Eb.
  destruct (split_last2 (shape a)) as [[[ba m] k]|] eqn:Sa; [|exact I].
  destruct (split_last2 (shape b)) as [[[bb k'] n]|] eqn:Sb; [|exact I].
  destruct (k =? k') eqn:K; [|exact I]. apply Nat.eqb_eq in K. subst k'.
  destruct (broadcast_shapes ba bb) as [batch|] eqn:B; simpl; [|exact I].
  split; simpl; [reflexivity|]. intros idx V.
  apply valid_last2 in V. destruct V as (Vb & Hr & Hc).
  destruct (broadcast_valid _ _ _ _ B Vb) as [V1 V2].
  apply split_last2_spec in Sa, Sb.
  apply sum_n_ext. intros x Hx. rewrite Ha, Hb; [reflexivity| |].
  - rewrite Sb. apply valid_app; [exact V2|]. repeat constructor; assumption.
  - rewrite Sa. apply valid_app; [exact V1|]. repeat constructor; assumption.
Qed.

Lemma matmul_teq (a a' b b' : tensor) :
  teq a a' -> teq b b' -> oteq (matmul a b) (matmul a' b').
Proof.
  intros Ta Tb. pose proof Ta as [Ea _]. pose proof Tb as [Eb _].
  unfold matmul, rank. rewrite <- Ea, <- Eb.
  destruct (length (shape a)) as [|[|ra]]; [exact I| |];
    destruct (length (shape b)) as [|[|rb]]; try exact I.
  - apply orel_bind with (r := teq); [apply unsqueeze_teq; exact Ta|]. intros x x' Tx.
    apply orel_bind with (r := teq); [apply unsqueeze_teq; exact Tb|]. intros y y' Ty.
    apply orel_bind with (r := teq); [apply matmul_nd_teq; assumption|]. intros z z' Tz.
    apply orel_bind with (r := teq); [apply squeeze_dim_teq; assumption|]. intros w w' Tw.
    apply squeeze_dim_teq; assumption.
  - apply orel_bind with (r := teq); [apply unsqueeze_teq; exact Ta|]. intros x x' Tx.
    apply orel_bind with (r := teq); [apply matmul_nd_teq; assumption|]. intros z z' Tz.
    apply squeeze_dim_teq; assumption.
  - apply orel_bind with (r := teq); [apply unsqueeze_teq; exact Tb|]. intros y y' Ty.
    apply orel_bind with (r := teq); [apply matmul_nd_teq; assumption|]. intros z z' Tz.
    apply squeeze_dim_teq; assumption.
  - apply matmul_nd_teq; assumption.
Qed.

(** ** Reductions *)

Lemma wrap_dim_shape_lt (s : list nat) (d : Z) (k : nat) :
  wrap_dim (length s) d = Some k -> s <> [] -> k < length s.
Proof.
  intros W Hs. apply wrap_dim_lt in W. destruct s; [contradiction | simpl in *; lia].
Qed.

Lemma valid_insert_at_nth (k x : nat) (s idx : list nat) :
  k < length s -> valid (remove_at k s) idx -> x < nth k s 0 -> valid s (insert_at k x idx).
Proof.
  intros Hk V Hx.
  assert (N : nth_error s k = Some (nth k s 0)) by (apply nth_error_nth'; exact Hk).
  rewrite <- (insert_remove_at _ _ _ N) at 1.
  apply valid_insert_at; assumption.
Qed.

Lemma sum_dim_teq (d : Z) (a b : tensor) : teq a b -> oteq (sum_dim d a) (sum_dim d b).
Proof.
  intros T. pose proof T as [E H]. unfold sum_dim, rank. rewrite <- E.
  destruct (wrap_dim (length (shape a)) d) as [k|] eqn:W; simpl; [|exact I].
  destruct (shape a) as [|d0 s] eqn:S; [exact T|].
  split; simpl; [reflexivity|]. intros idx V.
  apply sum_n_ext. intros x Hx. apply H.
  apply valid_insert_at_nth; try assumption.
  apply (wrap_dim_shape_lt _ _ _ W). discriminate.
Qed.

Lemma softmax_teq (d : Z) (a b : tensor) : teq a b -> oteq (softmax d a) (softmax d b).
Proof.
  intros [E H]. unfold softmax, rank, dim_size. rewrite <- E.
  destruct (wrap_dim (length (shape a)) d) as [k|] eqn:W; simpl; [|exact I].
  split; simpl; [reflexivity|]. intros idx V.
  rewrite H by exact V.
  match goal with |- (_ / ?x = _ / ?y)%R => replace y with x; [reflexivity|] end.
  destruct (shape a) as [|d0 s] eqn:S.
  - inversion V; subst. simpl. rewrite H by constructor. reflexivity.
  - apply sum_n_ext. intros x Hx. f_equal. apply H.
    apply valid_replace_at; assumption.
Qed.

Lemma vector_norm_teq (d : Z) (a b : tensor) :
  teq a b -> oteq (vector_norm d a) (vector_norm d b).
Proof.
  intros [E H]. unfold vector_norm, rank. rewrite <- E.
  destruct (wrap_dim (length (shape a)) d) as [k|] eqn:W; simpl; [|exact I].
  destruct (shape a) as [|d0 s] eqn:S.
  - split; simpl; [reflexivity|]. intros idx V. rewrite H by exact V. reflexivity.
  - split; simpl; [reflexivity|]. intros idx V. f_equal.
    apply sum_n_ext. intros x Hx. rewrite H; [reflexivity|].
    apply valid_insert_at_nth; try assumption.
    apply (wrap_dim_shape_lt _ _ _ W). discriminate.
Qed.

(** ** Concatenation *)

Lemma list_eqb_eq (l1 l2 : list nat) : list_eqb l1 l2 = true <-> l1 = l2.
Proof.
  revert l2. induction l1 as [|a l1 IH]; intros [|b l2]; simpl; split; intros E;
    try discriminate; try reflexivity.
  - apply andb_true_iff in E. destruct E as [E1 E2].
    apply Nat.eqb_eq in E1. apply IH in E2. congruence.
  - inversion E; subst. rewrite Nat.eqb_refl. simpl. apply IH. reflexivity.
Qed.

Lemma replace_at_eq_nth (k : nat) (s s0 : list nat) :
  replace_at k 0 s = replace_at k 0 s0 ->
  length s = length s0 /\ forall j, j <> k -> nth j s 0 = nth j s0 0.
Proof.
  intros E. split.
  - rewrite <- (replace_at_length k 0 s), E. apply replace_at_length.
  - intros j Hj. assert (N : nth j (replace_at k 0 s) 0 = nth j (replace_at k 0 s0) 0)
      by (rewrite E; reflexivity).
    rewrite !nth_replace_at in N.
    destruct (Nat.eqb_spec j k); [contradiction|]. exact N.
Qed.

Lemma cat_get_teq (k : nat) (s0 : list nat) (ts ts' : list tensor) (idx : list nat) :
  Forall2 teq ts ts' -> cat_compatible k s0 ts ->
  length idx = length s0 ->
  (forall j, j < length s0 -> j <> k -> nth j idx 0 < nth j s0 0) ->
  nth k idx 0 < cat_size k ts ->
  cat_get k ts idx = cat_get k ts' idx.
Proof.
  intros F. revert idx. induction F as [|t t' ts ts' T F IH]; intros idx C L Hj Hk.
  - reflexivity.
  - inversion C as [|? ? Ct Cts]; subst. destruct T as [E H]. simpl in *.
    rewrite <- E. destruct (Nat.ltb_spec (nth k idx 0) (nth k (shape t) 0)) as [Hlt|Hge].
    + apply H. apply replace_at_eq_nth in Ct. destruct Ct as [Ls Hn].
      apply valid_nth. split; [congruence|]. intros j Hjl.
      destruct (Nat.eq_dec j k) as [->|Hne]; [exact Hlt|].
      rewrite Hn by exact Hne. apply Hj; [lia | exact Hne].
    + apply IH.
      * exact Cts.
      * rewrite replace_at_length. exact L.
      * intros j Hjl Hne. rewrite nth_replace_at.
        destruct (Nat.eqb_spec j k); [contradiction|]. simpl. apply Hj; assumption.
      * rewrite nth_replace_at. rewrite Nat.eqb_refl. simpl.
        change (cat_size k (t :: ts)) with (nth k (shape t) 0 + cat_size k ts) in Hk.
        destruct (Nat.ltb_spec k (length idx)); [lia|].
        rewrite (nth_overflow idx) in Hge, Hk |- * by lia. lia.
Qed.

Lemma cat_teq (ts ts' : list tensor) (d : Z) :
  Forall2 teq ts ts' -> oteq (cat ts d) (cat ts' d).
Proof.
  intros F. unfold cat. destruct F as [|t0 t0' rest rest' T0 F]; [exact I|].
  pose proof T0 as [E0 H0]. unfold rank. rewrite <- E0.
  assert (Efa : forall k s,
             forallb (fun t => list_eqb (replace_at k 0 (shape t)) s) rest'
             = forallb (fun t => list_eqb (replace_at k 0 (shape t)) s) rest).
  { intros k s. clear -F. induction F as [|t t' ts ts' [E _] F IH]; simpl; [reflexivity|].
    rewrite IH, E. reflexivity. }
  assert (Esz : forall k, cat_size k (t0' :: rest') = cat_size k (t0 :: rest)).
  { intros k. unfold cat_size. simpl. rewrite <- E0. f_equal.
    clear -F. induction F as [|t t' ts ts' [E _] F IH]; simpl; [reflexivity|].
    rewrite IH, E. reflexivity. }
  remember (shape t0) as sh eqn:S0.
  destruct sh as [|d0 s0]; [exact I|].
  assert (Hne : shape t0 <> []) by (rewrite <- S0; discriminate).
  rewrite S0 in *. clear S0.
  destruct (wrap_dim (length (shape t0)) d) as [k|] eqn:W; [|exact I].
  cbn [bind]. rewrite Efa, Esz.
  destruct (forallb _ rest) eqn:FA; [|exact I].
  split; cbn [shape get]; [reflexivity|]. intros idx V.
  assert (Hk : k < length (shape t0)) by (apply (wrap_dim_shape_lt _ _ _ W); exact Hne).
  apply valid_nth in V. destruct V as [L V]. rewrite replace_at_length in L, V.
  apply (cat_get_teq k (shape t0)).
  - constructor; assumption.
  - constructor; [reflexivity|]. rewrite forallb_forall in FA.
    apply Forall_forall. intros t Ht. apply list_eqb_eq. apply FA. exact Ht.
  - exact L.
  - intros j Hj Hne'. specialize (V j Hj). rewrite nth_replace_at in V.
    destruct (Nat.eqb_spec j k); [contradiction|]. exact V.
  - specialize (V k Hk). rewrite nth_replace_at, Nat.eqb_refl in V.
    destruct (Nat.ltb_spec k (length (shape t0))); [|lia]. exact V.
Qed.

(** ** Views *)

Lemma ravel_lt (s idx : list nat) : valid s idx -> ravel s idx < numel s.
Proof.
  unfold valid. intros V. induction V as [|i d idx s L V IH]; simpl; [lia|]. nia.
Qed.

Lemma unravel_valid (s : list nat) (n : nat) : n < numel s -> valid s (unravel s n).
Proof.
  revert n. induction s as [|d s IH]; intros n Hn; simpl in *; [constructor|].
  assert (Hs : numel s <> 0) by (intros Z; rewrite Z in Hn; lia).
  constructor.
  - apply Nat.Div0.div_lt_upper_bound. lia.
  - apply IH. apply Nat.mod_upper_bound. exact Hs.
Qed.

Lemma numel_inferred (q : nat) (dims : list (option nat)) :
  numel (map (fun d => match d with Some x => x | None => q end) dims)
  = known_numel dims * q ^ count_inferred dims.
Proof.
  unfold count_inferred. induction dims as [|[x|] dims IH]; simpl.
  - reflexivity.
  - fold (numel (map (fun d => match d with Some x => x | None => q end) dims)).
    rewrite IH. lia.
  - fold (numel (map (fun d => match d with Some x => x | None => q end) dims)).
    rewrite IH. lia.
Qed.

Lemma infer_shape_numel (n : nat) (dims : list (option nat)) (s : list nat) :
  infer_shape n dims = Some s -> numel s = n.
Proof.
  unfold infer_shape. destruct (count_inferred dims) as [|[|c]] eqn:C; [| |discriminate].
  - destruct (Nat.eqb_spec (known_numel dims) n) as [E|]; [|discriminate].
    intros [= <-]. rewrite numel_inferred, C. simpl. lia.
  - destruct (Nat.eqb_spec (known_numel dims) 0) as [|Hp]; [discriminate|].
    destruct (Nat.eqb_spec (n mod known_numel dims) 0) as [Hm|]; [|discriminate].
    intros [= <-]. rewrite numel_inferred, C. simpl.
    rewrite Nat.mul_1_r. symmetry. apply Nat.Div0.div_exact. exact Hm.
Qed.

Lemma view_teq (dims : list (option nat)) (a b : tensor) :
  teq a b -> oteq (view dims a) (view dims b).
Proof.
  intros [E H]. unfold view. rewrite <- E.
  destruct (infer_shape (numel (shape a)) dims) as [s|] eqn:S; simpl; [|exact I].
  split; simpl; [reflexivity|]. intros idx V. apply H.
  apply unravel_valid. rewrite <- (infer_shape_numel _ _ _ S). apply ravel_lt. exact V.
Qed.

Lemma reshape_teq (dims : list (option nat)) (a b : tensor) :
  teq a b -> oteq (reshape dims a) (reshape dims b).
Proof. apply view_teq. Qed.

(** ** Linear layers *)

Lemma Linear_forward_teq (l l' : Linear) (x x' : tensor) :
  linear_eq l l' -> teq x x' -> oteq (Linear_forward l x) (Linear_forward l' x').
Proof.
  intros [Tw Tb] Tx. unfold Linear_forward.
  apply orel_bind with (r := teq); [apply transpose_teq; exact Tw|]. intros w w' Tw'.
  apply orel_bind with (r := teq); [apply matmul_teq; assumption|]. intros y y' Ty.
  destruct (lin_bias l) as [b|], (lin_bias l') as [b'|]; simpl in Tb; try contradiction.
  - apply add_teq; assumption.
  - exact Ty.
Qed.

Lemma LinearWithView_forward_teq (l l' : LinearWithView) (x x' : tensor) :
  linear_with_view_eq l l' -> teq x x' ->
  oteq (LinearWithView_forward l x) (LinearWithView_forward l' x').
Proof.
  intros [Tl Eo] Tx. unfold LinearWithView_forward.
  apply orel_bind with (r := teq); [apply Linear_forward_teq; assumption|]. intros y y' Ty.
  destruct Tx as [Ex _]. rewrite <- Ex, <- Eo. apply view_teq. exact Ty.
Qed.

(** ** Frames *)

Lemma Frame_apply_teq (f f' : Frame) (v v' : tensor) :
  frame_eq f f' -> teq v v' -> oteq (Frame_apply f v) (Frame_apply f' v').
Proof.
  intros [Tr Tt] Tv. unfold Frame_apply.
  apply orel_bind with (r := teq); [apply unsqueeze_teq; exact Tv|]. intros a a' Ta.
  apply orel_bind with (r := teq); [apply matmul_teq; assumption|]. intros b b' Tb.
  apply orel_bind with (r := teq); [apply unsqueeze_teq; exact Tt|]. intros c c' Tc.
  apply orel_bind with (r := teq); [apply add_teq; assumption|]. intros e e' Te.
  apply squeeze_dim_teq. exact Te.
Qed.

Lemma Frame_inverse_eq (f f' : Frame) :
  frame_eq f f' -> oframe_eq (Frame_inverse f) (Frame_inverse f').
Proof.
  intros [Tr Tt]. unfold Frame_inverse.
  apply orel_bind with (r := teq); [apply transpose_teq; exact Tr|]. intros a a' Ta.
  apply orel_bind with (r := teq); [apply unsqueeze_teq; exact Tt|]. intros b b' Tb.
  apply orel_bind with (r := teq); [apply matmul_teq; assumption|]. intros c c' Tc.
  apply orel_bind with (r := teq); [apply squeeze_dim_teq, neg_teq; exact Tc|].
  intros e e' Te. split; assumption.
Qed.

Lemma Frame_compose_eq (a a' b b' : Frame) :
  frame_eq a a' -> frame_eq b b' -> oframe_eq (Frame_compose a b) (Frame_compose a' b').
Proof.
  intros [Tra Tta] [Trb Ttb]. unfold Frame_compose.
  apply orel_bind with (r := teq); [apply matmul_teq; assumption|]. intros r r' Tr.
  apply orel_bind with (r := teq); [apply unsqueeze_teq; exact Ttb|]. intros x x' Tx.
  apply orel_bind with (r := teq); [apply matmul_teq; assumption|]. intros y y' Ty.
  apply orel_bind with (r := teq); [apply unsqueeze_teq; exact Tta|]. intros z z' Tz.
  apply orel_bind with (r := teq); [apply add_teq; assumption|]. intros u u' Tu.
  apply orel_bind with (r := teq); [apply squeeze_dim_teq; exact Tu|]. intros w w' Tw.
  split; assumption.
Qed.

Lemma Frame_getitem_None_None_eq (f f' : Frame) :
  frame_eq f f' -> oframe_eq (Frame_getitem_None_None f) (Frame_getitem_None_None f').
Proof.
  intros [Tr Tt]. unfold Frame_getitem_None_None.
  apply orel_bind with (r := teq); [apply unsqueeze_teq; exact Tr|]. intros a a' Ta.
  apply orel_bind with (r := teq); [apply unsqueeze_teq; exact Ta|]. intros b b' Tb.
  apply orel_bind with (r := teq); [apply unsqueeze_teq; exact Tt|]. intros c c' Tc.
  apply orel_bind with (r := teq); [apply unsqueeze_teq; exact Tc|]. intros e e' Te.
  split; assumption.
Qed.

(** ** The methods of InvariantPointAttention are functions of tensor contents *)

Ltac teq_solve :=
  repeat first
    [ assumption
    | apply unsqueeze_teq | apply squeeze_dim_teq | apply transpose_teq
    | apply permute_teq | apply matmul_teq | apply add_teq | apply sub_teq
    | apply mul_teq | apply sum_dim_teq | apply softmax_teq | apply vector_norm_teq
    | apply view_teq | apply reshape_teq | apply scale_teq | apply neg_teq
    | apply softplus_teq | apply squeeze_teq
    | apply Linear_forward_teq | apply LinearWithView_forward_teq
    | apply Frame_apply_teq | apply Frame_inverse_eq
    | apply Frame_getitem_None_None_eq | apply Frame_compose_eq
    | apply cat_teq; repeat (apply Forall2_cons; [assumption|]); apply Forall2_nil ].

Ltac cong :=
  cbv zeta; unfold oteq, oframe_eq;
  lazymatch goal with
  | |- orel _ (bind _ _) (bind _ _) =>
      first [ apply orel_bind with (r := teq) | apply orel_bind with (r := frame_eq) ];
      [ cong | intros ? ? ?; cong ]
  | |- _ => teq_solve
  end.

Ltac ipa_eq_facts M :=
  pose proof (eq_query _ _ M); pose proof (eq_key _ _ M); pose proof (eq_value _ _ M);
  pose proof (eq_query_points _ _ M); pose proof (eq_key_points _ _ M);
  pose proof (eq_value_points _ _ M); pose proof (eq_bias _ _ M);
  pose proof (eq_out _ _ M); pose proof (eq_scale_head _ _ M);
  rewrite <- ?(eq_scale_single_rep _ _ M), <- ?(eq_scale_frame _ _ M),
    <- ?(eq_num_heads _ _ M).

Lemma single_rep_weight_teq (m m' : InvariantPointAttention) (s s' : tensor) :
  ipa_eq m m' -> teq s s' -> oteq (single_rep_weight m s) (single_rep_weight m' s').
Proof.
  intros M T. unfold single_rep_weight. ipa_eq_facts M. cong.
Qed.

Lemma pair_rep_weight_teq (m m' : InvariantPointAttention) (z z' : tensor) :
  ipa_eq m m' -> teq z z' -> oteq (pair_rep_weight m z) (pair_rep_weight m' z').
Proof. intros M T. unfold pair_rep_weight. ipa_eq_facts M. cong. Qed.

Lemma frame_weight_teq (m m' : InvariantPointAttention) (f f' : Frame) (s s' : tensor) :
  ipa_eq m m' -> frame_eq f f' -> teq s s' ->
  oteq (frame_weight m f s) (frame_weight m' f' s').
Proof.
  intros M F T. unfold frame_weight, frame_weight_of, frame_squared_distance.
  ipa_eq_facts M.
  apply orel_bind with (r := teq); [cong | intros ? ? ?; cong].
Qed.

Lemma single_rep_attention_teq (m m' : InvariantPointAttention) (w w' s s' : tensor) :
  ipa_eq m m' -> teq w w' -> teq s s' ->
  oteq (single_rep_attention m w s) (single_rep_attention m' w' s').
Proof. intros M Tw T. unfold single_rep_attention. ipa_eq_facts M. cong. Qed.

Lemma pair_rep_attention_teq (m m' : InvariantPointAttention) (w w' z z' : tensor) :
  teq w w' -> teq z z' ->
  oteq (pair_rep_attention m w z) (pair_rep_attention m' w' z').
Proof. intros Tw T. unfold pair_rep_attention. cong. Qed.

Lemma frame_attention_teq (m m' : InvariantPointAttention) (w w' : tensor) (f f' : Frame)
    (s s' : tensor) :
  ipa_eq m m' -> teq w w' -> frame_eq f f' -> teq s s' ->
  oteq (frame_attention m w f s) (frame_attention m' w' f' s').
Proof. intros M Tw F T. unfold frame_attention. ipa_eq_facts M. cong. Qed.

Lemma forward_logits_teq (m m' : InvariantPointAttention) (s s' z z' : tensor) (f f' : Frame) :
  ipa_eq m m' -> teq s s' -> teq z z' -> frame_eq f f' ->
  oteq (forward_logits m s z f) (forward_logits m' s' z' f').
Proof.
  intros M Ts Tz F. unfold forward_logits.
  apply orel_bind with (r := teq); [apply single_rep_weight_teq; assumption|]. intros a a' Ta.
  apply orel_bind with (r := teq); [apply pair_rep_weight_teq; assumption|]. intros b b' Tb.
  apply orel_bind with (r := teq); [apply add_teq; assumption|]. intros ab ab' Tab.
  apply orel_bind with (r := teq); [apply frame_weight_teq; assumption|]. intros c c' Tc.
  apply add_teq; assumption.
Qed.

Lemma forward_weight_teq (m m' : InvariantPointAttention) (s s' z z' : tensor) (f f' : Frame) :
  ipa_eq m m' -> teq s s' -> teq z z' -> frame_eq f f' ->
  oteq (forward_weight m s z f) (forward_weight m' s' z' f').
Proof.
  intros M Ts Tz F. unfold forward_weight.
  apply orel_bind with (r := teq); [apply forward_logits_teq; assumption|]. intros a a' Ta.
  apply softmax_teq. exact Ta.
Qed.

Lemma forward_concat_teq (m m' : InvariantPointAttention) (n : nat) (sa sa' pa pa' fa fa' : tensor) :
  ipa_eq m m' -> teq sa sa' -> teq pa pa' -> teq fa fa' ->
  oteq (forward_concat m n sa pa fa) (forward_concat m' n sa' pa' fa').
Proof.
  intros M Ts Tp Tf. unfold forward_concat. ipa_eq_facts M. cong.
Qed.

Lemma forward_output_teq (m m' : InvariantPointAttention) (w w' s s' z z' : tensor)
    (f f' : Frame) :
  ipa_eq m m' -> teq w w' -> teq s s' -> teq z z' -> frame_eq f f' ->
  oteq (forward_output m w s z f) (forward_output m' w' s' z' f').
Proof.
  intros M Tw Ts Tz F. unfold forward_output. cbv zeta.
  destruct Ts as [Es Hs]. rewrite <- Es.
  assert (Ts : teq s s') by (split; assumption).
  apply orel_bind with (r := teq); [apply single_rep_attention_teq; assumption|].
  intros sa sa' Tsa.
  apply orel_bind with (r := teq); [apply pair_rep_attention_teq; assumption|].
  intros pa pa' Tpa.
  apply orel_bind with (r := teq); [apply frame_attention_teq; assumption|].
  intros fa fa' Tfa.
  apply forward_concat_teq; assumption.
Qed.

Lemma forward_teq (m m' : InvariantPointAttention) (s s' z z' : tensor) (f f' : Frame) :
  ipa_eq m m' -> teq s s' -> teq z z' -> frame_eq f f' ->
  oteq (forward m s z f) (forward m' s' z' f').
Proof.
  intros M Ts Tz F. unfold forward.
  apply orel_bind with (r := teq); [apply forward_weight_teq; assumption|]. intros w w' Tw.
  apply forward_output_teq; assumption.
Qed.

(** ** Evaluating the operations on tensors of known shape *)

Ltac is_numeral k :=
  lazymatch k with
  | O => idtac
  | S ?k' => is_numeral k'
  end.

Ltac wrap_eval :=
  repeat match goal with
    | |- context [wrap_dim ?r ?d] =>
        let v := eval vm_compute in (wrap_dim r d) in
        lazymatch v with
        | None => idtac
        | Some ?k => is_numeral k
        end;
        change (wrap_dim r d) with v
    end.

Ltac tensor_ops :=
  unfold unsqueeze, permute, matmul, matmul_nd, squeeze_dim, squeeze, scale, neg,
    transpose, sum_dim, add, sub, mul, zip_with, softplus, softmax, vector_norm,
    broadcast_shapes, split_last2, is_permutation, rank, dim_size.

Ltac use_tests :=
  repeat match goal with
    | H : (?a =? ?b) = _ |- context [?a =? ?b] => rewrite H
    | H : bdim ?a ?b = _ |- context [bdim ?a ?b] => rewrite H
    end.

Ltac tev :=
  repeat (progress (tensor_ops; cbn -[bcast_idx sqrt exp ln]; use_tests; wrap_eval;
                    rewrite ?Nat.eqb_refl, ?bdim_same, ?bdim_1_r, ?bdim_1_l)).

(** Names a tensor hypothesis by its shape: [t] becomes [mk_tensor s g]. *)
Ltac reveal t :=
  let s := fresh "s" in let g := fresh "g" in
  destruct t as [s g]; cbn [shape get] in *; subst s.

Ltac bidx_simpl :=
  rewrite ?bidx_idem;
  repeat match goal with
    | |- context [bidx ?d ?i] => rewrite (bidx_lt d i) by (assumption || lia)
    end.

Lemma known_numel_some (s : list nat) : known_numel (map (@Some nat) s) = numel s.
Proof. induction s as [|d s IH]; simpl; [reflexivity|]. fold (numel s). rewrite IH. reflexivity. Qed.

Lemma count_inferred_some (s : list nat) : count_inferred (map (@Some nat) s) = 0.
Proof. unfold count_inferred. induction s as [|d s IH]; simpl; auto. Qed.

Lemma infer_shape_known (n : nat) (s : list nat) :
  numel s = n -> infer_shape n (map (@Some nat) s) = Some s.
Proof.
  intros E. unfold infer_shape. rewrite count_inferred_some, known_numel_some, E, Nat.eqb_refl.
  rewrite map_map, map_id. reflexivity.
Qed.

Lemma infer_shape_last (n a c : nat) :
  a <> 0 -> n = a * c -> infer_shape n [Some a; None] = Some [a; c].
Proof.
  intros Ha ->. unfold infer_shape. cbn [count_inferred filter length known_numel fold_right].
  rewrite Nat.mul_1_r. destruct (Nat.eqb_spec a 0); [contradiction|].
  rewrite Nat.mul_comm, Nat.Div0.mod_mul. cbn [Nat.eqb map].
  rewrite Nat.div_mul by exact Ha. reflexivity.
Qed.

Lemma infer_shape_last3 (n a b c : nat) :
  a * b <> 0 -> n = a * b * c -> infer_shape n [Some a; Some b; None] = Some [a; b; c].
Proof.
  intros Hab ->. unfold infer_shape. cbn [count_inferred filter length known_numel fold_right].
  rewrite Nat.mul_1_r. destruct (Nat.eqb_spec (a * b) 0); [contradiction|].
  rewrite (Nat.mul_comm (a * b) c), Nat.Div0.mod_mul. cbn [Nat.eqb map].
  rewrite Nat.div_mul by exact Hab. reflexivity.
Qed.

Lemma Linear_forward_spec2 (l : Linear) (n_in n_out a : nat) (x : tensor) :
  linear_shaped l n_in n_out false -> shape x = [a; n_in] ->
  exists y, Linear_forward l x = Some y /\ shape y = [a; n_out] /\
    forall i h, i < a -> h < n_out ->
      get y [i; h] = sum_n n_in (fun c => (get x [i; c] * get (lin_weight l) [h; c])%R).
Proof.
  intros [Sw Sb] Sx. destruct l as [w b]. cbn [lin_weight lin_bias] in *.
  destruct b as [b|]; [destruct Sb; discriminate|].
  reveal w. reveal x. unfold Linear_forward. cbn [lin_weight lin_bias]. tev.
  eexists. split; [reflexivity|]. split; [reflexivity|].
  intros i h Hi Hh. cbn. reflexivity.
Qed.

Lemma Linear_forward_spec3 (l : Linear) (n_in n_out a b : nat) (x : tensor) :
  linear_shaped l n_in n_out false -> shape x = [a; b; n_in] ->
  exists y, Linear_forward l x = Some y /\ shape y = [a; b; n_out] /\
    forall i j h, i < a -> j < b -> h < n_out ->
      get y [i; j; h] = sum_n n_in (fun c => (get x [i; j; c] * get (lin_weight l) [h; c])%R).
Proof.
  intros [Sw Sb] Sx. destruct l as [w bi]. cbn [lin_weight lin_bias] in *.
  destruct bi as [bi|]; [destruct Sb; discriminate|].
  reveal w. reveal x. unfold Linear_forward. cbn [lin_weight lin_bias]. tev.
  eexists. split; [reflexivity|]. split; [reflexivity|].
  intros i j h Hi Hj Hh. cbn. bidx_simpl. reflexivity.
Qed.

Lemma Linear_forward_bias_shape2 (l : Linear) (n_in n_out a : nat) (x : tensor) :
  linear_shaped l n_in n_out true -> shape x = [a; n_in] ->
  exists y, Linear_forward l x = Some y /\ shape y = [a; n_out].
Proof.
  intros [Sw Sb] Sx. destruct l as [w b]. cbn [lin_weight lin_bias] in *.
  destruct b as [b|]; [|discriminate]. destruct Sb as [_ Sb].
  reveal w. reveal x. reveal b. unfold Linear_forward. cbn [lin_weight lin_bias]. tev.
  eexists. split; reflexivity.
Qed.

Lemma LinearWithView_forward_shape (l : LinearWithView) (n_in : nat) (outf : list nat)
    (a : nat) (x : tensor) :
  linear_with_view_shaped l n_in outf -> shape x = [a; n_in] ->
  exists y, LinearWithView_forward l x = Some y /\ shape y = a :: outf.
Proof.
  intros [So Sl] Sx. unfold LinearWithView_forward.
  destruct (Linear_forward_spec2 _ _ _ a _ Sl Sx) as (y & Ey & Sy & _).
  rewrite Ey, Sx, So. cbn [bind removelast app]. unfold view. rewrite Sy.
  rewrite infer_shape_known by (unfold numel; cbn [fold_right]; ring).
  cbn [bind]. eexists. split; reflexivity.
Qed.

(** ** Shapes with an arbitrary batch prefix *)

Lemma wrap_dim_last (r : nat) : wrap_dim (S r) (-1) = Some r.
Proof.
  unfold wrap_dim. replace (Nat.max (S r) 1) with (S r) by lia.
  destruct ((- Z.of_nat (S r) <=? -1)%Z && (-1 <? Z.of_nat (S r))%Z) eqn:E.
  - f_equal. cbn [Z.ltb Z.compare]. lia.
  - apply andb_false_iff in E. destruct E as [E|E];
      [apply Z.leb_gt in E | apply Z.ltb_ge in E]; lia.
Qed.

Lemma insert_at_app {A : Type} (l1 l2 : list A) (k : nat) (x : A) :
  insert_at (length l1 + k) x (l1 ++ l2) = l1 ++ insert_at k x l2.
Proof.
  induction l1 as [|y l1 IH]; simpl; [reflexivity|].
  destruct (l1 ++ l2) eqn:E; rewrite IH; reflexivity.
Qed.

Lemma remove_at_app {A : Type} (l1 l2 : list A) (k : nat) :
  remove_at (length l1 + k) (l1 ++ l2) = l1 ++ remove_at k l2.
Proof. induction l1 as [|y l1 IH]; simpl; [reflexivity|]. rewrite IH. reflexivity. Qed.

Lemma nth_error_app_plus {A : Type} (l1 l2 : list A) (k : nat) :
  nth_error (l1 ++ l2) (length l1 + k) = nth_error l2 k.
Proof. induction l1 as [|y l1 IH]; simpl; auto. Qed.

Lemma split_last2_app (b : list nat) (r c : nat) :
  split_last2 (b ++ [r; c]) = Some (b, r, c).
Proof.
  unfold split_last2. rewrite rev_app_distr. simpl. rewrite rev_involutive. reflexivity.
Qed.

Lemma bdims_same (s : list nat) : bdims s s = Some s.
Proof. induction s as [|d s IH]; simpl; [reflexivity|]. rewrite bdim_same, IH. reflexivity. Qed.

Lemma bdims_ones_l (pre s : list nat) :
  bdims (repeat 1 (length pre) ++ s) (pre ++ s) = Some (pre ++ s).
Proof.
  induction pre as [|d pre IH]; simpl; [apply bdims_same|].
  rewrite bdim_1_l, IH. reflexivity.
Qed.

Lemma bdims_ones_r (pre s : list nat) :
  bdims (pre ++ s) (repeat 1 (length pre) ++ s) = Some (pre ++ s).
Proof.
  induction pre as [|d pre IH]; simpl; [apply bdims_same|].
  rewrite ?bdim_1_r, IH. reflexivity.
Qed.

Lemma pad_shape_full (n : nat) (s : list nat) : n <= length s -> pad_shape n s = s.
Proof. intros L. unfold pad_shape. replace (n - length s) with 0 by lia. reflexivity. Qed.

Lemma broadcast_shapes_suffix_l (pre s : list nat) :
  broadcast_shapes s (pre ++ s) = Some (pre ++ s).
Proof.
  unfold broadcast_shapes. rewrite length_app.
  replace (Nat.max (length s) (length pre + length s)) with (length pre + length s) by lia.
  rewrite (pad_shape_full (length pre + length s) (pre ++ s)) by (rewrite length_app; lia).
  unfold pad_shape. replace (length pre + length s - length s) with (length pre) by lia.
  apply bdims_ones_l.
Qed.

Lemma broadcast_shapes_suffix_r (pre s : list nat) :
  broadcast_shapes (pre ++ s) s = Some (pre ++ s).
Proof.
  unfold broadcast_shapes. rewrite length_app.
  replace (Nat.max (length pre + length s) (length s)) with (length pre + length s) by lia.
  rewrite (pad_shape_full (length pre + length s) (pre ++ s)) by (rewrite length_app; lia).
  unfold pad_shape. replace (length pre + length s - length s) with (length pre) by lia.
  apply bdims_ones_r.
Qed.

Lemma bidx_list_valid (s idx : list nat) : valid s idx -> bidx_list s idx = idx.
Proof.
  unfold valid. intros V. induction V as [|i d idx s L V IH]; simpl; [reflexivity|].
  rewrite IH, bidx_lt by exact L. reflexivity.
Qed.

Lemma bidx_list_ones (k : nat) (s ipre idx : list nat) :
  length ipre = k ->
  bidx_list (repeat 1 k ++ s) (ipre ++ idx) = repeat 0 k ++ bidx_list s idx.
Proof.
  revert ipre. induction k as [|k IH]; intros [|i ipre] L; simpl in L; try discriminate.
  - reflexivity.
  - simpl. rewrite IH by lia. reflexivity.
Qed.

Lemma bcast_idx_valid (s idx : list nat) : valid s idx -> bcast_idx s idx = idx.
Proof.
  intros V. unfold bcast_idx. rewrite (valid_length _ _ V), Nat.sub_diag.
  rewrite pad_shape_full by lia. simpl. apply bidx_list_valid. exact V.
Qed.

Lemma bcast_idx_suffix (s ipre idx : list nat) :
  valid s idx -> bcast_idx s (ipre ++ idx) = idx.
Proof.
  intros V. unfold bcast_idx, pad_shape. rewrite length_app, (valid_length _ _ V).
  replace (length ipre + length s - length s) with (length ipre) by lia.
  rewrite bidx_list_ones by reflexivity.
  rewrite skipn_app, repeat_length, Nat.sub_diag.
  rewrite skipn_all2 by (rewrite repeat_length; lia). simpl.
  apply bidx_list_valid. exact V.
Qed.

Lemma matmul_nd_of_rank (a b : tensor) :
  2 <= rank a -> 2 <= rank b -> matmul a b = matmul_nd a b.
Proof.
  unfold matmul. intros Ha Hb.
  destruct (rank a) as [|[|ra]]; try lia. destruct (rank b) as [|[|rb]]; try lia. reflexivity.
Qed.

Lemma valid_last1 (n i : nat) : i < n -> valid [n] [i].
Proof. intros L. repeat constructor. exact L. Qed.

Lemma valid_last2' (m n i j : nat) : i < m -> j < n -> valid [m; n] [i; j].
Proof. intros L1 L2. repeat constructor; assumption. Qed.

Lemma valid_last3 (l m n i j k : nat) : i < l -> j < m -> k < n -> valid [l; m; n] [i; j; k].
Proof. intros L1 L2 L3. repeat constructor; assumption. Qed.

(** ** Frame.apply *)

Lemma Frame_apply_spec (f : Frame) (n : nat) (pre : list nat) (v : tensor) :
  frame_shaped f n -> shape v = pre ++ [n; 3] ->
  exists r, Frame_apply f v = Some r /\ shape r = pre ++ [n; 3] /\
    forall ipre i c, valid pre ipre -> i < n -> c < 3 ->
      get r (ipre ++ [i; c])
      = (sum_n 3 (fun x => get (rotations f) [i; c; x] * get v (ipre ++ [i; x]))
         + get (translations f) [i; c])%R.
Proof.
  intros [Sr St] Sv. destruct f as [rot tr]. cbn [rotations translations] in *.
  reveal rot. reveal tr. reveal v. unfold Frame_apply. cbn [rotations translations].
  unfold unsqueeze at 1. unfold rank. cbn [shape get].
  replace (length (pre ++ [n; 3]) + 1) with (S (length pre + 2))
    by (rewrite length_app; cbn [length]; lia).
  rewrite wrap_dim_last. cbn [bind]. rewrite insert_at_app. cbn [insert_at].
  rewrite matmul_nd_of_rank
    by (unfold rank; cbn [shape]; rewrite ?length_app; cbn [length]; lia).
  unfold matmul_nd. cbn [shape].
  change (split_last2 [n; 3; 3]) with (Some ([n], 3, 3)).
  change (pre ++ [n; 3; 1]) with (pre ++ [n] ++ [3; 1]).
  rewrite app_assoc, split_last2_app. cbn [Nat.eqb].
  rewrite broadcast_shapes_suffix_l. cbn [bind].
  unfold unsqueeze, rank. cbn [shape get length Nat.add]. wrap_eval. cbn [bind insert_at].
  unfold add, zip_with. cbn [shape]. rewrite <- !app_assoc. cbn [app].
  rewrite (broadcast_shapes_suffix_r pre [n; 3; 1]). cbn [bind].
  unfold squeeze_dim, rank. cbn [shape get].
  replace (length (pre ++ [n; 3; 1])) with (S (length pre + 2))
    by (rewrite length_app; cbn [length]; lia).
  rewrite wrap_dim_last. cbn [bind]. rewrite nth_error_app_plus. cbn [nth_error].
  eexists. split; [reflexivity|]. cbn [shape get]. split.
  - rewrite remove_at_app. reflexivity.
  - intros ipre i c Vp Hi Hc. pose proof (valid_length _ _ Vp) as Lp.
    rewrite <- Lp, !insert_at_app. cbn [insert_at].
    rewrite (bcast_idx_suffix [n; 3; 1] ipre [i; c; 0]) by (apply valid_last3; lia).
    rewrite (bcast_idx_valid (pre ++ [n; 3; 1]) (ipre ++ [i; c; 0]))
      by (apply valid_app; [exact Vp | apply valid_last3; lia]).
    cbn [remove_at].
    replace (length (ipre ++ [i; c; 0]) - 2) with (length ipre + 1)
      by (rewrite length_app; cbn [length]; lia).
    replace (length (ipre ++ [i; c; 0]) - 1) with (length ipre + 2)
      by (rewrite length_app; cbn [length]; lia).
    change (ipre ++ [i; c; 0]) with (ipre ++ [i] ++ [c; 0]).
    rewrite app_assoc.
    replace (length ipre + 1) with (length (ipre ++ [i]))
      by (rewrite length_app; reflexivity).
    rewrite firstn_app, firstn_all, Nat.sub_diag. cbn [firstn]. rewrite app_nil_r.
    rewrite (nth_middle (ipre ++ [i]) [0] c 0).
    replace (length ipre + 2) with (length (ipre ++ [i]) + 1)
      by (rewrite length_app; cbn [length]; lia).
    rewrite (app_nth2_plus (ipre ++ [i]) [c; 0] 0 1). cbn [nth].
    rewrite (bcast_idx_suffix [n] ipre [i]) by (apply valid_last1; exact Hi).
    rewrite (bcast_idx_valid (pre ++ [n]) (ipre ++ [i]))
      by (apply valid_app; [exact Vp | apply valid_last1; exact Hi]).
    f_equal. apply sum_n_ext. intros x Hx. cbn [app]. f_equal.
    rewrite <- app_assoc. cbn [app].
    rewrite length_app. cbn [length].
    replace (length ipre + 1 + 1) with (length ipre + 2) by lia.
    rewrite remove_at_app. reflexivity.
Qed.

(** ** Frame.inverse and Frame.compose *)

Lemma Frame_inverse_spec (f : Frame) (n : nat) :
  frame_shaped f n ->
  exists inv, Frame_inverse f = Some inv /\ frame_shaped inv n /\
    (forall i r c, i < n -> r < 3 -> c < 3 ->
       get (rotations inv) [i; r; c] = get (rotations f) [i; c; r]) /\
    (forall i c, i < n -> c < 3 ->
       get (translations inv) [i; c]
       = (- sum_n 3 (fun x => get (rotations f) [i; x; c] * get (translations f) [i; x]))%R).
Proof.
  intros [Sr St]. destruct f as [rot tr]. cbn [rotations translations] in *.
  reveal rot. reveal tr. unfold Frame_inverse. cbn [rotations translations]. tev.
  eexists. split; [reflexivity|]. cbn [rotations translations shape get].
  split; [split; reflexivity|]. split.
  - intros i r c Hi Hr Hc. cbn. reflexivity.
  - intros i c Hi Hc. cbn. bidx_simpl. reflexivity.
Qed.

Lemma Frame_compose_spec (a b : Frame) (n : nat) :
  frame_shaped a n -> frame_shaped b n ->
  exists ab, Frame_compose a b = Some ab /\ frame_shaped ab n /\
    (forall i r c, i < n -> r < 3 -> c < 3 ->
       get (rotations ab) [i; r; c]
       = sum_n 3 (fun x => get (rotations a) [i; r; x] * get (rotations b) [i; x; c])%R) /\
    (forall i c, i < n -> c < 3 ->
       get (translations ab) [i; c]
       = (sum_n 3 (fun x => get (rotations a) [i; c; x] * get (translations b) [i; x])
          + get (translations a) [i; c])%R).
Proof.
  intros [Sra Sta] [Srb Stb]. destruct a as [ra ta], b as [rb tb].
  cbn [rotations translations] in *. reveal ra. reveal ta. reveal rb. reveal tb.
  unfold Frame_compose. cbn [rotations translations]. tev.
  eexists. split; [reflexivity|]. cbn [rotations translations shape get].
  split; [split; reflexivity|]. split.
  - intros i r c Hi Hr Hc. cbn. bidx_simpl. reflexivity.
  - intros i c Hi Hc. cbn. bidx_simpl. reflexivity.
Qed.

(** Composition with one rigid transform [t] for all residues. *)
Lemma Frame_compose_transform_spec (t b : Frame) (n : nat) :
  transform_shaped t -> frame_shaped b n ->
  exists tb, Frame_compose t b = Some tb /\ frame_shaped tb n /\
    (forall i r c, i < n -> r < 3 -> c < 3 ->
       get (rotations tb) [i; r; c]
       = sum_n 3 (fun x => get (rotations t) [r; x] * get (rotations b) [i; x; c])%R) /\
    (forall i c, i < n -> c < 3 ->
       get (translations tb) [i; c]
       = (sum_n 3 (fun x => get (rotations t) [c; x] * get (translations b) [i; x])
          + get (translations t) [c])%R).
Proof.
  intros [Sra Sta] [Srb Stb]. destruct t as [ra ta], b as [rb tb].
  cbn [rotations translations] in *. reveal ra. reveal ta. reveal rb. reveal tb.
  unfold Frame_compose. cbn [rotations translations]. tev.
  eexists. split; [reflexivity|]. cbn [rotations translations shape get].
  split; [split; reflexivity|]. split.
  - intros i r c Hi Hr Hc. cbn. bidx_simpl. reflexivity.
  - intros i c Hi Hc. cbn. bidx_simpl. reflexivity.
Qed.

Lemma Frame_compose_identity_r (a : Frame) (n : nat) :
  frame_shaped a n -> oframe_eq (Frame_compose a Frame_identity) (Some a).
Proof.
  intros [Sra Sta]. destruct a as [ra ta]. cbn [rotations translations] in *.
  reveal ra. reveal ta. unfold Frame_compose, Frame_identity, eye, zeros.
  cbn [rotations translations]. tev.
  split; cbn [rotations translations]; (split; [reflexivity|]); cbn [shape get]; intros idx V.
  - destruct idx as [|i [|r [|c [|]]]]; try (exfalso; apply valid_length in V; discriminate).
    apply valid_cons in V. destruct V as [Hi V]. apply valid_cons in V. destruct V as [Hr V].
    apply valid_cons in V. destruct V as [Hc _].
    cbn. bidx_simpl.
    destruct c as [|[|[|c]]]; try lia; cbn; ring.
  - destruct idx as [|i [|c [|]]]; try (exfalso; apply valid_length in V; discriminate).
    apply valid_cons in V. destruct V as [Hi V]. apply valid_cons in V. destruct V as [Hc _].
    cbn. bidx_simpl. ring.
Qed.

Lemma Frame_compose_identity_l (a : Frame) (n : nat) :
  frame_shaped a n -> oframe_eq (Frame_compose Frame_identity a) (Some a).
Proof.
  intros [Sra Sta]. destruct a as [ra ta]. cbn [rotations translations] in *.
  reveal ra. reveal ta. unfold Frame_compose, Frame_identity, eye, zeros.
  cbn [rotations translations]. tev.
  split; cbn [rotations translations]; (split; [reflexivity|]); cbn [shape get]; intros idx V.
  - destruct idx as [|i [|r [|c [|]]]]; try (exfalso; apply valid_length in V; discriminate).
    apply valid_cons in V. destruct V as [Hi V]. apply valid_cons in V. destruct V as [Hr V].
    apply valid_cons in V. destruct V as [Hc _].
    cbn. bidx_simpl.
    destruct r as [|[|[|r]]]; try lia; cbn; ring.
  - destruct idx as [|i [|c [|]]]; try (exfalso; apply valid_length in V; discriminate).
    apply valid_cons in V. destruct V as [Hi V]. apply valid_cons in V. destruct V as [Hc _].
    cbn. bidx_simpl.
    destruct c as [|[|[|c]]]; try lia; cbn; ring.
Qed.

(** Splits a valid index of a shape of known rank into its components. *)
Ltac split_valid V :=
  repeat match type of V with
    | valid [] ?idx =>
        apply valid_length in V; destruct idx; [clear V | discriminate V]
    | valid (_ :: _) ?idx =>
        let i := fresh "i" in
        let l := fresh "l" in
        let H := fresh "Hlt" in
        destruct idx as [|i l]; [apply valid_length in V; discriminate V|];
        apply valid_cons in V; destruct V as [H V]
    end.

Lemma teq_of_pointwise3 (a b : tensor) (l m n : nat) :
  shape a = [l; m; n] -> shape b = [l; m; n] ->
  (forall i j k, i < l -> j < m -> k < n -> get a [i; j; k] = get b [i; j; k]) ->
  teq a b.
Proof.
  intros Sa Sb H. split; [congruence|]. rewrite Sa. intros idx V. split_valid V.
  apply H; assumption.
Qed.

Lemma teq_of_pointwise2 (a b : tensor) (m n : nat) :
  shape a = [m; n] -> shape b = [m; n] ->
  (forall j k, j < m -> k < n -> get a [j; k] = get b [j; k]) ->
  teq a b.
Proof.
  intros Sa Sb H. split; [congruence|]. rewrite Sa. intros idx V. split_valid V.
  apply H; assumption.
Qed.

Lemma teq_of_pointwise4 (a b : tensor) (k l m n : nat) :
  shape a = [k; l; m; n] -> shape b = [k; l; m; n] ->
  (forall h i j x, h < k -> i < l -> j < m -> x < n ->
     get a [h; i; j; x] = get b [h; i; j; x]) ->
  teq a b.
Proof.
  intros Sa Sb H. split; [congruence|]. rewrite Sa. intros idx V. split_valid V.
  apply H; assumption.
Qed.

Lemma Frame_compose_assoc (a b c : Frame) (n : nat) :
  frame_shaped a n -> frame_shaped b n -> frame_shaped c n ->
  exists ab bc l r,
    Frame_compose a b = Some ab /\ Frame_compose b c = Some bc /\
    Frame_compose ab c = Some l /\ Frame_compose a bc = Some r /\ frame_eq l r.
Proof.
  intros Fa Fb Fc.
  destruct (Frame_compose_spec a b n Fa Fb) as (ab & Eab & Fab & Rab & Tab).
  destruct (Frame_compose_spec b c n Fb Fc) as (bc & Ebc & Fbc & Rbc & Tbc).
  destruct (Frame_compose_spec ab c n Fab Fc) as (l & El & Fl & Rl & Tl).
  destruct (Frame_compose_spec a bc n Fa Fbc) as (r & Er & Fr & Rr & Tr).
  exists ab, bc, l, r. repeat (split; [assumption|]).
  destruct Fl as [Slr Slt], Fr as [Srr Srt]. split.
  - apply (teq_of_pointwise3 _ _ _ _ _ Slr Srr). intros i j k Hi Hj Hk.
    rewrite Rl, Rr by assumption. cbn [sum_n].
    rewrite !Rab, !Rbc by (assumption || lia). cbn [sum_n]. ring.
  - apply (teq_of_pointwise2 _ _ _ _ Slt Srt). intros i k Hi Hk.
    rewrite Tl, Tr by assumption. cbn [sum_n].
    rewrite !Rab, !Tbc, Tab by (assumption || lia). cbn [sum_n]. ring.
Qed.

(** The algebra of the round trip at one residue: with R^T R = I,
    R^T (R p + t) - R^T t = p. *)
Lemma round_trip_algebra (m : nat -> nat -> R) (t p : nat -> R) (c : nat) :
  c < 3 ->
  (forall b, b < 3 ->
     sum_n 3 (fun x => (m x c * m x b)%R) = if c =? b then 1%R else 0%R) ->
  (sum_n 3 (fun x => m x c * (sum_n 3 (fun y => m x y * p y) + t x))
   + - sum_n 3 (fun x => m x c * t x))%R = p c.
Proof.
  intros Hc O.
  pose proof (O 0 ltac:(lia)) as O0. pose proof (O 1 ltac:(lia)) as O1.
  pose proof (O 2 ltac:(lia)) as O2. cbn [sum_n] in *.
  transitivity
    ((0 + m 0%nat c * m 0%nat 0%nat + m 1%nat c * m 1%nat 0%nat + m 2%nat c * m 2%nat 0%nat)
       * p 0%nat
     + (0 + m 0%nat c * m 0%nat 1%nat + m 1%nat c * m 1%nat 1%nat + m 2%nat c * m 2%nat 1%nat)
       * p 1%nat
     + (0 + m 0%nat c * m 0%nat 2%nat + m 1%nat c * m 1%nat 2%nat + m 2%nat c * m 2%nat 2%nat)
       * p 2%nat)%R; [ring|].
  rewrite O0, O1, O2.
  destruct c as [|[|[|c]]]; try lia; cbn [Nat.eqb]; ring.
Qed.

Lemma Frame_round_trip (f : Frame) (n : nat) (pre : list nat) (p : tensor) :
  frame_shaped f n -> shape p = pre ++ [n; 3] ->
  (forall i, i < n -> orthonormal_at (rotations f) [i]) ->
  exists inv q r,
    Frame_inverse f = Some inv /\ Frame_apply f p = Some q /\
    Frame_apply inv q = Some r /\ teq r p.
Proof.
  intros Ff Sp Orth.
  destruct (Frame_inverse_spec f n Ff) as (inv & Ei & Fi & Ri & Ti).
  destruct (Frame_apply_spec f n pre p Ff Sp) as (q & Eq & Sq & Gq).
  destruct (Frame_apply_spec inv n pre q Fi Sq) as (r & Er & Sr & Gr).
  exists inv, q, r. repeat (split; [assumption|]).
  split; [congruence|]. rewrite Sr. intros idx V.
  apply valid_app_inv in V. destruct V as (ipre & l & -> & Vp & Vl). split_valid Vl.
  rewrite Gr by assumption. rewrite Ti by assumption.
  rewrite <- (round_trip_algebra (fun x y => get (rotations f) [i; x; y])
                (fun x => get (translations f) [i; x])
                (fun y => get p (ipre ++ [i; y])) i0 Hlt0
                (fun b Hb => Orth i Hlt i0 b Hlt0 Hb)).
  f_equal. apply sum_n_ext. intros x Hx.
  rewrite Ri, Gq by assumption. reflexivity.
Qed.

(** ** The methods of InvariantPointAttention on well-shaped arguments *)

Section Methods.

Variable self : InvariantPointAttention.
Variables single_embedding_size pair_embedding_size ipa_embedding_size len_seq : nat.
Variables single_rep pair_rep : tensor.
Variable frames : Frame.

Hypothesis Hinit :
  initialised self single_embedding_size pair_embedding_size ipa_embedding_size.
Hypothesis Hsingle : shape single_rep = [len_seq; single_embedding_size].
Hypothesis Hpair : shape pair_rep = [len_seq; len_seq; pair_embedding_size].
Hypothesis Hframes : frame_shaped frames len_seq.

Lemma query_shape :
  exists q, LinearWithView_forward (query self) single_rep = Some q
            /\ shape q = [len_seq; num_heads self; ipa_embedding_size].
Proof. exact (LinearWithView_forward_shape _ _ _ _ _ (init_query _ _ _ _ Hinit) Hsingle). Qed.

Lemma key_shape :
  exists k, LinearWithView_forward (key self) single_rep = Some k
            /\ shape k = [len_seq; num_heads self; ipa_embedding_size].
Proof. exact (LinearWithView_forward_shape _ _ _ _ _ (init_key _ _ _ _ Hinit) Hsingle). Qed.

Lemma value_shape :
  exists v, LinearWithView_forward (value self) single_rep = Some v
            /\ shape v = [len_seq; num_heads self; ipa_embedding_size].
Proof. exact (LinearWithView_forward_shape _ _ _ _ _ (init_value _ _ _ _ Hinit) Hsingle). Qed.

Lemma query_points_shape :
  exists qp, LinearWithView_forward (query_points self) single_rep = Some qp
             /\ shape qp = [len_seq; num_heads self; num_query_points self; 3].
Proof.
  exact (LinearWithView_forward_shape _ _ _ _ _ (init_query_points _ _ _ _ Hinit) Hsingle).
Qed.

Lemma key_points_shape :
  exists kp, LinearWithView_forward (key_points self) single_rep = Some kp
             /\ shape kp = [len_seq; num_heads self; num_query_points self; 3].
Proof.
  exact (LinearWithView_forward_shape _ _ _ _ _ (init_key_points _ _ _ _ Hinit) Hsingle).
Qed.

Lemma value_points_shape :
  exists vp, LinearWithView_forward (value_points self) single_rep = Some vp
             /\ shape vp = [len_seq; num_heads self; num_value_points self; 3].
Proof.
  exact (LinearWithView_forward_shape _ _ _ _ _ (init_value_points _ _ _ _ Hinit) Hsingle).
Qed.

Lemma single_rep_weight_spec (q k : tensor) :
  LinearWithView_forward (query self) single_rep = Some q ->
  LinearWithView_forward (key self) single_rep = Some k ->
  exists w, single_rep_weight self single_rep = Some w
    /\ shape w = [len_seq; num_heads self; len_seq]
    /\ forall i h j, i < len_seq -> h < num_heads self -> j < len_seq ->
         get w [i; h; j]
         = (scale_single_rep self
            * sum_n ipa_embedding_size (fun d => get q [i; h; d] * get k [j; h; d]))%R.
Proof.
  intros Eq Ek.
  destruct query_shape as (q' & Eq' & Sq). destruct key_shape as (k' & Ek' & Sk).
  rewrite Eq in Eq'. rewrite Ek in Ek'. injection Eq' as <-. injection Ek' as <-.
  unfold single_rep_weight. rewrite Eq, Ek. cbn [bind]. reveal q. reveal k. tev.
  eexists. split; [reflexivity|]. split; [reflexivity|].
  intros i h j Hi Hh Hj. cbn. bidx_simpl. rewrite <- sum_n_scal.
  apply sum_n_ext. intros d Hd. ring.
Qed.

Lemma pair_rep_weight_spec :
  exists b w, Linear_forward (bias self) pair_rep = Some b
    /\ shape b = [len_seq; len_seq; num_heads self]
    /\ (forall i j h, i < len_seq -> j < len_seq -> h < num_heads self ->
          get b [i; j; h]
          = sum_n pair_embedding_size
              (fun c => (get pair_rep [i; j; c] * get (lin_weight (bias self)) [h; c])%R))
    /\ pair_rep_weight self pair_rep = Some w
    /\ shape w = [len_seq; num_heads self; len_seq]
    /\ forall i h j, i < len_seq -> h < num_heads self -> j < len_seq ->
         get w [i; h; j] = get b [i; j; h].
Proof.
  destruct (Linear_forward_spec3 _ _ _ _ _ _ (init_bias _ _ _ _ Hinit) Hpair)
    as (b & Eb & Sb & Gb).
  exists b. unfold pair_rep_weight. rewrite Eb. cbn [bind].
  clear Eb. revert Gb. reveal b. intros Gb. tev.
  eexists. split; [reflexivity|]. split; [reflexivity|]. split; [exact Gb|].
  split; [reflexivity|]. split; [reflexivity|].
  intros i h j Hi Hh Hj. cbn. reflexivity.
Qed.

Lemma frame_squared_distance_spec (qp kp : tensor) :
  LinearWithView_forward (query_points self) single_rep = Some qp ->
  LinearWithView_forward (key_points self) single_rep = Some kp ->
  exists sq, frame_squared_distance self frames single_rep = Some sq
    /\ shape sq = [num_query_points self; num_heads self; len_seq; len_seq; 1; 1]
    /\ forall p h i j,
         p < num_query_points self -> h < num_heads self -> i < len_seq -> j < len_seq ->
         get sq [p; h; i; j; 0; 0]
         = squared_distance_of (global_point frames i (fun x => get qp [i; h; p; x]))
                               (global_point frames j (fun x => get kp [j; h; p; x])).
Proof.
  intros Eqp Ekp.
  destruct query_points_shape as (qp' & Eqp' & Sqp).
  destruct key_points_shape as (kp' & Ekp' & Skp).
  rewrite Eqp in Eqp'. rewrite Ekp in Ekp'. injection Eqp' as <-. injection Ekp' as <-.
  unfold frame_squared_distance. rewrite Eqp, Ekp. cbn [bind].
  clear Eqp Ekp. reveal qp. reveal kp.
  unfold transpose, rank. cbn [shape get length]. wrap_eval. cbn [bind swap_at length seq map nth Nat.eqb].
  match goal with
  | |- context [bind (Frame_apply frames ?t) _] =>
      destruct (Frame_apply_spec frames len_seq
                  [num_query_points self; num_heads self] t Hframes eq_refl)
        as (lq & Elq & Slq & Glq);
      rewrite Elq; cbn [bind]
  end.
  match goal with
  | |- context [bind (Frame_apply frames ?t) _] =>
      destruct (Frame_apply_spec frames len_seq
                  [num_query_points self; num_heads self] t Hframes eq_refl)
        as (lk & Elk & Slk & Glk);
      rewrite Elk; cbn [bind]
  end.
  clear Elq Elk.
  pose proof (fun p h i c Hp Hh => Glq [p; h] i c (valid_last2' _ _ _ _ Hp Hh)) as Gq.
  pose proof (fun p h i c Hp Hh => Glk [p; h] i c (valid_last2' _ _ _ _ Hp Hh)) as Gk.
  clear Glq Glk. cbn [app get] in *.
  revert Gq Gk. reveal lq. reveal lk. intros Gq Gk. tev.
  eexists. split; [reflexivity|]. split; [reflexivity|].
  intros p h i j Hp Hh Hi Hj. cbn. bidx_simpl.
  rewrite !Gq, !Gk by (assumption || lia).
  unfold squared_distance_of, global_point. cbn. ring.
Qed.

End Methods.

(** ** The squeeze in frame_weight *)

Lemma frame_weight_of_spec (self : InvariantPointAttention) (sq : tensor) (p h n : nat) :
  shape sq = [p; h; n; n; 1; 1] -> shape (scale_head self) = [h] ->
  p <> 1 -> h <> 1 -> n <> 1 ->
  exists w, frame_weight_of self sq = Some w /\ shape w = [n; h; n] /\
    forall i x j, i < n -> x < h -> j < n ->
      get w [i; x; j]
      = (scale_frame self * softplus_fn (get (scale_head self) [x])
         * sum_n p (fun y => get sq [y; x; i; j; 0; 0]%nat))%R.
Proof.
  intros Ssq Ssh Hp Hh Hn. destruct self as [nh nq nv lq lk lv lqp lkp lvp lb lo sh ssr sf].
  cbn [scale_head scale_frame] in *. reveal sq. reveal sh.
  apply Nat.eqb_neq in Hp, Hh, Hn.
  unfold frame_weight_of. cbn [scale_head scale_frame]. tev.
  eexists. split; [reflexivity|]. split; [reflexivity|].
  intros i x j Hi Hx Hj. cbn. rewrite ?Hp, ?Hh, ?Hn. cbn.
  apply Nat.eqb_neq in Hh, Hn. unfold bidx.
  destruct (Nat.eqb_spec h 1); [contradiction|]. destruct (Nat.eqb_spec n 1); [contradiction|].
  reflexivity.
Qed.

(** What the squeeze, the sum over dimension 0 and the transposition yield
    for every combination of sizes: the regular weight, a weight that has
    lost a dimension, or an error. *)
Lemma frame_weight_of_cases (self : InvariantPointAttention) (sq : tensor) (p h n : nat) :
  shape sq = [p; h; n; n; 1; 1] -> shape (scale_head self) = [h] ->
  match frame_weight_of self sq with
  | Some w =>
      (p <> 1 /\ h <> 1 /\ n <> 1 /\ shape w = [n; h; n])
      \/ (n <> 1 /\ shape w = [n; n]
          /\ ((h = 1 /\ p <> 1) \/ (p = 1 /\ h = n)))
  | None => n = 1 \/ (p = 1 /\ h = 1) \/ (p = 1 /\ h <> n)
  end.
Proof.
  intros Ssq Ssh. destruct self as [nh nq nv lq lk lv lqp lkp lvp lb lo sh ssr sf].
  cbn [scale_head scale_frame] in *. reveal sq. reveal sh.
  unfold frame_weight_of. cbn [scale_head scale_frame].
  destruct (Nat.eqb_spec n 1) as [->|Hn].
  - destruct (Nat.eqb_spec p 1) as [->|Hp]; destruct (Nat.eqb_spec h 1) as [->|Hh];
      try apply Nat.eqb_neq in Hp; try apply Nat.eqb_neq in Hh;
      tev; left; reflexivity.
  - destruct (Nat.eqb_spec p 1) as [->|Hp]; destruct (Nat.eqb_spec h 1) as [->|Hh].
    + apply Nat.eqb_neq in Hn. tev. right. left. split; reflexivity.
    + pose proof Hn as Hn'. pose proof Hh as Hh'.
      apply Nat.eqb_neq in Hn, Hh. tev.
      unfold pad_shape. cbn [length Nat.sub repeat app bdims].
      destruct (bdim h n) as [d|] eqn:D; cbn [bind].
      * apply bdim_inv in D. destruct D as [[? ?]|[[? ?]|[E1 E2]]]; try contradiction.
        subst d. rewrite ?bdim_1_l. cbn [bind shape].
        right. split; [exact Hn'|]. split; [congruence|]. right. split; [reflexivity | exact E1].
      * right. right. split; [reflexivity|]. intros E. subst h. rewrite bdim_same in D.
        discriminate.
    + pose proof Hn as Hn'. apply Nat.eqb_neq in Hn, Hp. tev.
      right. split; [exact Hn'|]. split; [reflexivity|]. left. split; [reflexivity|].
      apply Nat.eqb_neq. exact Hp.
    + pose proof Hn as Hn'. pose proof Hh as Hh'. pose proof Hp as Hp'.
      apply Nat.eqb_neq in Hn, Hp, Hh. tev.
      left. repeat (split; [assumption|]). reflexivity.
Qed.

(** ** The attention aggregations *)

Section Attention.

Variable self : InvariantPointAttention.
Variables single_embedding_size pair_embedding_size ipa_embedding_size len_seq : nat.
Variables single_rep pair_rep : tensor.
Variable frames : Frame.

Hypothesis Hinit :
  initialised self single_embedding_size pair_embedding_size ipa_embedding_size.
Hypothesis Hsingle : shape single_rep = [len_seq; single_embedding_size].
Hypothesis Hpair : shape pair_rep = [len_seq; len_seq; pair_embedding_size].
Hypothesis Hframes : frame_shaped frames len_seq.

(** The weight has a head dimension [heads] that broadcasts against
    [num_heads]: it is [num_heads] itself on the regular path. *)
Variable weight : tensor.
Variable heads : nat.
Hypothesis Hweight : shape weight = [len_seq; heads; len_seq].
Hypothesis Hheads : bdim heads (num_heads self) = Some heads.

Lemma single_rep_attention_spec (v : tensor) :
  LinearWithView_forward (value self) single_rep = Some v ->
  exists a, single_rep_attention self weight single_rep = Some a
    /\ shape a = [len_seq; heads; ipa_embedding_size]
    /\ forall i h d, i < len_seq -> h < heads -> d < ipa_embedding_size ->
         get a [i; h; d]
         = sum_n len_seq (fun j => (get weight [i; h; j]
                                    * get v [j; bidx (num_heads self) h; d])%R).
Proof.
  intros Ev.
  destruct (value_shape _ _ _ _ _ _ Hinit Hsingle) as (v' & Ev' & Sv).
  rewrite Ev in Ev'. injection Ev' as <-.
  unfold single_rep_attention. rewrite Ev. cbn [bind]. clear Ev.
  reveal v. reveal weight. tev.
  eexists. split; [reflexivity|]. split; [reflexivity|].
  intros i h d Hi Hh Hd. cbn. bidx_simpl. reflexivity.
Qed.

Lemma pair_rep_attention_spec :
  exists a, pair_rep_attention self weight pair_rep = Some a
    /\ shape a = [len_seq; heads; pair_embedding_size]
    /\ forall i h c, i < len_seq -> h < heads -> c < pair_embedding_size ->
         get a [i; h; c]
         = sum_n len_seq (fun j => (get weight [i; h; j] * get pair_rep [i; j; c])%R).
Proof.
  unfold pair_rep_attention.
  reveal pair_rep. reveal weight. tev.
  eexists. split; [reflexivity|]. split; [reflexivity|].
  intros i h c Hi Hh Hc. cbn. bidx_simpl. reflexivity.
Qed.

Lemma frame_attention_spec (vp : tensor) :
  LinearWithView_forward (value_points self) single_rep = Some vp ->
  exists a, frame_attention self weight frames single_rep = Some a
    /\ shape a = [len_seq; heads; num_value_points self; 3]
    /\ forall i h p c, i < len_seq -> h < heads -> p < num_value_points self -> c < 3 ->
         get a [i; h; p; c]
         = (sum_n 3 (fun y =>
              get (rotations frames) [i; y; c]
              * sum_n len_seq (fun j =>
                  get weight [i; h; j]
                  * global_point frames j
                      (fun u => get vp [j; bidx (num_heads self) h; p; u]) y))
            + - sum_n 3 (fun y => get (rotations frames) [i; y; c]
                                  * get (translations frames) [i; y]))%R.
Proof.
  intros Evp.
  destruct (value_points_shape _ _ _ _ _ _ Hinit Hsingle) as (vp' & Evp' & Svp).
  rewrite Evp in Evp'. injection Evp' as <-.
  unfold frame_attention. rewrite Evp. cbn [bind]. clear Evp.
  destruct (Frame_inverse_spec frames len_seq Hframes) as (inv & Einv & Finv & Rinv & Tinv).
  reveal vp.
  unfold permute, rank. cbn [shape get length].
  change (is_permutation [1; 2; 0; 3] 4) with true.
  cbn [bind seq map nth index_of Nat.eqb].
  match goal with
  | |- context [bind (Frame_apply frames ?t) _] =>
      destruct (Frame_apply_spec frames len_seq
                  [num_heads self; num_value_points self] t Hframes eq_refl)
        as (lv & Elv & Slv & Glv);
      rewrite Elv; cbn [bind]
  end.
  clear Elv.
  pose proof (fun h p j c Hh Hp => Glv [h; p] j c (valid_last2' _ _ _ _ Hh Hp)) as Gv.
  clear Glv. cbn [app get] in Gv. rewrite Einv. clear Einv.
  destruct Finv as [Sri Sti]. destruct inv as [ri ti]. cbn [rotations translations] in *.
  revert Gv Rinv Tinv. reveal lv. reveal ri. reveal ti. reveal weight. intros Gv Rinv Tinv.
  unfold Frame_getitem_None_None, Frame_apply. cbn [rotations translations]. tev.
  eexists. split; [reflexivity|]. split; [reflexivity|].
  intros i h p c Hi Hh Hp Hc. cbn. bidx_simpl.
  rewrite !Rinv, Tinv by (assumption || lia). cbn [sum_n].
  assert (Hb : bidx (num_heads self) h < num_heads self).
  { apply (bidx_bound _ _ _ _ Hheads Hh). }
  unfold global_point.
  f_equal. f_equal; [f_equal; [f_equal|]|]; f_equal;
    apply sum_n_ext; intros j Hj; rewrite Gv by (assumption || lia); reflexivity.
Qed.

End Attention.

(** ** The softmax over the last dimension *)

Lemma softmax_spec3 (t : tensor) (l m n : nat) :
  shape t = [l; m; n] ->
  exists w, softmax (-1) t = Some w /\ shape w = [l; m; n] /\
    forall i x j, i < l -> x < m -> j < n ->
      get w [i; x; j]
      = (exp (get t [i; x; j]) / sum_n n (fun y => exp (get t [i; x; y])))%R.
Proof.
  intros St. reveal t. tev. eexists. split; [reflexivity|]. split; [reflexivity|].
  intros i x j Hi Hx Hj. cbn. reflexivity.
Qed.

Lemma sum_n_exp_pos (n : nat) (f : nat -> R) : 0 < n -> (0 < sum_n n (fun y => exp (f y)))%R.
Proof. intros Hn. apply sum_n_pos; [exact Hn|]. intros x _. apply exp_pos. Qed.

Lemma softmax_row_stochastic (t w : tensor) (l m n : nat) :
  shape t = [l; m; n] -> softmax (-1) t = Some w ->
  forall i x, i < l -> x < m -> 0 < n -> row_stochastic w n [i; x].
Proof.
  intros St Ew i x Hi Hx Hn.
  destruct (softmax_spec3 t l m n St) as (w' & Ew' & Sw & Gw).
  rewrite Ew in Ew'. injection Ew' as <-. unfold row_stochastic. cbn [app].
  rewrite (sum_n_ext n _ (fun j => (exp (get t [i; x; j])
                                    * / sum_n n (fun y => exp (get t [i; x; y])))%R))
    by (intros j Hj; rewrite Gw by assumption; reflexivity).
  rewrite sum_n_scal_r. apply Rinv_r.
  apply Rgt_not_eq. apply sum_n_exp_pos. exact Hn.
Qed.

(** ** The concatenation and the output projection *)

Lemma forward_concat_shape (self : InvariantPointAttention)
    (single_embedding_size pair_embedding_size ipa_embedding_size len_seq : nat)
    (sa pa fa : tensor) :
  initialised self single_embedding_size pair_embedding_size ipa_embedding_size ->
  shape sa = [len_seq; num_heads self; ipa_embedding_size] ->
  shape pa = [len_seq; num_heads self; pair_embedding_size] ->
  shape fa = [len_seq; num_heads self; num_value_points self; 3] ->
  len_seq <> 0 -> num_heads self <> 0 ->
  exists o, forward_concat self len_seq sa pa fa = Some o
            /\ shape o = [len_seq; single_embedding_size].
Proof.
  intros Hinit Ssa Spa Sfa Hn Hh. unfold forward_concat.
  reveal sa. reveal pa. reveal fa.
  unfold vector_norm, rank. cbn [shape get length]. wrap_eval. cbn [bind remove_at].
  unfold view. cbn [shape get].
  rewrite (infer_shape_last3 _ len_seq (num_heads self) (num_value_points self * 3))
    by (unfold numel; cbn [fold_right]; nia).
  cbn [bind]. unfold cat, rank. cbn [shape get length]. wrap_eval.
  cbn [bind forallb replace_at list_eqb shape]. rewrite !Nat.eqb_refl. cbn [andb].
  unfold reshape, view. cbn [bind shape get cat_size fold_right nth].
  rewrite (infer_shape_last _ len_seq
             (num_heads self * (ipa_embedding_size
                                + (pair_embedding_size
                                   + (num_value_points self * 3
                                      + (num_value_points self + 0))))))
    by (unfold numel; cbn [fold_right]; nia).
  cbn [bind].
  match goal with
  | |- context [Linear_forward (out self) ?t] =>
      destruct (Linear_forward_bias_shape2 (out self)
                  (num_heads self * (pair_embedding_size + ipa_embedding_size
                                     + num_value_points self * (3 + 1)))
                  single_embedding_size len_seq t (init_out _ _ _ _ Hinit))
        as (o & Eo & So)
  end.
  - cbn [shape]. f_equal. f_equal. nia.
  - exists o. split; assumption.
Qed.

(** With one head only and a weight of shape [N, N, N], the view of the
    point attention no longer matches the other parts. *)
Lemma forward_concat_one_head (self : InvariantPointAttention) (d c len_seq : nat)
    (sa pa fa : tensor) :
  num_heads self = 1 -> len_seq <> 1 ->
  shape sa = [len_seq; len_seq; d] ->
  shape pa = [len_seq; len_seq; c] ->
  shape fa = [len_seq; len_seq; num_value_points self; 3] ->
  forward_concat self len_seq sa pa fa = None.
Proof.
  intros Hh Hn Ssa Spa Sfa. unfold forward_concat. rewrite Hh.
  reveal sa. reveal pa. reveal fa.
  unfold vector_norm, rank. cbn [shape get length]. wrap_eval. cbn [bind remove_at].
  unfold view. cbn [shape get].
  destruct (infer_shape _ [Some len_seq; Some 1; None]) as [s|] eqn:I; [|reflexivity].
  cbn [bind].
  assert (Es : exists x, s = [len_seq; 1; x]).
  { unfold infer_shape in I.
    cbn [count_inferred filter length known_numel fold_right] in I.
    destruct (_ =? 0); [discriminate|]. destruct (_ =? 0); [|discriminate].
    cbn [map] in I. injection I as <-. eexists. reflexivity. }
  destruct Es as [x ->].
  unfold cat, rank. cbn [shape get length]. wrap_eval.
  cbn [bind forallb replace_at list_eqb shape]. rewrite !Nat.eqb_refl. cbn [andb].
  destruct (Nat.eqb_spec 1 len_seq) as [E|_]; [congruence|]. reflexivity.
Qed.

(** ** forward *)

Section Forward.

Variable self : InvariantPointAttention.
Variables single_embedding_size pair_embedding_size ipa_embedding_size len_seq : nat.
Variables single_rep pair_rep : tensor.
Variable frames : Frame.

Hypothesis Hinit :
  initialised self single_embedding_size pair_embedding_size ipa_embedding_size.
Hypothesis Hsingle : shape single_rep = [len_seq; single_embedding_size].
Hypothesis Hpair : shape pair_rep = [len_seq; len_seq; pair_embedding_size].
Hypothesis Hframes : frame_shaped frames len_seq.

(** The sum of the scalar and the pair term. *)
Lemma scalar_plus_pair_shape :
  exists a b ab, single_rep_weight self single_rep = Some a
    /\ pair_rep_weight self pair_rep = Some b
    /\ add a b = Some ab
    /\ shape ab = [len_seq; num_heads self; len_seq]
    /\ forall i h j, i < len_seq -> h < num_heads self -> j < len_seq ->
         get ab [i; h; j] = (get a [i; h; j] + get b [i; h; j])%R.
Proof.
  destruct (query_shape _ _ _ _ _ _ Hinit Hsingle) as (q & Eq & Sq).
  destruct (key_shape _ _ _ _ _ _ Hinit Hsingle) as (k & Ek & Sk).
  destruct (single_rep_weight_spec _ _ _ _ _ _ Hinit Hsingle q k Eq Ek) as (a & Ea & Sa & _).
  destruct (pair_rep_weight_spec _ _ _ _ _ _ Hinit Hpair)
    as (b0 & b & _ & _ & _ & Eb & Sb & _).
  exists a, b. reveal a. reveal b. tev. eexists.
  split; [assumption|]. split; [assumption|]. split; [reflexivity|]. split; [reflexivity|].
  intros i h j Hi Hh Hj. cbn. bidx_simpl. reflexivity.
Qed.

(** The weight before and after the softmax for a regular frame term. *)
Lemma forward_weight_shape (c : tensor) :
  frame_weight self frames single_rep = Some c ->
  shape c = [len_seq; num_heads self; len_seq] ->
  exists logits w,
    forward_logits self single_rep pair_rep frames = Some logits
    /\ forward_weight self single_rep pair_rep frames = Some w
    /\ softmax (-1) logits = Some w
    /\ shape logits = [len_seq; num_heads self; len_seq]
    /\ shape w = [len_seq; num_heads self; len_seq].
Proof.
  intros Ec Sc.
  destruct scalar_plus_pair_shape as (a & b & ab & Ea & Eb & Eab & Sab & _).
  unfold forward_weight, forward_logits. rewrite Ea, Eb. cbn [bind]. rewrite Eab, Ec.
  cbn [bind]. clear Ea Eb Eab Ec.
  reveal ab. reveal c. tev. eexists. eexists. repeat (split; [reflexivity|]). reflexivity.
Qed.

(** The same for a frame term that has lost a dimension: the [N, N] term
    broadcasts against [N, H, N] when H is 1 or N, to [N, N, N]. *)
Lemma forward_weight_shape_flat (c : tensor) :
  frame_weight self frames single_rep = Some c ->
  shape c = [len_seq; len_seq] ->
  num_heads self = 1 \/ num_heads self = len_seq ->
  exists logits w,
    forward_logits self single_rep pair_rep frames = Some logits
    /\ forward_weight self single_rep pair_rep frames = Some w
    /\ softmax (-1) logits = Some w
    /\ shape logits = [len_seq; len_seq; len_seq]
    /\ shape w = [len_seq; len_seq; len_seq].
Proof.
  intros Ec Sc Hh.
  destruct scalar_plus_pair_shape as (a & b & ab & Ea & Eb & Eab & Sab & _).
  unfold forward_weight, forward_logits. rewrite Ea, Eb. cbn [bind]. rewrite Eab, Ec.
  cbn [bind]. clear Ea Eb Eab Ec.
  destruct Hh as [Hh|Hh]; rewrite Hh in *; reveal ab; reveal c; tev;
    eexists; eexists; repeat (split; [reflexivity|]); reflexivity.
Qed.

Lemma frame_weight_none_forward :
  frame_weight self frames single_rep = None ->
  forward self single_rep pair_rep frames = None.
Proof.
  intros E. unfold forward, forward_weight, forward_logits. rewrite E.
  destruct (single_rep_weight self single_rep); [|reflexivity]. cbn [bind].
  destruct (pair_rep_weight self pair_rep); [|reflexivity]. cbn [bind].
  destruct (add _ _); reflexivity.
Qed.

(** [forward] on a weight whose head dimension is [num_heads]. *)
Lemma forward_output_shape (w : tensor) :
  shape w = [len_seq; num_heads self; len_seq] ->
  len_seq <> 0 -> num_heads self <> 0 ->
  exists o, forward_output self w single_rep pair_rep frames = Some o
            /\ shape o = [len_seq; single_embedding_size].
Proof.
  intros Sw Hn Hh. unfold forward_output. cbv zeta. rewrite Hsingle. cbn [nth].
  destruct (value_shape _ _ _ _ _ _ Hinit Hsingle) as (v & Ev & Sv).
  destruct (value_points_shape _ _ _ _ _ _ Hinit Hsingle) as (vp & Evp & Svp).
  destruct (single_rep_attention_spec _ _ _ _ _ _ Hinit Hsingle w _ Sw
              (bdim_same _) v Ev) as (sa & Esa & Ssa & _).
  destruct (pair_rep_attention_spec self _ _ pair_rep Hpair w _ Sw)
    as (pa & Epa & Spa & _).
  destruct (frame_attention_spec _ _ _ _ _ _ _ Hinit Hsingle Hframes w _ Sw
              (bdim_same _) vp Evp) as (fa & Efa & Sfa & _).
  rewrite Esa, Epa, Efa. cbn [bind].
  exact (forward_concat_shape _ _ _ _ _ _ _ _ Hinit Ssa Spa Sfa Hn Hh).
Qed.

(** [forward] on a weight that has the residues in its head dimension:
    with one head the concatenation fails. *)
Lemma forward_output_one_head (w : tensor) :
  shape w = [len_seq; len_seq; len_seq] ->
  num_heads self = 1 -> len_seq <> 1 ->
  forward_output self w single_rep pair_rep frames = None.
Proof.
  intros Sw Hh Hn. unfold forward_output. cbv zeta. rewrite Hsingle. cbn [nth].
  destruct (value_shape _ _ _ _ _ _ Hinit Hsingle) as (v & Ev & Sv).
  destruct (value_points_shape _ _ _ _ _ _ Hinit Hsingle) as (vp & Evp & Svp).
  assert (Hb : bdim len_seq (num_heads self) = Some len_seq) by (rewrite Hh; apply bdim_1_r).
  destruct (single_rep_attention_spec _ _ _ _ _ _ Hinit Hsingle w _ Sw Hb v Ev)
    as (sa & Esa & Ssa & _).
  destruct (pair_rep_attention_spec self _ _ pair_rep Hpair w _ Sw)
    as (pa & Epa & Spa & _).
  destruct (frame_attention_spec _ _ _ _ _ _ _ Hinit Hsingle Hframes w _ Sw Hb vp Evp)
    as (fa & Efa & Sfa & _).
  rewrite Esa, Epa, Efa. cbn [bind].
  exact (forward_concat_one_head _ _ _ _ _ _ _ Hh Hn Ssa Spa Sfa).
Qed.

End Forward.

(** ** forward for every combination of sizes *)

Section ForwardCases.

Variable self : InvariantPointAttention.
Variables single_embedding_size pair_embedding_size ipa_embedding_size len_seq : nat.
Variables single_rep pair_rep : tensor.
Variable frames : Frame.

Hypothesis Hinit :
  initialised self single_embedding_size pair_embedding_size ipa_embedding_size.
Hypothesis Hsingle : shape single_rep = [len_seq; single_embedding_size].
Hypothesis Hpair : shape pair_rep = [len_seq; len_seq; pair_embedding_size].
Hypothesis Hframes : frame_shaped frames len_seq.

Lemma frame_squared_distance_shape :
  exists sq, frame_squared_distance self frames single_rep = Some sq
    /\ shape sq = [num_query_points self; num_heads self; len_seq; len_seq; 1; 1].
Proof.
  destruct (query_points_shape _ _ _ _ _ _ Hinit Hsingle) as (qp & Eqp & _).
  destruct (key_points_shape _ _ _ _ _ _ Hinit Hsingle) as (kp & Ekp & _).
  destruct (frame_squared_distance_spec _ _ _ _ _ _ _ Hinit Hsingle Hframes qp kp Eqp Ekp)
    as (sq & Esq & Ssq & _).
  exists sq. split; assumption.
Qed.

(** The frame term on the regular path, per head and residue pair. *)
Lemma frame_weight_spec (qp kp : tensor) :
  LinearWithView_forward (query_points self) single_rep = Some qp ->
  LinearWithView_forward (key_points self) single_rep = Some kp ->
  num_query_points self <> 1 -> num_heads self <> 1 -> len_seq <> 1 ->
  exists w, frame_weight self frames single_rep = Some w
    /\ shape w = [len_seq; num_heads self; len_seq]
    /\ forall i h j, i < len_seq -> h < num_heads self -> j < len_seq ->
         get w [i; h; j]
         = (scale_frame self * softplus_fn (get (scale_head self) [h])
            * point_distance_sum frames qp kp (num_query_points self) i h j)%R.
Proof.
  intros Eqp Ekp Hp Hh Hn.
  destruct (frame_squared_distance_spec _ _ _ _ _ _ _ Hinit Hsingle Hframes qp kp Eqp Ekp)
    as (sq & Esq & Ssq & Gsq).
  destruct (frame_weight_of_spec self sq _ _ _ Ssq (init_scale_head _ _ _ _ Hinit) Hp Hh Hn)
    as (w & Ew & Sw & Gw).
  exists w. unfold frame_weight. rewrite Esq. cbn [bind].
  split; [exact Ew|]. split; [exact Sw|].
  intros i h j Hi Hh' Hj. rewrite Gw by assumption. f_equal.
  unfold point_distance_sum. apply sum_n_ext. intros p Hp'. apply Gsq; assumption.
Qed.

(** What [frame_weight] returns, for every combination of sizes. *)
Lemma frame_weight_cases :
  match frame_weight self frames single_rep with
  | Some w =>
      (num_query_points self <> 1 /\ num_heads self <> 1 /\ len_seq <> 1
       /\ shape w = [len_seq; num_heads self; len_seq])
      \/ (len_seq <> 1 /\ shape w = [len_seq; len_seq]
          /\ ((num_heads self = 1 /\ num_query_points self <> 1)
              \/ (num_query_points self = 1 /\ num_heads self = len_seq)))
  | None =>
      len_seq = 1 \/ (num_query_points self = 1 /\ num_heads self = 1)
      \/ (num_query_points self = 1 /\ num_heads self <> len_seq)
  end.
Proof.
  destruct frame_squared_distance_shape as (sq & Esq & Ssq).
  unfold frame_weight. rewrite Esq. cbn [bind].
  exact (frame_weight_of_cases self sq _ _ _ Ssq (init_scale_head _ _ _ _ Hinit)).
Qed.

(** [forward] returns a tensor of shape [N, single_dim] exactly when the
    frame term is regular or is the [N, N] term with as many heads as
    residues. *)
Lemma forward_cases :
  len_seq <> 0 -> num_heads self <> 0 ->
  match forward self single_rep pair_rep frames with
  | Some o =>
      shape o = [len_seq; single_embedding_size]
      /\ len_seq <> 1
      /\ ((num_query_points self <> 1 /\ num_heads self <> 1)
          \/ (num_query_points self = 1 /\ num_heads self = len_seq))
  | None =>
      len_seq = 1 \/ num_heads self = 1
      \/ (num_query_points self = 1 /\ num_heads self <> len_seq)
  end.
Proof.
  intros Hn Hh. pose proof frame_weight_cases as C.
  destruct (frame_weight self frames single_rep) as [c|] eqn:Ec.
  - destruct C as [(Hp & Hh' & Hn' & Sc)|(Hn' & Sc & [[E Hp]|[Hp E]])].
    + destruct (forward_weight_shape _ _ _ _ _ _ _ _ Hinit Hsingle Hpair c Ec Sc)
        as (logits & w & _ & Ew & _ & _ & Sw).
      unfold forward. rewrite Ew. cbn [bind].
      destruct (forward_output_shape _ _ _ _ _ _ _ _ Hinit Hsingle Hpair Hframes w Sw Hn Hh)
        as (o & Eo & So).
      rewrite Eo. split; [exact So|]. split; [exact Hn'|]. left. split; assumption.
    + destruct (forward_weight_shape_flat _ _ _ _ _ _ _ _ Hinit Hsingle Hpair c Ec Sc
                  (or_introl E)) as (logits & w & _ & Ew & _ & _ & Sw).
      unfold forward. rewrite Ew. cbn [bind].
      rewrite (forward_output_one_head _ _ _ _ _ _ _ _ Hinit Hsingle Hpair Hframes w Sw E Hn').
      right. left. exact E.
    + destruct (forward_weight_shape_flat _ _ _ _ _ _ _ _ Hinit Hsingle Hpair c Ec Sc
                  (or_intror E)) as (logits & w & _ & Ew & _ & _ & Sw).
      unfold forward. rewrite Ew. cbn [bind].
      rewrite <- E in Sw at 2.
      destruct (forward_output_shape _ _ _ _ _ _ _ _ Hinit Hsingle Hpair Hframes w Sw Hn Hh)
        as (o & Eo & So).
      rewrite Eo. split; [exact So|]. split; [exact Hn'|]. right. split; assumption.
  - rewrite (frame_weight_none_forward _ _ _ _ Ec).
    destruct C as [E|[[E1 E2]|[E1 E2]]]; auto.
Qed.

End ForwardCases.

(** ** Invariance under a global rigid transform *)

Lemma linear_eq_refl (l : Linear) : linear_eq l l.
Proof. split; [apply teq_refl | apply orel_refl, teq_refl]. Qed.

Lemma linear_with_view_eq_refl (l : LinearWithView) : linear_with_view_eq l l.
Proof. split; [apply linear_eq_refl | reflexivity]. Qed.

Lemma ipa_eq_refl (m : InvariantPointAttention) : ipa_eq m m.
Proof.
  constructor; try reflexivity; try apply linear_with_view_eq_refl;
    try apply linear_eq_refl; apply teq_refl.
Qed.

Lemma frame_eq_refl (f : Frame) : frame_eq f f.
Proof. split; apply teq_refl. Qed.

Lemma frame_weight_of_teq (m : InvariantPointAttention) (sq sq' : tensor) :
  teq sq sq' -> oteq (frame_weight_of m sq) (frame_weight_of m sq').
Proof.
  intros T. unfold frame_weight_of. pose proof (teq_refl (scale_head m)). cong.
Qed.

(** A rotation with R^T R = I preserves squared distances, and the
    translation cancels in the difference. *)
Lemma distance_invariant (rt : nat -> nat -> R) (tt a b : nat -> R) :
  (forall u v, u < 3 -> v < 3 ->
     sum_n 3 (fun x => (rt x u * rt x v)%R) = if u =? v then 1%R else 0%R) ->
  squared_distance_of (fun c => (sum_n 3 (fun x => rt c x * a x) + tt c)%R)
                      (fun c => (sum_n 3 (fun x => rt c x * b x) + tt c)%R)
  = squared_distance_of a b.
Proof.
  intros O. unfold squared_distance_of.
  transitivity
    (sum_n 3 (fun u => sum_n 3 (fun v =>
       (sum_n 3 (fun x => rt x u * rt x v) * ((a u - b u) * (a v - b v)))%R))).
  - cbn [sum_n]. ring.
  - rewrite (sum_n_ext 3 _ (fun u => sum_n 3 (fun v =>
       ((if u =? v then 1 else 0) * ((a u - b u) * (a v - b v)))%R))).
    + cbn [sum_n Nat.eqb]. ring.
    + intros u Hu. apply sum_n_ext. intros v Hv. rewrite O by assumption. reflexivity.
Qed.

(** The points of a residue under the composed frame are the transformed
    points under the original frame. *)
Lemma global_point_compose (t f f' : Frame) (n i c : nat) (v : nat -> R) :
  (forall i r c, i < n -> r < 3 -> c < 3 ->
     get (rotations f') [i; r; c]
     = sum_n 3 (fun x => get (rotations t) [r; x] * get (rotations f) [i; x; c])%R) ->
  (forall i c, i < n -> c < 3 ->
     get (translations f') [i; c]
     = (sum_n 3 (fun x => get (rotations t) [c; x] * get (translations f) [i; x])
        + get (translations t) [c])%R) ->
  i < n -> c < 3 ->
  global_point f' i v c
  = (sum_n 3 (fun x => get (rotations t) [c; x] * global_point f i v x)
     + get (translations t) [c])%R.
Proof.
  intros Hr Ht Hi Hc. unfold global_point. cbn [sum_n].
  rewrite !Hr, Ht by (assumption || lia). cbn [sum_n]. ring.
Qed.

Lemma weighted_affine (n : nat) (w : nat -> R) (g : nat -> nat -> R) (r0 r1 r2 b : R) :
  sum_n n (fun j => (w j * (0 + r0 * g j 0%nat + r1 * g j 1%nat + r2 * g j 2%nat + b))%R)
  = (r0 * sum_n n (fun j => w j * g j 0%nat) + r1 * sum_n n (fun j => w j * g j 1%nat)
     + r2 * sum_n n (fun j => w j * g j 2%nat) + b * sum_n n w)%R.
Proof. induction n as [|n IH]; cbn [sum_n]; [|rewrite IH]; ring. Qed.

(** The attended point, transformed with the rest and mapped back into the
    local frame of the residue, does not depend on the transform. *)
Lemma point_attention_invariant (rt ri : nat -> nat -> R) (tt ti : nat -> R)
    (n : nat) (w : nat -> R) (g : nat -> nat -> R) (c : nat) :
  (forall u v, u < 3 -> v < 3 ->
     sum_n 3 (fun x => (rt x u * rt x v)%R) = if u =? v then 1%R else 0%R) ->
  sum_n n w = 1%R ->
  (sum_n 3 (fun y =>
     sum_n 3 (fun z => rt y z * ri z c)
     * sum_n n (fun j => w j * (sum_n 3 (fun z => rt y z * g j z) + tt y)))
   + - sum_n 3 (fun y =>
         sum_n 3 (fun z => rt y z * ri z c)
         * (sum_n 3 (fun z => rt y z * ti z) + tt y)))%R
  = (sum_n 3 (fun y => ri y c * sum_n n (fun j => w j * g j y))
     + - sum_n 3 (fun y => ri y c * ti y))%R.
Proof.
  intros O W. cbn [sum_n]. rewrite !weighted_affine, W.
  set (s0 := sum_n n (fun j => (w j * g j 0%nat)%R)).
  set (s1 := sum_n n (fun j => (w j * g j 1%nat)%R)).
  set (s2 := sum_n n (fun j => (w j * g j 2%nat)%R)).
  set (d := fun u : nat => match u with
                           | 0 => (s0 - ti 0%nat)%R
                           | 1 => (s1 - ti 1%nat)%R
                           | _ => (s2 - ti 2%nat)%R
                           end).
  transitivity
    (sum_n 3 (fun u => sum_n 3 (fun v =>
       (sum_n 3 (fun x => rt x u * rt x v) * (ri u c * d v))%R))).
  - cbn [sum_n]. unfold d. ring.
  - rewrite (sum_n_ext 3 _ (fun u => sum_n 3 (fun v =>
       ((if u =? v then 1 else 0) * (ri u c * d v))%R))).
    + cbn [sum_n Nat.eqb]. unfold d. ring.
    + intros u Hu. apply sum_n_ext. intros v Hv. rewrite O by assumption. reflexivity.
Qed.

Section Invariance.

Variable self : InvariantPointAttention.
Variables single_embedding_size pair_embedding_size ipa_embedding_size len_seq : nat.
Variables single_rep pair_rep : tensor.
Variables transform frames frames' : Frame.

Hypothesis Hinit :
  initialised self single_embedding_size pair_embedding_size ipa_embedding_size.
Hypothesis Hsingle : shape single_rep = [len_seq; single_embedding_size].
Hypothesis Hpair : shape pair_rep = [len_seq; len_seq; pair_embedding_size].
Hypothesis Hframes : frame_shaped frames len_seq.
Hypothesis Htransform : transform_shaped transform.
Hypothesis Horth : orthonormal_at (rotations transform) [].
Hypothesis Hcompose : Frame_compose transform frames = Some frames'.

Lemma composed_frames :
  frame_shaped frames' len_seq
  /\ (forall i r c, i < len_seq -> r < 3 -> c < 3 ->
        get (rotations frames') [i; r; c]
        = sum_n 3 (fun x => get (rotations transform) [r; x]
                            * get (rotations frames) [i; x; c])%R)
  /\ (forall i c, i < len_seq -> c < 3 ->
        get (translations frames') [i; c]
        = (sum_n 3 (fun x => get (rotations transform) [c; x]
                             * get (translations frames) [i; x])
           + get (translations transform) [c])%R).
Proof.
  destruct (Frame_compose_transform_spec transform frames len_seq Htransform Hframes)
    as (f & Ef & Ff & Rf & Tf).
  rewrite Hcompose in Ef. injection Ef as <-. auto.
Qed.

Lemma transform_orthonormal (u v : nat) :
  u < 3 -> v < 3 ->
  sum_n 3 (fun x => (get (rotations transform) [x; u] * get (rotations transform) [x; v])%R)
  = if u =? v then 1%R else 0%R.
Proof. apply Horth. Qed.

Lemma frame_squared_distance_invariant :
  oteq (frame_squared_distance self frames' single_rep)
       (frame_squared_distance self frames single_rep).
Proof.
  destruct composed_frames as (Ff' & Rf' & Tf').
  destruct (query_points_shape _ _ _ _ _ _ Hinit Hsingle) as (qp & Eqp & _).
  destruct (key_points_shape _ _ _ _ _ _ Hinit Hsingle) as (kp & Ekp & _).
  destruct (frame_squared_distance_spec _ _ _ _ _ _ _ Hinit Hsingle Hframes qp kp Eqp Ekp)
    as (sq & Esq & Ssq & Gsq).
  destruct (frame_squared_distance_spec _ _ _ _ _ _ _ Hinit Hsingle Ff' qp kp Eqp Ekp)
    as (sq' & Esq' & Ssq' & Gsq').
  rewrite Esq, Esq'. split; [congruence|]. rewrite Ssq'. intros idx V. split_valid V.
  assert (i3 = 0) by lia. assert (i4 = 0) by lia. subst i3 i4.
  rewrite Gsq, Gsq' by assumption.
  etransitivity;
    [|exact (distance_invariant (fun c x => get (rotations transform) [c; x])
               (fun c => get (translations transform) [c])
               (global_point frames i1 (fun x => get qp [i1; i0; i; x]))
               (global_point frames i2 (fun x => get kp [i2; i0; i; x]))
               transform_orthonormal)].
  unfold squared_distance_of. apply sum_n_ext. intros c Hc.
  rewrite !(global_point_compose transform frames frames' len_seq) by assumption.
  reflexivity.
Qed.

Lemma frame_weight_invariant :
  oteq (frame_weight self frames' single_rep) (frame_weight self frames single_rep).
Proof.
  unfold frame_weight.
  apply orel_bind with (r := teq); [exact frame_squared_distance_invariant|].
  intros sq sq' T. apply frame_weight_of_teq. exact T.
Qed.

Lemma forward_logits_invariant :
  oteq (forward_logits self single_rep pair_rep frames')
       (forward_logits self single_rep pair_rep frames).
Proof.
  unfold forward_logits.
  apply orel_bind with (r := teq); [apply orel_refl, teq_refl|]. intros a a' Ta.
  apply orel_bind with (r := teq); [apply orel_refl, teq_refl|]. intros b b' Tb.
  apply orel_bind with (r := teq); [apply add_teq; assumption|]. intros ab ab' Tab.
  apply orel_bind with (r := teq); [exact frame_weight_invariant|]. intros c c' Tc.
  apply add_teq; assumption.
Qed.

(** The point attention for two equal weights whose rows sum to 1. *)
Lemma frame_attention_invariant (w w' : tensor) (heads : nat) :
  teq w' w -> shape w = [len_seq; heads; len_seq] ->
  bdim heads (num_heads self) = Some heads ->
  (forall i h, i < len_seq -> h < heads -> row_stochastic w len_seq [i; h]) ->
  oteq (frame_attention self w' frames' single_rep)
       (frame_attention self w frames single_rep).
Proof.
  intros Tw Sw Hb Hrow. destruct composed_frames as (Ff' & Rf' & Tf').
  assert (Sw' : shape w' = [len_seq; heads; len_seq]) by (destruct Tw; congruence).
  destruct (value_points_shape _ _ _ _ _ _ Hinit Hsingle) as (vp & Evp & _).
  destruct (frame_attention_spec _ _ _ _ _ _ _ Hinit Hsingle Hframes w _ Sw Hb vp Evp)
    as (fa & Efa & Sfa & Gfa).
  destruct (frame_attention_spec _ _ _ _ _ _ _ Hinit Hsingle Ff' w' _ Sw' Hb vp Evp)
    as (fa' & Efa' & Sfa' & Gfa').
  rewrite Efa, Efa'.
  apply (teq_of_pointwise4 _ _ _ _ _ _ Sfa' Sfa). intros i h p c Hi Hh Hp Hc.
  rewrite Gfa, Gfa' by assumption.
  set (g := fun j y => global_point frames j
                         (fun u => get vp [j; bidx (num_heads self) h; p; u]) y).
  etransitivity;
    [|exact (point_attention_invariant
               (fun y z => get (rotations transform) [y; z])
               (fun z c => get (rotations frames) [i; z; c])
               (fun y => get (translations transform) [y])
               (fun z => get (translations frames) [i; z])
               len_seq (fun j => get w [i; h; j]) g c transform_orthonormal
               (Hrow i h Hi Hh))].
  cbv beta. f_equal.
  - apply sum_n_ext. intros y Hy. rewrite Rf' by assumption. f_equal.
    apply sum_n_ext. intros j Hj. destruct Tw as [_ Gw].
    rewrite Gw by (rewrite Sw'; apply valid_last3; assumption). f_equal.
    rewrite (global_point_compose transform frames frames' len_seq) by assumption.
    reflexivity.
  - f_equal. apply sum_n_ext. intros y Hy. rewrite Rf', Tf' by assumption. reflexivity.
Qed.

Lemma forward_output_invariant (w w' : tensor) (heads : nat) :
  teq w' w -> shape w = [len_seq; heads; len_seq] ->
  bdim heads (num_heads self) = Some heads ->
  (forall i h, i < len_seq -> h < heads -> row_stochastic w len_seq [i; h]) ->
  oteq (forward_output self w' single_rep pair_rep frames')
       (forward_output self w single_rep pair_rep frames).
Proof.
  intros Tw Sw Hb Hrow. unfold forward_output. cbv zeta.
  apply orel_bind with (r := teq).
  { apply single_rep_attention_teq; [apply ipa_eq_refl | exact Tw | apply teq_refl]. }
  intros sa sa' Tsa.
  apply orel_bind with (r := teq).
  { apply pair_rep_attention_teq; [exact Tw | apply teq_refl]. }
  intros pa pa' Tpa.
  apply orel_bind with (r := teq).
  { apply (frame_attention_invariant w w' heads); assumption. }
  intros fa fa' Tfa.
  apply forward_concat_teq; [apply ipa_eq_refl | assumption..].
Qed.

Lemma forward_invariant :
  oteq (forward self single_rep pair_rep frames')
       (forward self single_rep pair_rep frames).
Proof.
  destruct composed_frames as (Ff' & _).
  pose proof frame_weight_invariant as Ic.
  pose proof forward_logits_invariant as Il.
  pose proof (frame_weight_cases _ _ _ _ _ _ _ Hinit Hsingle Hframes) as C.
  destruct (frame_weight self frames single_rep) as [c|] eqn:Ec.
  - destruct (frame_weight self frames' single_rep) as [c'|] eqn:Ec'; [|contradiction].
    assert (Hw : exists heads logits w,
               forward_logits self single_rep pair_rep frames = Some logits
               /\ forward_weight self single_rep pair_rep frames = Some w
               /\ softmax (-1) logits = Some w
               /\ shape logits = [len_seq; heads; len_seq]
               /\ shape w = [len_seq; heads; len_seq]
               /\ bdim heads (num_heads self) = Some heads).
    { destruct C as [(_ & _ & _ & Sc)|(_ & Sc & E)].
      - destruct (forward_weight_shape _ _ _ _ _ _ _ _ Hinit Hsingle Hpair c Ec Sc)
          as (l & w & ? & ? & ? & ? & ?).
        exists (num_heads self), l, w. repeat (split; [assumption|]). apply bdim_same.
      - assert (E' : num_heads self = 1 \/ num_heads self = len_seq)
          by (destruct E as [[? _]|[_ ?]]; auto).
        destruct (forward_weight_shape_flat _ _ _ _ _ _ _ _ Hinit Hsingle Hpair c Ec Sc E')
          as (l & w & ? & ? & ? & ? & ?).
        exists len_seq, l, w. repeat (split; [assumption|]).
        destruct E' as [->| ->]; [apply bdim_1_r | apply bdim_same]. }
    destruct Hw as (heads & logits & w & El & Ew & Esm & Sl & Sw & Hb).
    rewrite El in Il.
    destruct (forward_logits self single_rep pair_rep frames') as [logits'|] eqn:El';
      [|contradiction].
    pose proof (softmax_teq (-1) _ _ Il) as Tw. rewrite Esm in Tw.
    destruct (softmax (-1) logits') as [w'|] eqn:Esm'; [|contradiction].
    unfold forward, forward_weight. rewrite El, El'. cbn [bind]. rewrite Esm, Esm'.
    cbn [bind].
    apply (forward_output_invariant w w' heads); try assumption.
    intros i h Hi Hh. apply (softmax_row_stochastic logits w _ _ _ Sl Esm); [assumption..|lia].
  - destruct (frame_weight self frames' single_rep) as [c'|] eqn:Ec'; [contradiction|].
    rewrite (frame_weight_none_forward _ _ _ _ Ec), (frame_weight_none_forward _ _ _ _ Ec').
    exact I.
Qed.

End Invariance.

(** ** Backbone Update *)

Lemma Linear_forward_bias_spec2 (l : Linear) (n_in n_out a : nat) (x b : tensor) :
  shape (lin_weight l) = [n_out; n_in] -> lin_bias l = Some b -> shape b = [n_out] ->
  shape x = [a; n_in] ->
  exists y, Linear_forward l x = Some y /\ shape y = [a; n_out] /\
    forall i h, i < a -> h < n_out ->
      get y [i; h]
      = (sum_n n_in (fun c => get x [i; c] * get (lin_weight l) [h; c]) + get b [h])%R.
Proof.
  intros Sw Eb Sb Sx. destruct l as [w b']. cbn [lin_weight lin_bias] in *. subst b'.
  reveal w. reveal x. reveal b. unfold Linear_forward. cbn [lin_weight lin_bias]. tev.
  eexists. split; [reflexivity|]. split; [reflexivity|].
  intros i h Hi Hh. cbn. bidx_simpl. reflexivity.
Qed.

(** The 6 scalars of each residue: the projection without its bias plus
    the bias, if any. *)
Lemma backbone_projection (self : BackboneUpdate) (single_embedding_size n : nat)
    (single : tensor) :
  backbone_initialised self single_embedding_size ->
  shape single = [n; single_embedding_size] ->
  exists x, Linear_forward (linear self) single = Some x /\ shape x = [n; 6] /\
    forall i h, i < n -> h < 6 ->
      get x [i; h]
      = (sum_n single_embedding_size
           (fun c => get single [i; c] * get (lin_weight (linear self)) [h; c])
         + match lin_bias (linear self) with
           | Some b => get b [h]
           | None => 0
           end)%R.
Proof.
  intros [[Sw Sb]|[Sw Sb]] Ss.
  - destruct (lin_bias (linear self)) as [b|] eqn:Eb; [|discriminate Sb].
    destruct Sb as [_ Sb].
    exact (Linear_forward_bias_spec2 _ _ _ _ _ _ Sw Eb Sb Ss).
  - destruct (lin_bias (linear self)) as [b|] eqn:Eb; [destruct Sb; discriminate|].
    destruct (Linear_forward_spec2 (linear self) single_embedding_size 6 n single) as (x & Ex & Sx & Gx).
    + split; [exact Sw|]. rewrite Eb. reflexivity.
    + exact Ss.
    + exists x. split; [exact Ex|]. split; [exact Sx|].
      intros i h Hi Hh. rewrite Gx by assumption. ring.
Qed.

Lemma BackboneUpdate_forward_spec (self : BackboneUpdate) (single_embedding_size n : nat)
    (single : tensor) :
  backbone_initialised self single_embedding_size ->
  shape single = [n; single_embedding_size] ->
  exists x f, Linear_forward (linear self) single = Some x /\ shape x = [n; 6]
    /\ BackboneUpdate_forward self single = Some f /\ frame_shaped f n
    /\ (forall i r k, i < n -> r < 3 -> k < 3 ->
          get (rotations f) [i; r; k]
          = let norm := quaternion_norm (get x [i; 0]) (get x [i; 1]) (get x [i; 2]) in
            quaternion_to_matrix (1 / norm) (get x [i; 0] / norm) (get x [i; 1] / norm)
              (get x [i; 2] / norm) r k)
    /\ (forall i k, i < n -> k < 3 -> get (translations f) [i; k] = get x [i; 3 + k]).
Proof.
  intros Hinit Ss.
  destruct (backbone_projection self _ n single Hinit Ss) as (x & Ex & Sx & _).
  exists x. unfold BackboneUpdate_forward. rewrite Ex. cbn [bind]. rewrite Sx.
  eexists. split; [reflexivity|]. split; [reflexivity|]. split; [reflexivity|].
  split; [split; reflexivity|]. split.
  - intros i r k Hi Hr Hk. reflexivity.
  - intros i k Hi Hk. reflexivity.
Qed.

Lemma quaternion_norm_pos (b c d : R) : (0 < quaternion_norm b c d)%R.
Proof. unfold quaternion_norm. apply sqrt_lt_R0. nra. Qed.

Lemma quaternion_norm_sqr (b c d : R) :
  (quaternion_norm b c d * quaternion_norm b c d = 1 + b * b + c * c + d * d)%R.
Proof. unfold quaternion_norm. apply sqrt_sqrt. nra. Qed.

(** normalize((1, b, c, d)) is a unit quaternion. *)
Lemma quaternion_unit (b c d : R) :
  let n := quaternion_norm b c d in
  ((1 / n) * (1 / n) + (b / n) * (b / n) + (c / n) * (c / n) + (d / n) * (d / n) = 1)%R.
Proof.
  intros n. pose proof (quaternion_norm_pos b c d) as P.
  pose proof (quaternion_norm_sqr b c d) as Q. fold n in P, Q.
  assert (Hn : n <> 0%R) by lra.
  transitivity ((1 + b * b + c * c + d * d) / (n * n))%R; [field; exact Hn|].
  rewrite Q. field. nra.
Qed.

(** The matrix of a unit quaternion has orthonormal rows and columns. *)
Lemma quaternion_matrix_rows (a b c d : R) (r k : nat) :
  (a * a + b * b + c * c + d * d = 1)%R -> r < 3 -> k < 3 ->
  sum_n 3 (fun x => (quaternion_to_matrix a b c d r x * quaternion_to_matrix a b c d k x)%R)
  = if r =? k then 1%R else 0%R.
Proof.
  intros U Hr Hk.
  destruct r as [|[|[|r]]]; try lia; destruct k as [|[|[|k]]]; try lia;
    cbn [sum_n quaternion_to_matrix Nat.eqb]; try ring;
    (transitivity ((a * a + b * b + c * c + d * d) * (a * a + b * b + c * c + d * d))%R;
     [ring | rewrite U; ring]).
Qed.

Lemma quaternion_matrix_columns (a b c d : R) (r k : nat) :
  (a * a + b * b + c * c + d * d = 1)%R -> r < 3 -> k < 3 ->
  sum_n 3 (fun x => (quaternion_to_matrix a b c d x r * quaternion_to_matrix a b c d x k)%R)
  = if r =? k then 1%R else 0%R.
Proof.
  intros U Hr Hk.
  destruct r as [|[|[|r]]]; try lia; destruct k as [|[|[|k]]]; try lia;
    cbn [sum_n quaternion_to_matrix Nat.eqb]; try ring;
    (transitivity ((a * a + b * b + c * c + d * d) * (a * a + b * b + c * c + d * d))%R;
     [ring | rewrite U; ring]).
Qed.

(** rotations @ rotations.transpose(-2, -1), as the test computes it. *)
Lemma rotations_gram (rot : tensor) (n : nat) :
  shape rot = [n; 3; 3] ->
  exists rt prod, transpose (-2) (-1) rot = Some rt /\ matmul rot rt = Some prod
    /\ shape prod = [n; 3; 3]
    /\ forall i r k, i < n -> r < 3 -> k < 3 ->
         get prod [i; r; k] = sum_n 3 (fun x => (get rot [i; r; x] * get rot [i; k; x])%R).
Proof.
  intros S. reveal rot. eexists. eexists.
  split; [tev; reflexivity|]. tev.
  split; [reflexivity|]. split; [reflexivity|].
  intros i r k Hi Hr Hk. cbn. bidx_simpl. reflexivity.
Qed.

Lemma quaternion_identity (r k : nat) :
  r < 3 -> k < 3 ->
  quaternion_to_matrix (1 / quaternion_norm 0 0 0) (0 / quaternion_norm 0 0 0)
    (0 / quaternion_norm 0 0 0) (0 / quaternion_norm 0 0 0) r k
  = if r =? k then 1%R else 0%R.
Proof.
  intros Hr Hk.
  assert (E : quaternion_norm 0 0 0 = 1%R).
  { unfold quaternion_norm. replace (1 + 0 * 0 + 0 * 0 + 0 * 0)%R with 1%R by ring.
    apply sqrt_1. }
  rewrite E.
  destruct r as [|[|[|r]]]; try lia; destruct k as [|[|[|k]]]; try lia;
    cbn [quaternion_to_matrix Nat.eqb]; field.
Qed.

(** ** The three terms of the weight *)

Section Logits.

Variable self : InvariantPointAttention.
Variables single_embedding_size pair_embedding_size ipa_embedding_size len_seq : nat.
Variables single_rep pair_rep : tensor.
Variable frames : Frame.

Hypothesis Hinit :
  initialised self single_embedding_size pair_embedding_size ipa_embedding_size.
Hypothesis Hsingle : shape single_rep = [len_seq; single_embedding_size].
Hypothesis Hpair : shape pair_rep = [len_seq; len_seq; pair_embedding_size].
Hypothesis Hframes : frame_shaped frames len_seq.

Lemma forward_logits_spec :
  num_query_points self <> 1 -> num_heads self <> 1 -> len_seq <> 1 ->
  exists q k b qp kp logits w,
    LinearWithView_forward (query self) single_rep = Some q
    /\ LinearWithView_forward (key self) single_rep = Some k
    /\ Linear_forward (bias self) pair_rep = Some b
    /\ LinearWithView_forward (query_points self) single_rep = Some qp
    /\ LinearWithView_forward (key_points self) single_rep = Some kp
    /\ forward_logits self single_rep pair_rep frames = Some logits
    /\ shape logits = [len_seq; num_heads self; len_seq]
    /\ (forall i h j, i < len_seq -> h < num_heads self -> j < len_seq ->
          get logits [i; h; j]
          = (scale_single_rep self
             * sum_n ipa_embedding_size (fun d => get q [i; h; d] * get k [j; h; d])
             + get b [i; j; h]
             + scale_frame self * softplus_fn (get (scale_head self) [h])
               * point_distance_sum frames qp kp (num_query_points self) i h j)%R)
    /\ forward_weight self single_rep pair_rep frames = Some w
    /\ shape w = [len_seq; num_heads self; len_seq]
    /\ (forall i h j, i < len_seq -> h < num_heads self -> j < len_seq ->
          get w [i; h; j]
          = (exp (get logits [i; h; j])
             / sum_n len_seq (fun y => exp (get logits [i; h; y])))%R).
Proof.
  intros Hp Hh Hn.
  destruct (query_shape _ _ _ _ _ _ Hinit Hsingle) as (q & Eq & Sq).
  destruct (key_shape _ _ _ _ _ _ Hinit Hsingle) as (k & Ek & Sk).
  destruct (query_points_shape _ _ _ _ _ _ Hinit Hsingle) as (qp & Eqp & Sqp).
  destruct (key_points_shape _ _ _ _ _ _ Hinit Hsingle) as (kp & Ekp & Skp).
  destruct (single_rep_weight_spec _ _ _ _ _ _ Hinit Hsingle q k Eq Ek)
    as (a & Ea & Sa & Ga).
  destruct (pair_rep_weight_spec _ _ _ _ _ _ Hinit Hpair)
    as (b & pw & Eb & Sb & _ & Epw & Spw & Gpw).
  destruct (frame_weight_spec _ _ _ _ _ _ _ Hinit Hsingle Hframes qp kp Eqp Ekp Hp Hh Hn)
    as (c & Ec & Sc & Gc).
  exists q, k, b, qp, kp.
  assert (El : exists logits,
             forward_logits self single_rep pair_rep frames = Some logits
             /\ shape logits = [len_seq; num_heads self; len_seq]
             /\ forall i h j, i < len_seq -> h < num_heads self -> j < len_seq ->
                  get logits [i; h; j]
                  = (get a [i; h; j] + get pw [i; h; j] + get c [i; h; j])%R).
  { unfold forward_logits. rewrite Ea, Epw, Ec. cbn [bind].
    clear Ea Epw Ec Ga Gpw Gc. reveal a. reveal pw. reveal c. tev.
    eexists. split; [reflexivity|]. split; [reflexivity|].
    intros i h j Hi Hh' Hj. cbn. bidx_simpl. reflexivity. }
  destruct El as (logits & El & Sl & Gl). exists logits.
  destruct (softmax_spec3 logits _ _ _ Sl) as (w & Ew & Sw & Gw). exists w.
  repeat (split; [assumption|]). split.
  - intros i h j Hi Hh' Hj. rewrite Gl, Ga, Gpw, Gc by assumption. reflexivity.
  - split; [unfold forward_weight; rewrite El; exact Ew|]. split; assumption.
Qed.

End Logits.

(** ** Concrete modules and inputs *)

Lemma zero_linear_shaped (n_in n_out : nat) (with_bias : bool) :
  linear_shaped (zero_linear n_in n_out with_bias) n_in n_out with_bias.
Proof. split; [reflexivity|]. destruct with_bias; cbn; auto. Qed.

Lemma zero_linear_with_view_shaped (n_in : nat) (outf : list nat) :
  linear_with_view_shaped (zero_linear_with_view n_in outf) n_in outf.
Proof. split; [reflexivity | apply zero_linear_shaped]. Qed.

Lemma zero_module_initialised (sdim pdim idim pq pv h : nat) :
  0 < idim -> 0 < pq -> initialised (zero_module sdim pdim idim pq pv h) sdim pdim idim.
Proof.
  intros Hi Hp. constructor; cbn [zero_module num_heads num_query_points num_value_points
    query key value query_points key_points value_points bias out scale_head
    scale_single_rep scale_frame]; try apply zero_linear_with_view_shaped;
    try apply zero_linear_shaped; try reflexivity; assumption.
Qed.

Lemma test_frames_shaped (n : nat) : frame_shaped (test_frames n) n.
Proof. split; reflexivity. Qed.

Lemma z_rotation_orthonormal (angle : R) (a b : nat) :
  a < 3 -> b < 3 ->
  sum_n 3 (fun x => (z_rotation angle x a * z_rotation angle x b)%R)
  = if a =? b then 1%R else 0%R.
Proof.
  intros Ha Hb. pose proof (sin2_cos2 angle) as U. unfold Rsqr in U.
  destruct a as [|[|[|a]]]; try lia; destruct b as [|[|[|b]]]; try lia;
    cbn [sum_n z_rotation Nat.eqb]; nra.
Qed.

Lemma test_frames_orthonormal (n i : nat) : orthonormal_at (rotations (test_frames n)) [i].
Proof. intros a b Ha Hb. cbn. apply (z_rotation_orthonormal (INR i) a b Ha Hb). Qed.

Lemma test_transform_shaped : transform_shaped test_transform.
Proof. split; reflexivity. Qed.

Lemma test_transform_orthonormal : orthonormal_at (rotations test_transform) [].
Proof. intros a b Ha Hb. cbn. apply (z_rotation_orthonormal 1 a b Ha Hb). Qed.


Lemma zero_projection (n_in : nat) (outf : list nat) (a : nat) (x : tensor) :
  shape x = [a; n_in] ->
  exists y, LinearWithView_forward (zero_linear_with_view n_in outf) x = Some y
    /\ shape y = a :: outf
    /\ forall idx, valid (a :: outf) idx -> get y idx = 0%R.
Proof.
  intros Sx.
  destruct (Linear_forward_spec2 (zero_linear n_in (numel outf) false) n_in (numel outf) a x
              (zero_linear_shaped _ _ _) Sx) as (y0 & Ey0 & Sy0 & Gy0).
  unfold LinearWithView_forward. cbn [zero_linear_with_view lwv_linear out_features].
  rewrite Ey0, Sx. cbn [bind removelast app]. unfold view. rewrite Sy0.
  rewrite infer_shape_known by (unfold numel; cbn [fold_right]; ring).
  cbn [bind]. eexists. split; [reflexivity|]. split; [reflexivity|].
  cbn [get]. intros idx V.
  assert (Vu : valid [a; numel outf] (unravel [a; numel outf] (ravel (a :: outf) idx))).
  { apply unravel_valid. apply ravel_lt in V. unfold numel in *. cbn [fold_right] in *. lia. }
  remember (unravel [a; numel outf] (ravel (a :: outf) idx)) as u eqn:Eu. clear Eu.
  split_valid Vu. rewrite Gy0 by assumption.
  rewrite (sum_n_ext n_in _ (fun _ => 0%R)) by (intros c Hc; cbn; ring).
  apply sum_n_const_zero.
Qed.

Lemma softplus_fn_1_pos : (0 < softplus_fn 1)%R.
Proof.
  unfold softplus_fn. destruct (Rlt_dec 20 1) as [L|_]; [lra|].
  rewrite <- ln_1. apply ln_increasing; [lra|]. pose proof (exp_pos 1). lra.
Qed.

Lemma scale_frame_negative (n : nat) : 0 < n -> (- 1 / sqrt (INR (18 * n)) < 0)%R.
Proof.
  intros Hn. assert (P : (0 < sqrt (INR (18 * n)))%R).
  { apply sqrt_lt_R0. apply lt_0_INR. lia. }
  unfold Rdiv. apply Rmult_neg_pos; [lra|]. apply Rinv_0_lt_compat. exact P.
Qed.

Lemma valid_last4 (k l m n h i j x : nat) :
  h < k -> i < l -> j < m -> x < n -> valid [k; l; m; n] [h; i; j; x].
Proof.
  intros L1 L2 L3 L4. apply valid_cons. split; [exact L1|]. apply valid_last3; assumption.
Qed.

Lemma test_module_initialised : initialised test_module 3 7 5.
Proof. apply zero_module_initialised; lia. Qed.

Lemma single_point_module_initialised : initialised single_point_module 1 1 1.
Proof. apply zero_module_initialised; lia. Qed.

(** [forward] when no size is 1. *)
Lemma forward_regular (self : InvariantPointAttention)
    (single_embedding_size pair_embedding_size ipa_embedding_size len_seq : nat)
    (single_rep pair_rep : tensor) (frames : Frame) :
  initialised self single_embedding_size pair_embedding_size ipa_embedding_size ->
  shape single_rep = [len_seq; single_embedding_size] ->
  shape pair_rep = [len_seq; len_seq; pair_embedding_size] ->
  frame_shaped frames len_seq ->
  2 <= len_seq -> 2 <= num_heads self -> 2 <= num_query_points self ->
  exists c w fa o,
    frame_weight self frames single_rep = Some c
    /\ shape c = [len_seq; num_heads self; len_seq]
    /\ forward_weight self single_rep pair_rep frames = Some w
    /\ shape w = [len_seq; num_heads self; len_seq]
    /\ frame_attention self w frames single_rep = Some fa
    /\ shape fa = [len_seq; num_heads self; num_value_points self; 3]
    /\ forward self single_rep pair_rep frames = Some o
    /\ shape o = [len_seq; single_embedding_size].
Proof.
  intros Hinit Hs Hz Hf Hn Hh Hp.
  pose proof (frame_weight_cases self _ _ _ _ single_rep frames Hinit Hs Hf) as C.
  destruct (frame_weight self frames single_rep) as [c|] eqn:Ec.
  - assert (Sc : shape c = [len_seq; num_heads self; len_seq]).
    { destruct C as [(_ & _ & _ & S)|(_ & _ & [[E _]|[E _]])]; [exact S | lia | lia]. }
    destruct (forward_weight_shape self _ _ _ _ single_rep pair_rep frames Hinit Hs Hz c Ec Sc)
      as (logits & w & _ & Ew & _ & _ & Sw).
    destruct (value_points_shape self _ _ _ _ single_rep Hinit Hs) as (vp & Evp & _).
    destruct (frame_attention_spec self _ _ _ _ single_rep frames Hinit Hs Hf w _ Sw
                (bdim_same _) vp Evp) as (fa & Efa & Sfa & _).
    destruct (forward_output_shape self _ _ _ _ single_rep pair_rep frames Hinit Hs Hz Hf
                w Sw ltac:(lia) ltac:(lia)) as (o & Eo & So).
    exists c, w, fa, o. unfold forward. rewrite Ew. cbn [bind].
    repeat (split; [assumption || reflexivity|]). assumption.
  - exfalso. destruct C as [C|[[C _]|[C _]]]; lia.
Qed.

(** The rotation of each residue is the matrix of a unit quaternion. *)
Lemma backbone_rotations_unit (self : BackboneUpdate) (single_embedding_size n : nat)
    (single : tensor) :
  backbone_initialised self single_embedding_size ->
  shape single = [n; single_embedding_size] ->
  exists f, BackboneUpdate_forward self single = Some f /\ frame_shaped f n
    /\ forall i, i < n ->
         exists a b c d,
           (a * a + b * b + c * c + d * d = 1)%R
           /\ forall r k, r < 3 -> k < 3 ->
                get (rotations f) [i; r; k] = quaternion_to_matrix a b c d r k.
Proof.
  intros Hinit Hs.
  destruct (BackboneUpdate_forward_spec self _ n single Hinit Hs)
    as (x & f & _ & _ & Ef & Ff & Rf & _).
  exists f. split; [exact Ef|]. split; [exact Ff|]. intros i Hi.
  eexists. eexists. eexists. eexists. split.
  - apply (quaternion_unit (get x [i; 0]) (get x [i; 1]) (get x [i; 2])).
  - intros r k Hr Hk. rewrite Rf by assumption. reflexivity.
Qed.


Lemma teq_within_tolerance (a b : tensor) : teq a b -> within_tolerance a b.
Proof.
  intros [E H]. split; [exact E|]. intros idx V. rewrite H by exact V.
  unfold Rminus. rewrite Rplus_opp_r, Rabs_R0. unfold atol. lra.
Qed.

(** * The claims *)

(** C4 (Frame round trip).  For a Frame [f] of [n] residues whose rotations
    satisfy R^T R = I and every batch of points [p] of shape
    [..., n, 3]: inverse(f) has the rotations R^T and the translations
    - R^T t, and apply(inverse(f), apply(f, p)) returns [p] itself, hence
    [p] within the absolute tolerance 1e-5. *)
Theorem Frame_inverse_round_trip (f : Frame) (n : nat) (pre : list nat) (p : tensor) :
  frame_shaped f n -> shape p = pre ++ [n; 3] ->
  (forall i, i < n -> orthonormal_at (rotations f) [i]) ->
  exists inv q r,
    Frame_inverse f = Some inv
    /\ (forall i r c, i < n -> r < 3 -> c < 3 ->
          get (rotations inv) [i; r; c] = get (rotations f) [i; c; r])
    /\ (forall i c, i < n -> c < 3 ->
          get (translations inv) [i; c]
          = (- sum_n 3 (fun x => get (rotations f) [i; x; c] * get (translations f) [i; x]))%R)
    /\ Frame_apply f p = Some q
    /\ Frame_apply inv q = Some r
    /\ teq r p /\ within_tolerance r p.
Proof.
  intros Ff Sp Orth.
  destruct (Frame_round_trip f n pre p Ff Sp Orth) as (inv & q & r & Ei & Eq & Er & T).
  destruct (Frame_inverse_spec f n Ff) as (inv' & Ei' & _ & Ri & Ti).
  rewrite Ei in Ei'. injection Ei' as <-.
  exists inv, q, r. split; [exact Ei|]. split; [exact Ri|]. split; [exact Ti|].
  split; [exact Eq|]. split; [exact Er|]. split; [exact T|].
  apply teq_within_tolerance. exact T.
Qed.

Lemma Frame_inverse_round_trip_witness :
  exists inv q r,
    Frame_inverse (test_frames 10) = Some inv
    /\ (forall i r c, i < 10 -> r < 3 -> c < 3 ->
          get (rotations inv) [i; r; c] = get (rotations (test_frames 10)) [i; c; r])
    /\ (forall i c, i < 10 -> c < 3 ->
          get (translations inv) [i; c]
          = (- sum_n 3 (fun x => get (rotations (test_frames 10)) [i; x; c]
                                 * get (translations (test_frames 10)) [i; x]))%R)
    /\ Frame_apply (test_frames 10) test_points = Some q
    /\ Frame_apply inv q = Some r
    /\ teq r test_points /\ within_tolerance r test_points.
Proof.
  exact (Frame_inverse_round_trip (test_frames 10) 10 [4] test_points
           (test_frames_shaped 10) eq_refl
           (fun i _ => test_frames_orthonormal 10 i)).
Defined.

(** C5 (Frame composition).  For Frames [a], [b], [c] of [n] residues:
    compose(a, b) has the rotations R_a R_b and the translations
    R_a t_b + t_a; composition is associative; and composing with the
    identity frame (R = I, t = 0) on either side returns the frame itself. *)
Theorem Frame_compose_laws (a b c : Frame) (n : nat) :
  frame_shaped a n -> frame_shaped b n -> frame_shaped c n ->
  (exists ab, Frame_compose a b = Some ab /\ frame_shaped ab n
     /\ (forall i r k, i < n -> r < 3 -> k < 3 ->
           get (rotations ab) [i; r; k]
           = sum_n 3 (fun x => get (rotations a) [i; r; x] * get (rotations b) [i; x; k])%R)
     /\ (forall i k, i < n -> k < 3 ->
           get (translations ab) [i; k]
           = (sum_n 3 (fun x => get (rotations a) [i; k; x] * get (translations b) [i; x])
              + get (translations a) [i; k])%R))
  /\ (exists ab bc l r,
        Frame_compose a b = Some ab /\ Frame_compose b c = Some bc
        /\ Frame_compose ab c = Some l /\ Frame_compose a bc = Some r /\ frame_eq l r)
  /\ oframe_eq (Frame_compose a Frame_identity) (Some a)
  /\ oframe_eq (Frame_compose Frame_identity a) (Some a).
Proof.
  intros Fa Fb Fc. split; [exact (Frame_compose_spec a b n Fa Fb)|].
  split; [exact (Frame_compose_assoc a b c n Fa Fb Fc)|].
  split; [exact (Frame_compose_identity_r a n Fa) | exact (Frame_compose_identity_l a n Fa)].
Qed.

Lemma Frame_compose_laws_witness :
  (exists ab, Frame_compose (test_frames 10) (test_frames 10) = Some ab
     /\ frame_shaped ab 10
     /\ (forall i r k, i < 10 -> r < 3 -> k < 3 ->
           get (rotations ab) [i; r; k]
           = sum_n 3 (fun x => get (rotations (test_frames 10)) [i; r; x]
                               * get (rotations (test_frames 10)) [i; x; k])%R)
     /\ (forall i k, i < 10 -> k < 3 ->
           get (translations ab) [i; k]
           = (sum_n 3 (fun x => get (rotations (test_frames 10)) [i; k; x]
                                * get (translations (test_frames 10)) [i; x])
              + get (translations (test_frames 10)) [i; k])%R))
  /\ (exists ab bc l r,
        Frame_compose (test_frames 10) (test_frames 10) = Some ab
        /\ Frame_compose (test_frames 10) (test_frames 10) = Some bc
        /\ Frame_compose ab (test_frames 10) = Some l
        /\ Frame_compose (test_frames 10) bc = Some r /\ frame_eq l r)
  /\ oframe_eq (Frame_compose (test_frames 10) Frame_identity) (Some (test_frames 10))
  /\ oframe_eq (Frame_compose Frame_identity (test_frames 10)) (Some (test_frames 10)).
Proof.
  exact (Frame_compose_laws (test_frames 10) (test_frames 10) (test_frames 10) 10
           (test_frames_shaped 10) (test_frames_shaped 10) (test_frames_shaped 10)).
Defined.


(** Global invariance in exact arithmetic.  For every initialised module,
    single and pair representation, Frames of [len_seq] residues and rigid
    transform with R^T R = I: [forward] on the Frames composed with the
    transform and [forward] on the original Frames agree: both raise, or
    both return the same tensor; and when no size is 1 both return. *)
Theorem forward_rigid_invariant (self : InvariantPointAttention)
    (single_embedding_size pair_embedding_size ipa_embedding_size len_seq : nat)
    (single_rep pair_rep : tensor) (transform frames : Frame) :
  initialised self single_embedding_size pair_embedding_size ipa_embedding_size ->
  shape single_rep = [len_seq; single_embedding_size] ->
  shape pair_rep = [len_seq; len_seq; pair_embedding_size] ->
  frame_shaped frames len_seq ->
  transform_shaped transform ->
  orthonormal_at (rotations transform) [] ->
  exists frames',
    Frame_compose transform frames = Some frames'
    /\ oteq (forward self single_rep pair_rep frames')
            (forward self single_rep pair_rep frames)
    /\ (2 <= len_seq -> 2 <= num_heads self -> 2 <= num_query_points self ->
        exists o o',
          forward self single_rep pair_rep frames = Some o
          /\ forward self single_rep pair_rep frames' = Some o'
          /\ shape o = [len_seq; single_embedding_size]).
Proof.
  intros Hinit Hs Hz Hf Ht Ho.
  destruct (Frame_compose_transform_spec transform frames len_seq Ht Hf)
    as (frames' & Ec & Ff' & _).
  exists frames'. split; [exact Ec|].
  pose proof (forward_invariant self _ _ _ _ single_rep pair_rep transform frames frames'
                Hinit Hs Hz Hf Ht Ho Ec) as I.
  split; [exact I|].
  intros Hn Hh Hp.
  pose proof (forward_cases self _ _ _ _ single_rep pair_rep frames Hinit Hs Hz Hf
                ltac:(lia) ltac:(lia)) as C.
  destruct (forward self single_rep pair_rep frames) as [o|].
  - destruct (forward self single_rep pair_rep frames') as [o'|]; [|contradiction].
    exists o, o'. destruct C as [So _]. auto.
  - exfalso. destruct C as [C|[C|[C _]]]; lia.
Qed.

Lemma forward_rigid_invariant_witness :
  exists frames',
    Frame_compose test_transform (test_frames 10) = Some frames'
    /\ oteq (forward test_module test_single_representation test_pair_representation frames')
            (forward test_module test_single_representation test_pair_representation
               (test_frames 10))
    /\ (2 <= 10 -> 2 <= num_heads test_module ->
        2 <= num_query_points test_module ->
        exists o o',
          forward test_module test_single_representation test_pair_representation
            (test_frames 10) = Some o
          /\ forward test_module test_single_representation test_pair_representation frames'
             = Some o'
          /\ shape o = [10; 3]).
Proof.
  exact (forward_rigid_invariant test_module 3 7 5 10
           test_single_representation test_pair_representation test_transform (test_frames 10)
           test_module_initialised eq_refl eq_refl
           (test_frames_shaped 10) test_transform_shaped test_transform_orthonormal).
Defined.

(** ** The heap *)

Lemma extends_refl (h : Heap) : extends h h.
Proof. split; [reflexivity | exists []; symmetry; apply app_nil_r]. Qed.

Lemma extends_trans (h1 h2 h3 : Heap) : extends h1 h2 -> extends h2 h3 -> extends h1 h3.
Proof.
  intros [G1 [f1 S1]] [G2 [f2 S2]]. split; [congruence |].
  exists (f1 ++ f2). rewrite S2, S1. symmetry. apply app_assoc.
Qed.

Lemma content_extends (h h' : Heap) (r : tref) (t : tensor) :
  extends h h' -> content h r = Some t -> content h' r = Some t.
Proof.
  intros [_ [fresh S]] C. unfold content in *. rewrite S.
  destruct (nth_error (storages h) (address r)) as [s |] eqn:E; [| discriminate].
  rewrite nth_error_app1; [rewrite E; exact C |].
  apply nth_error_Some. congruence.
Qed.

Lemma Linear_content_extends (h h' : Heap) (l : LinearRef) (L : Linear) :
  extends h h' -> Linear_content h l = Some L -> Linear_content h' l = Some L.
Proof.
  intros E C. unfold Linear_content in *.
  destruct (content h (weight_ref l)) as [w |] eqn:W; [| discriminate].
  rewrite (content_extends _ _ _ _ E W). cbn [bind] in *.
  destruct (bias_ref l) as [b |]; [| exact C].
  destruct (content h b) as [b' |] eqn:B; [| discriminate].
  rewrite (content_extends _ _ _ _ E B). exact C.
Qed.

Lemma LinearWithView_content_extends (h h' : Heap) (l : LinearWithViewRef)
    (L : LinearWithView) :
  extends h h' -> LinearWithView_content h l = Some L -> LinearWithView_content h' l = Some L.
Proof.
  intros E C. unfold LinearWithView_content in *.
  destruct (Linear_content h (linear_ref l)) as [l' |] eqn:W; [| discriminate].
  rewrite (Linear_content_extends _ _ _ _ E W). exact C.
Qed.

Lemma Frame_content_extends (h h' : Heap) (f : FrameRef) (F : Frame) :
  extends h h' -> Frame_content h f = Some F -> Frame_content h' f = Some F.
Proof.
  intros E C. unfold Frame_content in *.
  destruct (content h (rotations_ref f)) as [r |] eqn:R; [| discriminate].
  destruct (content h (translations_ref f)) as [t |] eqn:T; [| discriminate].
  rewrite (content_extends _ _ _ _ E R), (content_extends _ _ _ _ E T). exact C.
Qed.

Lemma Frame_content_fields (h : Heap) (f : FrameRef) (F : Frame) :
  Frame_content h f = Some F ->
  content h (rotations_ref f) = Some (rotations F)
  /\ content h (translations_ref f) = Some (translations F).
Proof.
  unfold Frame_content. intros C.
  destruct (content h (rotations_ref f)) as [r |]; [| discriminate].
  destruct (content h (translations_ref f)) as [t |]; [| discriminate].
  injection C as <-. split; reflexivity.
Qed.

Lemma Linear_content_fields (h : Heap) (l : LinearRef) (L : Linear) :
  Linear_content h l = Some L ->
  content h (weight_ref l) = Some (lin_weight L)
  /\ match bias_ref l, lin_bias L with
     | Some b, Some b' => content h b = Some b'
     | None, None => True
     | _, _ => False
     end.
Proof.
  unfold Linear_content. intros C.
  destruct (content h (weight_ref l)) as [w |]; [| discriminate]. cbn [bind] in C.
  destruct (bias_ref l) as [b |].
  - destruct (content h b) as [b' |]; [| discriminate].
    injection C as <-. split; reflexivity.
  - injection C as <-. split; [reflexivity | exact I].
Qed.

Lemma LinearWithView_content_fields (h : Heap) (l : LinearWithViewRef) (L : LinearWithView) :
  LinearWithView_content h l = Some L ->
  Linear_content h (linear_ref l) = Some (lwv_linear L)
  /\ out_features L = out_features_ref l.
Proof.
  unfold LinearWithView_content. intros C.
  destruct (Linear_content h (linear_ref l)) as [l' |]; [| discriminate].
  injection C as <-. split; reflexivity.
Qed.

Lemma runs_with_bind_some {A B A' B' : Type} (cont : Heap -> A -> option A')
    (cont' : Heap -> B -> option B') (c : hm A) (k : A -> hm B) (h : Heap) (t : A')
    (g : option B') :
  runs_with cont c h (Some t) ->
  (forall r h', extends h h' -> cont h' r = Some t -> runs_with cont' (k r) h' g) ->
  runs_with cont' (hbind c k) h g.
Proof.
  intros [E [r [F C]]] K. unfold runs_with, hbind.
  destruct (c h) as [[a |] h1]; cbn [fst snd] in *; [| discriminate].
  injection F as ->. destruct (K r h1 E C) as [E' R].
  split; [exact (extends_trans _ _ _ E E') | exact R].
Qed.

Lemma runs_with_bind {A B A' B' : Type} (cont : Heap -> A -> option A')
    (cont' : Heap -> B -> option B') (c : hm A) (k : A -> hm B) (h : Heap)
    (g : option A') (k' : A' -> option B') :
  runs_with cont c h g ->
  (forall r t h', extends h h' -> cont h' r = Some t -> runs_with cont' (k r) h' (k' t)) ->
  runs_with cont' (hbind c k) h (bind g k').
Proof.
  intros R K. destruct g as [t |]; cbn [bind].
  - apply (runs_with_bind_some cont cont' c k h t); [exact R |].
    intros r h'. apply K.
  - destruct R as [E F]. unfold runs_with, hbind.
    destruct (c h) as [[a |] h1]; cbn [fst snd] in *; [discriminate |].
    split; [exact E | reflexivity].
Qed.

Lemma runs_with_read {B B' : Type} (cont : Heap -> B -> option B') (x : tref)
    (k : tensor -> hm B) (h : Heap) (t : tensor) (g : option B') :
  content h x = Some t -> runs_with cont (k t) h g -> runs_with cont (hbind (read x) k) h g.
Proof. intros C R. unfold runs_with, hbind, read. rewrite C. exact R. Qed.

Lemma runs_with_ret {A A' : Type} (cont : Heap -> A -> option A') (r : A) (h : Heap) (t : A') :
  cont h r = Some t -> runs_with cont (hret r) h (Some t).
Proof.
  intros C. split; [apply extends_refl |]. exists r. split; [reflexivity | exact C].
Qed.

Lemma runs_with_allocate (o : option tensor) (h : Heap) :
  runs_with content (match o with Some y => allocate y | None => hraise end) h o.
Proof.
  destruct o as [y |].
  - split; [split; [reflexivity | exists [y]; reflexivity] |].
    eexists. split; [reflexivity |]. unfold content. cbn.
    rewrite nth_error_app2 by apply Nat.le_refl. rewrite Nat.sub_diag. reflexivity.
  - split; [apply extends_refl | reflexivity].
Qed.

Lemma runs_as_computed1 (f : tensor -> option tensor) (a : tref) (h : Heap) (t : tensor) :
  content h a = Some t -> runs_with content (computed1 f a) h (f t).
Proof.
  intros C. unfold computed1. apply (runs_with_read _ _ _ _ _ _ C). apply runs_with_allocate.
Qed.

Lemma runs_as_computed2 (f : tensor -> tensor -> option tensor) (a b : tref) (h : Heap)
    (ta tb : tensor) :
  content h a = Some ta -> content h b = Some tb ->
  runs_with content (computed2 f a b) h (f ta tb).
Proof.
  intros Ca Cb. unfold computed2.
  apply (runs_with_read _ _ _ _ _ _ Ca). apply (runs_with_read _ _ _ _ _ _ Cb).
  apply runs_with_allocate.
Qed.

Lemma runs_as_computed4 (f : list tensor -> option tensor) (a b c d : tref) (h : Heap)
    (ta tb tc td : tensor) :
  content h a = Some ta -> content h b = Some tb ->
  content h c = Some tc -> content h d = Some td ->
  runs_with content (computed4 f a b c d) h (f [ta; tb; tc; td]).
Proof.
  intros Ca Cb Cc Cd. unfold computed4.
  apply (runs_with_read _ _ _ _ _ _ Ca). apply (runs_with_read _ _ _ _ _ _ Cb).
  apply (runs_with_read _ _ _ _ _ _ Cc). apply (runs_with_read _ _ _ _ _ _ Cd).
  apply runs_with_allocate.
Qed.

Lemma runs_as_viewed (f : tensor -> option tensor) (a : tref) (h : Heap) (t : tensor) :
  content h a = Some t -> runs_with content (viewed f a) h (f t).
Proof.
  intros C. unfold viewed. apply (runs_with_read _ _ _ _ _ _ C).
  destruct (f t) as [y |] eqn:F.
  - apply runs_with_ret. unfold content in *. cbn [address window].
    destruct (nth_error (storages h) (address a)) as [s |]; [| discriminate].
    cbn [bind] in *. rewrite C. exact F.
  - split; [apply extends_refl | reflexivity].
Qed.

Lemma bind_assoc {A B C : Type} (x : option A) (f : A -> option B) (g : B -> option C) :
  bind (bind x f) g = bind x (fun a => bind (f a) g).
Proof. destruct x; reflexivity. Qed.

Lemma runs_as_computed1_total (f : tensor -> tensor) (a : tref) (h : Heap) (t : tensor) :
  content h a = Some t ->
  runs_with content (computed1 (fun x => Some (f x)) a) h (Some (f t)).
Proof. intros C. exact (runs_as_computed1 (fun x => Some (f x)) a h t C). Qed.

Lemma runs_as_viewed_total (f : tensor -> tensor) (a : tref) (h : Heap) (t : tensor) :
  content h a = Some t ->
  runs_with content (viewed (fun x => Some (f x)) a) h (Some (f t)).
Proof. intros C. exact (runs_as_viewed (fun x => Some (f x)) a h t C). Qed.

Lemma Module_content_fields (h : Heap) (m : ModuleRef) (self : InvariantPointAttention) :
  Module_content h m = Some self ->
  (LinearWithView_content h (ref_query m) = Some (query self)
   /\ LinearWithView_content h (ref_key m) = Some (key self)
   /\ LinearWithView_content h (ref_value m) = Some (value self))
  /\ (LinearWithView_content h (ref_query_points m) = Some (query_points self)
      /\ LinearWithView_content h (ref_key_points m) = Some (key_points self)
      /\ LinearWithView_content h (ref_value_points m) = Some (value_points self))
  /\ (Linear_content h (ref_bias m) = Some (bias self)
      /\ Linear_content h (ref_out m) = Some (out self)
      /\ content h (ref_scale_head m) = Some (scale_head self))
  /\ ref_num_heads m = num_heads self
  /\ ref_scale_single_rep m = scale_single_rep self
  /\ ref_scale_frame m = scale_frame self.
Proof.
  unfold Module_content. intros C.
  destruct (LinearWithView_content h (ref_query m)); [| discriminate].
  destruct (LinearWithView_content h (ref_key m)); [| discriminate].
  destruct (LinearWithView_content h (ref_value m)); [| discriminate].
  destruct (LinearWithView_content h (ref_query_points m)); [| discriminate].
  destruct (LinearWithView_content h (ref_key_points m)); [| discriminate].
  destruct (LinearWithView_content h (ref_value_points m)); [| discriminate].
  destruct (Linear_content h (ref_bias m)); [| discriminate].
  destruct (Linear_content h (ref_out m)); [| discriminate].
  destruct (content h (ref_scale_head m)); [| discriminate].
  injection C as <-. cbn. repeat split; reflexivity.
Qed.

Lemma Module_content_extends (h h' : Heap) (m : ModuleRef) (self : InvariantPointAttention) :
  extends h h' -> Module_content h m = Some self -> Module_content h' m = Some self.
Proof.
  intros E C.
  destruct (Module_content_fields _ _ _ C)
    as [[Q [K V]] [[Qp [Kp Vp]] [[B [O S]] [H [S1 S2]]]]].
  unfold Module_content.
  rewrite (LinearWithView_content_extends _ _ _ _ E Q),
    (LinearWithView_content_extends _ _ _ _ E K),
    (LinearWithView_content_extends _ _ _ _ E V),
    (LinearWithView_content_extends _ _ _ _ E Qp),
    (LinearWithView_content_extends _ _ _ _ E Kp),
    (LinearWithView_content_extends _ _ _ _ E Vp),
    (Linear_content_extends _ _ _ _ E B), (Linear_content_extends _ _ _ _ E O),
    (content_extends _ _ _ _ E S).
  cbn [bind]. rewrite H, S1, S2.
  unfold Module_content in C. rewrite Q, K, V, Qp, Kp, Vp, B, O, S in C. cbn [bind] in C.
  injection C as <-. cbn. reflexivity.
Qed.

(** Every fact about what the objects hold in a heap is carried to a heap
    that extends it. *)
Ltac carry E :=
  repeat match goal with
    | H : content ?h _ = Some _ |- _ =>
        match type of E with extends h _ => apply (content_extends _ _ _ _ E) in H end
    | H : Linear_content ?h _ = Some _ |- _ =>
        match type of E with extends h _ => apply (Linear_content_extends _ _ _ _ E) in H end
    | H : LinearWithView_content ?h _ = Some _ |- _ =>
        match type of E with
          extends h _ => apply (LinearWithView_content_extends _ _ _ _ E) in H
        end
    | H : Frame_content ?h _ = Some _ |- _ =>
        match type of E with extends h _ => apply (Frame_content_extends _ _ _ _ E) in H end
    | H : Module_content ?h _ = Some _ |- _ =>
        match type of E with extends h _ => apply (Module_content_extends _ _ _ _ E) in H end
    end.

Ltac op :=
  first [ apply runs_as_viewed | apply runs_as_computed2 | apply runs_as_computed1
        | apply runs_as_computed4 ]; eassumption.

Ltac op_total :=
  first [ apply runs_as_viewed_total | apply runs_as_computed1_total ]; eassumption.

(** One statement of the source whose right-hand side [tac] simulates. *)
Ltac hb tac :=
  eapply runs_with_bind;
  [ tac | let E := fresh "E" in intros ? ? ? E ?; carry E; clear E;
          cbv beta; rewrite ?bind_assoc ].

Ltac hs tac :=
  eapply runs_with_bind_some;
  [ tac | let E := fresh "E" in intros ? ? E ?; carry E; clear E;
          cbv beta; rewrite ?bind_assoc ].

Lemma Linear_forward_h_runs (h : Heap) (l : LinearRef) (x : tref) (L : Linear) (tx : tensor) :
  Linear_content h l = Some L -> content h x = Some tx ->
  runs_with content (Linear_forward_h l x) h (Linear_forward L tx).
Proof.
  intros CL Cx. destruct (Linear_content_fields _ _ _ CL) as [W B]. clear CL.
  unfold Linear_forward_h, Linear_forward.
  destruct (bias_ref l) as [b |], (lin_bias L) as [b' |]; try contradiction.
  - hb op. hb op. op.
  - hb op. hb op. apply runs_with_ret. assumption.
Qed.

Lemma LinearWithView_forward_h_runs (h : Heap) (l : LinearWithViewRef) (x : tref)
    (L : LinearWithView) (tx : tensor) :
  LinearWithView_content h l = Some L -> content h x = Some tx ->
  runs_with content (LinearWithView_forward_h l x) h (LinearWithView_forward L tx).
Proof.
  intros CL Cx. destruct (LinearWithView_content_fields _ _ _ CL) as [W O]. clear CL.
  unfold LinearWithView_forward_h, LinearWithView_forward. rewrite O.
  hb ltac:(apply Linear_forward_h_runs; assumption).
  eapply runs_with_read; [eassumption |]. op.
Qed.

Lemma Frame_apply_h_runs (h : Heap) (f : FrameRef) (v : tref) (F : Frame) (tv : tensor) :
  Frame_content h f = Some F -> content h v = Some tv ->
  runs_with content (Frame_apply_h f v) h (Frame_apply F tv).
Proof.
  intros CF Cv. destruct (Frame_content_fields _ _ _ CF) as [R T]. clear CF.
  unfold Frame_apply_h, Frame_apply.
  hb op. hb op. hb op. hb op. op.
Qed.

Lemma Frame_content_mk (h : Heap) (r t : tref) (tr tt : tensor) :
  content h r = Some tr -> content h t = Some tt ->
  Frame_content h (mk_FrameRef r t) = Some (mk_Frame tr tt).
Proof. intros R T. unfold Frame_content. cbn. rewrite R, T. reflexivity. Qed.

Lemma Frame_inverse_h_runs (h : Heap) (f : FrameRef) (F : Frame) :
  Frame_content h f = Some F ->
  runs_with Frame_content (Frame_inverse_h f) h (Frame_inverse F).
Proof.
  intros CF. destruct (Frame_content_fields _ _ _ CF) as [R T]. clear CF.
  unfold Frame_inverse_h, Frame_inverse.
  hb op. hb op. hb op. hs op_total. hb op.
  apply runs_with_ret. apply Frame_content_mk; assumption.
Qed.

Lemma Frame_getitem_None_None_h_runs (h : Heap) (f : FrameRef) (F : Frame) :
  Frame_content h f = Some F ->
  runs_with Frame_content (Frame_getitem_None_None_h f) h (Frame_getitem_None_None F).
Proof.
  intros CF. destruct (Frame_content_fields _ _ _ CF) as [R T]. clear CF.
  unfold Frame_getitem_None_None_h, Frame_getitem_None_None.
  hb op. hb op. hb op. hb op.
  apply runs_with_ret. apply Frame_content_mk; assumption.
Qed.

Ltac call :=
  first [ apply LinearWithView_forward_h_runs | apply Linear_forward_h_runs
        | apply Frame_apply_h_runs | apply Frame_inverse_h_runs
        | apply Frame_getitem_None_None_h_runs ]; eassumption.

Lemma single_rep_weight_h_runs (h : Heap) (m : ModuleRef) (self : InvariantPointAttention)
    (s : tref) (ts : tensor) :
  Module_content h m = Some self -> content h s = Some ts ->
  runs_with content (single_rep_weight_h m s) h (single_rep_weight self ts).
Proof.
  intros module Cs.
  destruct (Module_content_fields _ _ _ module) as [[Q [K V]] [_ [_ [_ [Sc _]]]]].
  clear module.
  unfold single_rep_weight_h, single_rep_weight. rewrite Sc.
  hb call. hb call. hb op. hs op_total. hb op. hb op. op.
Qed.

Lemma pair_rep_weight_h_runs (h : Heap) (m : ModuleRef) (self : InvariantPointAttention)
    (z : tref) (tz : tensor) :
  Module_content h m = Some self -> content h z = Some tz ->
  runs_with content (pair_rep_weight_h m z) h (pair_rep_weight self tz).
Proof.
  intros module Cz.
  destruct (Module_content_fields _ _ _ module) as [_ [_ [[B _] _]]].
  clear module.
  unfold pair_rep_weight_h, pair_rep_weight.
  hb call. op.
Qed.

Lemma frame_weight_h_runs (h : Heap) (m : ModuleRef) (self : InvariantPointAttention)
    (f : FrameRef) (s : tref) (F : Frame) (ts : tensor) :
  Module_content h m = Some self -> Frame_content h f = Some F -> content h s = Some ts ->
  runs_with content (frame_weight_h m f s) h (frame_weight self F ts).
Proof.
  intros module Cf Cs.
  destruct (Module_content_fields _ _ _ module) as [_ [[Q [K _]] [[_ [_ S]] [_ [_ Sc]]]]].
  clear module.
  unfold frame_weight_h, frame_weight, frame_squared_distance, frame_weight_of.
  rewrite Sc. rewrite !bind_assoc.
  hb call. hb call. hb op. hb call. hb op. hb call. hb op. hb op. hb op. hb op. hb op.
  hb op. hs op_total. hb op. hb op. hs op_total. hb op. hs op_total. op.
Qed.

Lemma single_rep_attention_h_runs (h : Heap) (m : ModuleRef) (self : InvariantPointAttention)
    (w s : tref) (tw ts : tensor) :
  Module_content h m = Some self -> content h w = Some tw -> content h s = Some ts ->
  runs_with content (single_rep_attention_h m w s) h (single_rep_attention self tw ts).
Proof.
  intros module Cw Cs.
  destruct (Module_content_fields _ _ _ module) as [[_ [_ V]] _].
  clear module.
  unfold single_rep_attention_h, single_rep_attention.
  hb call. hb op. hb op. hb op. op.
Qed.

Lemma pair_rep_attention_h_runs (h : Heap) (m : ModuleRef) (self : InvariantPointAttention)
    (w z : tref) (tw tz : tensor) :
  content h w = Some tw -> content h z = Some tz ->
  runs_with content (pair_rep_attention_h m w z) h (pair_rep_attention self tw tz).
Proof.
  intros Cw Cz. unfold pair_rep_attention_h, pair_rep_attention.
  hb op. hb op. hb op. op.
Qed.

Lemma frame_attention_h_runs (h : Heap) (m : ModuleRef) (self : InvariantPointAttention)
    (w : tref) (f : FrameRef) (s : tref) (tw : tensor) (F : Frame) (ts : tensor) :
  Module_content h m = Some self -> content h w = Some tw -> Frame_content h f = Some F ->
  content h s = Some ts ->
  runs_with content (frame_attention_h m w f s) h (frame_attention self tw F ts).
Proof.
  intros module Cw Cf Cs.
  destruct (Module_content_fields _ _ _ module) as [_ [[_ [_ V]] _]].
  clear module.
  unfold frame_attention_h, frame_attention.
  hb call. hb op. hb call. hb op. hb op. hb op. hb call. hb call. hb op. call.
Qed.

Ltac method :=
  first [ apply single_rep_weight_h_runs | apply pair_rep_weight_h_runs
        | apply frame_weight_h_runs | apply single_rep_attention_h_runs
        | apply pair_rep_attention_h_runs | apply frame_attention_h_runs ]; eassumption.

Lemma forward_h_runs (h : Heap) (m : ModuleRef) (self : InvariantPointAttention)
    (s z : tref) (f : FrameRef) (ts tz : tensor) (F : Frame) :
  Module_content h m = Some self ->
  content h s = Some ts -> content h z = Some tz -> Frame_content h f = Some F ->
  runs_with content (forward_h m s z f) h (forward self ts tz F).
Proof.
  intros module Cs Cz Cf.
  destruct (Module_content_fields _ _ _ module) as [_ [_ [[_ [O _]] [H _]]]].
  unfold forward_h, forward, forward_weight, forward_logits, forward_output, forward_concat.
  rewrite H. cbv zeta. rewrite ?bind_assoc.
  hb method. hb method. hb op. hb method. hb op. hb op.
  eapply runs_with_read; [eassumption |].
  hb method. hb method. hb method. hb op. hb op.
  hb ltac:(apply (runs_as_computed4 (fun l => cat l (-1))); eassumption).
  hb op. call.
Qed.

Lemma test_heap_module (g : nat) (others : list tensor) :
  Module_content (test_heap g others) test_module_ref = Some test_module.
Proof. reflexivity. Qed.

(** What the heap tells apart: an in-place function changes what an object
    holds, and a random function advances the generator. *)
Lemma overwrite_not_extends :
  ~ extends (test_heap 0 []) (snd (overwrite (whole 0) (ones [10; 3]) (test_heap 0 []))).
Proof.
  intros E.
  assert (C : content (test_heap 0 []) (whole 0) = Some (zeros [10; 3])) by reflexivity.
  apply (content_extends _ _ _ _ E) in C. cbn in C.
  injection C as C. apply (f_equal (fun f => f [0; 0])) in C. cbn in C. lra.
Qed.

Lemma random_not_extends (s : list nat) (values : nat -> list nat -> R) (h : Heap) :
  ~ extends h (snd (random s values h)).
Proof. intros [G _]. cbn in G. lia. Qed.

(** C9 (determinism).  Two runs of [forward], in any two heaps whose module
    objects hold equal parameters and whose argument objects hold equal
    single representations, pair representations and Frames, both raise or
    both return tensors with equal contents, whatever else the heaps hold
    and whatever the states of the random generator; and each run leaves
    every storage that was on its heap, and the generator, as they were. *)
Theorem forward_deterministic (h h' : Heap) (m m' : ModuleRef) (s s' z z' : tref)
    (f f' : FrameRef) (self self' : InvariantPointAttention) (ts ts' tz tz' : tensor)
    (F F' : Frame) :
  Module_content h m = Some self -> Module_content h' m' = Some self' ->
  content h s = Some ts -> content h' s' = Some ts' ->
  content h z = Some tz -> content h' z' = Some tz' ->
  Frame_content h f = Some F -> Frame_content h' f' = Some F' ->
  ipa_eq self self' -> teq ts ts' -> teq tz tz' -> frame_eq F F' ->
  extends h (snd (forward_h m s z f h))
  /\ extends h' (snd (forward_h m' s' z' f' h'))
  /\ orel (fun r r' => exists t t',
             content (snd (forward_h m s z f h)) r = Some t
             /\ content (snd (forward_h m' s' z' f' h')) r' = Some t'
             /\ teq t t')
       (fst (forward_h m s z f h)) (fst (forward_h m' s' z' f' h')).
Proof.
  intros M M' Cs Cs' Cz Cz' Cf Cf' Em Es Ez Ef.
  destruct (forward_h_runs h m self s z f ts tz F M Cs Cz Cf) as [E R].
  destruct (forward_h_runs h' m' self' s' z' f' ts' tz' F' M' Cs' Cz' Cf') as [E' R'].
  split; [exact E |]. split; [exact E' |].
  pose proof (forward_teq self self' ts ts' tz tz' F F' Em Es Ez Ef) as T.
  unfold oteq, orel in T.
  destruct (forward self ts tz F) as [t |], (forward self' ts' tz' F') as [t' |];
    try contradiction.
  - destruct R as [r [-> C]], R' as [r' [-> C']]. cbn [orel].
    exists t, t'. split; [exact C |]. split; [exact C' | exact T].
  - rewrite R, R'. exact I.
Qed.

Lemma forward_deterministic_witness :
  let run := forward_h test_module_ref (whole 10) (whole 11) test_frames_ref
               (test_heap 0 []) in
  let run' := forward_h test_module_ref (whole 10) (whole 11) test_frames_ref
                (test_heap 7 [ones [4]]) in
  extends (test_heap 0 []) (snd run)
  /\ extends (test_heap 7 [ones [4]]) (snd run')
  /\ orel (fun r r' => exists t t',
             content (snd run) r = Some t /\ content (snd run') r' = Some t' /\ teq t t')
       (fst run) (fst run').
Proof.
  exact (forward_deterministic (test_heap 0 []) (test_heap 7 [ones [4]])
           test_module_ref test_module_ref (whole 10) (whole 10) (whole 11) (whole 11)
           test_frames_ref test_frames_ref test_module test_module
           test_single_representation test_single_representation
           test_pair_representation test_pair_representation
           (test_frames 10) (test_frames 10)
           (test_heap_module 0 []) (test_heap_module 7 [ones [4]])
           eq_refl eq_refl eq_refl eq_refl eq_refl eq_refl
           (ipa_eq_refl _) (teq_refl _) (teq_refl _) (frame_eq_refl _)).
Defined.

(** forward reads its parameters and arguments and writes nothing that was
    on the heap: after a run every object holds what it held before and the
    generator is in the same state; the run raises exactly when [forward]
    on the contents is None, and otherwise returns an object that holds the
    tensor [forward] gives. *)
Theorem forward_h_computes_forward (h : Heap) (m : ModuleRef) (s z : tref) (f : FrameRef)
    (self : InvariantPointAttention) (ts tz : tensor) (F : Frame) :
  Module_content h m = Some self ->
  content h s = Some ts -> content h z = Some tz -> Frame_content h f = Some F ->
  generator (snd (forward_h m s z f h)) = generator h
  /\ (forall (o : tref) (t : tensor),
        content h o = Some t -> content (snd (forward_h m s z f h)) o = Some t)
  /\ match forward self ts tz F with
     | Some t => exists r, fst (forward_h m s z f h) = Some r
                           /\ content (snd (forward_h m s z f h)) r = Some t
     | None => fst (forward_h m s z f h) = None
     end.
Proof.
  intros M Cs Cz Cf.
  destruct (forward_h_runs h m self s z f ts tz F M Cs Cz Cf) as [E R].
  split; [exact (proj1 E) |]. split; [| exact R].
  intros o t. apply content_extends. exact E.
Qed.

Lemma forward_h_computes_forward_witness :
  let run := forward_h test_module_ref (whole 10) (whole 11) test_frames_ref
               (test_heap 0 []) in
  generator (snd run) = 0
  /\ (forall (o : tref) (t : tensor),
        content (test_heap 0 []) o = Some t -> content (snd run) o = Some t)
  /\ match forward test_module test_single_representation test_pair_representation
             (test_frames 10) with
     | Some t => exists r, fst run = Some r /\ content (snd run) r = Some t
     | None => fst run = None
     end.
Proof.
  exact (forward_h_computes_forward (test_heap 0 []) test_module_ref (whole 10) (whole 11)
           test_frames_ref test_module test_single_representation
           test_pair_representation (test_frames 10)
           (test_heap_module 0 []) eq_refl eq_refl eq_refl).
Defined.

(** C8 (the two uses of the pair representation).  The pair term of the
    weight is the bias projection of the pair representation, one scalar
    per head and residue pair; the pair attention is the sum over j of the
    weight times the pair representation itself. *)
Theorem pair_representation_uses (self : InvariantPointAttention)
    (single_embedding_size pair_embedding_size ipa_embedding_size len_seq heads : nat)
    (pair_rep weight : tensor) :
  initialised self single_embedding_size pair_embedding_size ipa_embedding_size ->
  shape pair_rep = [len_seq; len_seq; pair_embedding_size] ->
  shape weight = [len_seq; heads; len_seq] ->
  exists b pw pa,
    Linear_forward (bias self) pair_rep = Some b
    /\ shape b = [len_seq; len_seq; num_heads self]
    /\ (forall i j h, i < len_seq -> j < len_seq -> h < num_heads self ->
          get b [i; j; h]
          = sum_n pair_embedding_size
              (fun c => (get pair_rep [i; j; c] * get (lin_weight (bias self)) [h; c])%R))
    /\ pair_rep_weight self pair_rep = Some pw
    /\ shape pw = [len_seq; num_heads self; len_seq]
    /\ (forall i h j, i < len_seq -> h < num_heads self -> j < len_seq ->
          get pw [i; h; j] = get b [i; j; h])
    /\ pair_rep_attention self weight pair_rep = Some pa
    /\ shape pa = [len_seq; heads; pair_embedding_size]
    /\ (forall i h c, i < len_seq -> h < heads -> c < pair_embedding_size ->
          get pa [i; h; c]
          = sum_n len_seq (fun j => (get weight [i; h; j] * get pair_rep [i; j; c])%R)).
Proof.
  intros Hinit Hz Hw.
  destruct (pair_rep_weight_spec self _ _ _ _ pair_rep Hinit Hz)
    as (b & pw & Eb & Sb & Gb & Epw & Spw & Gpw).
  destruct (pair_rep_attention_spec self _ _ pair_rep Hz weight heads Hw)
    as (pa & Epa & Spa & Gpa).
  exists b, pw, pa. repeat (split; [assumption|]). assumption.
Qed.

Lemma pair_representation_uses_witness :
  exists b pw pa,
    Linear_forward (bias test_module) test_pair_representation = Some b
    /\ shape b = [10; 10; num_heads test_module]
    /\ (forall i j h, i < 10 -> j < 10 -> h < num_heads test_module ->
          get b [i; j; h]
          = sum_n 7 (fun c => (get test_pair_representation [i; j; c]
                               * get (lin_weight (bias test_module)) [h; c])%R))
    /\ pair_rep_weight test_module test_pair_representation = Some pw
    /\ shape pw = [10; num_heads test_module; 10]
    /\ (forall i h j, i < 10 -> h < num_heads test_module -> j < 10 ->
          get pw [i; h; j] = get b [i; j; h])
    /\ pair_rep_attention test_module test_weight test_pair_representation
       = Some pa
    /\ shape pa = [10; 2; 7]
    /\ (forall i h c, i < 10 -> h < 2 -> c < 7 ->
          get pa [i; h; c]
          = sum_n 10 (fun j => (get test_weight [i; h; j]
                                * get test_pair_representation [i; j; c])%R)).
Proof.
  exact (pair_representation_uses test_module 3 7 5 10 2
           test_pair_representation test_weight
           test_module_initialised eq_refl eq_refl).
Defined.


(** C3 (shapes at the sizes of the tests), as amended.  With 10 residues,
    single size 3, pair size 7, IPA size 5, 4 query points, 8 value points
    and 2 heads, [forward] returns a tensor of shape [10, 3]; the
    normalised weights have shape [10, 2, 10] (residue, head, residue) and
    the point attention has shape [10, 2, 8, 3]. *)
Theorem forward_shapes_at_test_sizes (self : InvariantPointAttention)
    (single_rep pair_rep : tensor) (frames : Frame) :
  initialised self 3 7 5 ->
  num_heads self = 2 -> num_query_points self = 4 -> num_value_points self = 8 ->
  shape single_rep = [10; 3] -> shape pair_rep = [10; 10; 7] -> frame_shaped frames 10 ->
  exists w fa o,
    forward_weight self single_rep pair_rep frames = Some w
    /\ shape w = [10; 2; 10]
    /\ frame_attention self w frames single_rep = Some fa
    /\ shape fa = [10; 2; 8; 3]
    /\ forward self single_rep pair_rep frames = Some o
    /\ shape o = [10; 3].
Proof.
  intros Hinit Hh Hp Hv Hs Hz Hf.
  destruct (forward_regular self 3 7 5 10 single_rep pair_rep frames Hinit Hs Hz Hf)
    as (c & w & fa & o & _ & _ & Ew & Sw & Efa & Sfa & Eo & So); try lia.
  rewrite Hh in *. rewrite Hv in *.
  exists w, fa, o. repeat (split; [assumption|]). assumption.
Qed.

Lemma forward_shapes_at_test_sizes_witness :
  exists w fa o,
    forward_weight test_module test_single_representation test_pair_representation
      (test_frames 10) = Some w
    /\ shape w = [10; 2; 10]
    /\ frame_attention test_module w (test_frames 10) test_single_representation = Some fa
    /\ shape fa = [10; 2; 8; 3]
    /\ forward test_module test_single_representation test_pair_representation
         (test_frames 10) = Some o
    /\ shape o = [10; 3].
Proof.
  exact (forward_shapes_at_test_sizes test_module test_single_representation
           test_pair_representation (test_frames 10) test_module_initialised
           eq_refl eq_refl eq_refl eq_refl eq_refl (test_frames_shaped 10)).
Defined.

(** C3 as stated fails on the inputs of the tests: the weights are not of
    shape [2, 10, 10] and the point attention is not of shape [2, 8, 10, 3]. *)
Lemma forward_shapes_counterexample :
  ~ (exists w fa o,
       forward_weight test_module test_single_representation test_pair_representation
         (test_frames 10) = Some w
       /\ shape w = [2; 10; 10]
       /\ frame_attention test_module w (test_frames 10) test_single_representation = Some fa
       /\ shape fa = [2; 8; 10; 3]
       /\ forward test_module test_single_representation test_pair_representation
            (test_frames 10) = Some o
       /\ shape o = [10; 3]).
Proof.
  intros (w & fa & o & Ew & Sw & _).
  destruct (forward_regular test_module 3 7 5 10 test_single_representation
              test_pair_representation (test_frames 10) test_module_initialised
              eq_refl eq_refl (test_frames_shaped 10))
    as (c & w' & _ & _ & _ & _ & Ew' & Sw' & _); try (cbn; lia).
  rewrite Ew in Ew'. injection Ew' as <-. rewrite Sw in Sw'. discriminate Sw'.
Qed.

(** C10 (sizes for which forward is defined), as amended.  For at least one
    residue and one head: when the residue count, the number of heads and
    the number of query points are all at least 2, [frame_weight] returns
    a tensor of shape [N, H, N] and [forward] one of shape [N, single_dim].
    When one of them is 1, the squeeze removes that dimension too:
    [frame_weight] raises or returns a tensor of shape [N, N], and
    [forward] raises; nothing is stated for one query point with as many
    heads as residues (at least 2). *)
Theorem forward_defined_sizes (self : InvariantPointAttention)
    (single_embedding_size pair_embedding_size ipa_embedding_size len_seq : nat)
    (single_rep pair_rep : tensor) (frames : Frame) :
  initialised self single_embedding_size pair_embedding_size ipa_embedding_size ->
  shape single_rep = [len_seq; single_embedding_size] ->
  shape pair_rep = [len_seq; len_seq; pair_embedding_size] ->
  frame_shaped frames len_seq ->
  1 <= len_seq -> 1 <= num_heads self ->
  (2 <= len_seq -> 2 <= num_heads self -> 2 <= num_query_points self ->
   exists c o,
     frame_weight self frames single_rep = Some c
     /\ shape c = [len_seq; num_heads self; len_seq]
     /\ forward self single_rep pair_rep frames = Some o
     /\ shape o = [len_seq; single_embedding_size])
  /\ (len_seq = 1 \/ num_heads self = 1 \/ num_query_points self = 1 ->
      match frame_weight self frames single_rep with
      | Some c => shape c = [len_seq; len_seq]
      | None => True
      end
      /\ (~ (num_query_points self = 1 /\ num_heads self = len_seq /\ 2 <= len_seq) ->
          forward self single_rep pair_rep frames = None)).
Proof.
  intros Hinit Hs Hz Hf Hn Hh. split.
  - intros Hn2 Hh2 Hp2.
    destruct (forward_regular self _ _ _ _ single_rep pair_rep frames Hinit Hs Hz Hf
                Hn2 Hh2 Hp2) as (c & w & fa & o & Ec & Sc & _ & _ & _ & _ & Eo & So).
    exists c, o. auto.
  - intros Hd. split.
    + pose proof (frame_weight_cases self _ _ _ _ single_rep frames Hinit Hs Hf) as C.
      destruct (frame_weight self frames single_rep) as [c|]; [|exact I].
      destruct C as [(Hp' & Hh' & Hn' & _)|(_ & S & _)]; [lia | exact S].
    + intros Hx.
      pose proof (forward_cases self _ _ _ _ single_rep pair_rep frames Hinit Hs Hz Hf
                    ltac:(lia) ltac:(lia)) as C.
      destruct (forward self single_rep pair_rep frames) as [o|]; [|reflexivity].
      exfalso. destruct C as (So & Hn' & [[Hp' Hh']|[Hp' Hh']]); [lia|].
      apply Hx. repeat split; (assumption || lia).
Qed.

Lemma forward_defined_sizes_witness :
  (2 <= 10 -> 2 <= num_heads test_module -> 2 <= num_query_points test_module ->
   exists c o,
     frame_weight test_module (test_frames 10) test_single_representation = Some c
     /\ shape c = [10; num_heads test_module; 10]
     /\ forward test_module test_single_representation test_pair_representation
          (test_frames 10) = Some o
     /\ shape o = [10; 3])
  /\ (10 = 1 \/ num_heads test_module = 1 \/ num_query_points test_module = 1 ->
      match frame_weight test_module (test_frames 10) test_single_representation with
      | Some c => shape c = [10; 10]
      | None => True
      end
      /\ (~ (num_query_points test_module = 1 /\ num_heads test_module = 10 /\ 2 <= 10) ->
          forward test_module test_single_representation test_pair_representation
            (test_frames 10) = None)).
Proof.
  exact (forward_defined_sizes test_module 3 7 5 10 test_single_representation
           test_pair_representation (test_frames 10) test_module_initialised eq_refl eq_refl
           (test_frames_shaped 10) ltac:(lia) ltac:(cbn; lia)).
Defined.

(** C10 as stated fails with one query point, two heads and two residues:
    [forward] returns a tensor of the documented shape. *)
Lemma forward_defined_sizes_counterexample :
  num_query_points single_point_module = 1
  /\ exists o,
       forward single_point_module (zeros [2; 1]) (zeros [2; 2; 1]) (test_frames 2) = Some o
       /\ shape o = [2; 1].
Proof.
  split; [reflexivity|].
  pose proof (forward_cases single_point_module 1 1 1 2 (zeros [2; 1]) (zeros [2; 2; 1])
                (test_frames 2) single_point_module_initialised eq_refl eq_refl
                (test_frames_shaped 2) ltac:(lia) ltac:(cbn; lia)) as C.
  destruct (forward single_point_module (zeros [2; 1]) (zeros [2; 2; 1]) (test_frames 2))
    as [o|].
  - exists o. destruct C as [So _]. auto.
  - exfalso. cbn in C. destruct C as [C|[C|[_ C]]]; try discriminate C. apply C. reflexivity.
Qed.


(** C2 (the three terms of the weight) at a module with one query point, two
    heads and two residues: the squeeze in [frame_weight] also removes the
    dimension of the points, the sum over dimension 0 then runs over the
    heads, and the weight before the softmax at residue 0, head 1, residue
    0 is not the sum of the three terms: the three terms sum to 0 there,
    [forward] computes 54 * scale_frame * softplus(1). *)
Theorem frame_term_with_one_query_point :
  let m := single_point_module in
  let single_rep := zeros [2; 1] in
  let pair_rep := zeros [2; 2; 1] in
  let frames := test_frames 2 in
  exists q k b qp kp logits,
    LinearWithView_forward (query m) single_rep = Some q
    /\ LinearWithView_forward (key m) single_rep = Some k
    /\ Linear_forward (bias m) pair_rep = Some b
    /\ LinearWithView_forward (query_points m) single_rep = Some qp
    /\ LinearWithView_forward (key_points m) single_rep = Some kp
    /\ forward_logits m single_rep pair_rep frames = Some logits
    /\ shape logits = [2; 2; 2]
    /\ get logits [0; 1; 0] = (54 * (scale_frame m * softplus_fn 1))%R
    /\ (scale_single_rep m * sum_n 1 (fun d => get q [0; 1; d]%nat * get k [0; 1; d]%nat)
        + get b [0; 0; 1]%nat
        + scale_frame m * softplus_fn (get (scale_head m) [1]%nat)
          * point_distance_sum frames qp kp 1 0 1 0 = 0)%R
    /\ (54 * (scale_frame m * softplus_fn 1) <> 0)%R.
Proof.
  intros m single_rep pair_rep frames. subst m. unfold single_point_module.
  set (m := zero_module 1 1 1 1 1 2).
  assert (Hinit : initialised m 1 1 1) by (apply zero_module_initialised; lia).
  assert (Hs : shape single_rep = [2; 1]) by reflexivity.
  assert (Hz : shape pair_rep = [2; 2; 1]) by reflexivity.
  assert (Hf : frame_shaped frames 2) by apply test_frames_shaped.
  destruct (zero_projection 1 [2; 1] 2 single_rep Hs) as (q & Eq & Sq & Gq).
  destruct (zero_projection 1 [2; 1; 3] 2 single_rep Hs) as (qp & Eqp & Sqp & Gqp).
  destruct (single_rep_weight_spec m 1 1 1 2 single_rep Hinit Hs q q Eq Eq)
    as (a & Ea & Sa & Ga).
  destruct (pair_rep_weight_spec m 1 1 1 2 pair_rep Hinit Hz)
    as (b & pw & Eb & Sb & Gb & Epw & Spw & Gpw).
  destruct (frame_squared_distance_spec m 1 1 1 2 single_rep frames Hinit Hs Hf qp qp Eqp Eqp)
    as (sq & Esq & Ssq & Gsq).
  exists q, q, b, qp, qp. subst m.
  cbn [zero_module num_heads num_query_points scale_head scale_frame scale_single_rep] in *.
  assert (Q0 : forall i h d, i < 2 -> h < 2 -> d < 1 -> get q [i; h; d] = 0%R).
  { intros. apply Gq. apply valid_last3; assumption. }
  assert (QP0 : forall i h p x, i < 2 -> h < 2 -> p < 1 -> x < 3 -> get qp [i; h; p; x] = 0%R).
  { intros. apply Gqp. apply valid_last4; assumption. }
  assert (D : forall h i j, h < 2 -> i < 2 -> j < 2 ->
            get sq [0; h; i; j; 0; 0]
            = squared_distance_of (fun c => get (translations frames) [i; c])
                                  (fun c => get (translations frames) [j; c])).
  { intros h i j Hh Hi Hj. rewrite Gsq by (assumption || lia).
    unfold squared_distance_of, global_point. cbn [sum_n].
    rewrite !QP0 by (assumption || lia). ring. }
  assert (El : exists logits,
             forward_logits (zero_module 1 1 1 1 1 2) single_rep pair_rep frames = Some logits
             /\ shape logits = [2; 2; 2]
             /\ get logits [0; 1; 0]
                = (get a [0; 1; 0]%nat + get pw [0; 1; 0]%nat
                   + - 1 / sqrt (INR 18) * softplus_fn 1
                     * (0 + get sq [0; 0; 0; 1; 0; 0]%nat + get sq [0; 1; 0; 1; 0; 0]%nat))%R).
  { unfold forward_logits, frame_weight. rewrite Ea, Epw, Esq. cbn [bind].
    unfold frame_weight_of. cbn [zero_module scale_head scale_frame ones Nat.mul].
    clear - Sa Spw Ssq. reveal a. reveal pw. reveal sq. tev.
    eexists. split; [reflexivity|]. split; [reflexivity|]. cbn. reflexivity. }
  destruct El as (logits & El & Sl & Gl). exists logits.
  repeat (split; [assumption|]).
  assert (N0 : (54 * (- 1 / sqrt (INR 18) * softplus_fn 1) <> 0)%R).
  { pose proof (scale_frame_negative 1 ltac:(lia)) as N.
    change (18 * 1) with 18 in N.
    pose proof softplus_fn_1_pos as P. apply Rmult_integral_contrapositive_currified; [lra|].
    apply Rmult_integral_contrapositive_currified; lra. }
  split; [|split; [|exact N0]].
  - rewrite Gl, Ga, Gpw, Gb, !D by lia. cbn [sum_n].
    rewrite !Q0 by lia. unfold squared_distance_of. cbn. ring.
  - rewrite Gb by lia. cbn [sum_n]. rewrite !Q0 by lia.
    unfold point_distance_sum, squared_distance_of, global_point. cbn [sum_n].
    rewrite !QP0 by lia. cbn. ring.
Qed.

(** C6 (orthonormality of Backbone Update).  For every feature tensor of
    shape [n, single_dim], every rotation R of the Frame that Backbone
    Update returns satisfies R R^T = I, the product computed as the test
    does (hence within 1e-5 of the identity), and R^T R = I, the invariant
    of Frame. *)
Theorem BackboneUpdate_orthonormal (self : BackboneUpdate) (single_embedding_size n : nat)
    (single : tensor) :
  backbone_initialised self single_embedding_size ->
  shape single = [n; single_embedding_size] ->
  exists f rt prod,
    BackboneUpdate_forward self single = Some f
    /\ frame_shaped f n
    /\ transpose (-2) (-1) (rotations f) = Some rt
    /\ matmul (rotations f) rt = Some prod
    /\ shape prod = [n; 3; 3]
    /\ (forall i r k, i < n -> r < 3 -> k < 3 ->
          get prod [i; r; k] = get (eye 3) [r; k]
          /\ (Rabs (get prod [i; r; k] - get (eye 3) [r; k]) <= atol)%R)
    /\ (forall i, i < n -> orthonormal_at (rotations f) [i]).
Proof.
  intros Hinit Hs.
  destruct (backbone_rotations_unit self _ n single Hinit Hs) as (f & Ef & Ff & Q).
  destruct (rotations_gram (rotations f) n (proj1 Ff)) as (rt & prod & Ert & Ep & Sp & Gp).
  exists f, rt, prod. repeat (split; [assumption|]). split.
  - intros i r k Hi Hr Hk. destruct (Q i Hi) as (a & b & c & d & U & G).
    assert (E : get prod [i; r; k] = get (eye 3) [r; k]).
    { rewrite Gp by assumption.
      rewrite (sum_n_ext 3 _ (fun y => (quaternion_to_matrix a b c d r y
                                        * quaternion_to_matrix a b c d k y)%R))
        by (intros y Hy; rewrite !G by assumption; reflexivity).
      rewrite quaternion_matrix_rows by assumption. reflexivity. }
    split; [exact E|]. rewrite E. unfold Rminus. rewrite Rplus_opp_r, Rabs_R0.
    unfold atol. lra.
  - intros i Hi u v Hu Hv. destruct (Q i Hi) as (a & b & c & d & U & G). cbn [app].
    rewrite (sum_n_ext 3 _ (fun y => (quaternion_to_matrix a b c d y u
                                      * quaternion_to_matrix a b c d y v)%R))
      by (intros y Hy; rewrite !G by assumption; reflexivity).
    apply quaternion_matrix_columns; assumption.
Qed.

Lemma BackboneUpdate_orthonormal_witness :
  exists f rt prod,
    BackboneUpdate_forward (shifting_backbone 5) (arange [10; 5]) = Some f
    /\ frame_shaped f 10
    /\ transpose (-2) (-1) (rotations f) = Some rt
    /\ matmul (rotations f) rt = Some prod
    /\ shape prod = [10; 3; 3]
    /\ (forall i r k, i < 10 -> r < 3 -> k < 3 ->
          get prod [i; r; k] = get (eye 3) [r; k]
          /\ (Rabs (get prod [i; r; k] - get (eye 3) [r; k]) <= atol)%R)
    /\ (forall i, i < 10 -> orthonormal_at (rotations f) [i]).
Proof.
  exact (BackboneUpdate_orthonormal (shifting_backbone 5) 5 10 (arange [10; 5])
           (or_introl (conj eq_refl (conj eq_refl eq_refl))) eq_refl).
Defined.

(** C7 (Backbone Update on all-zero features), as amended.  On a feature
    tensor that is zero everywhere, Backbone Update returns for every
    residue the translation (b3, b4, b5) and the rotation of the quaternion
    normalize((1, b0, b1, b2)), where b is the bias of the projection (0
    without a bias); these are the zero translation and the identity
    rotation when the projection has no bias or a zero bias. *)
Theorem BackboneUpdate_zero_features (self : BackboneUpdate) (single_embedding_size n : nat)
    (single : tensor) :
  backbone_initialised self single_embedding_size ->
  shape single = [n; single_embedding_size] ->
  (forall idx, valid (shape single) idx -> get single idx = 0%R) ->
  let b := fun h => match lin_bias (linear self) with
                    | Some t => get t [h]
                    | None => 0%R
                    end in
  exists f,
    BackboneUpdate_forward self single = Some f
    /\ frame_shaped f n
    /\ (forall i k, i < n -> k < 3 -> get (translations f) [i; k] = b (3 + k))
    /\ (forall i r k, i < n -> r < 3 -> k < 3 ->
          get (rotations f) [i; r; k]
          = quaternion_to_matrix (1 / quaternion_norm (b 0) (b 1) (b 2))
              (b 0 / quaternion_norm (b 0) (b 1) (b 2))
              (b 1 / quaternion_norm (b 0) (b 1) (b 2))
              (b 2 / quaternion_norm (b 0) (b 1) (b 2)) r k)
    /\ ((forall h, h < 6 -> b h = 0%R) ->
        (forall i k, i < n -> k < 3 -> get (translations f) [i; k] = 0%R)
        /\ (forall i r k, i < n -> r < 3 -> k < 3 ->
              get (rotations f) [i; r; k] = get (eye 3) [r; k])).
Proof.
  intros Hinit Hs Hz b.
  destruct (BackboneUpdate_forward_spec self _ n single Hinit Hs)
    as (x & f & Ex & Sx & Ef & Ff & Rf & Tf).
  destruct (backbone_projection self _ n single Hinit Hs) as (x' & Ex' & _ & Gx).
  rewrite Ex in Ex'. injection Ex' as <-.
  assert (X : forall i h, i < n -> h < 6 -> get x [i; h] = b h).
  { intros i h Hi Hh. rewrite Gx by assumption.
    rewrite (sum_n_ext _ _ (fun _ => 0%R)).
    - rewrite sum_n_const_zero. unfold b. ring.
    - intros c Hc. rewrite Hz by (rewrite Hs; apply valid_last2'; assumption). ring. }
  exists f. split; [exact Ef|]. split; [exact Ff|].
  assert (T : forall i k, i < n -> k < 3 -> get (translations f) [i; k] = b (3 + k)).
  { intros i k Hi Hk. rewrite Tf by assumption. apply X; [assumption | lia]. }
  assert (Q : forall i r k, i < n -> r < 3 -> k < 3 ->
            get (rotations f) [i; r; k]
            = quaternion_to_matrix (1 / quaternion_norm (b 0) (b 1) (b 2))
                (b 0 / quaternion_norm (b 0) (b 1) (b 2))
                (b 1 / quaternion_norm (b 0) (b 1) (b 2))
                (b 2 / quaternion_norm (b 0) (b 1) (b 2)) r k).
  { intros i r k Hi Hr Hk. rewrite Rf by assumption. cbv zeta.
    rewrite !X by (assumption || lia). reflexivity. }
  split; [exact T|]. split; [exact Q|].
  intros B0. split.
  - intros i k Hi Hk. rewrite T by assumption. apply B0. lia.
  - intros i r k Hi Hr Hk. rewrite Q by assumption.
    rewrite !B0 by lia. rewrite quaternion_identity by assumption. reflexivity.
Qed.

Lemma BackboneUpdate_zero_features_witness :
  let b := fun h => match lin_bias (linear (zero_backbone 5)) with
                    | Some t => get t [h]
                    | None => 0%R
                    end in
  exists f,
    BackboneUpdate_forward (zero_backbone 5) (zeros [10; 5]) = Some f
    /\ frame_shaped f 10
    /\ (forall i k, i < 10 -> k < 3 -> get (translations f) [i; k] = b (3 + k))
    /\ (forall i r k, i < 10 -> r < 3 -> k < 3 ->
          get (rotations f) [i; r; k]
          = quaternion_to_matrix (1 / quaternion_norm (b 0) (b 1) (b 2))
              (b 0 / quaternion_norm (b 0) (b 1) (b 2))
              (b 1 / quaternion_norm (b 0) (b 1) (b 2))
              (b 2 / quaternion_norm (b 0) (b 1) (b 2)) r k)
    /\ ((forall h, h < 6 -> b h = 0%R) ->
        (forall i k, i < 10 -> k < 3 -> get (translations f) [i; k] = 0%R)
        /\ (forall i r k, i < 10 -> r < 3 -> k < 3 ->
              get (rotations f) [i; r; k] = get (eye 3) [r; k])).
Proof.
  exact (BackboneUpdate_zero_features (zero_backbone 5) 5 10 (zeros [10; 5])
           (or_introl (conj eq_refl (conj eq_refl eq_refl))) eq_refl (fun _ _ => eq_refl)).
Defined.

(** C7 as stated fails for a projection with the bias (0, 0, 0, 1, 1, 1):
    on all-zero features the translation of the residue is not zero. *)
Lemma BackboneUpdate_zero_features_counterexample :
  exists f,
    BackboneUpdate_forward (shifting_backbone 1) (zeros [1; 1]) = Some f
    /\ get (translations f) [0; 0] = 1%R
    /\ get (translations f) [0; 0] <> 0%R.
Proof.
  destruct (BackboneUpdate_forward_spec (shifting_backbone 1) 1 1 (zeros [1; 1])
              (or_introl (conj eq_refl (conj eq_refl eq_refl))) eq_refl)
    as (x & f & Ex & Sx & Ef & Ff & Rf & Tf).
  destruct (backbone_projection (shifting_backbone 1) 1 1 (zeros [1; 1])
              (or_introl (conj eq_refl (conj eq_refl eq_refl))) eq_refl)
    as (x' & Ex' & _ & Gx).
  rewrite Ex in Ex'. injection Ex' as <-.
  exists f. split; [exact Ef|].
  assert (E : get (translations f) [0; 0] = 1%R).
  { rewrite Tf by lia. rewrite Gx by lia. cbn. ring. }
  split; [exact E|]. rewrite E. lra.
Qed.

(** * Further properties of the weights *)

(** The three terms of the weight.  When the residue count, the number of
    heads and the number of query points all differ from 1, the weight
    before the softmax at residue [i], head [h], residue [j] is the sum of
    the scalar term, the bias projection of the pair representation and
    the scaled sum of the squared distances of the query and key points in
    global coordinates; the normalised weight is its softmax over [j]. *)
Theorem weight_three_terms (self : InvariantPointAttention)
    (single_embedding_size pair_embedding_size ipa_embedding_size len_seq : nat)
    (single_rep pair_rep : tensor) (frames : Frame) :
  initialised self single_embedding_size pair_embedding_size ipa_embedding_size ->
  shape single_rep = [len_seq; single_embedding_size] ->
  shape pair_rep = [len_seq; len_seq; pair_embedding_size] ->
  frame_shaped frames len_seq ->
  num_query_points self <> 1 -> num_heads self <> 1 -> len_seq <> 1 ->
  exists q k b qp kp logits w,
    LinearWithView_forward (query self) single_rep = Some q
    /\ LinearWithView_forward (key self) single_rep = Some k
    /\ Linear_forward (bias self) pair_rep = Some b
    /\ LinearWithView_forward (query_points self) single_rep = Some qp
    /\ LinearWithView_forward (key_points self) single_rep = Some kp
    /\ forward_logits self single_rep pair_rep frames = Some logits
    /\ shape logits = [len_seq; num_heads self; len_seq]
    /\ (forall i h j, i < len_seq -> h < num_heads self -> j < len_seq ->
          get logits [i; h; j]
          = (scale_single_rep self
             * sum_n ipa_embedding_size (fun d => get q [i; h; d] * get k [j; h; d])
             + get b [i; j; h]
             + scale_frame self * softplus_fn (get (scale_head self) [h])
               * point_distance_sum frames qp kp (num_query_points self) i h j)%R)
    /\ forward_weight self single_rep pair_rep frames = Some w
    /\ shape w = [len_seq; num_heads self; len_seq]
    /\ (forall i h j, i < len_seq -> h < num_heads self -> j < len_seq ->
          get w [i; h; j]
          = (exp (get logits [i; h; j])
             / sum_n len_seq (fun y => exp (get logits [i; h; y])))%R).
Proof.
  exact (forward_logits_spec self single_embedding_size pair_embedding_size
           ipa_embedding_size len_seq single_rep pair_rep frames).
Qed.

Lemma weight_three_terms_witness :
  exists q k b qp kp logits w,
    LinearWithView_forward (query test_module) test_single_representation = Some q
    /\ LinearWithView_forward (key test_module) test_single_representation = Some k
    /\ Linear_forward (bias test_module) test_pair_representation = Some b
    /\ LinearWithView_forward (query_points test_module) test_single_representation = Some qp
    /\ LinearWithView_forward (key_points test_module) test_single_representation = Some kp
    /\ forward_logits test_module test_single_representation test_pair_representation
         (test_frames 10) = Some logits
    /\ shape logits = [10; num_heads test_module; 10]
    /\ (forall i h j, i < 10 -> h < num_heads test_module -> j < 10 ->
          get logits [i; h; j]
          = (scale_single_rep test_module
             * sum_n 5 (fun d => get q [i; h; d] * get k [j; h; d])
             + get b [i; j; h]
             + scale_frame test_module * softplus_fn (get (scale_head test_module) [h])
               * point_distance_sum (test_frames 10) qp kp
                   (num_query_points test_module) i h j)%R)
    /\ forward_weight test_module test_single_representation test_pair_representation
         (test_frames 10) = Some w
    /\ shape w = [10; num_heads test_module; 10]
    /\ (forall i h j, i < 10 -> h < num_heads test_module -> j < 10 ->
          get w [i; h; j]
          = (exp (get logits [i; h; j])
             / sum_n 10 (fun y => exp (get logits [i; h; y])))%R).
Proof.
  exact (weight_three_terms test_module 3 7 5 10 test_single_representation
           test_pair_representation (test_frames 10) test_module_initialised
           eq_refl eq_refl (test_frames_shaped 10)
           ltac:(cbn; lia) ltac:(cbn; lia) ltac:(lia)).
Defined.

(** The normalised weights of a residue and head sum to 1 over the
    residues attended to. *)
Theorem normalised_weights_sum_to_one (self : InvariantPointAttention)
    (single_embedding_size pair_embedding_size ipa_embedding_size len_seq : nat)
    (single_rep pair_rep : tensor) (frames : Frame) :
  initialised self single_embedding_size pair_embedding_size ipa_embedding_size ->
  shape single_rep = [len_seq; single_embedding_size] ->
  shape pair_rep = [len_seq; len_seq; pair_embedding_size] ->
  frame_shaped frames len_seq ->
  2 <= len_seq -> 2 <= num_heads self -> 2 <= num_query_points self ->
  exists w,
    forward_weight self single_rep pair_rep frames = Some w
    /\ forall i h, i < len_seq -> h < num_heads self ->
         row_stochastic w len_seq [i; h].
Proof.
  intros Hinit Hs Hz Hf Hn Hh Hp.
  destruct (forward_logits_spec self _ _ _ _ single_rep pair_rep frames Hinit Hs Hz Hf)
    as (q & k & b & qp & kp & logits & w & _ & _ & _ & _ & _ & El & Sl & _ & Ew & _);
    try lia.
  exists w. split; [exact Ew|]. intros i h Hi Hh'.
  unfold forward_weight in Ew. rewrite El in Ew. cbn [bind] in Ew.
  apply (softmax_row_stochastic logits w _ _ _ Sl Ew); (assumption || lia).
Qed.

Lemma normalised_weights_sum_to_one_witness :
  exists w,
    forward_weight test_module test_single_representation test_pair_representation
      (test_frames 10) = Some w
    /\ forall i h, i < 10 -> h < num_heads test_module -> row_stochastic w 10 [i; h].
Proof.
  exact (normalised_weights_sum_to_one test_module 3 7 5 10 test_single_representation
           test_pair_representation (test_frames 10) test_module_initialised
           eq_refl eq_refl (test_frames_shaped 10)
           ltac:(lia) ltac:(cbn; lia) ltac:(cbn; lia)).
Defined.

(** * Further properties of the methods *)

Lemma softplus_fn_pos (x : R) : (0 < softplus_fn x)%R.
Proof.
  unfold softplus_fn. destruct (Rlt_dec 20 x) as [L|_]; [lra|].
  rewrite <- ln_1. apply ln_increasing; [lra|]. pose proof (exp_pos x). lra.
Qed.

Lemma sum_n_nonneg (n : nat) (f : nat -> R) :
  (forall x, x < n -> (0 <= f x)%R) -> (0 <= sum_n n f)%R.
Proof.
  induction n as [|n IH]; intros Hf; simpl; [lra|].
  specialize (IH ltac:(intros; apply Hf; lia)). specialize (Hf n ltac:(lia)). lra.
Qed.

Lemma sum_n_term_le (n : nat) (f : nat -> R) (j : nat) :
  (forall x, x < n -> (0 <= f x)%R) -> j < n -> (f j <= sum_n n f)%R.
Proof.
  induction n as [|n IH]; intros Hf Hj; [lia|]. simpl.
  destruct (Nat.eq_dec j n) as [->|Hne].
  - pose proof (sum_n_nonneg n f ltac:(intros; apply Hf; lia)). lra.
  - specialize (IH ltac:(intros; apply Hf; lia) ltac:(lia)).
    specialize (Hf n ltac:(lia)). lra.
Qed.

Lemma squared_distance_of_nonneg (a b : nat -> R) : (0 <= squared_distance_of a b)%R.
Proof.
  unfold squared_distance_of. apply sum_n_nonneg. intros c _.
  apply Rle_0_sqr.
Qed.

Lemma view_empty_inferred (a b : nat) (t : tensor) :
  a * b = 0 -> view [Some a; Some b; None] t = None.
Proof.
  intros E. unfold view, infer_shape. cbn [count_inferred filter length known_numel fold_right].
  replace (a * (b * 1)) with 0 by lia. reflexivity.
Qed.

(** [forward] raises on an empty sequence and for a module without heads:
    the size -1 of [frame_attention.view(len_seq, num_heads, -1)] cannot be
    inferred for a tensor without elements. *)
Theorem forward_raises_on_empty (self : InvariantPointAttention)
    (single_rep pair_rep : tensor) (frames : Frame) :
  nth 0 (shape single_rep) 0 = 0 \/ num_heads self = 0 ->
  forward self single_rep pair_rep frames = None.
Proof.
  intros E. unfold forward. apply bind_none_r. intros weight.
  unfold forward_output. do 3 (apply bind_none_r; intros ?).
  unfold forward_concat. apply bind_none_r. intros norm.
  rewrite view_empty_inferred by (destruct E as [-> | ->]; lia). reflexivity.
Qed.

Lemma forward_raises_on_empty_witness :
  forward test_module (zeros [0; 3]) (zeros [0; 0; 7]) (test_frames 0) = None.
Proof.
  exact (forward_raises_on_empty test_module (zeros [0; 3]) (zeros [0; 0; 7]) (test_frames 0)
           (or_introl eq_refl)).
Defined.

(** [single_rep_weight] at every size, sizes 0 and 1 included: a tensor of
    shape [N, H, N] whose entry (i, h, j) is the scaled dot product of the
    query of residue [i] and the key of residue [j] for head [h]. *)
Theorem single_rep_weight_scaled_dot_product (self : InvariantPointAttention)
    (single_embedding_size pair_embedding_size ipa_embedding_size len_seq : nat)
    (single_rep : tensor) :
  initialised self single_embedding_size pair_embedding_size ipa_embedding_size ->
  shape single_rep = [len_seq; single_embedding_size] ->
  exists q k w,
    LinearWithView_forward (query self) single_rep = Some q
    /\ LinearWithView_forward (key self) single_rep = Some k
    /\ single_rep_weight self single_rep = Some w
    /\ shape w = [len_seq; num_heads self; len_seq]
    /\ forall i h j, i < len_seq -> h < num_heads self -> j < len_seq ->
         get w [i; h; j]
         = (1 / sqrt (INR ipa_embedding_size)
            * sum_n ipa_embedding_size (fun d => get q [i; h; d] * get k [j; h; d]))%R.
Proof.
  intros Hinit Hs.
  destruct (query_shape self _ _ _ _ single_rep Hinit Hs) as (q & Eq & _).
  destruct (key_shape self _ _ _ _ single_rep Hinit Hs) as (k & Ek & _).
  destruct (single_rep_weight_spec self _ _ _ _ single_rep Hinit Hs q k Eq Ek)
    as (w & Ew & Sw & Gw).
  exists q, k, w. repeat (split; [assumption|]).
  intros i h j Hi Hh Hj. rewrite Gw by assumption.
  rewrite (init_scale_single_rep _ _ _ _ Hinit). reflexivity.
Qed.

Lemma single_rep_weight_scaled_dot_product_witness :
  exists q k w,
    LinearWithView_forward (query single_point_module) (zeros [1; 1]) = Some q
    /\ LinearWithView_forward (key single_point_module) (zeros [1; 1]) = Some k
    /\ single_rep_weight single_point_module (zeros [1; 1]) = Some w
    /\ shape w = [1; num_heads single_point_module; 1]
    /\ forall i h j, i < 1 -> h < num_heads single_point_module -> j < 1 ->
         get w [i; h; j]
         = (1 / sqrt (INR 1)
            * sum_n 1 (fun d => get q [i; h; d] * get k [j; h; d]))%R.
Proof.
  exact (single_rep_weight_scaled_dot_product single_point_module 1 1 1 1 (zeros [1; 1])
           single_point_module_initialised eq_refl).
Defined.

(** [single_rep_attention]: for a weight of shape [N, H, N] the result has
    shape [N, H, ipa_dim], and its entry (i, h, d) is the sum over the
    residues [j] of the weight (i, h, j) times the value of residue [j] for
    head [h]. *)
Theorem single_rep_attention_weighted_values (self : InvariantPointAttention)
    (single_embedding_size pair_embedding_size ipa_embedding_size len_seq : nat)
    (weight single_rep : tensor) :
  initialised self single_embedding_size pair_embedding_size ipa_embedding_size ->
  shape single_rep = [len_seq; single_embedding_size] ->
  shape weight = [len_seq; num_heads self; len_seq] ->
  exists v a,
    LinearWithView_forward (value self) single_rep = Some v
    /\ single_rep_attention self weight single_rep = Some a
    /\ shape a = [len_seq; num_heads self; ipa_embedding_size]
    /\ forall i h d, i < len_seq -> h < num_heads self -> d < ipa_embedding_size ->
         get a [i; h; d]
         = sum_n len_seq (fun j => (get weight [i; h; j] * get v [j; h; d])%R).
Proof.
  intros Hinit Hs Hw.
  destruct (value_shape self _ _ _ _ single_rep Hinit Hs) as (v & Ev & _).
  destruct (single_rep_attention_spec self _ _ _ _ single_rep Hinit Hs weight _ Hw
              (bdim_same _) v Ev) as (a & Ea & Sa & Ga).
  exists v, a. repeat (split; [assumption|]).
  intros i h d Hi Hh Hd. rewrite Ga by assumption.
  apply sum_n_ext. intros j Hj. unfold bidx.
  destruct (Nat.eqb_spec (num_heads self) 1) as [E|_]; [|reflexivity].
  replace h with 0 by lia. reflexivity.
Qed.

Lemma single_rep_attention_weighted_values_witness :
  exists v a,
    LinearWithView_forward (value test_module) test_single_representation = Some v
    /\ single_rep_attention test_module test_weight test_single_representation = Some a
    /\ shape a = [10; num_heads test_module; 5]
    /\ forall i h d, i < 10 -> h < num_heads test_module -> d < 5 ->
         get a [i; h; d]
         = sum_n 10 (fun j => (get test_weight [i; h; j] * get v [j; h; d])%R).
Proof.
  exact (single_rep_attention_weighted_values test_module 3 7 5 10 test_weight
           test_single_representation test_module_initialised eq_refl eq_refl).
Defined.

(** [frame_attention]: for a weight of shape [N, H, N] the result has shape
    [N, H, P_v, 3]; its entry (i, h, p) is the weighted sum over the
    residues [j] of the value points of [j] in global coordinates, mapped
    by the inverse frame of residue [i]: R_i^T (sum - t_i). *)
Theorem frame_attention_weighted_points (self : InvariantPointAttention)
    (single_embedding_size pair_embedding_size ipa_embedding_size len_seq : nat)
    (weight single_rep : tensor) (frames : Frame) :
  initialised self single_embedding_size pair_embedding_size ipa_embedding_size ->
  shape single_rep = [len_seq; single_embedding_size] ->
  frame_shaped frames len_seq ->
  shape weight = [len_seq; num_heads self; len_seq] ->
  exists vp a,
    LinearWithView_forward (value_points self) single_rep = Some vp
    /\ frame_attention self weight frames single_rep = Some a
    /\ shape a = [len_seq; num_heads self; num_value_points self; 3]
    /\ forall i h p c,
         i < len_seq -> h < num_heads self -> p < num_value_points self -> c < 3 ->
         get a [i; h; p; c]
         = sum_n 3 (fun y =>
             get (rotations frames) [i; y; c]
             * (sum_n len_seq (fun j =>
                  get weight [i; h; j]
                  * global_point frames j (fun u => get vp [j; h; p; u]) y)
                - get (translations frames) [i; y]))%R.
Proof.
  intros Hinit Hs Hf Hw.
  destruct (value_points_shape self _ _ _ _ single_rep Hinit Hs) as (vp & Evp & _).
  destruct (frame_attention_spec self _ _ _ _ single_rep frames Hinit Hs Hf weight _ Hw
              (bdim_same _) vp Evp) as (a & Ea & Sa & Ga).
  exists vp, a. repeat (split; [assumption|]).
  intros i h p c Hi Hh Hp Hc. rewrite Ga by assumption.
  assert (B : bidx (num_heads self) h = h).
  { unfold bidx. destruct (Nat.eqb_spec (num_heads self) 1); lia. }
  rewrite B. cbn [sum_n]. ring.
Qed.

Lemma frame_attention_weighted_points_witness :
  exists vp a,
    LinearWithView_forward (value_points test_module) test_single_representation = Some vp
    /\ frame_attention test_module test_weight (test_frames 10) test_single_representation
       = Some a
    /\ shape a = [10; num_heads test_module; num_value_points test_module; 3]
    /\ forall i h p c,
         i < 10 -> h < num_heads test_module -> p < num_value_points test_module -> c < 3 ->
         get a [i; h; p; c]
         = sum_n 3 (fun y =>
             get (rotations (test_frames 10)) [i; y; c]
             * (sum_n 10 (fun j =>
                  get test_weight [i; h; j]
                  * global_point (test_frames 10) j (fun u => get vp [j; h; p; u]) y)
                - get (translations (test_frames 10)) [i; y]))%R.
Proof.
  exact (frame_attention_weighted_points test_module 3 7 5 10 test_weight
           test_single_representation (test_frames 10) test_module_initialised
           eq_refl (test_frames_shaped 10) eq_refl).
Defined.

(** [frame_weight] does not depend on the global position of the
    structure: on the Frames composed with a rigid transform (R^T R = I)
    it raises when it raises on the Frames themselves, and returns the
    same tensor otherwise, at every size. *)
Theorem frame_weight_rigid_invariant (self : InvariantPointAttention)
    (single_embedding_size pair_embedding_size ipa_embedding_size len_seq : nat)
    (single_rep : tensor) (transform frames : Frame) :
  initialised self single_embedding_size pair_embedding_size ipa_embedding_size ->
  shape single_rep = [len_seq; single_embedding_size] ->
  frame_shaped frames len_seq ->
  transform_shaped transform ->
  orthonormal_at (rotations transform) [] ->
  exists frames',
    Frame_compose transform frames = Some frames'
    /\ oteq (frame_weight self frames' single_rep) (frame_weight self frames single_rep).
Proof.
  intros Hinit Hs Hf Ht Ho.
  destruct (Frame_compose_transform_spec transform frames len_seq Ht Hf)
    as (frames' & Ec & _).
  exists frames'. split; [exact Ec|].
  exact (frame_weight_invariant self _ _ _ _ single_rep transform frames frames'
           Hinit Hs Hf Ht Ho Ec).
Qed.

Lemma frame_weight_rigid_invariant_witness :
  exists frames',
    Frame_compose test_transform (test_frames 10) = Some frames'
    /\ oteq (frame_weight test_module frames' test_single_representation)
            (frame_weight test_module (test_frames 10) test_single_representation).
Proof.
  exact (frame_weight_rigid_invariant test_module 3 7 5 10 test_single_representation
           test_transform (test_frames 10) test_module_initialised eq_refl
           (test_frames_shaped 10) test_transform_shaped test_transform_orthonormal).
Defined.

(** The frame term never raises a weight: when no size is 1, every entry
    of [frame_weight] is at most 0. *)
Theorem frame_weight_nonpositive (self : InvariantPointAttention)
    (single_embedding_size pair_embedding_size ipa_embedding_size len_seq : nat)
    (single_rep : tensor) (frames : Frame) :
  initialised self single_embedding_size pair_embedding_size ipa_embedding_size ->
  shape single_rep = [len_seq; single_embedding_size] ->
  frame_shaped frames len_seq ->
  num_query_points self <> 1 -> num_heads self <> 1 -> len_seq <> 1 ->
  exists w,
    frame_weight self frames single_rep = Some w
    /\ shape w = [len_seq; num_heads self; len_seq]
    /\ forall i h j, i < len_seq -> h < num_heads self -> j < len_seq ->
         (get w [i; h; j] <= 0)%R.
Proof.
  intros Hinit Hs Hf Hp Hh Hn.
  destruct (query_points_shape self _ _ _ _ single_rep Hinit Hs) as (qp & Eqp & _).
  destruct (key_points_shape self _ _ _ _ single_rep Hinit Hs) as (kp & Ekp & _).
  destruct (frame_weight_spec self _ _ _ _ single_rep frames Hinit Hs Hf qp kp Eqp Ekp
              Hp Hh Hn) as (w & Ew & Sw & Gw).
  exists w. split; [exact Ew|]. split; [exact Sw|].
  intros i h j Hi Hh' Hj. rewrite Gw by assumption.
  rewrite (init_scale_frame _ _ _ _ Hinit).
  pose proof (scale_frame_negative (num_query_points self)
                (init_num_query_points _ _ _ _ Hinit)) as N.
  pose proof (softplus_fn_pos (get (scale_head self) [h])) as P.
  assert (D : (0 <= point_distance_sum frames qp kp (num_query_points self) i h j)%R).
  { unfold point_distance_sum. apply sum_n_nonneg. intros p _.
    apply squared_distance_of_nonneg. }
  set (s := (- 1 / sqrt (INR (18 * num_query_points self)))%R) in *.
  set (sp := softplus_fn (get (scale_head self) [h])) in *.
  set (d := point_distance_sum frames qp kp (num_query_points self) i h j) in *.
  assert (Q : (0 <= (- s) * sp * d)%R).
  { apply Rmult_le_pos; [apply Rmult_le_pos; lra | exact D]. }
  lra.
Qed.

Lemma frame_weight_nonpositive_witness :
  exists w,
    frame_weight test_module (test_frames 10) test_single_representation = Some w
    /\ shape w = [10; num_heads test_module; 10]
    /\ forall i h j, i < 10 -> h < num_heads test_module -> j < 10 ->
         (get w [i; h; j] <= 0)%R.
Proof.
  exact (frame_weight_nonpositive test_module 3 7 5 10 test_single_representation
           (test_frames 10) test_module_initialised eq_refl (test_frames_shaped 10)
           ltac:(cbn; lia) ltac:(cbn; lia) ltac:(lia)).
Defined.

(** The normalised weights are probabilities: when the residue count, the
    number of heads and the number of query points are at least 2, every
    weight after the softmax lies in [0, 1]. *)
Theorem normalised_weights_bounded (self : InvariantPointAttention)
    (single_embedding_size pair_embedding_size ipa_embedding_size len_seq : nat)
    (single_rep pair_rep : tensor) (frames : Frame) :
  initialised self single_embedding_size pair_embedding_size ipa_embedding_size ->
  shape single_rep = [len_seq; single_embedding_size] ->
  shape pair_rep = [len_seq; len_seq; pair_embedding_size] ->
  frame_shaped frames len_seq ->
  2 <= len_seq -> 2 <= num_heads self -> 2 <= num_query_points self ->
  exists w,
    forward_weight self single_rep pair_rep frames = Some w
    /\ forall i h j, i < len_seq -> h < num_heads self -> j < len_seq ->
         (0 <= get w [i; h; j] <= 1)%R.
Proof.
  intros Hinit Hs Hz Hf Hn Hh Hp.
  destruct (forward_logits_spec self _ _ _ _ single_rep pair_rep frames Hinit Hs Hz Hf)
    as (q & k & b & qp & kp & logits & w & _ & _ & _ & _ & _ & _ & _ & _ & Ew & _ & Gw);
    try lia.
  exists w. split; [exact Ew|]. intros i h j Hi Hh' Hj. rewrite Gw by assumption.
  pose proof (sum_n_exp_pos len_seq (fun y => get logits [i; h; y]) ltac:(lia)) as S.
  pose proof (exp_pos (get logits [i; h; j])) as E.
  pose proof (sum_n_term_le len_seq (fun y => exp (get logits [i; h; y])) j
                ltac:(intros; left; apply exp_pos) Hj) as L.
  cbv beta in L. split.
  - left. apply Rdiv_lt_0_compat; assumption.
  - apply Rmult_le_reg_r with (r := sum_n len_seq (fun y => exp (get logits [i; h; y])));
      [exact S|].
    unfold Rdiv. rewrite Rmult_assoc, Rinv_l by lra. lra.
Qed.

Lemma normalised_weights_bounded_witness :
  exists w,
    forward_weight test_module test_single_representation test_pair_representation
      (test_frames 10) = Some w
    /\ forall i h j, i < 10 -> h < num_heads test_module -> j < 10 ->
         (0 <= get w [i; h; j] <= 1)%R.
Proof.
  exact (normalised_weights_bounded test_module 3 7 5 10 test_single_representation
           test_pair_representation (test_frames 10) test_module_initialised
           eq_refl eq_refl (test_frames_shaped 10)
           ltac:(lia) ltac:(cbn; lia) ltac:(cbn; lia)).
Defined.

(** The attended point under a transformed structure: the transform
    cancels up to the translation, which is left with the factor
    (sum of the weights - 1). *)
Lemma point_attention_transform (rt ri : nat -> nat -> R) (tt ti : nat -> R)
    (n : nat) (w : nat -> R) (g : nat -> nat -> R) (c : nat) :
  (forall u v, u < 3 -> v < 3 ->
     sum_n 3 (fun x => (rt x u * rt x v)%R) = if u =? v then 1%R else 0%R) ->
  sum_n 3 (fun y =>
     sum_n 3 (fun z => rt y z * ri z c)
     * (sum_n n (fun j => w j * (sum_n 3 (fun z => rt y z * g j z) + tt y))
        - (sum_n 3 (fun z => rt y z * ti z) + tt y)))%R
  = (sum_n 3 (fun y => ri y c * (sum_n n (fun j => w j * g j y) - ti y))
     + (sum_n n w - 1)
       * sum_n 3 (fun y => ri y c * sum_n 3 (fun z => rt z y * tt z)))%R.
Proof.
  intros O. cbn [sum_n]. rewrite !weighted_affine.
  set (s0 := sum_n n (fun j => (w j * g j 0%nat)%R)).
  set (s1 := sum_n n (fun j => (w j * g j 1%nat)%R)).
  set (s2 := sum_n n (fun j => (w j * g j 2%nat)%R)).
  set (W := sum_n n w).
  set (d := fun u : nat => match u with
                           | 0 => (s0 - ti 0%nat)%R
                           | 1 => (s1 - ti 1%nat)%R
                           | _ => (s2 - ti 2%nat)%R
                           end).
  transitivity
    (sum_n 3 (fun u => sum_n 3 (fun v =>
       (sum_n 3 (fun x => rt x u * rt x v) * (ri u c * d v))%R))
     + (W - 1) * sum_n 3 (fun y => ri y c * sum_n 3 (fun z => rt z y * tt z)))%R.
  - cbn [sum_n]. unfold d. ring.
  - f_equal.
    rewrite (sum_n_ext 3 _ (fun u => sum_n 3 (fun v =>
       ((if u =? v then 1 else 0) * (ri u c * d v))%R))).
    + cbn [sum_n Nat.eqb]. unfold d. ring.
    + intros u Hu. apply sum_n_ext. intros v Hv. rewrite O by assumption. reflexivity.
Qed.

(** [frame_attention] under a global rigid transform (R_T, t_T) of the
    Frames, for any weight of shape [N, H, N]: the result changes by
    (sum_j weight[i, h, j] - 1) R_i^T R_T^T t_T.  It is unchanged when
    the weights of every residue and head sum to 1, as they do after the
    softmax. *)
Theorem frame_attention_under_transform (self : InvariantPointAttention)
    (single_embedding_size pair_embedding_size ipa_embedding_size len_seq : nat)
    (weight single_rep : tensor) (transform frames : Frame) :
  initialised self single_embedding_size pair_embedding_size ipa_embedding_size ->
  shape single_rep = [len_seq; single_embedding_size] ->
  frame_shaped frames len_seq ->
  transform_shaped transform ->
  orthonormal_at (rotations transform) [] ->
  shape weight = [len_seq; num_heads self; len_seq] ->
  exists frames' a a',
    Frame_compose transform frames = Some frames'
    /\ frame_attention self weight frames single_rep = Some a
    /\ frame_attention self weight frames' single_rep = Some a'
    /\ shape a' = shape a
    /\ (forall i h p c,
          i < len_seq -> h < num_heads self -> p < num_value_points self -> c < 3 ->
          get a' [i; h; p; c]
          = (get a [i; h; p; c]
             + (sum_n len_seq (fun j => get weight [i; h; j]) - 1)
               * sum_n 3 (fun y =>
                   get (rotations frames) [i; y; c]
                   * sum_n 3 (fun z => get (rotations transform) [z; y]
                                       * get (translations transform) [z])))%R)
    /\ ((forall i h, i < len_seq -> h < num_heads self ->
           row_stochastic weight len_seq [i; h]) ->
        teq a' a).
Proof.
  intros Hinit Hs Hf Ht Ho Hw.
  destruct (Frame_compose_transform_spec transform frames len_seq Ht Hf)
    as (frames' & Ec & Ff' & Rf' & Tf').
  destruct (value_points_shape self _ _ _ _ single_rep Hinit Hs) as (vp & Evp & _).
  destruct (frame_attention_spec self _ _ _ _ single_rep frames Hinit Hs Hf weight _ Hw
              (bdim_same _) vp Evp) as (a & Ea & Sa & Ga).
  destruct (frame_attention_spec self _ _ _ _ single_rep frames' Hinit Hs Ff' weight _ Hw
              (bdim_same _) vp Evp) as (a' & Ea' & Sa' & Ga').
  exists frames', a, a'. repeat (split; [assumption || congruence|]).
  assert (G : forall i h p c,
            i < len_seq -> h < num_heads self -> p < num_value_points self -> c < 3 ->
            get a' [i; h; p; c]
            = (get a [i; h; p; c]
               + (sum_n len_seq (fun j => get weight [i; h; j]) - 1)
                 * sum_n 3 (fun y =>
                     get (rotations frames) [i; y; c]
                     * sum_n 3 (fun z => get (rotations transform) [z; y]
                                         * get (translations transform) [z])))%R).
  { intros i h p c Hi Hh Hp Hc. rewrite Ga, Ga' by assumption.
    set (g := fun j y => global_point frames j
                           (fun u => get vp [j; bidx (num_heads self) h; p; u]) y).
    pose proof (point_attention_transform
                  (fun y z => get (rotations transform) [y; z])
                  (fun z c => get (rotations frames) [i; z; c])
                  (fun y => get (translations transform) [y])
                  (fun z => get (translations frames) [i; z])
                  len_seq (fun j => get weight [i; h; j]) g c (Ho : forall u v, _)) as A.
    cbv beta in A.
    transitivity
      (sum_n 3 (fun y =>
         sum_n 3 (fun z => get (rotations transform) [y; z] * get (rotations frames) [i; z; c])
         * (sum_n len_seq (fun j =>
              get weight [i; h; j]
              * (sum_n 3 (fun z => get (rotations transform) [y; z] * g j z)
                 + get (translations transform) [y]))
            - (sum_n 3 (fun z => get (rotations transform) [y; z]
                                 * get (translations frames) [i; z])
               + get (translations transform) [y]))))%R.
    - rewrite (sum_n_ext 3 _ (fun y =>
         (sum_n 3 (fun z => get (rotations transform) [y; z]
                            * get (rotations frames) [i; z; c])
          * sum_n len_seq (fun j =>
              get weight [i; h; j]
              * (sum_n 3 (fun z => get (rotations transform) [y; z] * g j z)
                 + get (translations transform) [y])))%R)).
      2:{ intros y Hy. rewrite Rf' by assumption. f_equal.
          apply sum_n_ext. intros j Hj. f_equal.
          rewrite (global_point_compose transform frames frames' len_seq) by assumption.
          reflexivity. }
      rewrite (sum_n_ext 3 (fun y => (get (rotations frames') [i; y; c]
                                      * get (translations frames') [i; y])%R)
                 (fun y =>
         (sum_n 3 (fun z => get (rotations transform) [y; z]
                            * get (rotations frames) [i; z; c])
          * (sum_n 3 (fun z => get (rotations transform) [y; z]
                               * get (translations frames) [i; z])
             + get (translations transform) [y]))%R)).
      2:{ intros y Hy. rewrite Rf', Tf' by assumption. reflexivity. }
      cbn [sum_n]. ring.
    - rewrite A. unfold g. cbn [sum_n]. ring. }
  split; [exact G|].
  intros Hrow. apply (teq_of_pointwise4 _ _ _ _ _ _ Sa' Sa). intros i h p c Hi Hh Hp Hc.
  rewrite G by assumption. pose proof (Hrow i h Hi Hh) as W.
  unfold row_stochastic in W. cbn [app] in W. rewrite W. ring.
Qed.

Lemma frame_attention_under_transform_witness :
  exists frames' a a',
    Frame_compose test_transform (test_frames 10) = Some frames'
    /\ frame_attention test_module test_weight (test_frames 10) test_single_representation
       = Some a
    /\ frame_attention test_module test_weight frames' test_single_representation = Some a'
    /\ shape a' = shape a
    /\ (forall i h p c,
          i < 10 -> h < num_heads test_module -> p < num_value_points test_module -> c < 3 ->
          get a' [i; h; p; c]
          = (get a [i; h; p; c]
             + (sum_n 10 (fun j => get test_weight [i; h; j]) - 1)
               * sum_n 3 (fun y =>
                   get (rotations (test_frames 10)) [i; y; c]
                   * sum_n 3 (fun z => get (rotations test_transform) [z; y]
                                       * get (translations test_transform) [z])))%R)
    /\ ((forall i h, i < 10 -> h < num_heads test_module ->
           row_stochastic test_weight 10 [i; h]) ->
        teq a' a).
Proof.
  exact (frame_attention_under_transform test_module 3 7 5 10 test_weight
           test_single_representation test_transform (test_frames 10)
           test_module_initialised eq_refl (test_frames_shaped 10)
           test_transform_shaped test_transform_orthonormal eq_refl).
Defined.

(** ** The layout of the concatenated features *)

Lemma sum_n_app (a b : nat) (f : nat -> R) :
  sum_n (a + b) f = (sum_n a f + sum_n b (fun x => f (a + x)%nat))%R.
Proof.
  induction b as [|b IH]; cbn [sum_n].
  - rewrite Nat.add_0_r. lra.
  - rewrite Nat.add_succ_r. cbn [sum_n]. rewrite IH. lra.
Qed.

Lemma sum_n_blocks (h k : nat) (f : nat -> R) :
  sum_n (h * k) f = sum_n h (fun x => sum_n k (fun d => f (x * k + d))).
Proof.
  induction h as [|h IH]; cbn [sum_n Nat.mul]; [reflexivity|].
  rewrite Nat.add_comm, sum_n_app, IH. reflexivity.
Qed.

Lemma div_mod_block (q k r : nat) : r < k -> (q * k + r) / k = q /\ (q * k + r) mod k = r.
Proof.
  intros Hr. split.
  - symmetry. apply (Nat.div_unique _ _ q r); [exact Hr | lia].
  - symmetry. apply (Nat.mod_unique _ _ q r); [exact Hr | lia].
Qed.

Lemma unravel_rows (n h k i x d : nat) :
  x < h -> d < k ->
  unravel [n; h; k] (ravel [n; h * k] [i; x * k + d]) = [i; x; d].
Proof.
  intros Hx Hd. unfold ravel, unravel, numel. cbn [fold_right].
  rewrite !Nat.mul_1_r, Nat.add_0_r, !Nat.div_1_r.
  assert (L : x * k + d < h * k) by nia.
  destruct (div_mod_block i (h * k) (x * k + d) L) as [-> ->].
  destruct (div_mod_block x k d Hd) as [-> ->]. reflexivity.
Qed.

Lemma unravel_points (n h p i x e : nat) :
  x < h -> e < p * 3 ->
  unravel [n; h; p; 3] (ravel [n; h; p * 3] [i; x; e]) = [i; x; e / 3; e mod 3].
Proof.
  intros Hx He. unfold ravel, unravel, numel. cbn [fold_right].
  rewrite !Nat.mul_1_r, Nat.add_0_r, !Nat.div_1_r.
  assert (L : x * (p * 3) + e < h * (p * 3)) by nia.
  destruct (div_mod_block i (h * (p * 3)) (x * (p * 3) + e) L) as [-> ->].
  destruct (div_mod_block x (p * 3) e He) as [-> ->]. reflexivity.
Qed.

(** [forward_concat] entry by entry: the features of a residue are laid
    out head by head, each head as its single attention, its pair
    attention, its attended points (point by point, x y z) and their
    norms, and projected by [out]. *)
Lemma forward_concat_spec (self : InvariantPointAttention)
    (single_embedding_size pair_embedding_size ipa_embedding_size len_seq : nat)
    (sa pa fa : tensor) :
  initialised self single_embedding_size pair_embedding_size ipa_embedding_size ->
  shape sa = [len_seq; num_heads self; ipa_embedding_size] ->
  shape pa = [len_seq; num_heads self; pair_embedding_size] ->
  shape fa = [len_seq; num_heads self; num_value_points self; 3] ->
  len_seq <> 0 -> num_heads self <> 0 ->
  let k := ipa_embedding_size + pair_embedding_size + num_value_points self * 3
           + num_value_points self in
  exists b o,
    lin_bias (out self) = Some b
    /\ forward_concat self len_seq sa pa fa = Some o
    /\ shape o = [len_seq; single_embedding_size]
    /\ forall i c, i < len_seq -> c < single_embedding_size ->
         get o [i; c]
         = (sum_n (num_heads self) (fun h =>
              sum_n k (fun d =>
                attention_feature sa pa fa ipa_embedding_size pair_embedding_size
                  (num_value_points self) i h d
                * get (lin_weight (out self)) [c; (h * k + d)%nat]))
            + get b [c])%R.
Proof.
  intros Hinit Ssa Spa Sfa Hn Hh k.
  destruct (init_out _ _ _ _ Hinit) as [Sw Sb].
  destruct (lin_bias (out self)) as [b|] eqn:Eb; [|discriminate]. destruct Sb as [_ Sb].
  exists b. unfold forward_concat.
  reveal sa. reveal pa. reveal fa.
  unfold vector_norm, rank. cbn [shape get length]. wrap_eval. cbn [bind remove_at].
  unfold view. cbn [shape get].
  rewrite (infer_shape_last3 _ len_seq (num_heads self) (num_value_points self * 3))
    by (unfold numel; cbn [fold_right]; nia).
  cbn [bind]. unfold cat, rank. cbn [shape get length]. wrap_eval.
  cbn [bind forallb replace_at list_eqb shape]. rewrite !Nat.eqb_refl. cbn [andb].
  unfold reshape, view. cbn [bind shape get cat_size fold_right nth].
  replace (ipa_embedding_size
           + (pair_embedding_size
              + (num_value_points self * 3 + (num_value_points self + 0))))
    with k by (unfold k; lia).
  rewrite (infer_shape_last _ len_seq (num_heads self * k))
    by (unfold numel; cbn [fold_right]; nia).
  cbn [bind].
  match goal with
  | |- context [Linear_forward (out self) ?t] =>
      destruct (Linear_forward_bias_spec2 (out self) (num_heads self * k)
                  single_embedding_size len_seq t b) as (o & Eo & So & Go)
  end.
  - rewrite Sw. f_equal. f_equal. unfold k. nia.
  - exact Eb.
  - exact Sb.
  - reflexivity.
  - exists o. split; [reflexivity|]. split; [exact Eo|]. split; [exact So|].
    intros i c Hi Hc. rewrite Go by assumption. f_equal.
    rewrite sum_n_blocks. apply sum_n_ext. intros h Hh'. apply sum_n_ext. intros d Hd.
    f_equal. cbn [get]. rewrite unravel_rows by assumption.
    unfold attention_feature. cbn [cat_get nth shape get replace_at].
    destruct (Nat.ltb_spec d ipa_embedding_size) as [L1|L1]; [reflexivity|].
    destruct (Nat.ltb_spec (d - ipa_embedding_size) pair_embedding_size) as [L2|L2];
      [reflexivity|].
    destruct (Nat.ltb_spec (d - ipa_embedding_size - pair_embedding_size)
                (num_value_points self * 3)) as [L3|L3].
    + rewrite unravel_points by assumption. reflexivity.
    + destruct (Nat.ltb_spec (d - ipa_embedding_size - pair_embedding_size
                              - num_value_points self * 3) (num_value_points self))
        as [L4|L4]; [|unfold k in Hd; lia].
      cbn [insert_at]. reflexivity.
Qed.

(** The output of [forward], entry by entry.  When the residue count, the
    number of heads and the number of query points are at least 2, the
    output at residue [i] is the projection [out] of the features of [i],
    laid out head by head, each head as its single attention (ipa_dim
    entries), its pair attention (pair_dim), its attended points (P_v
    points, x y z each) and the norms of these points (P_v). *)
Theorem forward_feature_layout (self : InvariantPointAttention)
    (single_embedding_size pair_embedding_size ipa_embedding_size len_seq : nat)
    (single_rep pair_rep : tensor) (frames : Frame) :
  initialised self single_embedding_size pair_embedding_size ipa_embedding_size ->
  shape single_rep = [len_seq; single_embedding_size] ->
  shape pair_rep = [len_seq; len_seq; pair_embedding_size] ->
  frame_shaped frames len_seq ->
  2 <= len_seq -> 2 <= num_heads self -> 2 <= num_query_points self ->
  let k := ipa_embedding_size + pair_embedding_size + num_value_points self * 3
           + num_value_points self in
  exists w sa pa fa b o,
    forward_weight self single_rep pair_rep frames = Some w
    /\ single_rep_attention self w single_rep = Some sa
    /\ pair_rep_attention self w pair_rep = Some pa
    /\ frame_attention self w frames single_rep = Some fa
    /\ lin_bias (out self) = Some b
    /\ forward self single_rep pair_rep frames = Some o
    /\ shape o = [len_seq; single_embedding_size]
    /\ forall i c, i < len_seq -> c < single_embedding_size ->
         get o [i; c]
         = (sum_n (num_heads self) (fun h =>
              sum_n k (fun d =>
                attention_feature sa pa fa ipa_embedding_size pair_embedding_size
                  (num_value_points self) i h d
                * get (lin_weight (out self)) [c; (h * k + d)%nat]))
            + get b [c])%R.
Proof.
  intros Hinit Hs Hz Hf Hn Hh Hp k.
  destruct (forward_regular self _ _ _ _ single_rep pair_rep frames Hinit Hs Hz Hf Hn Hh Hp)
    as (c0 & w & fa & o0 & _ & _ & Ew & Sw & Efa & Sfa & _).
  destruct (value_shape self _ _ _ _ single_rep Hinit Hs) as (v & Ev & _).
  destruct (single_rep_attention_spec self _ _ _ _ single_rep Hinit Hs w _ Sw
              (bdim_same _) v Ev) as (sa & Esa & Ssa & _).
  destruct (pair_rep_attention_spec self _ _ pair_rep Hz w _ Sw) as (pa & Epa & Spa & _).
  destruct (forward_concat_spec self _ _ _ len_seq sa pa fa Hinit Ssa Spa Sfa
              ltac:(lia) ltac:(lia)) as (b & o & Eb & Eo & So & Go).
  exists w, sa, pa, fa, b, o. repeat (split; [assumption|]).
  split; [|split; [exact So | exact Go]].
  unfold forward. rewrite Ew. cbn [bind]. unfold forward_output. cbv zeta.
  rewrite Hs. cbn [nth]. rewrite Esa, Epa, Efa. cbn [bind]. exact Eo.
Qed.

Lemma forward_feature_layout_witness :
  let k := 5 + 7 + num_value_points test_module * 3 + num_value_points test_module in
  exists w sa pa fa b o,
    forward_weight test_module test_single_representation test_pair_representation
      (test_frames 10) = Some w
    /\ single_rep_attention test_module w test_single_representation = Some sa
    /\ pair_rep_attention test_module w test_pair_representation = Some pa
    /\ frame_attention test_module w (test_frames 10) test_single_representation = Some fa
    /\ lin_bias (out test_module) = Some b
    /\ forward test_module test_single_representation test_pair_representation
         (test_frames 10) = Some o
    /\ shape o = [10; 3]
    /\ forall i c, i < 10 -> c < 3 ->
         get o [i; c]
         = (sum_n (num_heads test_module) (fun h =>
              sum_n k (fun d =>
                attention_feature sa pa fa 5 7 (num_value_points test_module) i h d
                * get (lin_weight (out test_module)) [c; (h * k + d)%nat]))
            + get b [c])%R.
Proof.
  exact (forward_feature_layout test_module 3 7 5 10 test_single_representation
           test_pair_representation (test_frames 10) test_module_initialised
           eq_refl eq_refl (test_frames_shaped 10)
           ltac:(lia) ltac:(cbn; lia) ltac:(cbn; lia)).
Defined.

(** * MSARunner: the cache of alignments *)

Lemma append_length (s t : string) :
  String.length (s ++ t) = String.length s + String.length t.
Proof. induction s as [|c s IH]; cbn; [reflexivity | rewrite IH; reflexivity]. Qed.

Lemma zip_path_neq (s : string) : zip_path s <> s.
Proof.
  unfold zip_path. intros E. apply (f_equal String.length) in E. rewrite append_length in E. cbn in E. lia.
Qed.

Lemma length_0_empty (s : string) : String.length s = 0 -> s = ""%string.
Proof. destruct s; [reflexivity | discriminate]. Qed.

Lemma write_file_same (p c : string) (f : files) : write_file p c f p = Some c.
Proof. unfold write_file. rewrite String.eqb_refl. reflexivity. Qed.

Lemma write_file_other (p q c : string) (f : files) : q <> p -> write_file p c f q = f q.
Proof. intros N. unfold write_file. apply String.eqb_neq in N. rewrite N. reflexivity. Qed.

Lemma remove_file_same (p : string) (f : files) : remove_file p f p = None.
Proof. unfold remove_file. rewrite String.eqb_refl. reflexivity. Qed.

Lemma remove_file_other (p q : string) (f : files) : q <> p -> remove_file p f q = f q.
Proof. intros N. unfold remove_file. apply String.eqb_neq in N. rewrite N. reflexivity. Qed.

(** What [cached_result] leaves behind, by its result. *)
Lemma cached_result_cases (env : Environment) (output : string) (w w' : world)
    (r : outcome (option reader)) :
  cached_result env output w = (w', r) ->
  match r with
  | Ok (Some (zip_result z)) =>
      z = (zip_path output) /\ w' = w /\ fs w z <> None
  | Ok (Some (constant content)) =>
      fs w (zip_path output) = None
      /\ (exists bytes, fs w output = Some bytes /\ bytes <> ""%string
                        /\ decode env bytes = Some content)
      /\ calls w' = calls w
      /\ fs w' (zip_path output) = Some (gzip_compress env (encode_utf8 env content))
      /\ fs w' output = None
      /\ forall p, p <> output -> p <> (zip_path output) -> fs w' p = fs w p
  | Ok None =>
      w' = w /\ fs w (zip_path output) = None
      /\ (fs w output = None \/ fs w output = Some ""%string)
  | Raise e =>
      w' = w /\ e = UnicodeDecodeError /\ fs w (zip_path output) = None
  end.
Proof.
  unfold cached_result. cbv zeta.
  destruct (fs w (zip_path output)) as [z|] eqn:Ez.
  { intros E. injection E as <- <-. split; [reflexivity|]. split; [reflexivity|].
    rewrite Ez. discriminate. }
  destruct (fs w output) as [bytes|] eqn:Eo.
  2:{ intros E. injection E as <- <-. auto. }
  destruct (Nat.ltb_spec 0 (String.length bytes)) as [L|L].
  2:{ intros E. injection E as <- <-. split; [reflexivity|]. split; [reflexivity|].
      right. f_equal. apply length_0_empty. lia. }
  destruct (decode env bytes) as [content|] eqn:Ed.
  2:{ intros E. injection E as <- <-. auto. }
  intros E. injection E as <- <-. cbn [fs calls].
  split; [reflexivity|]. split.
  { exists bytes. split; [reflexivity|]. split; [|exact Ed].
    intros ->. cbn in L. lia. }
  split; [reflexivity|]. split.
  { rewrite remove_file_other by apply zip_path_neq. apply write_file_same. }
  split; [apply remove_file_same|].
  intros p N1 N2. rewrite remove_file_other, write_file_other by assumption. reflexivity.
Qed.

(** A result in the cache is served without any effect. *)
Lemma run_hit (env : Environment) (self : MSARunner) (fasta_input id : string) (w : world) :
  let output := output_path env self id in
  fs w (zip_path output) <> None ->
  run env self fasta_input id w = (w, Ok (Some (zip_result (zip_path output)))).
Proof.
  intros output H. unfold run, io_bind, cached_result. cbv zeta. fold output.
  destruct (fs w (zip_path output)); [reflexivity | contradiction].
Qed.

Lemma cached_result_some (env : Environment) (output : string) (w w' : world) (r : reader) :
  cached_result env output w = (w', Ok (Some r)) -> fs w' (zip_path output) <> None.
Proof.
  intros E. pose proof (cached_result_cases env output w w' _ E) as C. cbv beta iota in C.
  destruct r as [z|content].
  - destruct C as (-> & -> & N). exact N.
  - destruct C as (_ & _ & _ & G & _). rewrite G. discriminate.
Qed.

(** [cached_result], by its result.  With the gzip file present the
    generator over it is returned and nothing changes, whether or not a
    plain file exists.  Otherwise a plain file that is not empty is
    compressed into the gzip file and removed, every other file staying as
    it is, and its text returned; if it cannot be decoded, the error
    leaves the files untouched.  With no plain file, or an empty one, the
    result is None and nothing changes.  No process is started. *)
Theorem cached_result_effects (env : Environment) (output : string) (w w' : world)
    (r : outcome (option reader)) :
  cached_result env output w = (w', r) ->
  calls w' = calls w
  /\ match r with
     | Ok (Some (zip_result z)) =>
         z = zip_path output /\ w' = w /\ fs w z <> None
     | Ok (Some (constant content)) =>
         fs w (zip_path output) = None
         /\ (exists bytes, fs w output = Some bytes /\ bytes <> ""%string
                           /\ decode env bytes = Some content)
         /\ fs w' (zip_path output) = Some (gzip_compress env (encode_utf8 env content))
         /\ fs w' output = None
         /\ forall p, p <> output -> p <> zip_path output -> fs w' p = fs w p
     | Ok None =>
         w' = w /\ fs w (zip_path output) = None
         /\ (fs w output = None \/ fs w output = Some ""%string)
     | Raise e =>
         w' = w /\ e = UnicodeDecodeError /\ fs w (zip_path output) = None
     end.
Proof.
  intros E. pose proof (cached_result_cases env output w w' r E) as C.
  destruct r as [[[z|content]|]|e].
  - destruct C as (-> & -> & N). auto.
  - destruct C as (G & B & Cw & Gz & Go & F). auto 10.
  - destruct C as (-> & G & O). auto.
  - destruct C as (-> & -> & G). auto.
Qed.

Lemma cached_result_effects_witness :
  calls (fst (cached_result test_environment "cache/1abc.sto" legacy_world))
  = calls legacy_world
  /\ match snd (cached_result test_environment "cache/1abc.sto" legacy_world) with
     | Ok (Some (zip_result z)) =>
         z = zip_path "cache/1abc.sto"
         /\ fst (cached_result test_environment "cache/1abc.sto" legacy_world) = legacy_world
         /\ fs legacy_world z <> None
     | Ok (Some (constant content)) =>
         fs legacy_world (zip_path "cache/1abc.sto") = None
         /\ (exists bytes, fs legacy_world "cache/1abc.sto"%string = Some bytes
                           /\ bytes <> ""%string
                           /\ decode test_environment bytes = Some content)
         /\ fs (fst (cached_result test_environment "cache/1abc.sto" legacy_world))
              (zip_path "cache/1abc.sto")
            = Some (gzip_compress test_environment (encode_utf8 test_environment content))
         /\ fs (fst (cached_result test_environment "cache/1abc.sto" legacy_world))
              "cache/1abc.sto"%string = None
         /\ forall p, p <> "cache/1abc.sto"%string -> p <> zip_path "cache/1abc.sto" ->
              fs (fst (cached_result test_environment "cache/1abc.sto" legacy_world)) p
              = fs legacy_world p
     | Ok None =>
         fst (cached_result test_environment "cache/1abc.sto" legacy_world) = legacy_world
         /\ fs legacy_world (zip_path "cache/1abc.sto") = None
         /\ (fs legacy_world "cache/1abc.sto"%string = None
             \/ fs legacy_world "cache/1abc.sto"%string = Some ""%string)
     | Raise e =>
         fst (cached_result test_environment "cache/1abc.sto" legacy_world) = legacy_world
         /\ e = UnicodeDecodeError /\ fs legacy_world (zip_path "cache/1abc.sto") = None
     end.
Proof.
  exact (cached_result_effects test_environment "cache/1abc.sto" legacy_world
           (fst (cached_result test_environment "cache/1abc.sto" legacy_world))
           (snd (cached_result test_environment "cache/1abc.sto" legacy_world))
           eq_refl).
Defined.

(** Once [run] has returned a result for an id, every later [run] for that
    id is served from the gzip file: it returns the generator over it,
    starts no process and changes no file. *)
Theorem run_served_from_cache (env : Environment) (self : MSARunner)
    (fasta_input fasta_input' id : string) (w w' : world) (r : reader) :
  run env self fasta_input id w = (w', Ok (Some r)) ->
  run env self fasta_input' id w'
  = (w', Ok (Some (zip_result (zip_path (output_path env self id))))).
Proof.
  intros E. apply run_hit. revert E. unfold run, io_bind. cbv zeta.
  destruct (cached_result env (output_path env self id) w) as [w1 [[r1|]|e1]] eqn:E1.
  - unfold io_ret. intros E. injection E as <- <-.
    exact (cached_result_some env _ w w1 r1 E1).
  - destruct (try_subprocess_run env _ w1) as [w2 [[]|e2]]; [|discriminate].
    destruct (MSARunner_truncate_sto env self _ w2) as [w3 [[]|e3]]; [|discriminate].
    destruct (rename _ _ w3) as [w4 [[]|e4]]; [|discriminate].
    intros E. exact (cached_result_some env _ w4 w' r E).
  - discriminate.
Qed.

Lemma run_served_from_cache_witness :
  run test_environment test_runner "other.fasta" "1abc"
    (fst (run test_environment test_runner "query.fasta" "1abc" empty_world))
  = (fst (run test_environment test_runner "query.fasta" "1abc" empty_world),
     Ok (Some (zip_result (zip_path (output_path test_environment test_runner "1abc"))))).
Proof.
  exact (run_served_from_cache test_environment test_runner "query.fasta" "other.fasta" "1abc"
           empty_world
           (fst (run test_environment test_runner "query.fasta" "1abc" empty_world))
           (constant "# STOCKHOLM 1.0") eq_refl).
Defined.

Lemma truncate_sto_calls (env : Environment) (self : MSARunner) (output : string)
    (w w' : world) (r : outcome unit) :
  MSARunner_truncate_sto env self output w = (w', r) -> calls w' = calls w.
Proof.
  unfold MSARunner_truncate_sto.
  destruct (max_sequences self) as [n|]; [|intros E; injection E as <- _; reflexivity].
  destruct (fs w output) as [bytes|]; [|intros E; injection E as <- _; reflexivity].
  destruct (sto_truncate env bytes n); intros E; injection E as <- _; reflexivity.
Qed.

Lemma rename_calls (src dst : string) (w w' : world) (r : outcome unit) :
  rename src dst w = (w', r) -> calls w' = calls w.
Proof.
  unfold rename. destruct (fs w src); intros E; injection E as <- _; reflexivity.
Qed.

Lemma try_subprocess_run_cases (env : Environment) (cmd : list string) (w w' : world)
    (r : outcome unit) :
  try_subprocess_run env cmd w = (w', r) ->
  w' = mk_world (fst (process env cmd (fs w))) (calls w ++ [cmd])
  /\ match r with
     | Ok _ => snd (process env cmd (fs w)) = true
     | Raise e =>
         snd (process env cmd (fs w)) = false
         /\ e = match decode_utf8 env (process_stderr env cmd (fs w)) with
                | Some _ => CalledProcessError
                | None => UnicodeDecodeError
                end
     end.
Proof.
  unfold try_subprocess_run, subprocess_run.
  destruct (process env cmd (fs w)) as [f success]. cbn [fst snd].
  destruct success.
  - intros E. injection E as <- <-. auto.
  - destruct (decode_utf8 env _); intros E; injection E as <- <-; auto.
Qed.

Lemma cached_result_calls (env : Environment) (output : string) (w w' : world)
    (r : outcome (option reader)) :
  cached_result env output w = (w', r) -> calls w' = calls w.
Proof.
  intros E. pose proof (cached_result_cases env output w w' r E) as C.
  destruct r as [[[z|content]|]|e].
  - destruct C as (_ & -> & _). reflexivity.
  - destruct C as (_ & _ & Cw & _). exact Cw.
  - destruct C as (-> & _). reflexivity.
  - destruct C as (-> & _). reflexivity.
Qed.

(** Without a result in the cache, [run] starts jackhmmer, once. *)
Lemma run_miss_calls (env : Environment) (self : MSARunner) (fasta_input id : string)
    (w : world) :
  let output := output_path env self id in
  fs w (zip_path output) = None ->
  fs w output = None \/ fs w output = Some ""%string ->
  exists w' r,
    run env self fasta_input id w = (w', r)
    /\ calls w'
       = (calls w ++ [build_jackhmmer_cmd self fasta_input (tmp_output_path env self id)])%list.
Proof.
  intros output G O. unfold run, io_bind. cbv zeta. fold output.
  assert (E1 : cached_result env output w = (w, Ok None)).
  { unfold cached_result. cbv zeta. rewrite G.
    destruct O as [-> | ->]; reflexivity. }
  rewrite E1.
  set (cmd := build_jackhmmer_cmd self fasta_input (tmp_output_path env self id)).
  destruct (try_subprocess_run env cmd w) as [w2 r2] eqn:E2.
  assert (C2 : calls w2 = (calls w ++ [cmd])%list).
  { destruct (try_subprocess_run_cases env cmd w w2 r2 E2) as [-> _]. reflexivity. }
  destruct r2 as [[]|e2]; [|eexists; eexists; split; [reflexivity | exact C2]].
  destruct (MSARunner_truncate_sto env self _ w2) as [w3 r3] eqn:E3.
  pose proof (truncate_sto_calls _ _ _ _ _ _ E3) as C3.
  destruct r3 as [[]|e3]; [|eexists; eexists; split; [reflexivity | congruence]].
  destruct (rename _ _ w3) as [w4 r4] eqn:E4.
  pose proof (rename_calls _ _ _ _ _ E4) as C4.
  destruct r4 as [[]|e4]; [|eexists; eexists; split; [reflexivity | congruence]].
  destruct (cached_result env output w4) as [w5 r5] eqn:E5.
  pose proof (cached_result_calls _ _ _ _ _ E5) as C5.
  eexists. eexists. split; [reflexivity | congruence].
Qed.

(** [run] returns None only after jackhmmer has run and left an empty
    alignment: the empty file is then in the cache under the name of the
    result, no gzip file exists, and the next [run] starts jackhmmer
    again. *)
Theorem run_returns_none (env : Environment) (self : MSARunner) (fasta_input id : string)
    (w w' : world) :
  run env self fasta_input id w = (w', Ok None) ->
  let output := output_path env self id in
  let cmd := build_jackhmmer_cmd self fasta_input (tmp_output_path env self id) in
  calls w' = (calls w ++ [cmd])%list
  /\ fs w' output = Some ""%string
  /\ fs w' (zip_path output) = None
  /\ forall fasta_input',
       exists w'' r,
         run env self fasta_input' id w' = (w'', r)
         /\ calls w''
            = (calls w'
               ++ [build_jackhmmer_cmd self fasta_input' (tmp_output_path env self id)])%list.
Proof.
  intros E output cmd.
  assert (P : calls w' = (calls w ++ [cmd])%list /\ fs w' output = Some ""%string
              /\ fs w' (zip_path output) = None).
  { revert E. unfold run, io_bind. cbv zeta. fold output. fold cmd.
    destruct (cached_result env output w) as [w1 [[r1|]|e1]] eqn:E1;
      [unfold io_ret; discriminate | | discriminate].
    pose proof (cached_result_cases env output w w1 _ E1) as (-> & _).
    destruct (try_subprocess_run env cmd w) as [w2 r2] eqn:E2.
    assert (C2 : calls w2 = (calls w ++ [cmd])%list).
    { destruct (try_subprocess_run_cases env cmd w w2 r2 E2) as [-> _]. reflexivity. }
    destruct r2 as [[]|e2]; [|discriminate].
    destruct (MSARunner_truncate_sto env self _ w2) as [w3 [[]|e3]] eqn:E3; [|discriminate].
    pose proof (truncate_sto_calls _ _ _ _ _ _ E3) as C3.
    destruct (rename _ _ w3) as [w4 [[]|e4]] eqn:E4; [|discriminate].
    pose proof (rename_calls _ _ _ _ _ E4) as C4.
    intros E5. pose proof (cached_result_cases env output w4 w' _ E5) as (-> & G & O).
    split; [congruence|]. split; [|exact G].
    revert E4. unfold rename.
    destruct (fs w3 (tmp_output_path env self id)) as [bytes|]; [|discriminate].
    intros E. injection E as <-. cbn [fs] in *. rewrite write_file_same in *.
    destruct O as [O|O]; [discriminate | exact O]. }
  destruct P as (C & O & G). repeat (split; [assumption|]).
  intros fasta_input'. apply (run_miss_calls env self fasta_input' id w' G). right. exact O.
Qed.

Lemma run_returns_none_witness :
  let w' := fst (run silent_environment test_runner "query.fasta" "1abc" empty_world) in
  let output := output_path silent_environment test_runner "1abc" in
  let cmd := build_jackhmmer_cmd test_runner "query.fasta"
               (tmp_output_path silent_environment test_runner "1abc") in
  calls w' = (calls empty_world ++ [cmd])%list
  /\ fs w' output = Some ""%string
  /\ fs w' (zip_path output) = None
  /\ forall fasta_input',
       exists w'' r,
         run silent_environment test_runner fasta_input' "1abc" w' = (w'', r)
         /\ calls w''
            = (calls w'
               ++ [build_jackhmmer_cmd test_runner fasta_input'
                     (tmp_output_path silent_environment test_runner "1abc")])%list.
Proof.
  exact (run_returns_none silent_environment test_runner "query.fasta" "1abc" empty_world
           (fst (run silent_environment test_runner "query.fasta" "1abc" empty_world))
           eq_refl).
Defined.

(** [run] without a cached result, when jackhmmer exits with status 0 and
    leaves an alignment that (truncated) is not empty: jackhmmer is started
    once, writing to the temporary file; afterwards the gzip file holds
    the compressed text, the temporary file and the plain result are gone,
    every other file is as jackhmmer left it, and the text is returned. *)
Theorem run_fresh (env : Environment) (self : MSARunner) (fasta_input id : string)
    (w : world) (f1 : files) (raw bytes content : string) :
  let output := output_path env self id in
  let tmp_output := tmp_output_path env self id in
  let cmd := build_jackhmmer_cmd self fasta_input tmp_output in
  tmp_output <> output -> tmp_output <> zip_path output ->
  fs w (zip_path output) = None ->
  fs w output = None \/ fs w output = Some ""%string ->
  process env cmd (fs w) = (f1, true) ->
  f1 (zip_path output) = None ->
  f1 tmp_output = Some raw ->
  match max_sequences self with
  | Some n => exists contents, sto_truncate env raw n = Ok contents
                               /\ bytes = encode env contents
  | None => bytes = raw
  end ->
  bytes <> ""%string ->
  decode env bytes = Some content ->
  exists w',
    run env self fasta_input id w = (w', Ok (Some (constant content)))
    /\ calls w' = (calls w ++ [cmd])%list
    /\ fs w' (zip_path output) = Some (gzip_compress env (encode_utf8 env content))
    /\ fs w' output = None
    /\ fs w' tmp_output = None
    /\ forall p, p <> output -> p <> tmp_output -> p <> zip_path output -> fs w' p = f1 p.
Proof.
  intros output tmp_output cmd N1 N2 G O Ep G1 Et Hb Hne Hd.
  unfold run, io_bind. cbv zeta. fold output. fold tmp_output. fold cmd.
  assert (E1 : cached_result env output w = (w, Ok None)).
  { unfold cached_result. cbv zeta. rewrite G. destruct O as [-> | ->]; reflexivity. }
  rewrite E1. unfold try_subprocess_run, subprocess_run. rewrite Ep.
  set (w2 := {| fs := f1; calls := (calls w ++ [cmd])%list |}).
  assert (E3 : MSARunner_truncate_sto env self tmp_output w2
               = ({| fs := write_file tmp_output bytes f1; calls := (calls w ++ [cmd])%list |},
                  Ok tt)
               \/ (MSARunner_truncate_sto env self tmp_output w2 = (w2, Ok tt)
                   /\ bytes = raw)).
  { unfold MSARunner_truncate_sto. destruct (max_sequences self) as [n|].
    - left. destruct Hb as (contents & Ec & ->). cbn [fs calls w2]. rewrite Et, Ec.
      reflexivity.
    - right. split; [reflexivity | exact Hb]. }
  assert (L : (0 <? String.length bytes) = true).
  { apply Nat.ltb_lt. destruct bytes; [contradiction | cbn; lia]. }
  destruct E3 as [E3 | [E3 ->]]; rewrite E3; unfold rename; cbn [fs calls w2].
  - rewrite write_file_same. unfold cached_result. cbv zeta. cbn [fs calls].
    rewrite write_file_other by apply zip_path_neq.
    rewrite remove_file_other by (intros E; apply N2; symmetry; exact E).
    rewrite write_file_other by (intros E; apply N2; symmetry; exact E).
    rewrite G1, write_file_same, L, Hd.
    eexists. split; [reflexivity|]. cbn [fs calls].
    split; [reflexivity|]. split.
    { rewrite remove_file_other by apply zip_path_neq. apply write_file_same. }
    split; [apply remove_file_same|]. split.
    { rewrite remove_file_other by exact N1.
      rewrite write_file_other by exact N2.
      rewrite write_file_other by exact N1. apply remove_file_same. }
    intros p P1 P2 P3.
    rewrite remove_file_other, write_file_other, write_file_other, remove_file_other,
      write_file_other by assumption.
    reflexivity.
  - rewrite Et. unfold cached_result. cbv zeta. cbn [fs calls].
    rewrite write_file_other by apply zip_path_neq.
    rewrite remove_file_other by (intros E; apply N2; symmetry; exact E).
    rewrite G1, write_file_same, L, Hd.
    eexists. split; [reflexivity|]. cbn [fs calls].
    split; [reflexivity|]. split.
    { rewrite remove_file_other by apply zip_path_neq. apply write_file_same. }
    split; [apply remove_file_same|]. split.
    { rewrite remove_file_other by exact N1.
      rewrite write_file_other by exact N2.
      rewrite write_file_other by exact N1. apply remove_file_same. }
    intros p P1 P2 P3.
    rewrite remove_file_other, write_file_other, write_file_other, remove_file_other
      by assumption.
    reflexivity.
Qed.

Lemma run_fresh_witness :
  let env := test_environment in
  let output := output_path env test_runner "1abc" in
  let tmp_output := tmp_output_path env test_runner "1abc" in
  let cmd := build_jackhmmer_cmd test_runner "query.fasta" tmp_output in
  let f1 := write_file tmp_output "# STOCKHOLM 1.0" (fs empty_world) in
  exists w',
    run env test_runner "query.fasta" "1abc" empty_world
    = (w', Ok (Some (constant "# STOCKHOLM 1.0")))
    /\ calls w' = (calls empty_world ++ [cmd])%list
    /\ fs w' (zip_path output)
       = Some (gzip_compress env (encode_utf8 env "# STOCKHOLM 1.0"))
    /\ fs w' output = None
    /\ fs w' tmp_output = None
    /\ forall p, p <> output -> p <> tmp_output -> p <> zip_path output -> fs w' p = f1 p.
Proof.
  exact (run_fresh test_environment test_runner "query.fasta" "1abc" empty_world
           (write_file (tmp_output_path test_environment test_runner "1abc")
              "# STOCKHOLM 1.0" (fs empty_world))
           "# STOCKHOLM 1.0" "# STOCKHOLM 1.0" "# STOCKHOLM 1.0"
           (proj1 (String.eqb_neq "cache/1abc.sto.tmp" "cache/1abc.sto") eq_refl)
           (proj1 (String.eqb_neq "cache/1abc.sto.tmp" "cache/1abc.sto.gz") eq_refl)
           eq_refl (or_introl eq_refl) eq_refl eq_refl eq_refl
           (ex_intro _ "# STOCKHOLM 1.0"%string (conj eq_refl eq_refl))
           (proj1 (String.eqb_neq "# STOCKHOLM 1.0" "") eq_refl) eq_refl).
Defined.

(** When nothing is cached and jackhmmer exits with a status other than
    0, [run] raises after that one process call: CalledProcessError when
    the stderr of the process is valid UTF-8, UnicodeDecodeError (from the
    decoding for logging.error) when it is not.  The files are as jackhmmer
    left them: nothing is truncated, renamed or compressed. *)
Theorem run_process_failure (env : Environment) (self : MSARunner) (fasta_input id : string)
    (w : world) (f1 : files) :
  let output := output_path env self id in
  let cmd := build_jackhmmer_cmd self fasta_input (tmp_output_path env self id) in
  fs w (zip_path output) = None ->
  fs w output = None \/ fs w output = Some ""%string ->
  process env cmd (fs w) = (f1, false) ->
  run env self fasta_input id w
  = ({| fs := f1; calls := (calls w ++ [cmd])%list |},
     Raise (match decode_utf8 env (process_stderr env cmd (fs w)) with
            | Some _ => CalledProcessError
            | None => UnicodeDecodeError
            end)).
Proof.
  intros output cmd G O Ep. unfold run, io_bind. cbv zeta. fold output. fold cmd.
  assert (E1 : cached_result env output w = (w, Ok None)).
  { unfold cached_result. cbv zeta. rewrite G. destruct O as [-> | ->]; reflexivity. }
  rewrite E1. unfold try_subprocess_run, subprocess_run. rewrite Ep.
  destruct (decode_utf8 env _); reflexivity.
Qed.

Lemma run_process_failure_witness :
  run (failing_environment (String (ascii_of_nat 255) "")) test_runner "query.fasta" "1abc"
    empty_world
  = ({| fs := fs empty_world;
        calls := (calls empty_world
                  ++ [build_jackhmmer_cmd test_runner "query.fasta"
                        (tmp_output_path (failing_environment (String (ascii_of_nat 255) ""))
                           test_runner "1abc")])%list |},
     Raise (match decode_utf8 (failing_environment (String (ascii_of_nat 255) ""))
                    (process_stderr (failing_environment (String (ascii_of_nat 255) ""))
                       (build_jackhmmer_cmd test_runner "query.fasta"
                          (tmp_output_path (failing_environment (String (ascii_of_nat 255) ""))
                             test_runner "1abc"))
                       (fs empty_world)) with
            | Some _ => CalledProcessError
            | None => UnicodeDecodeError
            end)).
Proof.
  exact (run_process_failure (failing_environment (String (ascii_of_nat 255) "")) test_runner
           "query.fasta" "1abc" empty_world (fs empty_world)
           eq_refl (or_introl eq_refl) eq_refl).
Defined.

(** * Reading chains from mmCIF models *)

Lemma lstrip_list_spaces (l : list ascii) :
  forallb is_space (lstrip_list l) = forallb is_space l.
Proof.
  induction l as [|c l IH]; [reflexivity|]. cbn [lstrip_list].
  destruct (is_space c) eqn:E; [cbn [forallb]; rewrite E; exact IH | reflexivity].
Qed.

Lemma lstrip_list_empty (l : list ascii) :
  lstrip_list l = [] <-> forallb is_space l = true.
Proof.
  induction l as [|c l IH]; [split; reflexivity|]. cbn [lstrip_list forallb].
  destruct (is_space c); [exact IH | split; discriminate].
Qed.

Lemma forallb_rev {A : Type} (f : A -> bool) (l : list A) :
  forallb f (rev l) = forallb f l.
Proof.
  induction l as [|a l IH]; [reflexivity|]. cbn [rev forallb].
  rewrite forallb_app, IH. cbn [forallb]. rewrite andb_true_r. apply andb_comm.
Qed.

Lemma string_of_list_ascii_empty (l : list ascii) :
  string_of_list_ascii l = ""%string <-> l = [].
Proof. destruct l; split; (reflexivity || discriminate). Qed.

Lemma rev_empty {A : Type} (l : list A) : rev l = [] <-> l = [].
Proof.
  split; [|intros ->; reflexivity]. intros E. apply (f_equal (@rev A)) in E.
  rewrite rev_involutive in E. exact E.
Qed.

(** The strip of a text is empty exactly when the text holds white space
    only. *)
Lemma strip_empty (s : string) :
  strip s = ""%string <-> forallb is_space (list_ascii_of_string s) = true.
Proof.
  unfold strip. rewrite string_of_list_ascii_empty, rev_empty, lstrip_list_empty.
  rewrite forallb_rev, lstrip_list_spaces. reflexivity.
Qed.

Lemma existsb_eqb_In (x : string) (l : list string) :
  existsb (String.eqb x) l = true <-> In x l.
Proof.
  rewrite existsb_exists. split.
  - intros (y & Hy & E). apply String.eqb_eq in E. subst y. exact Hy.
  - intros H. exists x. split; [exact H | apply String.eqb_refl].
Qed.

Lemma is_space_code (c : ascii) :
  is_space c = true
  <-> (9 <= nat_of_ascii c <= 13 \/ 28 <= nat_of_ascii c <= 32
       \/ nat_of_ascii c = 133 \/ nat_of_ascii c = 160).
Proof.
  unfold is_space. cbv zeta.
  rewrite !orb_true_iff, !andb_true_iff, !Nat.leb_le, !Nat.eqb_eq. tauto.
Qed.

(** [should_filter_residue] lets a residue pass exactly when its hetero
    flag is blank, that is, every character of it is white space to
    str.strip() (among the code points 0 to 255: 9 to 13, 28 to 32, 133 and
    160), and its name is the name of a residue of RESIDUE_LIST. *)
Theorem should_filter_residue_passes (m : ResidueModule) (residue : Residue) :
  should_filter_residue m residue = false
  <-> (forall c, In c (list_ascii_of_string (fst (fst (get_id residue)))) ->
         9 <= nat_of_ascii c <= 13 \/ 28 <= nat_of_ascii c <= 32
         \/ nat_of_ascii c = 133 \/ nat_of_ascii c = 160)
      /\ In (get_resname residue) (map snd (RESIDUE_LIST m)).
Proof.
  unfold should_filter_residue. destruct (get_id residue) as [[hetatom seq] icode].
  cbn [fst]. rewrite orb_false_iff, !negb_false_iff, String.eqb_eq, strip_empty.
  rewrite forallb_forall, existsb_eqb_In.
  split; intros [H I]; (split; [|exact I]); intros c Hc; apply is_space_code, H, Hc.
Qed.

Lemma get_residues_loop_ok (m : ResidueModule) (residues : list Residue)
    (result result' : list residue_record) :
  get_residues_loop m residues result = Ok result' ->
  exists added,
    result' = (result ++ added)%list
    /\ Forall2 (fun residue r =>
         rec_resname r = get_resname residue
         /\ rec_id r = tl (get_full_id residue)
         /\ exists ca,
              lookup "CA" (child_dict residue) = Some ca
              /\ rec_serial_number r = get_serial_number ca
              /\ rec_translation r = get_coord ca
              /\ compute_residue_rotation m
                   (option_map get_coord (lookup "N" (child_dict residue)))
                   (get_coord ca)
                   (option_map get_coord (lookup "C" (child_dict residue)))
                 = Ok (rec_rotation r))
         (filter (kept m) residues) added.
Proof.
  revert result. induction residues as [|residue rest IH]; intros result E.
  - cbn in E. injection E as <-. exists []. rewrite app_nil_r. split; [reflexivity|].
    constructor.
  - cbn [get_residues_loop] in E. cbn [filter]. unfold kept at 1, contains.
    destruct (should_filter_residue m residue); cbn [negb andb]; [exact (IH _ E)|].
    destruct (lookup "CA" (child_dict residue)) as [ca|] eqn:Eca; [|exact (IH _ E)].
    cbv zeta in E.
    destruct (compute_residue_rotation m _ _ _) as [rotation|e] eqn:Er; [|discriminate].
    destruct (IH _ E) as (added & -> & F).
    eexists (_ :: added). rewrite <- app_assoc. split; [reflexivity|].
    constructor; [|exact F]. cbn.
    split; [reflexivity|]. split; [reflexivity|].
    exists ca. auto.
Qed.

Lemma get_residues_loop_total (m : ResidueModule) (residues : list Residue)
    (result : list residue_record) :
  (forall n ca c, exists rotation, compute_residue_rotation m n ca c = Ok rotation) ->
  exists result', get_residues_loop m residues result = Ok result'.
Proof.
  intros T. revert result. induction residues as [|residue rest IH]; intros result.
  - eexists. reflexivity.
  - cbn [get_residues_loop]. destruct (should_filter_residue m residue); [apply IH|].
    destruct (lookup "CA" (child_dict residue)) as [ca|]; [|apply IH]. cbv zeta.
    destruct (T (option_map get_coord (lookup "N" (child_dict residue))) (get_coord ca)
                (option_map get_coord (lookup "C" (child_dict residue)))) as (rot & ->).
    apply IH.
Qed.

(** [get_residues] returns one record for every residue of the chain that
    passes the filter and has a CA atom, in the order of the chain: the
    record holds the name and the id of the residue, the serial number and
    the coordinates of its CA atom, and the rotation computed from its N,
    CA and C atoms, None standing for a missing N or C.  A missing atom
    never makes it raise: it raises only when compute_residue_rotation
    does. *)
Theorem get_residues_records (m : ResidueModule) (chain : PdbChain) :
  (forall result,
     get_residues m chain = Ok result ->
     Forall2 (fun residue r =>
         rec_resname r = get_resname residue
         /\ rec_id r = tl (get_full_id residue)
         /\ exists ca,
              lookup "CA" (child_dict residue) = Some ca
              /\ rec_serial_number r = get_serial_number ca
              /\ rec_translation r = get_coord ca
              /\ compute_residue_rotation m
                   (option_map get_coord (lookup "N" (child_dict residue)))
                   (get_coord ca)
                   (option_map get_coord (lookup "C" (child_dict residue)))
                 = Ok (rec_rotation r))
       (filter (kept m) (chain_residues chain)) result)
  /\ ((forall n ca c, exists rotation, compute_residue_rotation m n ca c = Ok rotation) ->
      exists result, get_residues m chain = Ok result).
Proof.
  split.
  - intros result E. destruct (get_residues_loop_ok m _ [] result E) as (added & -> & F).
    exact F.
  - intros T. apply get_residues_loop_total. exact T.
Qed.

Lemma get_residues_records_witness :
  Forall2 (fun residue r =>
      rec_resname r = get_resname residue
      /\ rec_id r = tl (get_full_id residue)
      /\ exists ca,
           lookup "CA" (child_dict residue) = Some ca
           /\ rec_serial_number r = get_serial_number ca
           /\ rec_translation r = get_coord ca
           /\ compute_residue_rotation test_residue_module
                (option_map get_coord (lookup "N" (child_dict residue)))
                (get_coord ca)
                (option_map get_coord (lookup "C" (child_dict residue)))
              = Ok (rec_rotation r))
    (filter (kept test_residue_module) (chain_residues test_chain))
    (match get_residues test_residue_module test_chain with
     | Ok result => result
     | Raise _ => []
     end).
Proof.
  exact (proj1 (get_residues_records test_residue_module test_chain) _ eq_refl).
Defined.

Lemma parse_chains_loop_ok (m : ResidueModule) (cm : ChainModule) (model : Model)
    (entities : list (string * string)) (result result' : list (Chain cm)) :
  parse_chains_loop m cm model entities result = Ok result' ->
  exists added,
    result' = (result ++ added)%list
    /\ Forall (fun c => chain_len cm c <> 0) added
    /\ length added <= length entities.
Proof.
  revert result. induction entities as [|[strand_id sequence] rest IH]; intros result E.
  - cbn in E. injection E as <-. exists []. rewrite app_nil_r. auto.
  - cbn [parse_chains_loop] in E. cbv zeta in E.
    destruct (lookup _ (model_chains model)) as [mmcif_chain|]; [|discriminate].
    unfold outcome_bind in E.
    destruct (get_residues m mmcif_chain) as [residue_list|]; [|discriminate].
    destruct (from_residue_list cm _ residue_list) as [chain0|]; [|discriminate].
    destruct (get_longest_match cm chain0 _) as [chain|]; [|discriminate].
    destruct (Nat.eqb_spec (chain_len cm chain) 0) as [Z|NZ].
    + destruct (IH _ E) as (added & -> & F & L). exists added. cbn [length].
      split; [reflexivity|]. split; [exact F | lia].
    + destruct (IH _ E) as (added & -> & F & L). exists (chain :: added).
      rewrite <- app_assoc. cbn [length]. split; [reflexivity|].
      split; [constructor; assumption | lia].
Qed.

(** [parse_chains] never returns an empty list and never returns an empty
    chain: when it returns, there is at least one chain, every chain has
    a length other than 0, and there are at most as many chains as pairs
    of a strand id and a sequence in the mmCIF dict. *)
Theorem parse_chains_nonempty (m : ResidueModule) (cm : ChainModule) (model : Model)
    (result : list (Chain cm)) :
  parse_chains m cm model = Ok result ->
  result <> []
  /\ Forall (fun c => chain_len cm c <> 0) result
  /\ exists strand_ids sequences,
       lookup "_entity_poly.pdbx_strand_id" (mmcif_dict model) = Some strand_ids
       /\ lookup "_entity_poly.pdbx_seq_one_letter_code" (mmcif_dict model) = Some sequences
       /\ length result <= Nat.min (length strand_ids) (length sequences).
Proof.
  unfold parse_chains.
  destruct (lookup "_entity_poly.pdbx_strand_id" (mmcif_dict model)) as [strand_ids|];
    [|discriminate].
  destruct (lookup "_entity_poly.pdbx_seq_one_letter_code" (mmcif_dict model))
    as [sequences|]; [|discriminate].
  unfold outcome_bind.
  destruct (parse_chains_loop m cm model _ []) as [result0|] eqn:E; [|discriminate].
  destruct (Nat.eqb_spec (length result0) 0) as [Z|NZ]; [discriminate|].
  intros E'. injection E' as <-.
  destruct (parse_chains_loop_ok m cm model _ [] result0 E) as (added & -> & F & L).
  cbn [app] in *. rewrite length_combine in L.
  split; [intros ->; apply NZ; reflexivity|]. split; [exact F|].
  exists strand_ids, sequences. auto.
Qed.

Lemma parse_chains_nonempty_witness :
  match parse_chains test_residue_module test_chain_module test_model with
  | Ok result =>
      result <> []
      /\ Forall (fun c => chain_len test_chain_module c <> 0) result
      /\ exists strand_ids sequences,
           lookup "_entity_poly.pdbx_strand_id" (mmcif_dict test_model) = Some strand_ids
           /\ lookup "_entity_poly.pdbx_seq_one_letter_code" (mmcif_dict test_model)
              = Some sequences
           /\ length result <= Nat.min (length strand_ids) (length sequences)
  | Raise _ => False
  end.
Proof.
  exact (parse_chains_nonempty test_residue_module test_chain_module test_model
           (match parse_chains test_residue_module test_chain_module test_model with
            | Ok result => result
            | Raise _ => []
            end)
           eq_refl).
Defined.

(** * Nanofold.forward: the recycling loop *)

(** Without a recycling iteration forward raises: with num_recycle at
    most 0, torch.randint has an empty range in training mode, and in
    evaluation mode the loop assigns none of the variables that are
    returned. *)
Theorem Nanofold_forward_needs_recycling (self : Nanofold) (batch : list (string * tensor))
    (draws : Draws) :
  (num_recycle self <= 0)%Z ->
  exists e, Nanofold_forward self batch draws = Raise e.
Proof.
  intros H. unfold Nanofold_forward.
  destruct (training self).
  - destruct (Z.ltb_spec 0 (num_recycle self)) as [L|_]; [lia|]. eexists. reflexivity.
  - cbn [outcome_bind].
    replace (Z.to_nat (num_recycle self)) with 0 by lia.
    destruct (getitem batch "positions") as [positions|e]; [|eexists; reflexivity].
    cbn [outcome_bind]. cbv zeta.
    destruct (rev (shape positions)) as [|last rest]; [eexists; reflexivity|].
    cbn [outcome_bind recycle assigned].
    destruct (contains "translations" batch); eexists; reflexivity.
Qed.

Lemma Nanofold_forward_needs_recycling_witness :
  exists e, Nanofold_forward (test_nanofold 0 false) test_batch (mk_Draws 0 0) = Raise e.
Proof.
  exact (Nanofold_forward_needs_recycling (test_nanofold 0 false) test_batch (mk_Draws 0 0)
           ltac:(cbn; lia)).
Defined.

Lemma recycle_split (self : Nanofold) (batch : list (string * tensor))
    (fape_clamp : option R) (n : Z) (k : nat) (i : Z) (vars : locals self) :
  (i + Z.of_nat k = n - 1)%Z ->
  recycle self batch fape_clamp n (S k) i vars
  = (vars' <~~ iterations self batch fape_clamp k vars;;
     iteration self batch fape_clamp true vars').
Proof.
  revert i vars. induction k as [|k IH]; intros i vars E.
  - cbn [recycle iterations outcome_bind].
    replace (i =? n - 1)%Z with true by (symmetry; apply Z.eqb_eq; lia).
    destruct (iteration self batch fape_clamp true vars); reflexivity.
  - change (recycle self batch fape_clamp n (S (S k)) i vars)
      with (vars' <~~ iteration self batch fape_clamp (i =? n - 1)%Z vars;;
            recycle self batch fape_clamp n (S k) (i + 1)%Z vars').
    replace (i =? n - 1)%Z with false by (symmetry; apply Z.eqb_neq; lia).
    cbn [iterations]. unfold outcome_bind at 1 3.
    destruct (iteration self batch fape_clamp false vars) as [vars'|e]; [|reflexivity].
    apply IH. lia.
Qed.

(** The loop of forward hands the Frames of the batch to the structure
    module in its last iteration only: [num_recycle] iterations are
    [num_recycle - 1] iterations without the Frames followed by one that
    builds them (when the batch holds translations). *)
Theorem recycle_frames_in_last_iteration (self : Nanofold) (batch : list (string * tensor))
    (fape_clamp : option R) (n : Z) (vars : locals self) :
  (0 < n)%Z ->
  recycle self batch fape_clamp n (Z.to_nat n) 0%Z vars
  = (vars' <~~ iterations self batch fape_clamp (Z.to_nat n - 1) vars;;
     iteration self batch fape_clamp true vars').
Proof.
  intros H. replace (Z.to_nat n) with (S (Z.to_nat n - 1)) at 1 by lia.
  apply recycle_split. lia.
Qed.

Lemma recycle_frames_in_last_iteration_witness :
  recycle (test_nanofold 3 false) test_batch_with_truth None 3 (Z.to_nat 3) 0%Z
    (test_locals (test_nanofold 3 false))
  = (vars' <~~ iterations (test_nanofold 3 false) test_batch_with_truth None (Z.to_nat 3 - 1)
                 (test_locals (test_nanofold 3 false));;
     iteration (test_nanofold 3 false) test_batch_with_truth None true vars').
Proof.
  exact (recycle_frames_in_last_iteration (test_nanofold 3 false) test_batch_with_truth None 3
           (test_locals (test_nanofold 3 false)) ltac:(lia)).
Defined.

Lemma iteration_without_translations (self : Nanofold) (batch : list (string * tensor))
    (fape_clamp : option R) (last : bool) (vars : locals self) :
  contains "translations" batch = false ->
  iteration self batch fape_clamp last vars = iteration self batch fape_clamp false vars.
Proof.
  intros H. unfold iteration. rewrite H, andb_false_r. reflexivity.
Qed.

Lemma recycle_without_translations (self : Nanofold) (batch : list (string * tensor))
    (fape_clamp : option R) (n : Z) (k : nat) (i : Z) (vars : locals self) :
  contains "translations" batch = false ->
  recycle self batch fape_clamp n k i vars = iterations self batch fape_clamp k vars.
Proof.
  intros H. revert i vars. induction k as [|k IH]; intros i vars; [reflexivity|].
  cbn [recycle iterations]. rewrite (iteration_without_translations _ _ _ _ _ H).
  unfold outcome_bind. destruct (iteration self batch fape_clamp false vars); [|reflexivity].
  apply IH.
Qed.

(** For a batch without translations, the structure module is never given
    Frames (the key rotations is not read), and the distogram loss that
    forward returns is None. *)
Theorem Nanofold_forward_without_translations (self : Nanofold)
    (batch : list (string * tensor)) (fape_clamp : option R) :
  contains "translations" batch = false ->
  (forall n k i vars,
     recycle self batch fape_clamp n k i vars = iterations self batch fape_clamp k vars)
  /\ forall draws coords results dist_loss,
       Nanofold_forward self batch draws = Ok (coords, results, dist_loss) ->
       dist_loss = None.
Proof.
  intros H. split.
  - intros n k i vars. apply recycle_without_translations. exact H.
  - intros draws coords results dist_loss. unfold Nanofold_forward. rewrite H.
    unfold outcome_bind.
    destruct (if training self then _ else _) as [n|]; [|discriminate].
    destruct (getitem batch "positions") as [positions|]; [|discriminate]. cbv zeta.
    destruct (match rev (shape positions) with [] => _ | _ => _ end) as [p|]; [|discriminate].
    destruct (recycle self batch _ n (Z.to_nat n) 0 _) as [vars|]; [|discriminate].
    destruct (assigned vars) as [[[pair_rep coords'] results']|]; [|discriminate].
    intros E. injection E as _ _ <-. reflexivity.
Qed.

Lemma Nanofold_forward_without_translations_witness :
  (forall n k i vars,
     recycle (test_nanofold 3 false) test_batch None n k i vars
     = iterations (test_nanofold 3 false) test_batch None k vars)
  /\ forall draws coords results dist_loss,
       Nanofold_forward (test_nanofold 3 false) test_batch draws
       = Ok (coords, results, dist_loss) ->
       dist_loss = None.
Proof.
  exact (Nanofold_forward_without_translations (test_nanofold 3 false) test_batch None eq_refl).
Defined.

(** In evaluation mode forward does not depend on the random draws: the
    number of iterations is num_recycle and the clamp is None. *)
Theorem Nanofold_forward_eval_deterministic (self : Nanofold) (batch : list (string * tensor))
    (draws draws' : Draws) :
  training self = false ->
  Nanofold_forward self batch draws = Nanofold_forward self batch draws'.
Proof.
  intros H. unfold Nanofold_forward. rewrite H.
  destruct (Rlt_dec (rand draws) (9 / 10)), (Rlt_dec (rand draws') (9 / 10)); reflexivity.
Qed.

Lemma Nanofold_forward_eval_deterministic_witness :
  Nanofold_forward (test_nanofold 3 false) test_batch_with_truth (mk_Draws 0 0)
  = Nanofold_forward (test_nanofold 3 false) test_batch_with_truth (mk_Draws 2 1).
Proof.
  exact (Nanofold_forward_eval_deterministic (test_nanofold 3 false) test_batch_with_truth
           (mk_Draws 0 0) (mk_Draws 2 1) eq_refl).
Defined.

(** * Relabelling the residues *)

Lemma fold_right_Rplus_permutation (l l' : list R) :
  Permutation l l' -> fold_right Rplus 0%R l = fold_right Rplus 0%R l'.
Proof.
  induction 1 as [|x l l' _ IH|x y l|l l' l'' _ IH1 _ IH2]; cbn [fold_right].
  - reflexivity.
  - rewrite IH. reflexivity.
  - lra.
  - congruence.
Qed.

Lemma sum_n_fold (n : nat) (f : nat -> R) :
  sum_n n f = fold_right Rplus 0%R (map f (seq 0 n)).
Proof.
  induction n as [|n IH]; [reflexivity|].
  rewrite seq_S, map_app. cbn [sum_n map].
  rewrite IH. generalize (map f (seq 0 n)) as l. intros l.
  induction l as [|x l IHl]; cbn [fold_right app]; [cbn; lra | rewrite <- IHl; lra].
Qed.

(** A sum over the residues does not depend on their order. *)
Lemma sum_n_permutation (n : nat) (sigma tau : nat -> nat) (f : nat -> R) :
  permutation_of n sigma tau ->
  sum_n n (fun y => f (sigma y)) = sum_n n f.
Proof.
  intros P. rewrite !sum_n_fold.
  rewrite <- (map_map sigma f). apply fold_right_Rplus_permutation.
  apply Permutation_map. apply NoDup_Permutation.
  - apply NoDup_map_NoDup_ForallPairs; [|apply seq_NoDup].
    intros x y Hx Hy E. apply in_seq in Hx, Hy.
    destruct (P x ltac:(lia)) as (_ & _ & Tx & _).
    destruct (P y ltac:(lia)) as (_ & _ & Ty & _). congruence.
  - apply seq_NoDup.
  - intros x. rewrite in_map_iff. split.
    + intros (y & <- & Hy). apply in_seq in Hy. apply in_seq.
      destruct (P y ltac:(lia)) as (L & _). lia.
    + intros Hx. apply in_seq in Hx. destruct (P x ltac:(lia)) as (_ & L & _ & E).
      exists (tau x). split; [exact E | apply in_seq; lia].
Qed.

Lemma shift_residues_permutation (n : nat) :
  permutation_of n (shift_residues n) (unshift_residues n).
Proof.
  intros i Hi. unfold shift_residues, unshift_residues.
  assert (Hn : n <> 0) by lia.
  repeat split; try (apply Nat.mod_upper_bound; exact Hn).
  - rewrite Nat.Div0.add_mod_idemp_l.
    replace (i + 1 + (n - 1)) with (i + 1 * n) by lia.
    rewrite Nat.Div0.mod_add. apply Nat.mod_small. exact Hi.
  - rewrite Nat.Div0.add_mod_idemp_l.
    replace (i + (n - 1) + 1) with (i + 1 * n) by lia.
    rewrite Nat.Div0.mod_add. apply Nat.mod_small. exact Hi.
Qed.

(** The projection with a view works residue by residue. *)
Lemma LinearWithView_forward_rows (l : LinearWithView) (n_in : nat) (outf : list nat)
    (a : nat) (x : tensor) :
  linear_with_view_shaped l n_in outf -> shape x = [a; n_in] ->
  exists y, LinearWithView_forward l x = Some y /\ shape y = a :: outf /\
    forall i rest, i < a -> valid outf rest ->
      get y (i :: rest)
      = sum_n n_in (fun c => (get x [i; c]
                              * get (lin_weight (lwv_linear l)) [ravel outf rest; c])%R).
Proof.
  intros [So Sl] Sx. unfold LinearWithView_forward.
  destruct (Linear_forward_spec2 _ _ _ a _ Sl Sx) as (y & Ey & Sy & Gy).
  rewrite Ey, Sx, So. cbn [bind removelast app]. unfold view. rewrite Sy.
  rewrite infer_shape_known by (unfold numel; cbn [fold_right]; ring).
  cbn [bind]. eexists. split; [reflexivity|]. split; [reflexivity|].
  intros i rest Hi V. cbn [get]. pose proof (ravel_lt outf rest V) as L.
  assert (U : unravel [a; numel outf] (ravel (a :: outf) (i :: rest)) = [i; ravel outf rest]).
  { cbn [ravel unravel]. change (numel [numel outf]) with (numel outf * 1).
    change (numel []) with 1. rewrite !Nat.mul_1_r, Nat.div_1_r.
    destruct (div_mod_block i (numel outf) (ravel outf rest) L) as [-> ->]. reflexivity. }
  rewrite U. apply Gy; assumption.
Qed.

Lemma LinearWithView_forward_permuted (l : LinearWithView) (n_in : nat) (outf : list nat)
    (a : nat) (x y y' : tensor) (sigma tau : nat -> nat) :
  linear_with_view_shaped l n_in outf -> shape x = [a; n_in] ->
  permutation_of a sigma tau ->
  LinearWithView_forward l x = Some y ->
  LinearWithView_forward l (permute_residues sigma x) = Some y' ->
  forall i rest, i < a -> valid outf rest -> get y' (i :: rest) = get y (sigma i :: rest).
Proof.
  intros Hl Sx P Ey Ey' i rest Hi V.
  destruct (LinearWithView_forward_rows l n_in outf a x Hl Sx) as (y0 & E0 & _ & G0).
  destruct (LinearWithView_forward_rows l n_in outf a (permute_residues sigma x) Hl Sx)
    as (y1 & E1 & _ & G1).
  rewrite Ey in E0. injection E0 as <-. rewrite Ey' in E1. injection E1 as <-.
  destruct (P i Hi) as (L & _).
  rewrite G0, G1 by assumption. reflexivity.
Qed.

Lemma point_distance_sum_permuted (f : Frame) (qp kp qp' kp' : tensor)
    (sigma : nat -> nat) (n h_n p_n i h j : nat) :
  (forall i h p x, i < n -> h < h_n -> p < p_n -> x < 3 ->
     get qp' [i; h; p; x] = get qp [sigma i; h; p; x]) ->
  (forall i h p x, i < n -> h < h_n -> p < p_n -> x < 3 ->
     get kp' [i; h; p; x] = get kp [sigma i; h; p; x]) ->
  i < n -> h < h_n -> j < n ->
  point_distance_sum (permute_frames sigma f) qp' kp' p_n i h j
  = point_distance_sum f qp kp p_n (sigma i) h (sigma j).
Proof.
  intros Hq Hk Hi Hh Hj. unfold point_distance_sum. apply sum_n_ext. intros p Hp.
  unfold squared_distance_of, global_point.
  cbn [permute_frames rotations translations permute_residues get sum_n].
  rewrite !Hq, !Hk by (assumption || lia). reflexivity.
Qed.

Section Relabelling.

Variable self : InvariantPointAttention.
Variables single_embedding_size pair_embedding_size ipa_embedding_size len_seq : nat.
Variables single_rep pair_rep : tensor.
Variable frames : Frame.
Variables sigma tau : nat -> nat.

Hypothesis Hinit :
  initialised self single_embedding_size pair_embedding_size ipa_embedding_size.
Hypothesis Hsingle : shape single_rep = [len_seq; single_embedding_size].
Hypothesis Hpair : shape pair_rep = [len_seq; len_seq; pair_embedding_size].
Hypothesis Hframes : frame_shaped frames len_seq.
Hypothesis Hn : 2 <= len_seq.
Hypothesis Hh : 2 <= num_heads self.
Hypothesis Hp : 2 <= num_query_points self.
Hypothesis Hperm : permutation_of len_seq sigma tau.

Lemma permuted_shapes :
  shape (permute_residues sigma single_rep) = [len_seq; single_embedding_size]
  /\ shape (permute_pairs sigma pair_rep) = [len_seq; len_seq; pair_embedding_size]
  /\ frame_shaped (permute_frames sigma frames) len_seq.
Proof. split; [exact Hsingle|]. split; [exact Hpair | exact Hframes]. Qed.

Lemma sigma_lt (i : nat) : i < len_seq -> sigma i < len_seq.
Proof. intros Hi. destruct (Hperm i Hi) as (L & _). exact L. Qed.

(** The normalised weights of the relabelled inputs. *)
Lemma forward_weight_permuted :
  exists w w',
    forward_weight self single_rep pair_rep frames = Some w
    /\ forward_weight self (permute_residues sigma single_rep)
         (permute_pairs sigma pair_rep) (permute_frames sigma frames) = Some w'
    /\ shape w = [len_seq; num_heads self; len_seq]
    /\ shape w' = [len_seq; num_heads self; len_seq]
    /\ forall i h j, i < len_seq -> h < num_heads self -> j < len_seq ->
         get w' [i; h; j] = get w [sigma i; h; sigma j].
Proof.
  destruct permuted_shapes as (Hs' & Hz' & Hf').
  destruct (forward_logits_spec self _ _ _ _ single_rep pair_rep frames
              Hinit Hsingle Hpair Hframes ltac:(lia) ltac:(lia) ltac:(lia))
    as (q & k & b & qp & kp & l & w & Eq & Ek & Eb & Eqp & Ekp & El & Sl & Gl & Ew & Sw & Gw).
  destruct (forward_logits_spec self _ _ _ _ _ _ _
              Hinit Hs' Hz' Hf' ltac:(lia) ltac:(lia) ltac:(lia))
    as (q' & k' & b' & qp' & kp' & l' & w' & Eq' & Ek' & Eb' & Eqp' & Ekp' & El' & Sl'
        & Gl' & Ew' & Sw' & Gw').
  exists w, w'. repeat (split; [assumption|]).
  assert (Q : forall i h d, i < len_seq -> h < num_heads self -> d < ipa_embedding_size ->
            get q' [i; h; d] = get q [sigma i; h; d]).
  { intros i h d Hi Hh' Hd.
    apply (LinearWithView_forward_permuted (query self) _ _ _ single_rep q q' sigma tau
             (init_query _ _ _ _ Hinit) Hsingle Hperm Eq Eq' i [h; d] Hi).
    apply valid_last2'; assumption. }
  assert (K : forall i h d, i < len_seq -> h < num_heads self -> d < ipa_embedding_size ->
            get k' [i; h; d] = get k [sigma i; h; d]).
  { intros i h d Hi Hh' Hd.
    apply (LinearWithView_forward_permuted (key self) _ _ _ single_rep k k' sigma tau
             (init_key _ _ _ _ Hinit) Hsingle Hperm Ek Ek' i [h; d] Hi).
    apply valid_last2'; assumption. }
  assert (QP : forall i h p x, i < len_seq -> h < num_heads self ->
             p < num_query_points self -> x < 3 ->
             get qp' [i; h; p; x] = get qp [sigma i; h; p; x]).
  { intros i h p x Hi Hh' Hp' Hx.
    apply (LinearWithView_forward_permuted (query_points self) _ _ _ single_rep qp qp'
             sigma tau (init_query_points _ _ _ _ Hinit) Hsingle Hperm Eqp Eqp'
             i [h; p; x] Hi).
    apply valid_last3; assumption. }
  assert (KP : forall i h p x, i < len_seq -> h < num_heads self ->
             p < num_query_points self -> x < 3 ->
             get kp' [i; h; p; x] = get kp [sigma i; h; p; x]).
  { intros i h p x Hi Hh' Hp' Hx.
    apply (LinearWithView_forward_permuted (key_points self) _ _ _ single_rep kp kp'
             sigma tau (init_key_points _ _ _ _ Hinit) Hsingle Hperm Ekp Ekp'
             i [h; p; x] Hi).
    apply valid_last3; assumption. }
  assert (B : forall i j h, i < len_seq -> j < len_seq -> h < num_heads self ->
            get b' [i; j; h] = get b [sigma i; sigma j; h]).
  { intros i j h Hi Hj Hh'.
    destruct (pair_rep_weight_spec self _ _ _ _ pair_rep Hinit Hpair)
      as (b0 & _ & Eb0 & _ & Gb0 & _).
    destruct (pair_rep_weight_spec self _ _ _ _ _ Hinit Hz')
      as (b1 & _ & Eb1 & _ & Gb1 & _).
    rewrite Eb in Eb0. injection Eb0 as <-. rewrite Eb' in Eb1. injection Eb1 as <-.
    rewrite Gb0, Gb1 by (try apply sigma_lt; assumption). reflexivity. }
  assert (L : forall i h j, i < len_seq -> h < num_heads self -> j < len_seq ->
            get l' [i; h; j] = get l [sigma i; h; sigma j]).
  { intros i h j Hi Hh' Hj. rewrite Gl, Gl' by (try apply sigma_lt; assumption).
    rewrite (point_distance_sum_permuted frames qp kp qp' kp' sigma len_seq
               (num_heads self)) by assumption.
    rewrite B by assumption. f_equal. f_equal. f_equal.
    apply sum_n_ext. intros d Hd. rewrite Q, K by assumption. reflexivity. }
  intros i h j Hi Hh' Hj. rewrite Gw, Gw' by (try apply sigma_lt; assumption).
  rewrite L by assumption. f_equal.
  rewrite <- (sum_n_permutation len_seq sigma tau
                (fun y => exp (get l [sigma i; h; y])) Hperm).
  apply sum_n_ext. intros y Hy. rewrite L by assumption. reflexivity.
Qed.

(** The output of the relabelled inputs. *)
Lemma forward_permuted :
  exists o o',
    forward self single_rep pair_rep frames = Some o
    /\ forward self (permute_residues sigma single_rep)
         (permute_pairs sigma pair_rep) (permute_frames sigma frames) = Some o'
    /\ shape o = [len_seq; single_embedding_size]
    /\ shape o' = [len_seq; single_embedding_size]
    /\ forall i c, i < len_seq -> c < single_embedding_size ->
         get o' [i; c] = get o [sigma i; c].
Proof.
  destruct permuted_shapes as (Hs' & Hz' & Hf').
  destruct forward_weight_permuted as (w & w' & Ew & Ew' & Sw & Sw' & W).
  assert (BX : forall h, h < num_heads self -> bidx (num_heads self) h = h).
  { intros h _. unfold bidx. destruct (Nat.eqb_spec (num_heads self) 1); [lia | reflexivity]. }
  (* the values and the value points *)
  destruct (value_shape self _ _ _ _ single_rep Hinit Hsingle) as (v & Ev & _).
  destruct (value_shape self _ _ _ _ _ Hinit Hs') as (v' & Ev' & _).
  destruct (value_points_shape self _ _ _ _ single_rep Hinit Hsingle) as (vp & Evp & _).
  destruct (value_points_shape self _ _ _ _ _ Hinit Hs') as (vp' & Evp' & _).
  assert (V : forall i h d, i < len_seq -> h < num_heads self -> d < ipa_embedding_size ->
            get v' [i; h; d] = get v [sigma i; h; d]).
  { intros i h d Hi Hh' Hd.
    apply (LinearWithView_forward_permuted (value self) _ _ _ single_rep v v' sigma tau
             (init_value _ _ _ _ Hinit) Hsingle Hperm Ev Ev' i [h; d] Hi).
    apply valid_last2'; assumption. }
  assert (VP : forall i h p x, i < len_seq -> h < num_heads self ->
             p < num_value_points self -> x < 3 ->
             get vp' [i; h; p; x] = get vp [sigma i; h; p; x]).
  { intros i h p x Hi Hh' Hp' Hx.
    apply (LinearWithView_forward_permuted (value_points self) _ _ _ single_rep vp vp'
             sigma tau (init_value_points _ _ _ _ Hinit) Hsingle Hperm Evp Evp'
             i [h; p; x] Hi).
    apply valid_last3; assumption. }
  (* the three attentions *)
  destruct (single_rep_attention_spec self _ _ _ _ single_rep Hinit Hsingle w _ Sw
              (bdim_same _) v Ev) as (sa & Esa & Ssa & Gsa).
  destruct (single_rep_attention_spec self _ _ _ _ _ Hinit Hs' w' _ Sw'
              (bdim_same _) v' Ev') as (sa' & Esa' & Ssa' & Gsa').
  destruct (pair_rep_attention_spec self _ _ pair_rep Hpair w _ Sw) as (pa & Epa & Spa & Gpa).
  destruct (pair_rep_attention_spec self _ _ _ Hz' w' _ Sw') as (pa' & Epa' & Spa' & Gpa').
  destruct (frame_attention_spec self _ _ _ _ single_rep frames Hinit Hsingle Hframes w _ Sw
              (bdim_same _) vp Evp) as (fa & Efa & Sfa & Gfa).
  destruct (frame_attention_spec self _ _ _ _ _ _ Hinit Hs' Hf' w' _ Sw'
              (bdim_same _) vp' Evp') as (fa' & Efa' & Sfa' & Gfa').
  assert (SA : forall i h d, i < len_seq -> h < num_heads self -> d < ipa_embedding_size ->
             get sa' [i; h; d] = get sa [sigma i; h; d]).
  { intros i h d Hi Hh' Hd. rewrite Gsa, Gsa' by (try apply sigma_lt; assumption).
    rewrite BX by assumption.
    rewrite <- (sum_n_permutation len_seq sigma tau
                  (fun y => (get w [sigma i; h; y] * get v [y; h; d])%R) Hperm).
    apply sum_n_ext. intros j Hj. rewrite W, V by assumption. reflexivity. }
  assert (PA : forall i h c, i < len_seq -> h < num_heads self -> c < pair_embedding_size ->
             get pa' [i; h; c] = get pa [sigma i; h; c]).
  { intros i h c Hi Hh' Hc. rewrite Gpa, Gpa' by (try apply sigma_lt; assumption).
    rewrite <- (sum_n_permutation len_seq sigma tau
                  (fun y => (get w [sigma i; h; y] * get pair_rep [sigma i; y; c])%R) Hperm).
    apply sum_n_ext. intros j Hj. rewrite W by assumption. reflexivity. }
  assert (FA : forall i h p c, i < len_seq -> h < num_heads self ->
             p < num_value_points self -> c < 3 ->
             get fa' [i; h; p; c] = get fa [sigma i; h; p; c]).
  { intros i h p c Hi Hh' Hp' Hc. rewrite Gfa, Gfa' by (try apply sigma_lt; assumption).
    rewrite BX by assumption.
    cbn [permute_frames rotations translations permute_residues get].
    f_equal. apply sum_n_ext. intros y Hy. f_equal.
    rewrite <- (sum_n_permutation len_seq sigma tau
                  (fun z => (get w [sigma i; h; z]
                             * global_point frames z (fun u => get vp [z; h; p; u]) y)%R)
                  Hperm).
    apply sum_n_ext. intros j Hj. rewrite W by assumption. f_equal.
    unfold global_point. cbn [rotations translations get sum_n].
    rewrite !VP by (assumption || lia). reflexivity. }
  (* the concatenation and the projection *)
  destruct (forward_concat_spec self _ _ _ len_seq sa pa fa Hinit Ssa Spa Sfa
              ltac:(lia) ltac:(lia)) as (b & o & Eb & Eo & So & Go).
  destruct (forward_concat_spec self _ _ _ len_seq sa' pa' fa' Hinit Ssa' Spa' Sfa'
              ltac:(lia) ltac:(lia)) as (b' & o' & Eb' & Eo' & So' & Go').
  rewrite Eb in Eb'. injection Eb' as <-.
  exists o, o'. split.
  { unfold forward. rewrite Ew. cbn [bind]. unfold forward_output. cbv zeta.
    rewrite Hsingle. cbn [nth]. rewrite Esa, Epa, Efa. cbn [bind]. exact Eo. }
  split.
  { unfold forward. rewrite Ew'. cbn [bind]. unfold forward_output. cbv zeta.
    rewrite Hs'. cbn [nth]. rewrite Esa', Epa', Efa'. cbn [bind]. exact Eo'. }
  split; [exact So|]. split; [exact So'|].
  intros i c Hi Hc. cbv zeta in Go, Go'.
  rewrite Go, Go' by (try apply sigma_lt; assumption).
  f_equal. apply sum_n_ext. intros h Hh'. apply sum_n_ext. intros d Hd. f_equal.
  unfold attention_feature.
  destruct (Nat.ltb_spec d ipa_embedding_size) as [L1|L1]; [apply SA; assumption|].
  destruct (Nat.ltb_spec (d - ipa_embedding_size) pair_embedding_size) as [L2|L2];
    [apply PA; assumption|].
  destruct (Nat.ltb_spec (d - ipa_embedding_size - pair_embedding_size)
              (num_value_points self * 3)) as [L3|L3].
  - apply FA; try assumption.
    + apply Nat.Div0.div_lt_upper_bound. lia.
    + apply Nat.mod_upper_bound. lia.
  - f_equal. cbn [sum_n]. rewrite !FA by (assumption || lia). reflexivity.
Qed.

End Relabelling.

(** [forward] is equivariant under a relabelling of the residues.  When the
    residue count, the number of heads and the number of query points are
    at least 2 and [sigma] permutes the residues, [forward] on the single
    representation, the pair representation and the Frames indexed by
    [sigma] returns the output on the original inputs indexed by [sigma]. *)
Theorem forward_equivariant_under_relabelling (self : InvariantPointAttention)
    (single_embedding_size pair_embedding_size ipa_embedding_size len_seq : nat)
    (single_rep pair_rep : tensor) (frames : Frame) (sigma tau : nat -> nat) :
  initialised self single_embedding_size pair_embedding_size ipa_embedding_size ->
  shape single_rep = [len_seq; single_embedding_size] ->
  shape pair_rep = [len_seq; len_seq; pair_embedding_size] ->
  frame_shaped frames len_seq ->
  2 <= len_seq -> 2 <= num_heads self -> 2 <= num_query_points self ->
  permutation_of len_seq sigma tau ->
  exists o o',
    forward self single_rep pair_rep frames = Some o
    /\ forward self (permute_residues sigma single_rep)
         (permute_pairs sigma pair_rep) (permute_frames sigma frames) = Some o'
    /\ teq o' (permute_residues sigma o).
Proof.
  intros Hinit Hs Hz Hf Hn Hh Hp P.
  destruct (forward_permuted self _ _ _ _ single_rep pair_rep frames sigma tau
              Hinit Hs Hz Hf Hn Hh Hp P) as (o & o' & Eo & Eo' & So & So' & G).
  exists o, o'. split; [exact Eo|]. split; [exact Eo'|].
  apply (teq_of_pointwise2 _ _ _ _ So'); [exact So|].
  intros i c Hi Hc. cbn [permute_residues get]. apply G; assumption.
Qed.

Lemma forward_equivariant_under_relabelling_witness :
  exists o o',
    forward test_module test_single_representation test_pair_representation (test_frames 10)
    = Some o
    /\ forward test_module (permute_residues (shift_residues 10) test_single_representation)
         (permute_pairs (shift_residues 10) test_pair_representation)
         (permute_frames (shift_residues 10) (test_frames 10)) = Some o'
    /\ teq o' (permute_residues (shift_residues 10) o).
Proof.
  exact (forward_equivariant_under_relabelling test_module 3 7 5 10
           test_single_representation test_pair_representation (test_frames 10)
           (shift_residues 10) (unshift_residues 10) test_module_initialised
           eq_refl eq_refl (test_frames_shaped 10)
           ltac:(lia) ltac:(cbn; lia) ltac:(cbn; lia) (shift_residues_permutation 10)).
Defined.
